(** * On-demand dev-server broker and style import resolver

    A shallow embedding of the programs of the repository:

    - the on-demand webpack broker ([findRootEntryForAsset],
      [spawnWebpackForEntry], [reset], the loading of the module, and
      [create] with its request handler),
    - the webpack configuration ([forceLocalPath], the [entry] objects,
      [filter(targets)] and the reading of [ENTRY_TARGET]) and the one
      object that [dev.js] makes of the configurations for the dev
      server, and
    - the [postcss-import] plugin ([findImports], the injection loop of
      [OnceExit], [removeAllImports]).

    JavaScript values that the code mutates in place (the syntax tree, the
    Import Records, the tracked entry set) live in explicit stores; thrown
    exceptions and rejected promises are the [Throw] outcome. *)

From Stdlib Require Import ZArith Lia Ascii String.
From stdpp Require Import base option list strings gmap.

Local Open Scope string_scope.
Local Open Scope list_scope.

(* ===================================================================== *)
(** ** JavaScript outcomes *)
(* ===================================================================== *)

(** What a JavaScript [throw] (or a rejected promise) carries. *)
Inductive js_error :=
  | ReferenceError (msg : string)
  | TypeError (msg : string)
  | Error (msg : string)
  | ENOENT (path : string).

(** The outcome of running a piece of code on a state [S]: a value with the
    state it leaves, an exception with the state reached when it was thrown,
    or a recursion cut off by the model's own step budget. *)
Inductive outcome (S A : Type) :=
  | Ok (a : A) (s : S)
  | Throw (e : js_error) (s : S)
  | OutOfFuel.
Arguments Ok {S A} a s.
Arguments Throw {S A} e s.
Arguments OutOfFuel {S A}.

Definition M (S A : Type) : Type := S -> outcome S A.

Definition ret {S A} (a : A) : M S A := fun s => Ok a s.
Definition throw {S A} (e : js_error) : M S A := fun s => Throw e s.
Definition bind {S A B} (c : M S A) (k : A -> M S B) : M S B :=
  fun s => match c s with
           | Ok a s' => k a s'
           | Throw e s' => Throw e s'
           | OutOfFuel => OutOfFuel
           end.
Definition get {S} : M S S := fun s => Ok s s.
Definition modify {S} (f : S -> S) : M S unit := fun s => Ok tt (f s).

Notation "x <- c ;; k" := (bind c (fun x => k))
  (at level 100, c at next level, right associativity).
Notation "c ;;; k" := (bind c (fun _ => k))
  (at level 100, right associativity).

(** [xs.forEach(f)] for an effectful callback. *)
Fixpoint forEach {S A} (f : A -> M S unit) (xs : list A) : M S unit :=
  match xs with
  | [] => ret tt
  | x :: xs' => f x ;;; forEach f xs'
  end.

(* ===================================================================== *)
(** ** Strings as JavaScript uses them *)
(* ===================================================================== *)

Definition str_eqb (a b : string) : bool := bool_decide (a = b).

(** [s.slice(k)] for [k >= 0]. *)
Definition slice_from (k : nat) (s : string) : string :=
  String.substring k (String.length s - k) s.

(** [s.slice(-k)]: the last [k] characters (all of [s] when it is shorter). *)
Definition slice_last (k : nat) (s : string) : string :=
  slice_from (String.length s - k) s.

(** [s.slice(0, -k)]: all but the last [k] characters. *)
Definition slice_drop_last (k : nat) (s : string) : string :=
  String.substring 0 (String.length s - k) s.

(** [s.indexOf(p) === 0]. *)
Definition starts_with (p s : string) : bool := String.prefix p s.

(** [xs.join(',')]. *)
Fixpoint join (sep : string) (xs : list string) : string :=
  match xs with
  | [] => ""
  | [x] => x
  | x :: xs' => x +:+ sep +:+ join sep xs'
  end.

(** The character tests of Node's [path] module. *)
Definition is_slash (c : Ascii.ascii) : bool := bool_decide (c = "/"%char).
Definition is_dot (c : Ascii.ascii) : bool := bool_decide (c = "."%char).

(** Node's [path.posix.parse], of which the broker reads [dir] and [name].
    The scan runs from the last character down to [start], as the library
    writes it; [-1] is "not seen yet". *)
Record parse_scan := ParseScan {
  startDot : Z;
  startPart : Z;
  end_ : Z;
  matchedSlash : bool;
  preDotState : Z
}.

Fixpoint path_scan (path : string) (start : Z) (n : nat) (i : Z)
    (st : parse_scan) : parse_scan :=
  match n with
  | O => st
  | S n' =>
    if (i <? start)%Z then st else
    match String.get (Z.to_nat i) path with
    | None => st
    | Some c =>
      if is_slash c then
        if negb (matchedSlash st)
        then ParseScan (startDot st) (i + 1) (end_ st) (matchedSlash st)
                       (preDotState st)
        else path_scan path start n' (i - 1) st
      else
        let st1 :=
          if (end_ st =? -1)%Z
          then ParseScan (startDot st) (startPart st) (i + 1) false
                         (preDotState st)
          else st in
        let st2 :=
          if is_dot c then
            if (startDot st1 =? -1)%Z
            then ParseScan i (startPart st1) (end_ st1) (matchedSlash st1)
                           (preDotState st1)
            else ParseScan (startDot st1) (startPart st1) (end_ st1)
                           (matchedSlash st1) 1
          else if negb (startDot st1 =? -1)%Z
            then ParseScan (startDot st1) (startPart st1) (end_ st1)
                           (matchedSlash st1) (-1)
            else st1 in
        path_scan path start n' (i - 1) st2
    end
  end.

(** [path.slice(a, b)] for indices in range. *)
Definition zslice (a b : Z) (s : string) : string :=
  String.substring (Z.to_nat a) (Z.to_nat (b - a)) s.

Record parsed_path := ParsedPath { dir : string; name : string }.

Definition path_parse (path : string) : parsed_path :=
  match path with
  | EmptyString => ParsedPath "" ""
  | String c _ =>
    let isAbsolute := is_slash c in
    let start := if isAbsolute then 1%Z else 0%Z in
    let len := Z.of_nat (String.length path) in
    let st := path_scan path start (String.length path) (len - 1)
                (ParseScan (-1) 0 (-1) true 0) in
    let nm :=
      if (end_ st =? -1)%Z then "" else
      let start' :=
        if (startPart st =? 0)%Z && isAbsolute then 1%Z else startPart st in
      if (startDot st =? -1)%Z
         || (preDotState st =? 0)%Z
         || ((preDotState st =? 1)%Z
             && (startDot st =? end_ st - 1)%Z
             && (startDot st =? startPart st + 1)%Z)
      then zslice start' (end_ st) path
      else zslice start' (startDot st) path in
    let d :=
      if (0 <? startPart st)%Z then zslice 0 (startPart st - 1) path
      else if isAbsolute then "/" else "" in
    ParsedPath d nm
  end.

(* ===================================================================== *)
(** ** The on-demand broker *)
(* ===================================================================== *)

(** A child process as the broker sees it: what it was started with. *)
Record child := Child {
  pid : nat;
  port_arg : nat;
  ENTRY_TARGET : string;
  child_cwd : string
}.

(** What the broker does to the outside world, oldest first. *)
Inductive effect :=
  | HttpClose
  | Kill (c : child)
  | Spawn (c : child).

(** The broker module's variables. [httpServer] and [webpackDevServer] are
    the module's two [let] bindings ([None] is [undefined]).  The identifier
    [webpackEntryPoints] has no declaration in the module (the [const] line
    is a comment), so it is looked up outside the module, in the global
    environment: [global_webpackEntryPoints] is what is found there, [None]
    when nothing of that name is defined.  A JavaScript [Set] keeps insertion
    order, which [Array.from] exposes: it is a duplicate-free list. *)
Record broker := Broker {
  httpServer : option nat;
  webpackDevServer : option child;
  global_webpackEntryPoints : option (list string);
  effects : list effect;
  next_pid : nat
}.

Definition emit (e : effect) : M broker unit :=
  modify (fun b => Broker (httpServer b) (webpackDevServer b)
                          (global_webpackEntryPoints b)
                          (effects b ++ [e]) (next_pid b)).

Definition set_webpackDevServer (c : option child) : M broker unit :=
  modify (fun b => Broker (httpServer b) c (global_webpackEntryPoints b)
                          (effects b) (next_pid b)).

(** Evaluating the identifier [webpackEntryPoints]. *)
Definition webpackEntryPoints : M broker (list string) :=
  b <- get ;;
  match global_webpackEntryPoints b with
  | Some set => ret set
  | None => throw (ReferenceError "webpackEntryPoints is not defined")
  end.

(** Writing back the [Set] after it was mutated in place. *)
Definition store_webpackEntryPoints (set : list string) : M broker unit :=
  modify (fun b => Broker (httpServer b) (webpackDevServer b) (Some set)
                          (effects b) (next_pid b)).

Definition set_has (x : string) (set : list string) : bool :=
  bool_decide (x ∈ set).

(** [set.add(x)]. *)
Definition set_add (x : string) (set : list string) : list string :=
  if set_has x set then set else set ++ [x].

(** [childProcess.spawn(...)]: a new process with the next free id. *)
Definition spawn (port : nat) (entry_target cwd : string) : M broker child :=
  b <- get ;;
  let c := Child (next_pid b) port entry_target cwd in
  modify (fun b => Broker (httpServer b) (webpackDevServer b)
                          (global_webpackEntryPoints b)
                          (effects b ++ [Spawn c]) (S (next_pid b))) ;;;
  ret c.

(** [reset], the closure of [create]. *)
Definition reset : M broker unit :=
  b <- get ;;
  match httpServer b with
  | Some _ => emit HttpClose
  | None => ret tt
  end ;;;
  _ <- webpackEntryPoints ;;
  store_webpackEntryPoints [] ;;;
  b <- get ;;
  match webpackDevServer b with
  | Some c => emit (Kill c)
  | None => ret tt
  end ;;;
  set_webpackDevServer None.

(** [entryTargets.some((target) => !webpackEntryPoints.has(target))]: the
    callback, and with it the identifier, is evaluated once per target until
    one answers true. *)
Fixpoint some_new_target (entryTargets : list string) : M broker bool :=
  match entryTargets with
  | [] => ret false
  | target :: rest =>
    set <- webpackEntryPoints ;;
    if negb (set_has target set) then ret true else some_new_target rest
  end.

(** [spawnWebpackForEntry]; the result is the [reused] field. The function
    is [async] and never awaits: its body runs in one uninterrupted step and
    an exception rejects the promise it returns. *)
Definition spawnWebpackForEntry (entryTargets : list string)
    (devServerPort : nat) (cwd : string) : M broker bool :=
  hasNewTargets <- some_new_target entryTargets ;;
  if negb hasNewTargets then ret true else
  forEach (fun target =>
             set <- webpackEntryPoints ;;
             store_webpackEntryPoints (set_add target set)) entryTargets ;;;
  _ <- webpackEntryPoints ;;
  b <- get ;;
  match webpackDevServer b with
  | Some c => emit (Kill c)
  | None => ret tt
  end ;;;
  set <- webpackEntryPoints ;;
  c <- spawn devServerPort (join "," set) cwd ;;
  set_webpackDevServer (Some c) ;;;
  ret false.

(** Loading the module: the two [let] declarations, then
    [exports.webpackEntryPoints = webpackEntryPoints], then
    [exports.create = ...]. The result is the exported set. *)
Definition module_scope (global : option (list string)) : broker :=
  Broker None None global [] 0.

Definition load_module : M broker (list string) :=
  exported <- webpackEntryPoints ;;
  ret exported.

(** One configured Entry Target: [[jsEntries, cssEntries]]. *)
Definition entry_point : Type := list string * list string.

(** A JavaScript string or [undefined] used as a condition. *)
Definition truthy (v : option string) : bool :=
  match v with
  | Some s => negb (str_eqb s "")
  | None => false
  end.

(** The callback of [cssEntries.forEach] in [findRootEntryForAsset];
    [hasMatch] is the variable of the enclosing callback. The assignment to
    [assetWithoutRTL], which is declared [const], throws. *)
Definition css_entry_step (asset cssEntry : string) (hasMatch : bool)
    : js_error + bool :=
  let p := path_parse cssEntry in
  let basename := dir p +:+ "/" +:+ name p in
  let hasRTL := str_eqb (slice_last 4 asset) ".rtl" in
  let assetWithoutRTL := if hasRTL then slice_drop_last 4 asset else asset in
  if starts_with "src/less/" assetWithoutRTL
  then inl (TypeError "Assignment to constant variable.")
  else if negb hasMatch && str_eqb basename assetWithoutRTL
       then inr true
       else inr hasMatch.

Fixpoint css_entries_loop (asset : string) (cssEntries : list string)
    (hasMatch : bool) : js_error + bool :=
  match cssEntries with
  | [] => inr hasMatch
  | cssEntry :: rest =>
    match css_entry_step asset cssEntry hasMatch with
    | inl e => inl e
    | inr h => css_entries_loop asset rest h
    end
  end.

(** [jsEntries.forEach]: [hasMatch] becomes true at the first equal entry. *)
Definition js_entries_loop (asset : string) (jsEntries : list string) : bool :=
  existsb (str_eqb asset) jsEntries.

(** [findRootEntryForAsset]: the loop over the configured entry points,
    [rootEntry] being the variable it assigns. *)
Fixpoint entry_points_loop (asset : string) (entryPoints : list entry_point)
    (rootEntry : option string) : js_error + option string :=
  match entryPoints with
  | [] => inr rootEntry
  | (jsEntries, cssEntries) :: rest =>
    if truthy rootEntry then entry_points_loop asset rest rootEntry else
    match css_entries_loop asset cssEntries (js_entries_loop asset jsEntries)
    with
    | inl e => inl e
    | inr hasMatch =>
      entry_points_loop asset rest
        (if hasMatch then head jsEntries else rootEntry)
    end
  end.

Definition findRootEntryForAsset (entryPoints : list entry_point)
    (asset : string) : js_error + option string :=
  entry_points_loop asset entryPoints None.

(* ===================================================================== *)
(** ** The style import resolver: syntax trees *)
(* ===================================================================== *)

(** Node's [path.posix.dirname]. The scan looks for the last separator that
    follows a non-separator, from the end of the path down to index 1. *)
Fixpoint dirname_scan (path : string) (n : nat) (i : Z) (matchedSlash : bool)
    : Z :=
  match n with
  | O => -1
  | S n' =>
    if (i <? 1)%Z then (-1)%Z else
    match String.get (Z.to_nat i) path with
    | None => (-1)%Z
    | Some c =>
      if is_slash c then
        if negb matchedSlash then i
        else dirname_scan path n' (i - 1) matchedSlash
      else dirname_scan path n' (i - 1) false
    end
  end.

Definition dirname (path : string) : string :=
  match path with
  | EmptyString => "."
  | String c _ =>
    let hasRoot := is_slash c in
    let len := Z.of_nat (String.length path) in
    let e := dirname_scan path (String.length path) (len - 1) true in
    if (e =? -1)%Z then (if hasRoot then "/" else ".")
    else if hasRoot && (e =? 1)%Z then "//"
    else zslice 0 e path
  end.

(** The [replace] that drops every single and double quote character. *)
Definition double_quote : Ascii.ascii := Ascii.ascii_of_nat 34.
Definition single_quote : Ascii.ascii := Ascii.ascii_of_nat 39.

Fixpoint strip_quotes (s : string) : string :=
  match s with
  | EmptyString => EmptyString
  | String c s' =>
    if bool_decide (c = single_quote) || bool_decide (c = double_quote)
    then strip_quotes s'
    else String c (strip_quotes s')
  end.

(** [s.includes(sub)]. *)
Fixpoint str_includes (sub s : string) : bool :=
  String.prefix sub s ||
  match s with
  | EmptyString => false
  | String _ s' => str_includes sub s'
  end.

(** The fields of a syntax-tree node that the plugin reads or writes, other
    than its links to other nodes. [text] is a comment's text and, for the
    other node types, whatever else the serializer prints. *)
Record node_data := NodeData {
  type : string;
  import : bool;
  filename : string;
  fromInclusionRule : option string;
  selector : option string;
  text : string;
  before : string
}.

(** A style sheet as the parser returns it and as the serializer prints it:
    a [Leaf] has no [nodes] array, a [Branch] has one. *)
#[warnings="-register-all"]
Inductive tree :=
  | Leaf (d : node_data)
  | Branch (d : node_data) (kids : list tree).

(** A node object: its fields and its links. Objects are named by the
    number they got when they were created. *)
Abbreviation nid := nat (only parsing).

Record node := Node {
  data : node_data;
  nodes : option (list nid);
  parent : option nid
}.

Definition isImportNode (n : node) : bool :=
  str_eqb (type (data n)) "atrule" && import (data n).

(** An Import Record, the [importOpts] object. *)
Record importOpts := ImportOpts {
  root : nid;
  styleNode : nid;
  fullpath : string;
  fromPath : string;
  isGloballyImported : bool;
  inclusionRules : list string
}.

(** The plugin's options: [resolve], [modifier] ([None] when the option is
    not given) and [plugins], the plugins run on every imported file, which
    are instances of this plugin with options of their own. *)
#[warnings="-register-all"]
Inductive options :=
  | Options (resolve : string -> string -> string)
            (modifier : option string)
            (plugins : list options).

Definition resolve (o : options) : string -> string -> string :=
  match o with Options r _ _ => r end.
Definition modifier (o : options) : option string :=
  match o with Options _ m _ => m end.
Definition plugins (o : options) : list options :=
  match o with Options _ _ p => p end.

(** Everything one build touches. [records] holds the Import Record
    objects, named by their position; [imports] (the [Map]) and
    [orderedImports] (the array) refer to them by that name, so that a
    record changed through one is changed for the other. [reads] lists the
    paths given to [readFile], oldest first, and [messages] the files
    reported as dependencies. *)
Record st := St {
  heap : gmap nat node;
  next : nat;
  records : list importOpts;
  imports : gmap string nat;
  orderedImports : list nat;
  reads : list string;
  messages : list string
}.

Definition empty_st : st := St ∅ 0 [] ∅ [] [] [].

Definition set_heap (f : gmap nat node -> gmap nat node) (s : st) : st :=
  St (f (heap s)) (next s) (records s) (imports s) (orderedImports s)
     (reads s) (messages s).
Definition set_next (n : nat) (s : st) : st :=
  St (heap s) n (records s) (imports s) (orderedImports s)
     (reads s) (messages s).
Definition set_records (f : list importOpts -> list importOpts) (s : st)
    : st :=
  St (heap s) (next s) (f (records s)) (imports s) (orderedImports s)
     (reads s) (messages s).
Definition set_imports (f : gmap string nat -> gmap string nat) (s : st)
    : st :=
  St (heap s) (next s) (records s) (f (imports s)) (orderedImports s)
     (reads s) (messages s).
Definition set_orderedImports (f : list nat -> list nat) (s : st) : st :=
  St (heap s) (next s) (records s) (imports s) (f (orderedImports s))
     (reads s) (messages s).
Definition set_reads (f : list string -> list string) (s : st) : st :=
  St (heap s) (next s) (records s) (imports s) (orderedImports s)
     (f (reads s)) (messages s).
Definition set_messages (f : list string -> list string) (s : st) : st :=
  St (heap s) (next s) (records s) (imports s) (orderedImports s)
     (reads s) (f (messages s)).

(** Creating the objects of a parsed tree: the node takes the next free
    number, its descendants the following ones, in document order. *)
Fixpoint alloc (t : tree) (par : option nid) (h : gmap nat node) (n : nat)
    : gmap nat node * nat :=
  match t with
  | Leaf d => (<[n := Node d None par]> h, S n)
  | Branch d ts =>
    let fix alloc_list (ts : list tree) (h : gmap nat node) (m : nat)
        : list nid * gmap nat node * nat :=
      match ts with
      | [] => ([], h, m)
      | t' :: ts' =>
        let '(h1, m1) := alloc t' (Some n) h m in
        let '(ids, h2, m2) := alloc_list ts' h1 m1 in
        (m :: ids, h2, m2)
      end in
    let '(ids, h', n') := alloc_list ts h (S n) in
    (<[n := Node d (Some ids) par]> h', n')
  end.

Definition alloc_tree (t : tree) : M st nid :=
  s <- get ;;
  let '(h, n) := alloc t None (heap s) (next s) in
  modify (fun s => set_next n (set_heap (fun _ => h) s)) ;;;
  ret (next s).

(** Reading the tree below an object back, for the serializer. *)
Fixpoint render (fuel : nat) (h : gmap nat node) (i : nid) : option tree :=
  match fuel with
  | O => None
  | S fuel' =>
    match h !! i with
    | None => None
    | Some n =>
      match nodes n with
      | None => Some (Leaf (data n))
      | Some ids =>
        match mapM (render fuel' h) ids with
        | Some ts => Some (Branch (data n) ts)
        | None => None
        end
      end
    end
  end.

(* ===================================================================== *)
(** ** JavaScript arrays of nodes *)
(* ===================================================================== *)

(** [xs.indexOf(x)], [-1] when [x] is not an element. *)
Fixpoint indexOf (x : nid) (xs : list nid) : Z :=
  match xs with
  | [] => -1
  | y :: ys =>
    if bool_decide (x = y) then 0%Z
    else let i := indexOf x ys in
         if (i =? -1)%Z then (-1)%Z else (i + 1)%Z
  end.

(** [xs[i]]: [undefined] outside the array, also for a negative [i]. *)
Definition at_index {A} (xs : list A) (i : Z) : option A :=
  if (i <? 0)%Z then None else xs !! Z.to_nat i.

(** [xs.splice(start, deleteCount, ...items)]: the array it leaves. A
    negative [start] counts from the end. *)
Definition splice (xs : list nid) (start : Z) (deleteCount : nat)
    (items : list nid) : list nid :=
  let len := Z.of_nat (length xs) in
  let from :=
    if (start <? 0)%Z then Z.to_nat (Z.max (len + start) 0)
    else Z.to_nat (Z.min start len) in
  take from xs ++ items ++ drop (from + deleteCount) xs.

(* ===================================================================== *)
(** ** The style import resolver: the plugin *)
(* ===================================================================== *)

Definition out_of_fuel {A} : M st A := fun _ => OutOfFuel.

(** Following a reference to a node object. *)
Definition node_at (i : nid) : M st node :=
  s <- get ;;
  match heap s !! i with
  | Some n => ret n
  | None => throw (TypeError "Cannot read properties of undefined")
  end.

(** [x.nodes] where the code goes on to use it as an array. *)
Definition nodes_of (i : nid) : M st (list nid) :=
  n <- node_at i ;;
  match nodes n with
  | Some ids => ret ids
  | None => throw (TypeError "nodes is undefined")
  end.

Definition set_nodes (i : nid) (ids : list nid) : M st unit :=
  n <- node_at i ;;
  modify (set_heap (fun h => <[i := Node (data n) (Some ids) (parent n)]> h)).

Definition set_parent (i : nid) (p : option nid) : M st unit :=
  n <- node_at i ;;
  modify (set_heap (fun h => <[i := Node (data n) (nodes n) p]> h)).

(** [x.raws.before = b]. *)
Definition set_before (i : nid) (b : string) : M st unit :=
  n <- node_at i ;;
  let d := data n in
  let d' := NodeData (type d) (import d) (filename d) (fromInclusionRule d)
                     (selector d) (text d) b in
  modify (set_heap (fun h => <[i := Node d' (nodes n) (parent n)]> h)).

Definition record_at (r : nat) : M st importOpts :=
  s <- get ;;
  match records s !! r with
  | Some o => ret o
  | None => throw (TypeError "Cannot read properties of undefined")
  end.

(** [importOpts.isGloballyImported = true]. *)
Definition mark_global (r : nat) : M st unit :=
  o <- record_at r ;;
  modify (set_records (fun rs =>
    <[r := ImportOpts (root o) (styleNode o) (fullpath o) (fromPath o)
                      true (inclusionRules o)]> rs)).

(** [importOpts.inclusionRules.add(rule)]. *)
Definition add_inclusionRule (r : nat) (rule : string) : M st unit :=
  o <- record_at r ;;
  modify (set_records (fun rs =>
    <[r := ImportOpts (root o) (styleNode o) (fullpath o) (fromPath o)
                      (isGloballyImported o)
                      (set_add rule (inclusionRules o))]> rs)).

(** [new Set([fromInclusionRule].filter(Boolean))]. *)
Definition initial_rules (fromInclusionRule : option string) : list string :=
  match fromInclusionRule with
  | Some rule => if truthy fromInclusionRule then [rule] else []
  | None => []
  end.

Section Resolver.

(** The style files on disk, already parsed: [files p] is what parsing the
    text that [readFile p] returns gives, [None] when the read fails. *)
Variable files : string -> option tree.

(** [readFile(fullpath)] followed by the parse of [process]. *)
Definition read_and_parse (fullpath : string) : M st nid :=
  modify (set_reads (fun l => l ++ [fullpath])) ;;;
  match files fullpath with
  | Some t => alloc_tree t
  | None => throw (ENOENT fullpath)
  end.

(** [findImports(styles, fromPath)] of the plugin instance with the options
    [o]. The [reduce] chains its callbacks through [await promise]: they run
    one after the other, in the order of [styles.nodes].  Under the call of
    [process], each plugin of [o] runs its own [OnceExit] on the new root
    with [nested] set, which is its own [findImports] on the shared
    [imports] and [orderedImports]. *)
Fixpoint findImports (fuel : nat) (o : options) (styles : nid)
    (fromPath : string) : M st unit :=
  match fuel with
  | O => out_of_fuel
  | S fuel' =>
    ns <- nodes_of styles ;;
    forEach (fun styleNode =>
      n <- node_at styleNode ;;
      if isImportNode n then
        let fromInclusionRule := fromInclusionRule (data n) in
        let filename := strip_quotes (filename (data n)) in
        let fullpath := resolve o filename (dirname fromPath) in
        s <- get ;;
        match imports s !! fullpath with
        | Some r =>
          if negb (truthy fromInclusionRule) then mark_global r
          else add_inclusionRule r (default "" fromInclusionRule)
        | None =>
          root <- read_and_parse fullpath ;;
          forEach (fun p => findImports fuel' p root fullpath) (plugins o) ;;;
          s <- get ;;
          let r := length (records s) in
          modify (fun s =>
            set_orderedImports (fun l => l ++ [r])
              (set_imports (fun m => <[fullpath := r]> m)
                 (set_records (fun rs => rs ++
                    [ImportOpts root styleNode fullpath fromPath
                       (negb (truthy fromInclusionRule))
                       (initial_rules fromInclusionRule)]) s))) ;;;
          findImports fuel' o root fullpath
        end
      else if nodes n is Some _ then findImports fuel' o styleNode fromPath
      else ret tt) ns
  end.

(** [recursiveLook(nodes)]; [index] and [parentNodes] are the two variables
    of the enclosing callback that it assigns. *)
Fixpoint recursiveLook (fuel : nat) (styleNode : nid) (nodes_ : list nid)
    (acc : Z * list nid) : M st (Z * list nid) :=
  match fuel with
  | O => out_of_fuel
  | S fuel' =>
    if (-1 <? fst acc)%Z then ret acc else
    (fix each (l : list nid) (acc : Z * list nid) : M st (Z * list nid) :=
       match l with
       | [] => ret acc
       | node :: l' =>
         acc' <-
           (if (-1 <? fst acc)%Z then ret acc else
            n <- node_at node ;;
            match nodes n with
            | Some kids =>
              let index := indexOf styleNode kids in
              if (index =? -1)%Z
              then recursiveLook fuel' styleNode kids (index, snd acc)
              else ret (index, kids)
            | None => ret acc
            end) ;;
         each l' acc'
       end) nodes_ acc
  end.

(** The test both loops of [findSelector] apply to a node. *)
Definition selector_matches (o : options) (sel : string) (n : node) : bool :=
  match selector (data n) with
  | Some lookup =>
    str_eqb lookup sel
    || str_eqb lookup (default "undefined" (modifier o) +:+ sel)
  | None => false
  end.

(** One [forEach] of [findSelector] over an array of nodes: [foundRule] is
    assigned at every match, so the last match stays. *)
Fixpoint last_match (o : options) (sel : string) (ids : list nid)
    (foundRule : option nid) : M st (option nid) :=
  match ids with
  | [] => ret foundRule
  | i :: ids' =>
    n <- node_at i ;;
    last_match o sel ids'
      (if selector_matches o sel n then Some i else foundRule)
  end.

Fixpoint last_match_records (o : options) (sel : string) (rs : list nat)
    (foundRule : option nid) : M st (option nid) :=
  match rs with
  | [] => ret foundRule
  | r :: rs' =>
    rec <- record_at r ;;
    rt <- node_at (root rec) ;;
    found <-
      match nodes rt with
      | Some (i :: ids) => last_match o sel (i :: ids) foundRule
      | _ => ret foundRule
      end ;;
    last_match_records o sel rs' found
  end.

Definition findSelector (o : options) (rootStyles : nid) (sel : string)
    : M st (option nid) :=
  ids <- nodes_of rootStyles ;;
  foundRule <- last_match o sel ids None ;;
  match foundRule with
  | Some i => ret (Some i)
  | None =>
    s <- get ;;
    last_match_records o sel (orderedImports s) None
  end.

(** The callback over the nodes of the found rule: every Import Node that
    resolves to the record's path is replaced by the nodes of the record's
    root. The result is [foundImport]. *)
Fixpoint replace_imports (o : options) (rec : importOpts) (foundRule : nid)
    (snapshot : list nid) (foundImport : bool) : M st bool :=
  match snapshot with
  | [] => ret foundImport
  | node :: rest =>
    n <- node_at node ;;
    found <-
      (if isImportNode n then
         let filename := strip_quotes (filename (data n)) in
         let fullpathCompare :=
           resolve o filename (dirname (fromPath rec)) in
         if str_eqb fullpathCompare (fullpath rec) then
           live <- nodes_of foundRule ;;
           let compareIndex := indexOf node live in
           items <- nodes_of (root rec) ;;
           set_nodes foundRule (splice live compareIndex 1 items) ;;;
           ret true
         else ret foundImport
       else ret foundImport) ;;
    replace_imports o rec foundRule rest found
  end.

(** The callback of [Array.from(inclusionRules).forEach]. *)
Definition inject_into_rule (o : options) (rootStyles : nid)
    (rec : importOpts) (rule : string) : M st unit :=
  foundRule <- findSelector o rootStyles ("." +:+ rule) ;;
  match foundRule with
  | Some fr =>
    snapshot <- nodes_of fr ;;
    foundImport <- replace_imports o rec fr snapshot false ;;
    if foundImport then ret tt
    else throw (Error ("Unable to inject inclusion import, missing @import "
                       +:+ fullpath rec))
  | None => throw (Error ("Missing inclusion rule selector " +:+ rule))
  end.

(** [safeRemove(node)]: the library's [node.remove()], whose exception (the
    node is not among the children of its parent) is swallowed. *)
Definition safeRemove (node : nid) : M st unit :=
  n <- node_at node ;;
  match parent n with
  | None => ret tt
  | Some p =>
    pn <- node_at p ;;
    match nodes pn with
    | None => ret tt
    | Some kids =>
      let i := indexOf node kids in
      if (i =? -1)%Z then ret tt
      else
        set_parent node None ;;;
        set_nodes p (splice kids i 1 [])
    end
  end.

(** The callback of [orderedImports.forEach], the injection of one Import
    Record, in its four parts.  First the place of the record's Import Node:
    the result is [prevNode], the node before it. *)
Definition locate_prevNode (fuel : nat) (rec : importOpts)
    : M st (option nid) :=
  sn <- node_at (styleNode rec) ;;
  par <- match parent sn with
         | Some p => ret p
         | None => throw (TypeError "Cannot read properties of undefined")
         end ;;
  parentNodes <- nodes_of par ;;
  let index := indexOf (styleNode rec) parentNodes in
  modify (set_messages (fun l => l ++ [fullpath rec])) ;;;
  found <-
    (if (index =? -1)%Z
     then recursiveLook fuel (styleNode rec) parentNodes (index, parentNodes)
     else ret (index, parentNodes)) ;;
  ret (at_index (snd found) (fst found - 1)).

(** Second, the line break before the first node of the record's root. *)
Definition separate_first_node (rec : importOpts) : M st unit :=
  rootNodes <- nodes_of (root rec) ;;
  match rootNodes with
  | first :: _ => set_before first (String "010" (String "010" ""))
  | [] => ret tt
  end.

(** Third, either the push on [sharedDependencies] (the result is what is
    pushed) or the injection into every inclusion rule. *)
Definition inject_scoped (o : options) (rootStyles : nid) (rec : importOpts)
    : M st unit :=
  forEach (inject_into_rule o rootStyles rec) (inclusionRules rec).

Definition push_or_scope (o : options) (rootStyles : nid) (rec : importOpts)
    : M st (list nid) :=
  if isGloballyImported rec then
    items <- nodes_of (root rec) ;;
    ret items
  else
    inject_scoped o rootStyles rec ;;;
    ret [].

(** Fourth, the comment before the import. *)
Definition remove_comment (prevNode : option nid) : M st unit :=
  match prevNode with
  | Some pn =>
    n <- node_at pn ;;
    if str_eqb (type (data n)) "comment"
       && negb (str_includes "condition" (text (data n)))
    then safeRemove pn
    else ret tt
  | None => ret tt
  end.

Definition inject_record (fuel : nat) (o : options) (rootStyles : nid)
    (r : nat) : M st (list nid) :=
  rec <- record_at r ;;
  prevNode <- locate_prevNode fuel rec ;;
  separate_first_node rec ;;;
  pushed <- push_or_scope o rootStyles rec ;;
  remove_comment prevNode ;;;
  ret pushed.

(** The whole [orderedImports.forEach], with [sharedDependencies]. *)
Fixpoint inject_all (fuel : nat) (o : options) (rootStyles : nid)
    (rs : list nat) (sharedDependencies : list nid) : M st (list nid) :=
  match rs with
  | [] => ret sharedDependencies
  | r :: rs' =>
    pushed <- inject_record fuel o rootStyles r ;;
    inject_all fuel o rootStyles rs' (sharedDependencies ++ pushed)
  end.

(** [removeAllImports(rootNode)]. *)
Fixpoint removeAllImports (fuel : nat) (rootNode : nid) : M st unit :=
  match fuel with
  | O => out_of_fuel
  | S fuel' =>
    snapshot <- nodes_of rootNode ;;
    forEach (fun node =>
      n <- node_at node ;;
      if isImportNode n then
        live <- nodes_of rootNode ;;
        let i := indexOf node live in
        let live' := splice live i 1 [] in
        set_nodes rootNode live' ;;;
        match at_index live' i with
        | Some nx => set_before nx (String "010" "")
        | None => ret tt
        end
      else if nodes n is Some _ then removeAllImports fuel' node
      else ret tt) snapshot
  end.

(** [OnceExit(rootStyles, { result })] where [result.opts] has [from] and,
    for [nested = true], the [nested] key. *)
Definition OnceExit (fuel : nat) (o : options) (nested : bool)
    (rootStyles : nid) (from : string) : M st unit :=
  findImports fuel o rootStyles from ;;;
  if nested then ret tt else
  s <- get ;;
  sharedDependencies <- inject_all fuel o rootStyles (orderedImports s) [] ;;
  ids <- nodes_of rootStyles ;;
  set_nodes rootStyles (splice ids 0 0 sharedDependencies) ;;;
  removeAllImports fuel rootStyles.

(** A build of one style sheet: the parse of the entry file, then the
    plugin on its root. The result is the root object. *)
Definition build (fuel : nat) (o : options) (sheet : tree) (from : string)
    : M st nid :=
  rootStyles <- alloc_tree sheet ;;
  OnceExit fuel o false rootStyles from ;;;
  ret rootStyles.

(** The document a build leaves, as the serializer reads it. *)
Definition output (fuel : nat) (o : options) (sheet : tree) (from : string)
    : outcome st (option tree) :=
  match build fuel o sheet from empty_st with
  | Ok rootStyles s => Ok (render fuel (heap s) rootStyles) s
  | Throw e s => Throw e s
  | OutOfFuel => OutOfFuel
  end.

End Resolver.

(* ===================================================================== *)
(** ** The webpack configuration: entries and their filter *)
(* ===================================================================== *)

(** [forceLocalPath(assetPath)]; [None] is [undefined]. *)
Definition forceLocalPath (assetPath : option string) : option string :=
  match assetPath with
  | None => None
  | Some EmptyString => None
  | Some (String c _ as p) =>
    if negb (bool_decide (c = "."%char)) && negb (bool_decide (c = "/"%char))
    then Some ("./" +:+ p)
    else Some p
  end.

(** [xs.filter(Boolean)] on an array of strings and [undefined]s. *)
Definition filter_Boolean (xs : list (option string)) : list string :=
  omap (fun v => if truthy v then v else None) xs.

(** [s.split(c)] for a separator of one character. *)
Fixpoint split (sep : Ascii.ascii) (s : string) : list string :=
  match s with
  | EmptyString => [""]
  | String c s' =>
    if bool_decide (c = sep) then "" :: split sep s'
    else match split sep s' with
         | x :: xs => String c x :: xs
         | [] => [String c ""]
         end
  end.

(** Of a configuration object that [common] builds, the model keeps the
    [entry] object, which has one key: its key and the array under it. The
    other fields are constants that the code here does not read back. *)
Record entry_config := EntryConfig {
  entry_key : string;
  entry_files : list string
}.

Section Common.

(** Node's [path.join] on two arguments, and the two directories that
    [props.get('paths')] holds. *)
Variable path_join : string -> string -> string.
Variables srcJs srcCss : string.

(** The callback of [entryPoints.map]. The computed key [jsEntries[0]] of an
    empty [jsEntries] is the text [undefined]. *)
Definition entry_of (entryPoints : entry_point) : entry_config :=
  let '(jsEntries, cssEntries) := entryPoints in
  EntryConfig
    (default "undefined" (head jsEntries))
    (filter_Boolean
       (map (fun x => forceLocalPath (Some (path_join srcJs x))) jsEntries
        ++ map (fun x => forceLocalPath (Some (path_join srcCss x)))
               cssEntries)).

(** The callback of [defaultExport.filter] in [filter(targets)]:
    [targets[0]] of an empty array is [undefined], which [includes] reads
    as the text [undefined]. *)
Definition matches_targets (targets : list string) (c : entry_config)
    : bool :=
  let keyName := entry_key c in
  if str_includes (default "undefined" (head targets)) keyName then true
  else
    fold_left (fun memo target =>
                 memo
                 || existsb (str_eqb target) (entry_files c)
                 || str_includes target keyName)
              targets false.

(** [filter(targets)], for the [defaultExport] it closes over. *)
Definition filter_targets (defaultExport : list entry_config)
    (targets : list string) : list entry_config :=
  List.filter (matches_targets targets) defaultExport.

(** [ENTRY_TARGET.split(',').filter(Boolean)]. *)
Definition targets_of (ENTRY_TARGET : string) : list string :=
  filter_Boolean (map Some (split ","%char ENTRY_TARGET)).

(** The [default] field of what [module.exports(props)] returns, for the
    entry points that [applicationData.getEntryPoints] gives and the
    environment variable [ENTRY_TARGET] ([None] when it is not set).  The
    removal of old output files runs only when the file is the main module,
    which it is not when [dev.js] requires it. *)
Definition common_default (ENTRY_TARGET : option string)
    (entryPoints : list entry_point) : list entry_config :=
  let defaultExport := map entry_of entryPoints in
  if truthy ENTRY_TARGET then
    match targets_of (default "" ENTRY_TARGET) with
    | [] => defaultExport
    | targets => filter_targets defaultExport targets
    end
  else defaultExport.

End Common.

(* ===================================================================== *)
(** ** The development configuration: one object for the dev server *)
(* ===================================================================== *)

Section DevServerExport.

(** The values under the keys of an [entry] object, with [undefined] among
    them, and the values of the other fields of a configuration. *)
Variable E : Type.
Variable undefined : E.
Variable V : Type.

(** A configuration object as the reducer of [dev.js] sees it: its [entry]
    object, the keys and values in the order of [Object.keys] ([None] when
    the object has no [entry]), and its other fields. *)
Record config := Config {
  entry : option (list (string * E));
  fields : gmap string V
}.

(** [o[k]] and [{...o, [k]: v}] on such an object. *)
Definition obj_get (k : string) (o : list (string * E)) : E :=
  match List.find (fun kv => str_eqb (fst kv) k) o with
  | Some kv => snd kv
  | None => undefined
  end.

Fixpoint obj_set (k : string) (v : E) (o : list (string * E))
    : list (string * E) :=
  match o with
  | [] => [(k, v)]
  | (k', v') :: o' =>
    if str_eqb k' k then (k, v) :: o' else (k', v') :: obj_set k v o'
  end.

(** The callback of [reduce]. [Object.keys] throws on [undefined]; the
    first key of an empty object is [undefined], which as a computed key is
    the text [undefined]. In the spread the fields of [memo] come last and
    so win. *)
Definition merge_entry (memo currentValue : config) : js_error + config :=
  match entry currentValue with
  | None => inl (TypeError "Cannot convert undefined or null to object")
  | Some e =>
    let key := match e with
               | (k, _) :: _ => k
               | [] => "undefined"
               end in
    inr (Config (Some (obj_set key (obj_get key e)
                         (default [] (entry memo))))
                (fields memo ∪ fields currentValue))
  end.

Fixpoint reduce_configs (configs : list config) (memo : config)
    : js_error + config :=
  match configs with
  | [] => inr memo
  | currentValue :: rest =>
    match merge_entry memo currentValue with
    | inl e => inl e
    | inr memo' => reduce_configs rest memo'
    end
  end.

(** What the module exports gives for the configurations [configs] that
    the export defined first gives: under [webpack serve] the one object
    that the reducer makes of them, wrapped in an array. *)
Definition dev_exports (isWebpackDevServer : bool) (configs : list config)
    : js_error + list config :=
  if isWebpackDevServer then
    match reduce_configs configs (Config None ∅) with
    | inl e => inl e
    | inr memo => inr [memo]
    end
  else inr configs.

End DevServerExport.

Arguments Config {E V} entry fields.
Arguments entry {E V} c.
Arguments fields {E V} c.
Arguments obj_get {E} undefined k o.
Arguments obj_set {E} k v o.
Arguments merge_entry {E} undefined {V} memo currentValue.
Arguments reduce_configs {E} undefined {V} configs memo.
Arguments dev_exports {E} undefined {V} isWebpackDevServer configs.

(* ===================================================================== *)
(** ** The on-demand broker: the server that [create] starts *)
(* ===================================================================== *)

Definition set_httpServer (h : option nat) (b : broker) : broker :=
  Broker h (webpackDevServer b) (global_webpackEntryPoints b) (effects b)
         (next_pid b).

(** What [create] and its request handler do to the outside world: the
    effects of the broker's own functions, and the calls of [listen],
    [waitPort], [setTimeout] and [request]. The calls of [gutil.log] are not
    recorded. *)
Inductive event :=
  | Effect (e : effect)
  | Listen (handle port : nat)
  | WaitPort (port : nat) (timeout : option nat)
  | Sleep (ms : nat)
  | Proxy (port : nat) (url : string).

(** The module's variables, what happened so far, oldest first, and the
    handle that [http.createServer] gives next. *)
Record server := Server {
  module_vars : broker;
  events : list event;
  next_handle : nat
}.

Definition record_event (e : event) : M server unit :=
  modify (fun s => Server (module_vars s) (events s ++ [e]) (next_handle s)).

(** A function of the broker run by the server: the effects that it adds
    are recorded as events. *)
Definition lift {A} (c : M broker A) : M server A :=
  fun s =>
    let after b' :=
      Server b'
        (events s
         ++ map Effect (drop (length (effects (module_vars s))) (effects b')))
        (next_handle s) in
    match c (module_vars s) with
    | Ok a b' => Ok a (after b')
    | Throw e b' => Throw e (after b')
    | OutOfFuel => OutOfFuel
    end.

(** A call of an [async] function whose promise nobody awaits: what it
    does is done, a rejection goes unhandled. *)
Definition detached {S A} (c : M S A) : M S unit :=
  fun s =>
    match c s with
    | Ok _ s' => Ok tt s'
    | Throw _ s' => Ok tt s'
    | OutOfFuel => OutOfFuel
    end.

(** [s.endsWith(suffix)]. *)
Definition ends_with (suffix s : string) : bool :=
  str_eqb (slice_last (String.length suffix) s) suffix.

(** The asset that the handler reads off the URL of a request:
    [`/${dir}/${name}`.slice(publicPath.length + 1)] for the [dir] and
    [name] of [url.split('?')[0]]. *)
Definition asset_of (publicPath url : string) : string :=
  let p := path_parse (hd "" (split "?"%char url)) in
  slice_from (String.length publicPath + 1)
             ("/" +:+ dir p +:+ "/" +:+ name p).

Section Server.

(** What [create] is given: of [props], the [publicPath] of
    [props.get('paths')] ([None] when [paths] has no such field) and the
    entry points of [props.get('applicationData').getEntryPoints()]; the
    two ports and the working directory. *)
Variable publicPath : option string.
Variable entryPoints : list entry_point.
Variables (port devServerPort : nat) (cwd : string).

Definition proxyRequest (url : string) : M server unit :=
  record_event (Proxy devServerPort url).

(** [await waitPort(...)]: [rejected] is the error it rejects with, [None]
    when it resolves. *)
Definition waitPort (timeout : option nat) (rejected : option js_error)
    : M server unit :=
  record_event (WaitPort devServerPort timeout) ;;;
  match rejected with
  | Some e => throw e
  | None => ret tt
  end.

(** The request handler of [http.createServer]. It calls [waitPort] once on
    every path that reaches it. *)
Definition handle_request (url : string) (rejected : option js_error)
    : M server unit :=
  match publicPath with
  | None =>
    throw (TypeError "Cannot read properties of undefined (reading 'length')")
  | Some publicPath =>
    let asset := asset_of publicPath url in
    if ends_with ".hot-update" asset then proxyRequest url else
    match findRootEntryForAsset entryPoints asset with
    | inl e => throw e
    | inr rootEntryPoint =>
      if negb (truthy rootEntryPoint) then
        waitPort (Some 1000) rejected ;;;
        proxyRequest url
      else
        reused <- lift (spawnWebpackForEntry [default "" rootEntryPoint]
                                             devServerPort cwd) ;;
        (if negb reused then record_event (Sleep 1000) else ret tt) ;;;
        record_event (WaitPort devServerPort None) ;;;
        match rejected with
        | None => proxyRequest url
        | Some _ => ret tt
        end
    end
  end.

(** [create(options)], up to the object it returns; [entryTargets] is
    [None] when the option is not given. *)
Definition create (entryTargets : option (list string)) : M server unit :=
  lift reset ;;;
  match entryTargets with
  | Some (target :: targets) =>
    detached (lift (spawnWebpackForEntry (target :: targets) devServerPort
                                         cwd))
  | _ => ret tt
  end ;;;
  modify (fun s => Server (set_httpServer (Some (next_handle s))
                                          (module_vars s))
                          (events s ++ [Listen (next_handle s) port])
                          (S (next_handle s))).

End Server.

(* ===================================================================== *)
(** ** Predicates and functions of the statements *)
(* ===================================================================== *)

(** *** The broker *)

(** The exception of an identifier that has no binding. *)
Definition not_defined : js_error :=
  ReferenceError "webpackEntryPoints is not defined".

(** The broker as [create] leaves it when the listener (handle [0]) is up
    and one worker, started for the target [a], is running. *)
Definition worker_a : child := Child 0 3000 "a" "/app".
Definition serving_a (global : option (list string)) : broker :=
  Broker (Some 0) (Some worker_a) global [Spawn worker_a] 1.

(** [set.add] over a list of targets: the union, old entries first and in
    their old order. *)
Definition add_all (ts set : list string) : list string :=
  fold_left (fun acc t => set_add t acc) ts set.

(** *** The entry target of an asset *)

(** [assetWithoutRTL] as the code first computes it. *)
Definition without_rtl (asset : string) : string :=
  if str_eqb (slice_last 4 asset) ".rtl" then slice_drop_last 4 asset
  else asset.

(** The [basename] that the code compares a style asset with. *)
Definition style_basename (cssEntry : string) : string :=
  dir (path_parse cssEntry) +:+ "/" +:+ name (path_parse cssEntry).

(** An entry target claims an asset that is one of its scripts, or that is,
    without a [.rtl] suffix, the basename of one of its styles. *)
Definition claims (asset : string) (ep : entry_point) : bool :=
  existsb (str_eqb asset) (fst ep)
  || existsb (fun c => str_eqb (style_basename c) (without_rtl asset)) (snd ep).

(** The operation as the specification words it: the primary script of the
    first configured target that claims the asset, none without such a
    target. *)
Definition resolveEntryFor (entryPoints : list entry_point) (asset : string)
    : option string :=
  match find (claims asset) entryPoints with
  | Some ep => head (fst ep)
  | None => None
  end.

(** *** Reasoning about outcomes *)

(** [wp c Q E s]: run from [s], the code [c] either returns a value and a
    state that satisfy [Q], or throws an exception in a state that satisfy
    [E], or exhausts the step budget of the model. *)
Definition wp {S A} (c : M S A) (Q : A -> S -> Prop)
    (E : js_error -> S -> Prop) (s : S) : Prop :=
  match c s with
  | Ok a s' => Q a s'
  | Throw e s' => E e s'
  | OutOfFuel => True
  end.

(** The same where a run that exhausts the step budget has to satisfy [F]:
    with [True] for [F] this is [wp], with [False] it says that the run
    ends. *)
Definition wp_fuel {S A} (F : Prop) (c : M S A) (Q : A -> S -> Prop)
    (E : js_error -> S -> Prop) (s : S) : Prop :=
  match c s with
  | Ok a s' => Q a s'
  | Throw e s' => E e s'
  | OutOfFuel => F
  end.

(** *** Code that only reads *)

(** [pure_on s c]: from [s], the code [c] leaves the state as it found it,
    whether it returns or throws. *)
Definition pure_on {A} (s : st) (c : M st A) : Prop :=
  wp c (fun _ s' => s' = s) (fun _ s' => s' = s) s.

(** *** Errors of the injection *)

(** The test [replace_imports] applies to a node of the found rule: an
    Import Node whose file name resolves, from the directory of the file
    that first imported the record, to the record's path. *)
Definition matches_import (o : options) (rec : importOpts) (n : node) : bool :=
  isImportNode n
  && str_eqb (resolve o (strip_quotes (filename (data n)))
                (dirname (fromPath rec))) (fullpath rec).

(** *** Inversion of successful runs *)

(** The children of a node object, [[]] for a node without a [nodes]
    array. *)
Definition children (h : gmap nat node) (i : nid) : list nid :=
  match h !! i with
  | Some n => default [] (nodes n)
  | None => []
  end.

(** *** Injection into inclusion rules *)

(** The state after the nodes of the object [i] were set to [ids]. *)
Definition with_nodes (i : nat) (ids : list nat) (s : st) : st :=
  match heap s !! i with
  | Some n =>
    set_heap (fun h => <[i := Node (data n) (Some ids) (parent n)]> h) s
  | None => s
  end.

(** *** Which rule [findSelector] returns *)

(** The node [i] is a rule whose selector is [sel] or [sel] with the
    modifier before it. *)
Definition is_rule_for (o : options) (sel : string) (h : gmap nat node)
    (i : nat) : bool :=
  match h !! i with
  | Some n => selector_matches o sel n
  | None => false
  end.

(** The last node of [ids] that is a rule for [sel]. *)
Fixpoint last_rule_for (o : options) (sel : string) (h : gmap nat node)
    (ids : list nat) : option nat :=
  match ids with
  | [] => None
  | i :: ids' =>
    match last_rule_for o sel h ids' with
    | Some j => Some j
    | None => if is_rule_for o sel h i then Some i else None
    end
  end.

(** The top-level nodes of the roots of all Import Records, in the order of
    the Ordered Import List. *)
Definition record_level_nodes (s : st) : list nat :=
  flat_map (fun r => match records s !! r with
                     | Some rec => children (heap s) (root rec)
                     | None => []
                     end) (orderedImports s).

(** The rule for [sel]: the last one among the children of the root of the
    document, and without one there, the last one among the top-level nodes
    of the records' roots. *)
Definition rule_for (o : options) (rootStyles : nat) (sel : string) (s : st)
    : option nat :=
  match last_rule_for o sel (heap s) (children (heap s) rootStyles) with
  | Some i => Some i
  | None => last_rule_for o sel (heap s) (record_level_nodes s)
  end.

(** Two states of one build that differ at most in the [nodes] arrays of
    the objects in [touched]. *)
Definition differ_in_nodes (touched : list nat) (s s' : st) : Prop :=
  records s' = records s
  /\ orderedImports s' = orderedImports s
  /\ (forall j, data <$> heap s' !! j = data <$> heap s !! j)
  /\ (forall j, j ∉ touched -> heap s' !! j = heap s !! j).

(** *** Parsed trees and the objects made from them *)

Definition is_import (d : node_data) : bool :=
  str_eqb (type d) "atrule" && import d.

(** [repr h lo m i t]: the object [i] of the store [h] and the objects
    below it are a copy of the tree [t], made of objects numbered from [lo]
    up to, and without, [m]. *)
#[warnings="-register-all"]
Inductive repr (h : gmap nat node) (lo m : nat) : nat -> tree -> Prop :=
  | repr_leaf i d par :
      lo <= i < m -> h !! i = Some (Node d None par) ->
      repr h lo m i (Leaf d)
  | repr_branch i d par ids kids :
      lo <= i < m -> h !! i = Some (Node d (Some ids) par) ->
      Forall2 (repr h lo m) ids kids ->
      repr h lo m i (Branch d kids).

(** The loop of [alloc] over the children of a branch. *)
Fixpoint alloc_list (p : nat) (ts : list tree) (h : gmap nat node) (m : nat)
    : list nat * gmap nat node * nat :=
  match ts with
  | [] => ([], h, m)
  | t' :: ts' =>
    let '(h1, m1) := alloc t' (Some p) h m in
    let '(ids, h2, m2) := alloc_list p ts' h1 m1 in
    (m :: ids, h2, m2)
  end.

(** *** Discovery on an acyclic graph *)

(** The file names of the Import Nodes that [findImports] meets in a tree:
    it does not look below an Import Node. *)
Fixpoint imports_of (t : tree) : list string :=
  match t with
  | Leaf d => if is_import d then [filename d] else []
  | Branch d kids =>
    if is_import d then [filename d] else flat_map imports_of kids
  end.

(** The same for a tree that [findImports] is called on: the imports
    among its nodes. *)
Definition imports_under (t : tree) : list string :=
  match t with
  | Leaf _ => []
  | Branch _ kids => flat_map imports_of kids
  end.

(** The number of levels of a tree. *)
Fixpoint height (t : tree) : nat :=
  match t with
  | Leaf _ => 1
  | Branch _ kids => S (max_list (map height kids))
  end.

(** The first part of a build: the parse of the entry file and the
    discovery of the imports. *)
Definition discovery (files : string -> option tree) (fuel : nat)
    (o : options) (sheet : tree) (from : string) : outcome st unit :=
  (rootStyles <- alloc_tree sheet ;;
   findImports files fuel o rootStyles from) empty_st.

(** A plugin instance and the instances it runs on imported files, and
    theirs. *)
Fixpoint subopts (o : options) : list options :=
  match o with
  | Options _ _ ps => o :: flat_map subopts ps
  end.

(** The paths of the Import Records, in the order of their creation. *)
Definition paths (s : st) : list string := map fullpath (records s).

(** What the [Map], the array and the records of a build have to do with
    each other, and the two things to prove: no path is read twice, no path
    has two records. *)
Definition consistent (s : st) : Prop :=
  NoDup (reads s)
  /\ NoDup (paths s)
  /\ orderedImports s = seq 0 (length (paths s))
  /\ (forall p r, imports s !! p = Some r -> paths s !! r = Some p)
  /\ (forall p, p ∈ paths s -> is_Some (imports s !! p)).

(** Every file that a file imports, whichever plugin instance resolves the
    name, has a smaller rank: no file reaches itself through imports. *)
Definition acyclic (files : string -> option tree) (O : options)
    (rank : string -> nat) : Prop :=
  forall o p t f,
    o ∈ subopts O -> files p = Some t -> f ∈ imports_under t ->
    rank (resolve o (strip_quotes f) (dirname p)) < rank p.

(** The file names [fs], met in the file [fromPath], all lead to files of
    rank under [b]. *)
Definition below (O : options) (rank : string -> nat) (b : nat)
    (fromPath : string) (fs : list string) : Prop :=
  forall o f,
    o ∈ subopts O -> f ∈ fs ->
    rank (resolve o (strip_quotes f) (dirname fromPath)) < b.

(** Every path read so far has its record, but for the files of rank [b]
    or more whose [process] is under way. *)
Definition settled (rank : string -> nat) (b : nat) (s : st) : Prop :=
  forall p, p ∈ reads s -> is_Some (imports s !! p) \/ b <= rank p.

(** From [s] to [s']: objects were only created, and what was read and
    registered on the way has a rank under [b]. *)
Definition grows (rank : string -> nat) (b : nat) (s s' : st) : Prop :=
  next s <= next s'
  /\ (forall j, j < next s -> heap s' !! j = heap s !! j)
  /\ (forall p, p ∈ reads s' -> p ∈ reads s \/ rank p < b)
  /\ (forall p, is_Some (imports s' !! p) ->
                is_Some (imports s !! p) \/ rank p < b)
  /\ (forall p, is_Some (imports s !! p) -> is_Some (imports s' !! p)).

(** *** The injection leaves the records' registry alone *)

(** What the discovery writes and the injection only reads. *)
Definition registry (s : st)
    : list string * list importOpts * gmap string nat * list nat :=
  (reads s, records s, imports s, orderedImports s).

(** [keeps c]: the code [c] leaves the registry as it found it. *)
Definition keeps {A} (c : M st A) : Prop :=
  forall s, wp c (fun _ s' => registry s' = registry s)
                 (fun _ s' => registry s' = registry s) s.

(** *** What the injection puts before the document *)

(** The turns of the records [rs], from the state [s] to the state [s2]:
    [segs] lists what each record pushed. [recs] are the Import Records,
    which the injection does not change. *)
Inductive contributions (fuel : nat) (o : options) (rootStyles : nat)
    (recs : list importOpts)
    : list nat -> st -> list (list nat) -> st -> Prop :=
  | contributions_nil s : contributions fuel o rootStyles recs [] s [] s
  | contributions_cons r rs rec s seg s1 segs s2 :
      recs !! r = Some rec ->
      inject_record fuel o rootStyles r s = Ok seg s1 ->
      seg = (if isGloballyImported rec
             then children (heap s) (root rec) else []) ->
      contributions fuel o rootStyles recs rs s1 segs s2 ->
      contributions fuel o rootStyles recs (r :: rs) s (seg :: segs) s2.

(** *** The outcome does not depend on the step budget *)

(** [c] agrees with [c'] wherever [c] does not run out of steps. *)
Definition refines {A} (c c' : M st A) : Prop :=
  forall s, c s = OutOfFuel \/ c s = c' s.

(** A run that came to an end: a document, or an exception. *)
Definition complete (r : outcome st (option tree)) : Prop :=
  match r with
  | Ok (Some _) _ => True
  | Throw _ _ => True
  | _ => False
  end.

(** *** The outcome depends on the files that were read only *)

(** [appends c]: the code [c] only adds to the log of reads. *)
Definition appends {A} (c : M st A) : Prop :=
  forall s, wp c (fun _ s' => forall p, p ∈ reads s -> p ∈ reads s')
                 (fun _ s' => forall p, p ∈ reads s -> p ∈ reads s') s.

(** The paths that a run has read when it ends. *)
Definition reads_of {A} (r : outcome st A) : list string :=
  match r with
  | Ok _ s => reads s
  | Throw _ s => reads s
  | OutOfFuel => []
  end.

(** Unless [c1] runs out of steps, [c2] does what [c1] does when the two
    file systems hold the same for every path that [c1] has read. *)
Definition agrees {A} (files1 files2 : string -> option tree)
    (c1 c2 : M st A) : Prop :=
  forall s,
    c1 s = OutOfFuel
    \/ ((forall p, p ∈ reads_of (c1 s) -> files1 p = files2 p) ->
        c2 s = c1 s).

(** *** The webpack configuration *)

(** The character [c] occurs in [s]. *)
Fixpoint has_char (c : Ascii.ascii) (s : string) : bool :=
  match s with
  | EmptyString => false
  | String x s' => bool_decide (x = c) || has_char c s'
  end.

(** No comma in a target. *)
Definition comma_free (s : string) : Prop := has_char ","%char s = false.

(** The strings of a list that are not empty. *)
Definition non_empty (xs : list string) : list string :=
  List.filter (fun x => negb (str_eqb x "")) xs.

(** The test of [filter(targets)] without its shortcut: some target is one
    of the files of the entry or is part of its key. *)
Definition some_target_matches (targets : list string) (c : entry_config)
    : bool :=
  existsb (fun target => existsb (str_eqb target) (entry_files c)
                         || str_includes target (entry_key c)) targets.

(** *** The development configuration *)

(** The value under the key [k] of an object given by its keys and values,
    [None] when it has no such key. *)
Definition obj_lookup {E} (k : string) (o : list (string * E)) : option E :=
  snd <$> List.find (fun kv => str_eqb (fst kv) k) o.

(** The key and the value that the reducer takes from a configuration. *)
Definition first_entry {E V} (undefined : E) (c : config E V)
    : string * E :=
  match default [] (entry c) with
  | (k, v) :: _ => (k, v)
  | [] => ("undefined", undefined)
  end.

(** *** The server of the broker *)

(** The events that start or stop nothing. *)
Definition is_wait_or_proxy (e : event) : bool :=
  match e with
  | WaitPort _ _ | Proxy _ _ => true
  | _ => false
  end.

(** What [reset] does to the outside world for the variables [b]. *)
Definition closing (b : broker) : list effect :=
  match httpServer b with
  | Some _ => [HttpClose]
  | None => []
  end
  ++ match webpackDevServer b with
     | Some c => [Kill c]
     | None => []
     end.

(** *** What the discovery does to the state *)

(** An Import Record after later references to its file: it keeps its
    root, its Import Node and its paths, stays globally imported once it
    is, and loses no inclusion rule. *)
Definition evolves (rec rec' : importOpts) : Prop :=
  root rec' = root rec
  /\ styleNode rec' = styleNode rec
  /\ fullpath rec' = fullpath rec
  /\ fromPath rec' = fromPath rec
  /\ (isGloballyImported rec = true -> isGloballyImported rec' = true)
  /\ (forall rule, rule ∈ inclusionRules rec -> rule ∈ inclusionRules rec').

(** From [s] to [s'] node objects and Import Records were only added:
    every object of [s] is as it was, the messages are as they were, and
    every record is in its place, evolved. *)
Definition extends (s s' : st) : Prop :=
  next s <= next s'
  /\ (forall j, j < next s -> heap s' !! j = heap s !! j)
  /\ messages s' = messages s
  /\ (forall r rec, records s !! r = Some rec ->
                    exists rec', records s' !! r = Some rec'
                                 /\ evolves rec rec').

(** The Ordered Import List names the records in the order of their
    creation. *)
Definition indexed (s : st) : Prop :=
  orderedImports s = seq 0 (length (records s)).

(** From [s] to [s'] files were read and records made for them, one record
    for every read, and every file that was read is there. *)
Definition discovers (files : string -> option tree) (s s' : st) : Prop :=
  exists new_reads new_paths,
    reads s' = reads s ++ new_reads
    /\ paths s' = paths s ++ new_paths
    /\ new_reads ≡ₚ new_paths
    /\ Forall (fun p => is_Some (files p)) new_reads.

(** From [s] to the state [s'] in which the exception [e] was thrown: the
    files that were read are there, but for the last one when the exception
    is the failure to read it. *)
Definition fails_at (files : string -> option tree) (e : js_error)
    (s s' : st) : Prop :=
  exists new_reads,
    reads s' = reads s ++ new_reads
    /\ match e with
       | ENOENT p =>
         files p = None
         /\ exists l, new_reads = l ++ [p]
                      /\ Forall (fun p => is_Some (files p)) l
       | _ => Forall (fun p => is_Some (files p)) new_reads
       end.

(** A part of a discovery that ended well, and one that ended with the
    exception [e]. *)
Definition step_ok (files : string -> option tree) (s s' : st) : Prop :=
  extends s s' /\ (indexed s -> indexed s') /\ discovers files s s'.

Definition step_err (files : string -> option tree) (e : js_error)
    (s s' : st) : Prop :=
  extends s s' /\ (indexed s -> indexed s') /\ fails_at files e s s'.

(** The file [q] was read and parsed, and has no record yet. *)
Definition reading (files : string -> option tree) (q : string)
    (s s' : st) : Prop :=
  extends s s' /\ (indexed s -> indexed s') /\ is_Some (files q)
  /\ exists new_reads new_paths,
       reads s' = reads s ++ q :: new_reads
       /\ paths s' = paths s ++ new_paths
       /\ new_reads ≡ₚ new_paths
       /\ Forall (fun p => is_Some (files p)) new_reads.

(** [preserves f c]: the code [c] leaves the part [f] of the state as it
    found it, whether it returns or throws. *)
Definition preserves {X A} (f : st -> X) (c : M st A) : Prop :=
  forall s, wp c (fun _ s' => f s' = f s) (fun _ s' => f s' = f s) s.

(** *** What [removeAllImports] makes of a parsed tree *)

(** The number of nodes of a tree. *)
Fixpoint size (t : tree) : nat :=
  match t with
  | Leaf _ => 1
  | Branch _ kids => S (sum_list_with size kids)
  end.

Definition tree_data (t : tree) : node_data :=
  match t with
  | Leaf d => d
  | Branch d _ => d
  end.

(** The data of a node after [raws.before = b]. *)
Definition with_before (b : string) (d : node_data) : node_data :=
  NodeData (type d) (import d) (filename d) (fromInclusionRule d)
           (selector d) (text d) b.

(** A tree whose root got a line break before it. *)
Definition mark (t : tree) : tree :=
  match t with
  | Leaf d => Leaf (with_before (String "010" "") d)
  | Branch d kids => Branch (with_before (String "010" "") d) kids
  end.

(** The tree without its Import Nodes: below every node the children that
    are Import Nodes are left out, and the child that follows one that was
    left out gets a line break before it ([marked] says that the first of
    [kids] follows one). *)
Fixpoint scrub (t : tree) : tree :=
  match t with
  | Leaf d => Leaf d
  | Branch d kids =>
    Branch d
      ((fix scrub_kids (marked : bool) (kids : list tree) : list tree :=
          match kids with
          | [] => []
          | k :: rest =>
            if is_import (tree_data k) then scrub_kids true rest
            else (if marked then mark (scrub k) else scrub k)
                 :: scrub_kids false rest
          end) false kids)
  end.

Fixpoint scrub_kids (marked : bool) (kids : list tree) : list tree :=
  match kids with
  | [] => []
  | k :: rest =>
    if is_import (tree_data k) then scrub_kids true rest
    else (if marked then mark (scrub k) else scrub k)
         :: scrub_kids false rest
  end.

(** The data of the nodes below the root of a tree. *)
Fixpoint descendants (t : tree) : list node_data :=
  match t with
  | Leaf _ => []
  | Branch _ kids => flat_map (fun k => tree_data k :: descendants k) kids
  end.

(** The numbers that [alloc] gives the trees [ts] when the first gets [m]:
    every tree takes as many numbers as it has nodes. *)
Fixpoint starts (m : nat) (ts : list tree) : list nat :=
  match ts with
  | [] => []
  | t :: ts' => m :: starts (m + size t) ts'
  end.

(** [laid h n t]: the objects from [n] on are the tree [t] as [alloc] lays
    it out. *)
#[warnings="-register-all"]
Inductive laid (h : gmap nat node) : nat -> tree -> Prop :=
  | laid_leaf n d par :
      h !! n = Some (Node d None par) -> laid h n (Leaf d)
  | laid_branch n d par kids :
      h !! n = Some (Node d (Some (starts (S n) kids)) par) ->
      Forall2 (laid h) (starts (S n) kids) kids ->
      laid h n (Branch d kids).

Definition mark_first (ts : list tree) : list tree :=
  match ts with
  | t :: ts' => mark t :: ts'
  | [] => []
  end.

(** The callback of the [forEach] of [removeAllImports] with [fuel] steps
    left for the nodes below. *)
Definition sweep_step (fuel : nat) (rootNode node : nat) : M st unit :=
  n <- node_at node ;;
  if isImportNode n then
    live <- nodes_of rootNode ;;
    let i := indexOf node live in
    let live' := splice live i 1 [] in
    set_nodes rootNode live' ;;;
    match at_index live' i with
    | Some nx => set_before nx (String "010" "")
    | None => ret tt
    end
  else if nodes n is Some _ then removeAllImports fuel node
  else ret tt.

(** [removeAllImports] does to the layout of the tree [t] what [scrub] does
    to [t], within the numbers of the layout. *)
Definition scrubs_well (t : tree) : Prop :=
  forall fuel n s,
    laid (heap s) n t -> height t <= fuel ->
    match t with
    | Leaf _ => True
    | Branch _ _ =>
      exists h',
        removeAllImports fuel n s = Ok tt (set_heap (fun _ => h') s)
        /\ repr h' n (n + size t) n (scrub t)
        /\ (forall j, j < n \/ n + size t <= j -> h' !! j = heap s !! j)
    end.

(** *** The objects of the parsed files *)

(** The parent of an object, [None] also for an object that is not
    there. *)
Definition parent_of (h : gmap nat node) (i : nat) : option nat :=
  match h !! i with
  | Some n => parent n
  | None => None
  end.

(** *** References to files, read off the style sheets *)

(** The data of the Import Nodes that [findImports] meets in a tree: it
    does not look below an Import Node. *)
Fixpoint import_nodes_of (t : tree) : list node_data :=
  match t with
  | Leaf d => if is_import d then [d] else []
  | Branch d kids =>
    if is_import d then [d] else flat_map import_nodes_of kids
  end.

Definition import_nodes_under (t : tree) : list node_data :=
  match t with
  | Leaf _ => []
  | Branch _ kids => flat_map import_nodes_of kids
  end.

(** The plugin instances that run on imported files resolve names as the
    outer instance does. *)
Definition uniform (O : options) : Prop :=
  forall o f b, o ∈ subopts O -> resolve o f b = resolve O f b.

Section References.

(** A build: the files, the options of the plugin, the style sheet and its
    path. *)
Variable files : string -> option tree.
Variable O : options.
Variable sheet : tree.
Variable from : string.

(** The path that the Import Node [d], met in the file [q], stands for. *)
Definition target (q : string) (d : node_data) : string :=
  resolve O (strip_quotes (filename d)) (dirname q).

(** The style sheets of a build: the entry sheet, and every file that an
    Import Node of one of them stands for. *)
Inductive source : string -> tree -> Prop :=
  | source_sheet : source from sheet
  | source_file q t d t' :
      source q t -> d ∈ import_nodes_under t ->
      files (target q d) = Some t' ->
      source (target q d) t'.

(** [d] is an Import Node of one of the style sheets, and stands for the
    file [p]. *)
Definition refers (p : string) (d : node_data) : Prop :=
  exists q t, source q t /\ d ∈ import_nodes_under t /\ target q d = p.

(** The file [p] has a top-level reference: an Import Node without an
    inclusion-rule tag. *)
Definition top_level_reference (p : string) : Prop :=
  exists d, refers p d /\ truthy (fromInclusionRule d) = false.

(** The file [p] has a reference from the inclusion rule [tag]. *)
Definition scoped_reference (p tag : string) : Prop :=
  exists d, refers p d /\ fromInclusionRule d = Some tag
            /\ truthy (Some tag) = true.

(** *** What the discovery knows of the references *)

(** The tree [t] is a part of the style sheet [fromPath]. *)
Definition within (fromPath : string) (t : tree) : Prop :=
  exists T, source fromPath T
    /\ forall d, d ∈ import_nodes_under t -> d ∈ import_nodes_under T.

(** Every Import Record stands for a style sheet of the build, and its
    flag and its inclusion rules come from references to it. *)
Definition sound (s : st) : Prop :=
  forall r rec, records s !! r = Some rec ->
    (exists t, source (fullpath rec) t)
    /\ (exists T, source (fromPath rec) T)
    /\ (isGloballyImported rec = true -> top_level_reference (fullpath rec))
    /\ (forall tag, tag ∈ inclusionRules rec ->
                    scoped_reference (fullpath rec) tag).

(** The Import Node [d] of the file [q] has been seen: its file has a
    record, which is globally imported when [d] has no tag, and holds the
    tag of [d] otherwise. *)
Definition seen (q : string) (d : node_data) (s : st) : Prop :=
  exists r rec,
    imports s !! target q d = Some r
    /\ records s !! r = Some rec
    /\ (truthy (fromInclusionRule d) = false ->
        isGloballyImported rec = true)
    /\ (forall tag, fromInclusionRule d = Some tag ->
                    truthy (Some tag) = true ->
                    tag ∈ inclusionRules rec).

Definition covered (q : string) (t : tree) (s : st) : Prop :=
  forall d, d ∈ import_nodes_under t -> seen q d s.

(** The Import Nodes of every file with a record have been seen, but for
    the files [pending], whose turn is not over. *)
Definition closed_except (pending : list string) (s : st) : Prop :=
  forall r rec t,
    records s !! r = Some rec -> fullpath rec ∉ pending ->
    files (fullpath rec) = Some t ->
    covered (fullpath rec) t s.

End References.

(** *** The objects of the parsed files *)

(** The root of every Import Record is the root of the objects made from
    its file, which lie under [next]. *)
Definition parsed (files : string -> option tree) (s : st) : Prop :=
  forall r rec, records s !! r = Some rec ->
    exists t, files (fullpath rec) = Some t
              /\ laid (heap s) (root rec) t
              /\ root rec + size t <= next s.

(** The records made from [s] to [s'] have roots made after [s]. *)
Definition fresh (s s' : st) : Prop :=
  length (records s) <= length (records s')
  /\ forall r rec, records s' !! r = Some rec ->
                   length (records s) <= r -> next s <= root rec.

(** From [s] to [s'] in a discovery: what was read and registered has a
    rank under [b], and objects, records and reads were only added. *)
Definition later (rank : string -> nat) (b : nat) (s s' : st) : Prop :=
  grows rank b s s' /\ extends s s' /\ reads s `prefix_of` reads s'.

(** The number of objects that the file [p] is parsed to. *)
Definition size_at (files : string -> option tree) (p : string) : nat :=
  match files p with
  | Some t => size t
  | None => 0
  end.

(** The file whose objects take the number [i], when the files of [log]
    were parsed one after the other, the first from the number [base]
    on. *)
Fixpoint home (files : string -> option tree) (base : nat)
    (log : list string) (i : nat) : option string :=
  match log with
  | [] => None
  | q :: log' =>
    if (i <? base + size_at files q)%nat then Some q
    else home files (base + size_at files q) log' i
  end.

(** The file that the object [i] was parsed from: the style sheet itself
    for the first objects, then the files in the order of their reads. *)
Definition file_of (files : string -> option tree) (sheet : tree)
    (from : string) (s : st) (i : nat) : string :=
  if (i <? size sheet)%nat then from
  else default from (home files (size sheet) (reads s) i).

(** The objects of a build lie one parsed file after the other: every
    object belongs to a style sheet of the build and, unless it is a root,
    has its data from there; the children of an object come after it,
    belong to the same file and have it as their parent; the root of an
    Import Record belongs to the file of the record and has no parent. *)
Definition ranked (files : string -> option tree) (O : options)
    (sheet : tree) (from : string) (s : st) : Prop :=
  next s = size sheet + sum_list_with (size_at files) (reads s)
  /\ (forall i nd, heap s !! i = Some nd ->
        i < next s
        /\ exists t, source files O sheet from (file_of files sheet from s i) t
                     /\ (is_Some (parent nd) -> data nd ∈ descendants t))
  /\ (forall j i, i ∈ children (heap s) j ->
        file_of files sheet from s i = file_of files sheet from s j
        /\ j < i /\ parent_of (heap s) i = Some j)
  /\ (forall r rec, records s !! r = Some rec ->
        file_of files sheet from s (root rec) = fullpath rec
        /\ parent_of (heap s) (root rec) = None).

(** What a discovery keeps: the registry is consistent, the records stand
    for the references, their roots are the parsed files, each with a root
    of its own, and the Import Nodes of every file whose turn is over have
    been seen. *)
Definition discovery_inv (files : string -> option tree) (O : options)
    (rank : string -> nat) (sheet : tree) (from : string) (b : nat)
    (pending : list string) (s : st) : Prop :=
  consistent s /\ settled rank b s
  /\ sound files O sheet from s /\ parsed files s
  /\ NoDup (map root (records s))
  /\ closed_except files O pending s
  /\ ranked files O sheet from s.

(** *** The injection, turn by turn *)

(** Whether the object [i] is an Import Node, and whether it is a comment
    that the injection removes when it stands before an import. *)
Definition import_at (h : gmap nat node) (i : nat) : bool :=
  match h !! i with
  | Some n => isImportNode n
  | None => false
  end.

Definition plain_comment (h : gmap nat node) (i : nat) : bool :=
  match h !! i with
  | Some n => str_eqb (type (data n)) "comment"
              && negb (str_includes "condition" (text (data n)))
  | None => false
  end.

(** The data of the object [i] but for the white space before it. *)
Definition kind_at (h : gmap nat node) (i : nat) : option node_data :=
  (fun n => with_before "" (data n)) <$> h !! i.

(** The loop of [replace_imports] over the snapshot of the found rule [fr],
    from the state [s] to the state [s']: a node that is not an Import Node
    for the record's file is passed over, one that is has its first
    occurrence in the rule, as the rule is by then, replaced by the nodes
    that the record's root has by then. [hits] counts the replacements. *)
Inductive replaced (o : options) (rec : importOpts) (fr : nat)
    : list nat -> st -> nat -> st -> Prop :=
  | replaced_nil s : replaced o rec fr [] s 0 s
  | replaced_skip x xs n s hits s' :
      heap s !! x = Some n ->
      matches_import o rec n = false ->
      replaced o rec fr xs s hits s' ->
      replaced o rec fr (x :: xs) s hits s'
  | replaced_hit x xs n s hits s' :
      heap s !! x = Some n ->
      matches_import o rec n = true ->
      replaced o rec fr xs
        (with_nodes fr
           (splice (children (heap s) fr)
                   (indexOf x (children (heap s) fr)) 1
                   (children (heap s) (root rec))) s)
        hits s' ->
      replaced o rec fr (x :: xs) s (S hits) s'.

(** The loop over the inclusion rules of a record: for every tag the rule
    that [findSelector] finds has at least one node replaced. *)
Inductive scoped (o : options) (rootStyles : nat) (rec : importOpts)
    : list string -> st -> st -> Prop :=
  | scoped_nil s : scoped o rootStyles rec [] s s
  | scoped_cons tag tags fr hits s s1 s2 :
      rule_for o rootStyles ("." +:+ tag) s = Some fr ->
      replaced o rec fr (children (heap s) fr) s (S hits) s1 ->
      scoped o rootStyles rec tags s1 s2 ->
      scoped o rootStyles rec (tag :: tags) s s2.

(** The line break before the first node of the record's root. *)
Definition separated (rec : importOpts) (s s' : st) : Prop :=
  match children (heap s) (root rec) with
  | first :: _ =>
    exists n, heap s !! first = Some n
      /\ s' = set_heap (fun h =>
                <[first := Node (with_before (String "010" (String "010" ""))
                                             (data n))
                                (nodes n) (parent n)]> h) s
  | [] => s' = s
  end.

(** The removal of the comment before an import: nothing, or a comment
    without [condition] in its text is taken out of the array of its parent
    object and loses its parent. *)
Definition unlinked (s s' : st) : Prop :=
  s' = s
  \/ exists pn n p,
       heap s !! pn = Some n /\ parent n = Some p
       /\ plain_comment (heap s) pn = true
       /\ indexOf pn (children (heap s) p) <> (-1)%Z
       /\ s' = with_nodes p
                 (splice (children (heap s) p)
                         (indexOf pn (children (heap s) p)) 1 [])
                 (set_heap (fun h => <[pn := Node (data n) (nodes n) None]> h)
                           s).

(** The turn of one Import Record, from [s] to [s'], and what it pushes
    on [sharedDependencies]. *)
Definition turn (o : options) (rootStyles : nat) (rec : importOpts)
    (s : st) (pushed : list nat) (s' : st) : Prop :=
  exists sb sc,
    separated rec (set_messages (fun l => l ++ [fullpath rec]) s) sb
    /\ (if isGloballyImported rec
        then sc = sb /\ pushed = children (heap sb) (root rec)
        else scoped o rootStyles rec (inclusionRules rec) sb sc
             /\ pushed = [])
    /\ unlinked sc s'.

(** The turns of the records [rs], one after the other. *)
Inductive turns (o : options) (rootStyles : nat) (recs : list importOpts)
    : list nat -> st -> list (list nat) -> st -> Prop :=
  | turns_nil s : turns o rootStyles recs [] s [] s
  | turns_cons r rs rec s seg s1 segs s2 :
      recs !! r = Some rec ->
      turn o rootStyles rec s seg s1 ->
      turns o rootStyles recs rs s1 segs s2 ->
      turns o rootStyles recs (r :: rs) s (seg :: segs) s2.

(** *** What the injection keeps of the discovered objects *)

(** The root of the document and the roots of the Import Records. *)
Definition root_objects (rootStyles : nat) (s : st) : list nat :=
  rootStyles :: map root (records s).

(** The array of the object [j] in [h] is what it is in [h0] but for
    comments that were removed. *)
Definition thinned (h0 h : gmap nat node) (j : nat) : Prop :=
  children h j `sublist_of` children h0 j
  /\ forall i, i ∈ children h0 j -> i ∉ children h j ->
               plain_comment h0 i = true.

(** [injecting rootStyles s1 s]: the state [s] of an injection that began
    in the discovered state [s1]. The registry and the nodes are those of
    [s1] but for white space; the arrays of the roots lost comments only;
    no root is in an array; and what an array holds it held in [s1] or,
    when it is not the array of a root, it comes from the top of the file
    of a record that is not globally imported. *)
Definition injecting (rootStyles : nat) (s1 s : st) : Prop :=
  registry s = registry s1
  /\ (forall j, kind_at (heap s) j = kind_at (heap s1) j)
  /\ (forall j, j ∈ root_objects rootStyles s1 ->
                thinned (heap s1) (heap s) j)
  /\ (forall j i, i ∈ children (heap s) j ->
                  i ∉ root_objects rootStyles s1)
  /\ (forall j i, i ∈ children (heap s) j ->
        i ∈ children (heap s1) j
        \/ ((j ∉ root_objects rootStyles s1)
            /\ exists r rec,
                 records s1 !! r = Some rec
                 /\ isGloballyImported rec = false
                 /\ i ∈ children (heap s1) (root rec))).

(** What a record pushes for the top of the document: the top of its file
    but for comments, when it is globally imported. *)
Definition pushes (s1 : st) (rec : importOpts) (seg : list nat) : Prop :=
  if isGloballyImported rec
  then seg `sublist_of` children (heap s1) (root rec)
       /\ forall i, i ∈ children (heap s1) (root rec) -> i ∉ seg ->
                    plain_comment (heap s1) i = true
  else seg = [].

(** *** The final sweep, on any objects *)

(** From [s] to [s'] the registry and the nodes stay but for white space,
    and no array gains a node. *)
Definition shrunk (s s' : st) : Prop :=
  registry s' = registry s
  /\ (forall j, kind_at (heap s') j = kind_at (heap s) j)
  /\ (forall j i, i ∈ children (heap s') j -> i ∈ children (heap s) j).

(** The object [j] is in no array. *)
Definition apart (h : gmap nat node) (j : nat) : Prop :=
  forall k, j ∉ children h k.

(** *** Copies of the top of a file *)

(** The nodes at the top of a parsed file. *)
Definition top_level (t : tree) : list tree :=
  match t with
  | Branch _ kids => kids
  | Leaf _ => []
  end.

(** [copy_of_top h rt t seg]: the objects [seg] are the top-level nodes of
    the tree [t] as the parser made them below the root object [rt], each
    of them once, in the order of the file; only comments without
    [condition] may be missing; and the objects are, in [h], what the file
    says but for white space. *)
Definition copy_of_top (h : gmap nat node) (rt : nat) (t : tree)
    (seg : list nat) : Prop :=
  seg `sublist_of` starts (S rt) (top_level t)
  /\ (forall i, i ∈ starts (S rt) (top_level t) -> i ∉ seg ->
                plain_comment h i = true)
  /\ (forall k i t', starts (S rt) (top_level t) !! k = Some i ->
                     top_level t !! k = Some t' ->
                     kind_at h i = Some (with_before "" (tree_data t'))).

(* ===================================================================== *)
(** ** Style sheets and configurations used as examples *)
(* ===================================================================== *)

Definition import_node (file : string) (rule : option string) : tree :=
  Leaf (NodeData "atrule" true file rule None "" "").
Definition rule_node (sel : string) (kids : list tree) : tree :=
  Branch (NodeData "rule" false "" None (Some sel) "" "") kids.
Definition decl_node (txt : string) : tree :=
  Leaf (NodeData "decl" false "" None None txt "").
Definition comment_node (txt : string) : tree :=
  Leaf (NodeData "comment" false "" None None txt "").
Definition root_node (kids : list tree) : tree :=
  Branch (NodeData "root" false "" None None "" "") kids.

(** [path.join(base, uri)] on a directory and a plain file name. *)
Definition join_path (uri base : string) : string := base +:+ "/" +:+ uri.

(** A configuration nested as the one of the repository is (part_002,
    lines 110 to 113 and 193 to 197): the plugin is given a second instance
    of itself, with the same [resolve] and [modifier], to run on every
    imported file. The [resolve] is the default of the plugin, [join] of the
    directory and the name; the repository has its own, which sends the
    names without a slash to [require.resolve]. *)
Definition inner_options : options := Options join_path (Some "&") [].
Definition nested_options : options :=
  Options join_path (Some "&") [inner_options].




(** The outline of a document: selectors, declarations, comments and
    imports, without the white space around them. *)
Fixpoint outline (t : tree) : string :=
  match t with
  | Leaf d =>
    if import d then "@import " +:+ filename d +:+ ";"
    else if str_eqb (type d) "comment" then "/*" +:+ text d +:+ "*/"
    else text d +:+ ";"
  | Branch d kids =>
    default "" (selector d) +:+ "{"
    +:+ (fix all (ts : list tree) : string :=
           match ts with
           | [] => ""
           | t' :: ts' => outline t' +:+ all ts'
           end) kids
    +:+ "}"
  end.



(** A sheet that imports [a.less] from two inclusion rules and nowhere
    else. *)
Definition sheet_two_scopes : tree :=
  root_node [rule_node ".foo" [import_node "a.less" (Some "foo")];
             rule_node "&.bar" [decl_node "margin: 0";
                                import_node "a.less" (Some "bar")];
             rule_node ".main" []].

(** Three files: [a.less] and [b.less] both import [c.less]; the entry
    sheet imports [a.less] and [b.less]. *)
Definition diamond_files (p : string) : option tree :=
  if str_eqb p "/src/a.less" then
    Some (root_node [comment_node "about c"; import_node "c.less" None;
                     rule_node ".a" [decl_node "color: red"]])
  else if str_eqb p "/src/b.less" then
    Some (root_node [import_node "c.less" None; rule_node ".b" []])
  else if str_eqb p "/src/c.less" then
    Some (root_node [rule_node ".c" []])
  else None.

Definition sheet_diamond : tree :=
  root_node [import_node "a.less" None; import_node "b.less" None;
             rule_node ".main" []].

Definition diamond_rank (p : string) : nat :=
  if str_eqb p "/src/main.less" then 3
  else if str_eqb p "/src/a.less" then 2
  else if str_eqb p "/src/b.less" then 2
  else if str_eqb p "/src/c.less" then 1
  else 0.

(** One file that imports itself. *)
Definition self_importing (p : string) : option tree :=
  if str_eqb p "/src/a.less"
  then Some (root_node [import_node "a.less" None; rule_node ".a" []])
  else None.

Definition sheet_imports_a : tree :=
  root_node [import_node "a.less" None; rule_node ".main" []].

(** The state a build ends in ([empty_st] when it runs out of steps). *)
Definition final_state (files : string -> option tree) (fuel : nat)
    (o : options) (sheet : tree) (from : string) : st :=
  match build files fuel o sheet from empty_st with
  | Ok _ s => s
  | Throw _ s => s
  | OutOfFuel => empty_st
  end.

(** Two configurations as [common] and [dev.js] make them, with their
    [entry] and two of their other fields. *)
Definition two_configs : list (config (option (list string)) string) :=
  [Config (Some [("index.js", Some ["./dist/index.js"; "./css/index.less"])])
          {["mode" := "development"; "outDir" := "./.stats/index.js/"]};
   Config (Some [("admin.js", Some ["./dist/admin.js"])])
          {["mode" := "development"; "outDir" := "./.stats/admin.js/";
            "devtool" := "eval"]}].

(** A sheet that imports [a.less] inside the inclusion rule [foo] first
    and at the top level after that, and [b.less] at the top level. *)
Definition sheet_scoped_then_global : tree :=
  root_node [rule_node ".foo" [import_node "a.less" (Some "foo")];
             import_node "a.less" None;
             import_node "b.less" None;
             rule_node ".main" []].

(** One file that imports itself inside its own inclusion rule [foo]. *)
Definition self_scoping (p : string) : option tree :=
  if str_eqb p "/src/a.less"
  then Some (root_node [rule_node ".foo" [import_node "a.less" (Some "foo")];
                        rule_node ".a" [decl_node "color: red"]])
  else None.

(* ===================================================================== *)
(** * Properties of the broker *)
(* ===================================================================== *)

(** Running a sequence whose first part is known. *)
Lemma bind_Ok {S A B} (c : M S A) (k : A -> M S B) (s s' : S) (a : A) :
  c s = Ok a s' -> bind c k s = k a s'.
Proof. intros H. unfold bind. rewrite H. reflexivity. Qed.

Lemma bind_Throw {S A B} (c : M S A) (k : A -> M S B) (s s' : S)
    (e : js_error) :
  c s = Throw e s' -> bind c k s = Throw e s'.
Proof. intros H. unfold bind. rewrite H. reflexivity. Qed.

Lemma bind_OutOfFuel {S A B} (c : M S A) (k : A -> M S B) (s : S) :
  c s = OutOfFuel -> bind c k s = OutOfFuel.
Proof. intros H. unfold bind. rewrite H. reflexivity. Qed.

Lemma some_new_target_undefined (b : broker) (t : string) (ts : list string) :
  global_webpackEntryPoints b = None ->
  some_new_target (t :: ts) b = Throw not_defined b.
Proof.
  intros Hg. destruct b as [h w g e n]; cbn in Hg; subst g. reflexivity.
Qed.

(** When the tracked set exists, [some_new_target] is a pure test. *)
Lemma some_new_target_defined (b : broker) (set ts : list string) :
  global_webpackEntryPoints b = Some set ->
  some_new_target ts b = Ok (existsb (fun t => negb (set_has t set)) ts) b.
Proof.
  intros Hg. induction ts as [|t ts IH]; [reflexivity|].
  cbn. unfold bind at 1. unfold webpackEntryPoints, bind, get. rewrite Hg.
  cbn. destruct (set_has t set); cbn; [exact IH | reflexivity].
Qed.

Lemma add_targets_defined (b : broker) (ts set : list string) :
  global_webpackEntryPoints b = Some set ->
  forEach (fun target =>
             set <- webpackEntryPoints ;;
             store_webpackEntryPoints (set_add target set)) ts b
  = Ok tt (Broker (httpServer b) (webpackDevServer b)
                  (Some (add_all ts set)) (effects b) (next_pid b)).
Proof.
  revert b set. induction ts as [|t ts IH]; intros b set Hg.
  - destruct b; cbn in *; subst; reflexivity.
  - change (add_all (t :: ts) set) with (add_all ts (set_add t set)).
    cbn [forEach].
    erewrite bind_Ok; cycle 1.
    { erewrite bind_Ok; cycle 1.
      { unfold webpackEntryPoints. erewrite bind_Ok by reflexivity.
        rewrite Hg. reflexivity. }
      reflexivity. }
    cbv beta. rewrite (IH _ (set_add t set)); reflexivity.
Qed.

Lemma elem_of_set_add (x t : string) (set : list string) :
  x ∈ set_add t set <-> x ∈ set \/ x = t.
Proof.
  unfold set_add, set_has. case_bool_decide as Hin.
  - split; [auto | intros [H | ->]; assumption].
  - rewrite elem_of_app, list_elem_of_singleton. reflexivity.
Qed.

Lemma elem_of_add_all (x : string) (ts set : list string) :
  x ∈ add_all ts set <-> x ∈ set \/ x ∈ ts.
Proof.
  revert set. induction ts as [|t ts IH]; intros set; cbn.
  - split; [auto | intros [H | H]; [assumption | inversion H]].
  - rewrite IH, elem_of_set_add, elem_of_cons. tauto.
Qed.

Lemma add_all_prefix (ts set : list string) :
  exists new, add_all ts set = set ++ new.
Proof.
  revert set. induction ts as [|t ts IH]; intros set.
  - exists []. by rewrite app_nil_r.
  - change (add_all (t :: ts) set) with (add_all ts (set_add t set)).
    destruct (IH (set_add t set)) as [new Hn]. rewrite Hn.
    unfold set_add. destruct (set_has t set).
    + by exists new.
    + exists ([t] ++ new). by rewrite app_assoc.
Qed.

(** How [spawnWebpackForEntry] behaves in an environment that does define
    the tracked set: reuse without any effect when every target is tracked,
    otherwise the union is tracked, the old worker (if any) is killed, and a
    worker is spawned for all tracked entries. *)
Lemma spawnWebpackForEntry_defined (b : broker) (set ts : list string)
    (port : nat) (cwd : string) :
  global_webpackEntryPoints b = Some set ->
  spawnWebpackForEntry ts port cwd b =
    if forallb (fun t => set_has t set) ts then Ok true b
    else
      let set' := add_all ts set in
      let c := Child (next_pid b) port (join "," set') cwd in
      Ok false
         (Broker (httpServer b) (Some c) (Some set')
                 (effects b
                  ++ match webpackDevServer b with
                     | Some old => [Kill old]
                     | None => []
                     end ++ [Spawn c])
                 (S (next_pid b))).
Proof.
  intros Hg. unfold spawnWebpackForEntry.
  unfold bind at 1. rewrite (some_new_target_defined b set ts Hg).
  assert (Hex : existsb (fun t => negb (set_has t set)) ts
                = negb (forallb (fun t => set_has t set) ts)).
  { induction ts as [|t ts IH]; [reflexivity|]. cbn. rewrite IH.
    by destruct (set_has t set), (forallb _ ts). }
  rewrite Hex. destruct (forallb _ ts); cbn; [reflexivity|].
  unfold bind at 1. rewrite (add_targets_defined b ts set Hg).
  cbn. unfold bind, webpackEntryPoints, get, emit, set_webpackDevServer,
    spawn, modify, ret, bind. cbn.
  destruct (webpackDevServer b); cbn; rewrite <- ?app_assoc; reflexivity.
Qed.

(** How [reset] behaves in an environment that does define the tracked
    set. *)
Lemma reset_defined (b : broker) (set : list string) :
  global_webpackEntryPoints b = Some set ->
  reset b =
    Ok tt (Broker (httpServer b) None (Some [])
                  (effects b
                   ++ match httpServer b with
                      | Some _ => [HttpClose]
                      | None => []
                      end
                   ++ match webpackDevServer b with
                      | Some c => [Kill c]
                      | None => []
                      end)
                  (next_pid b)).
Proof.
  intros Hg. unfold reset, bind, webpackEntryPoints, get, emit,
    store_webpackEntryPoints, set_webpackDevServer, modify, ret, bind.
  destruct b as [h w g e n]; cbn in *; subst g.
  destruct h, w; cbn; rewrite ?app_nil_r, <- ?app_assoc; reflexivity.
Qed.

(** C10. The module declares no [webpackEntryPoints]: where the environment
    defines none either, loading the module throws a reference error, and so
    do [reset] (after it has closed the listener, before it clears anything)
    and [spawnWebpackForEntry] on any target list that makes it look at the
    set, which is every non-empty one. *)
Theorem undeclared_tracked_set_throws (b : broker) (t : string)
    (ts : list string) (port : nat) (cwd : string) :
  global_webpackEntryPoints b = None ->
  load_module b = Throw not_defined b
  /\ reset b = Throw not_defined
       (Broker (httpServer b) (webpackDevServer b) None
               (effects b ++ match httpServer b with
                             | Some _ => [HttpClose]
                             | None => []
                             end) (next_pid b))
  /\ spawnWebpackForEntry (t :: ts) port cwd b = Throw not_defined b.
Proof.
  intros Hg. split; [|split].
  - unfold load_module, bind, webpackEntryPoints, bind, get.
    rewrite Hg. reflexivity.
  - unfold reset, bind, webpackEntryPoints, get, emit, modify, ret, bind.
    destruct b as [h w g e n]; cbn in *; subst g.
    destruct h; cbn; rewrite ?app_nil_r; reflexivity.
  - unfold spawnWebpackForEntry. unfold bind at 1.
    rewrite some_new_target_undefined by exact Hg. reflexivity.
Qed.

Lemma undeclared_tracked_set_throws_witness :
  global_webpackEntryPoints (module_scope None) = None
  /\ load_module (module_scope None) = Throw not_defined (module_scope None)
  /\ spawnWebpackForEntry ["index.js"] 3000 "/app" (module_scope None)
     = Throw not_defined (module_scope None).
Proof.
  split; [reflexivity|].
  pose proof (undeclared_tracked_set_throws (module_scope None) "index.js"
                [] 3000 "/app" eq_refl) as (Hl & _ & Hs).
  split; [exact Hl | exact Hs].
Defined.

(** C1. In the module as it is written, run where nothing else defines
    [webpackEntryPoints], the first [spawnWebpackForEntry(['a'])] rejects
    with a reference error: nothing is tracked and no process is spawned;
    the same holds for the call with the target [b] that follows. *)
Theorem spawnWebpackForEntry_rejects_as_written :
  spawnWebpackForEntry ["a"] 3000 "/app" (module_scope None)
    = Throw not_defined (module_scope None)
  /\ spawnWebpackForEntry ["b"] 3000 "/app" (module_scope None)
    = Throw not_defined (module_scope None)
  /\ effects (module_scope None) = [].
Proof.
  repeat split.
Qed.

(** C8. In the module as it is written, [reset] on a broker with a live
    listener and a live worker closes the listener and then throws: the
    worker is not killed and its handle stays; a call of
    [spawnWebpackForEntry] after it rejects, it does not report a spawn. *)
Theorem reset_throws_as_written :
  reset (serving_a None)
    = Throw not_defined
        (Broker (Some 0) (Some worker_a) None [Spawn worker_a; HttpClose] 1)
  /\ spawnWebpackForEntry ["a"] 3000 "/app"
       (Broker (Some 0) (Some worker_a) None [Spawn worker_a; HttpClose] 1)
     = Throw not_defined
         (Broker (Some 0) (Some worker_a) None [Spawn worker_a; HttpClose] 1).
Proof.
  split; reflexivity.
Qed.

(** With the set defined, [reset] followed by a call for any non-empty
    target list spawns: the call is not a reuse. *)
Lemma reset_then_spawn_defined (b : broker) (set : list string) (t : string)
    (ts : list string) (port : nat) (cwd : string) :
  global_webpackEntryPoints b = Some set ->
  exists b', (reset ;;; spawnWebpackForEntry (t :: ts) port cwd) b
             = Ok false b'
             /\ webpackDevServer b'
                = Some (Child (next_pid b) port
                              (join "," (add_all (t :: ts) [])) cwd).
Proof.
  intros Hg. unfold bind. rewrite (reset_defined b set Hg).
  erewrite spawnWebpackForEntry_defined by reflexivity.
  cbn. eexists. split; reflexivity.
Qed.

(** C2. With one entry target whose style list is [sub/index.less], the
    request for [src/less/sub/index] reaches the assignment to the constant
    [assetWithoutRTL] and throws instead of resolving to [index.js]. *)
Theorem findRootEntryForAsset_source_prefix_throws :
  findRootEntryForAsset [(["index.js"], ["sub/index.less"])]
                        "src/less/sub/index"
    = inl (TypeError "Assignment to constant variable.")
  /\ findRootEntryForAsset [(["index.js"], ["sub/index.less"])]
                           "src/less/sub/index.rtl"
    = inl (TypeError "Assignment to constant variable.").
Proof.
  split; vm_compute; reflexivity.
Qed.

(** ** The entry target of an asset, where the code does not throw *)

Lemma css_entries_loop_without_prefix asset cssEntries hasMatch :
  starts_with "src/less/" (without_rtl asset) = false ->
  css_entries_loop asset cssEntries hasMatch
  = inr (hasMatch
         || existsb (fun c => str_eqb (style_basename c) (without_rtl asset))
                    cssEntries).
Proof.
  intros Hp. revert hasMatch.
  induction cssEntries as [|c cs IH]; intros hasMatch;
    cbn [css_entries_loop existsb].
  - by rewrite orb_false_r.
  - unfold css_entry_step. fold (without_rtl asset). rewrite Hp.
    fold (style_basename c).
    destruct hasMatch; cbn [negb andb orb].
    + rewrite IH. reflexivity.
    + destruct (str_eqb (style_basename c) (without_rtl asset));
        rewrite IH; reflexivity.
Qed.

Lemma entry_points_loop_found asset entryPoints r :
  truthy (Some r) = true ->
  entry_points_loop asset entryPoints (Some r) = inr (Some r).
Proof.
  intros Hr. induction entryPoints as [|[js css] eps IH];
    cbn [entry_points_loop]; [reflexivity|].
  by rewrite Hr.
Qed.

(** Where the asset, without a [.rtl] suffix, does not start with
    [src/less/] and every target has a non-empty first script, the code
    returns what the specification describes. *)
Lemma findRootEntryForAsset_without_prefix entryPoints asset :
  starts_with "src/less/" (without_rtl asset) = false ->
  Forall (fun ep => truthy (head (fst ep)) = true) entryPoints ->
  findRootEntryForAsset entryPoints asset
  = inr (resolveEntryFor entryPoints asset).
Proof.
  intros Hp Hall. unfold findRootEntryForAsset, resolveEntryFor.
  induction Hall as [|[js css] eps Hjs _ IH];
    cbn [entry_points_loop find truthy]; [reflexivity|].
  rewrite css_entries_loop_without_prefix by exact Hp.
  unfold js_entries_loop.
  change (existsb (str_eqb asset) js || _) with (claims asset (js, css)).
  cbn [fst] in Hjs.
  destruct (claims asset (js, css)) eqn:Hc; [|exact IH].
  destruct (head js) as [r|] eqn:Hh; [|discriminate].
  cbn [fst]. rewrite Hh. by apply entry_points_loop_found.
Qed.

(** The two requests of the specification's example, for the target
    [index.js] of the repository's configuration and its style
    [index.less], whose basename is [/index]. *)
Lemma findRootEntryForAsset_examples :
  findRootEntryForAsset [(["index.js"], ["index.less"])] "index.js"
    = inr (Some "index.js")
  /\ findRootEntryForAsset [(["index.js"], ["index.less"])] "/index.rtl"
    = inr (Some "index.js")
  /\ findRootEntryForAsset [(["index.js"], ["index.less"])] "/index"
    = inr (Some "index.js")
  /\ findRootEntryForAsset [(["index.js"], ["index.less"])] "other"
    = inr None.
Proof.
  repeat split; vm_compute; reflexivity.
Qed.

(* ===================================================================== *)
(** * Properties of the resolver *)
(* ===================================================================== *)

(** ** Reasoning about outcomes *)

Lemma wp_ret {S A} (a : A) (Q : A -> S -> Prop) E s :
  Q a s -> wp (ret a) Q E s.
Proof. exact id. Qed.

Lemma wp_throw {S A} e (Q : A -> S -> Prop) (E : js_error -> S -> Prop) s :
  E e s -> wp (throw e) Q E s.
Proof. exact id. Qed.

Lemma wp_get {S} (Q : S -> S -> Prop) E s : Q s s -> wp get Q E s.
Proof. exact id. Qed.

Lemma wp_modify {S} (f : S -> S) (Q : unit -> S -> Prop) E s :
  Q tt (f s) -> wp (modify f) Q E s.
Proof. exact id. Qed.

Lemma wp_out_of_fuel {A} (Q : A -> st -> Prop) E s : wp out_of_fuel Q E s.
Proof. exact I. Qed.

Lemma wp_bind {S A B} (c : M S A) (k : A -> M S B) Q E s :
  wp c (fun a s' => wp (k a) Q E s') E s -> wp (bind c k) Q E s.
Proof. unfold wp, bind. destruct (c s); auto. Qed.

Lemma wp_mono {S A} (c : M S A) (Q Q' : A -> S -> Prop)
    (E E' : js_error -> S -> Prop) s :
  wp c Q E s ->
  (forall a s', Q a s' -> Q' a s') ->
  (forall e s', E e s' -> E' e s') ->
  wp c Q' E' s.
Proof. unfold wp. destruct (c s); auto. Qed.

(** A loop keeps what each of its rounds keeps. *)
Lemma wp_forEach {S A} (f : A -> M S unit) (xs : list A) (I : S -> Prop)
    (E : js_error -> S -> Prop) s :
  (forall x s, x ∈ xs -> I s -> wp (f x) (fun _ => I) E s) ->
  I s -> wp (forEach f xs) (fun _ => I) E s.
Proof.
  revert s. induction xs as [|x xs IH]; intros s Hf HI; cbn [forEach].
  - exact HI.
  - apply wp_bind. eapply wp_mono.
    + apply Hf; [left | exact HI].
    + cbn. intros _ s' HI'. apply IH; [|exact HI'].
      intros y s'' Hy. apply Hf. by right.
    + auto.
Qed.

(** The rules of [wp_fuel], for the code whose step budget matters. *)
Lemma wp_fuel_bind {S A B} F (c : M S A) (k : A -> M S B) Q E s :
  wp_fuel F c (fun a s' => wp_fuel F (k a) Q E s') E s ->
  wp_fuel F (bind c k) Q E s.
Proof. unfold wp_fuel, bind. destruct (c s); auto. Qed.

Lemma wp_fuel_mono {S A} F (c : M S A) (Q Q' : A -> S -> Prop)
    (E E' : js_error -> S -> Prop) s :
  wp_fuel F c Q E s ->
  (forall a s', Q a s' -> Q' a s') ->
  (forall e s', E e s' -> E' e s') ->
  wp_fuel F c Q' E' s.
Proof. unfold wp_fuel. destruct (c s); auto. Qed.

Lemma wp_fuel_forEach {S A} F (f : A -> M S unit) (xs : list A)
    (I : S -> Prop) (E : js_error -> S -> Prop) s :
  (forall x s, x ∈ xs -> I s -> wp_fuel F (f x) (fun _ => I) E s) ->
  I s -> wp_fuel F (forEach f xs) (fun _ => I) E s.
Proof.
  revert s. induction xs as [|x xs IH]; intros s Hf HI; cbn [forEach].
  - exact HI.
  - apply wp_fuel_bind. eapply wp_fuel_mono.
    + apply Hf; [left | exact HI].
    + cbn. intros _ s' HI'. apply IH; [|exact HI'].
      intros y s'' Hy. apply Hf. by right.
    + auto.
Qed.

Lemma wp_fuel_get {S} F (Q : S -> S -> Prop) E s :
  Q s s -> wp_fuel F get Q E s.
Proof. exact id. Qed.

Lemma wp_fuel_modify {S} F (f : S -> S) (Q : unit -> S -> Prop) E s :
  Q tt (f s) -> wp_fuel F (modify f) Q E s.
Proof. exact id. Qed.

(** A run within [wp_fuel False] has ended. *)
Lemma wp_fuel_ends {S A} (c : M S A) Q E s :
  wp_fuel False c Q E s -> c s <> OutOfFuel.
Proof. unfold wp_fuel. by destruct (c s). Qed.

Ltac wp_step :=
  lazymatch goal with
  | |- wp (bind _ _) _ _ _ => apply wp_bind
  | |- wp (ret _) _ _ _ => apply wp_ret
  | |- wp (throw _) _ _ _ => apply wp_throw
  | |- wp get _ _ _ => apply wp_get
  | |- wp (modify _) _ _ _ => apply wp_modify
  | |- wp out_of_fuel _ _ _ => apply wp_out_of_fuel
  | |- wp (match ?x with _ => _ end) _ _ _ => destruct x eqn:?
  end.

(** ** Code that only reads *)

Lemma pure_bind {A B} (c : M st A) (k : A -> M st B) s :
  pure_on s c -> (forall a, pure_on s (k a)) -> pure_on s (bind c k).
Proof.
  unfold pure_on. intros Hc Hk. apply wp_bind.
  eapply wp_mono; [exact Hc | | auto].
  cbn. intros a s' ->. apply Hk.
Qed.

Lemma pure_node_at i s : pure_on s (node_at i).
Proof.
  unfold pure_on, node_at. repeat wp_step; reflexivity.
Qed.

Lemma pure_nodes_of i s : pure_on s (nodes_of i).
Proof.
  unfold nodes_of. apply pure_bind; [apply pure_node_at|].
  intros n. unfold pure_on. repeat wp_step; reflexivity.
Qed.

Lemma pure_record_at r s : pure_on s (record_at r).
Proof.
  unfold pure_on, record_at. repeat wp_step; reflexivity.
Qed.

Section ResolverFacts.

Variable files : string -> option tree.

Lemma pure_last_match o sel ids found s :
  pure_on s (last_match o sel ids found).
Proof.
  revert found. induction ids as [|i ids IH]; intros found;
    cbn [last_match].
  - reflexivity.
  - apply pure_bind; [apply pure_node_at | intros n; apply IH].
Qed.

Lemma pure_last_match_records o sel rs found s :
  pure_on s (last_match_records o sel rs found).
Proof.
  revert found. induction rs as [|r rs IH]; intros found;
    cbn [last_match_records].
  - reflexivity.
  - apply pure_bind; [apply pure_record_at | intros rec].
    apply pure_bind; [apply pure_node_at | intros rt].
    apply pure_bind; [|intros f; apply IH].
    destruct (nodes rt) as [[|i ids]|]; try reflexivity.
    apply pure_last_match.
Qed.

Lemma pure_findSelector o rootStyles sel s :
  pure_on s (findSelector o rootStyles sel).
Proof.
  unfold findSelector.
  apply pure_bind; [apply pure_nodes_of | intros ids].
  apply pure_bind; [apply pure_last_match | intros [i|]].
  - reflexivity.
  - apply pure_bind; [reflexivity | intros s'].
    apply pure_last_match_records.
Qed.

Lemma findSelector_Ok o rootStyles sel s found s' :
  findSelector o rootStyles sel s = Ok found s' -> s' = s.
Proof.
  intros H. pose proof (pure_findSelector o rootStyles sel s) as Hp.
  unfold pure_on, wp in Hp. rewrite H in Hp. exact Hp.
Qed.

End ResolverFacts.

(** ** Errors of the injection *)


Section InjectionErrors.

Variable files : string -> option tree.





End InjectionErrors.


(** ** Inversion of successful runs *)

Lemma bind_Ok_inv {S A B} (c : M S A) (k : A -> M S B) s b s' :
  bind c k s = Ok b s' -> exists a s1, c s = Ok a s1 /\ k a s1 = Ok b s'.
Proof.
  unfold bind. destruct (c s) as [a s1| |]; try discriminate. eauto.
Qed.

Lemma node_at_Ok i s n s' :
  node_at i s = Ok n s' -> s' = s /\ heap s !! i = Some n.
Proof.
  unfold node_at, bind, get. destruct (heap s !! i); cbn; [|discriminate].
  intros [= -> ->]. auto.
Qed.

Lemma nodes_of_Ok i s ids s' :
  nodes_of i s = Ok ids s' ->
  s' = s /\ exists n, heap s !! i = Some n /\ nodes n = Some ids.
Proof.
  unfold nodes_of. intros (n & s1 & Hn & H)%bind_Ok_inv.
  apply node_at_Ok in Hn as [-> Hn].
  destruct (nodes n) eqn:Hk; cbn in H; [|discriminate].
  injection H as -> ->. eauto.
Qed.

Lemma record_at_Ok r s rec s' :
  record_at r s = Ok rec s' -> s' = s /\ records s !! r = Some rec.
Proof.
  unfold record_at, bind, get. destruct (records s !! r); cbn; [|discriminate].
  intros [= -> ->]. auto.
Qed.

Lemma nodes_of_children i s ids s' :
  nodes_of i s = Ok ids s' -> children (heap s) i = ids.
Proof.
  intros (_ & n & Hn & Hk)%nodes_of_Ok. unfold children. by rewrite Hn, Hk.
Qed.

Lemma children_insert_same h i n d p j :
  h !! i = Some n ->
  children (<[i := Node d (nodes n) p]> h) j = children h j.
Proof.
  intros Hn. unfold children. destruct (decide (i = j)) as [->|Hne].
  - by rewrite lookup_insert_eq, Hn.
  - by rewrite lookup_insert_ne.
Qed.

Lemma children_insert h i d kids p j :
  children (<[i := Node d (Some kids) p]> h) j
  = if decide (i = j) then kids else children h j.
Proof.
  unfold children. destruct (decide (i = j)) as [->|Hne].
  - by rewrite lookup_insert_eq.
  - by rewrite lookup_insert_ne.
Qed.

Lemma set_before_Ok i b s u s' :
  set_before i b s = Ok u s' ->
  records s' = records s /\ orderedImports s' = orderedImports s
  /\ forall j, children (heap s') j = children (heap s) j.
Proof.
  unfold set_before. intros (n & s1 & Hn & H)%bind_Ok_inv.
  apply node_at_Ok in Hn as [-> Hn]. injection H as _ <-. cbn.
  repeat split. intros j. by apply children_insert_same.
Qed.

Lemma set_parent_Ok i p s u s' :
  set_parent i p s = Ok u s' ->
  records s' = records s /\ orderedImports s' = orderedImports s
  /\ forall j, children (heap s') j = children (heap s) j.
Proof.
  unfold set_parent. intros (n & s1 & Hn & H)%bind_Ok_inv.
  apply node_at_Ok in Hn as [-> Hn]. injection H as _ <-. cbn.
  repeat split. intros j. by apply children_insert_same.
Qed.

Lemma set_nodes_Ok i ids s u s' :
  set_nodes i ids s = Ok u s' ->
  records s' = records s /\ orderedImports s' = orderedImports s
  /\ forall j, children (heap s') j
               = if decide (i = j) then ids else children (heap s) j.
Proof.
  unfold set_nodes. intros (n & s1 & Hn & H)%bind_Ok_inv.
  apply node_at_Ok in Hn as [-> Hn]. injection H as _ <-. cbn.
  repeat split. intros j. apply children_insert.
Qed.

Lemma pure_Ok {A} (c : M st A) s a s' : pure_on s c -> c s = Ok a s' -> s' = s.
Proof. unfold pure_on, wp. intros Hp H. by rewrite H in Hp. Qed.

Lemma pure_ret {A} (a : A) s : pure_on s (ret a).
Proof. reflexivity. Qed.

Lemma pure_recursiveLook fuel styleNode ids acc s :
  pure_on s (recursiveLook fuel styleNode ids acc).
Proof.
  revert ids acc. induction fuel as [|fuel IH]; intros ids acc;
    cbn [recursiveLook]; [exact I|].
  destruct (-1 <? fst acc)%Z; [reflexivity|].
  revert acc. induction ids as [|i ids IHl]; intros acc; [reflexivity|].
  apply pure_bind; [|intros acc'; apply IHl].
  destruct (-1 <? fst acc)%Z; [reflexivity|].
  apply pure_bind; [apply pure_node_at | intros n].
  destruct (nodes n) as [kids|]; [|reflexivity].
  destruct (indexOf styleNode kids =? -1)%Z; [apply IH | reflexivity].
Qed.

(** Locating the Import Node reads the tree and reports the dependency. *)
Lemma locate_prevNode_Ok fuel rec s prevNode s' :
  locate_prevNode fuel rec s = Ok prevNode s' ->
  s' = set_messages (fun l => l ++ [fullpath rec]) s.
Proof.
  unfold locate_prevNode.
  intros (sn & s1 & Hsn & H)%bind_Ok_inv.
  apply node_at_Ok in Hsn as [-> Hsn].
  apply bind_Ok_inv in H as (par & s1 & Hpar & H).
  assert (s1 = s) as ->.
  { destruct (parent sn); cbn in Hpar; [|discriminate]. by injection Hpar. }
  apply bind_Ok_inv in H as (parentNodes & s1 & Hpn & H).
  apply nodes_of_Ok in Hpn as [-> _].
  apply bind_Ok_inv in H as ([] & s1 & Hm & H). injection Hm as <-.
  apply bind_Ok_inv in H as (found & s1 & Hf & H).
  injection H as _ <-.
  destruct (indexOf (styleNode rec) parentNodes =? -1)%Z.
  - eapply pure_Ok; [apply pure_recursiveLook | exact Hf].
  - by injection Hf.
Qed.

Lemma separate_first_node_Ok rec s u s' :
  separate_first_node rec s = Ok u s' ->
  records s' = records s /\ orderedImports s' = orderedImports s
  /\ forall j, children (heap s') j = children (heap s) j.
Proof.
  unfold separate_first_node. intros (ids & s1 & Hids & H)%bind_Ok_inv.
  apply nodes_of_Ok in Hids as [-> _].
  destruct ids as [|first ids].
  - injection H as _ <-. auto.
  - by apply set_before_Ok in H.
Qed.

Lemma sublist_splice_delete (kids : list nid) (i : Z) :
  sublist (splice kids i 1 []) kids.
Proof.
  unfold splice. cbn [app].
  set (from := if (i <? 0)%Z then _ else _).
  rewrite <- (take_drop from kids) at 3.
  apply sublist_app; [reflexivity|].
  rewrite <- drop_drop. apply sublist_drop.
Qed.

(** Removing a comment takes one child from one node and adds none. *)
Lemma safeRemove_Ok node s u s' :
  safeRemove node s = Ok u s' ->
  records s' = records s /\ orderedImports s' = orderedImports s
  /\ forall j, children (heap s') j `sublist_of` children (heap s) j.
Proof.
  unfold safeRemove. intros (n & s1 & Hn & H)%bind_Ok_inv.
  apply node_at_Ok in Hn as [-> Hn].
  destruct (parent n) as [p|]; [|by injection H as _ <-].
  apply bind_Ok_inv in H as (pn & s1 & Hpn & H).
  apply node_at_Ok in Hpn as [-> Hpn].
  destruct (nodes pn) as [kids|] eqn:Hk; [|by injection H as _ <-].
  destruct (indexOf node kids =? -1)%Z; [by injection H as _ <-|].
  apply bind_Ok_inv in H as ([] & s1 & Hp & H).
  apply set_parent_Ok in Hp as (Hr1 & Ho1 & Hc1).
  apply set_nodes_Ok in H as (Hr2 & Ho2 & Hc2).
  repeat split; [congruence | congruence |].
  intros j. rewrite Hc2. destruct (decide (p = j)) as [<-|_].
  - unfold children at 1. rewrite Hpn, Hk. cbn.
    apply sublist_splice_delete.
  - by rewrite Hc1.
Qed.

Lemma remove_comment_Ok prevNode s u s' :
  remove_comment prevNode s = Ok u s' ->
  records s' = records s /\ orderedImports s' = orderedImports s
  /\ forall j, children (heap s') j `sublist_of` children (heap s) j.
Proof.
  unfold remove_comment. destruct prevNode as [pn|]; [|by injection 1 as _ <-].
  intros (n & s1 & Hn & H)%bind_Ok_inv.
  apply node_at_Ok in Hn as [-> Hn].
  destruct (_ && _); [by apply safeRemove_Ok in H | by injection H as _ <-].
Qed.

Lemma inject_record_global fuel o rootStyles r rec s pushed s' :
  records s !! r = Some rec ->
  isGloballyImported rec = true ->
  inject_record fuel o rootStyles r s = Ok pushed s' ->
  pushed = children (heap s) (root rec)
  /\ forall j, children (heap s') j `sublist_of` children (heap s) j.
Proof.
  intros Hr Hg. unfold inject_record.
  intros (rec' & s1 & Hrec & H)%bind_Ok_inv.
  apply record_at_Ok in Hrec as [-> Hrec].
  assert (rec' = rec) as -> by congruence.
  apply bind_Ok_inv in H as (prevNode & s1 & Hl & H).
  apply locate_prevNode_Ok in Hl as ->.
  apply bind_Ok_inv in H as ([] & s2 & Hs & H).
  apply separate_first_node_Ok in Hs as (_ & _ & Hc2).
  apply bind_Ok_inv in H as (pushed' & s3 & Hp & H).
  unfold push_or_scope in Hp. rewrite Hg in Hp.
  apply bind_Ok_inv in Hp as (items & s4 & Hitems & Hp).
  injection Hp as -> ->.
  pose proof (nodes_of_children _ _ _ _ Hitems) as Hch.
  apply nodes_of_Ok in Hitems as [-> _].
  apply bind_Ok_inv in H as ([] & s4 & Hrm & H).
  injection H as -> ->.
  apply remove_comment_Ok in Hrm as (_ & _ & Hc4).
  split.
  - rewrite <- Hch. apply Hc2.
  - intros j. etrans; [apply Hc4|]. by rewrite Hc2.
Qed.


(** ** Injection into inclusion rules *)

Lemma matches_import_data o rec n n' :
  data n = data n' -> matches_import o rec n = matches_import o rec n'.
Proof.
  intros H. unfold matches_import, isImportNode. by rewrite H.
Qed.

Lemma node_at_Some i s n : heap s !! i = Some n -> node_at i s = Ok n s.
Proof.
  intros H. unfold node_at. erewrite bind_Ok by reflexivity. by rewrite H.
Qed.

Lemma nodes_of_Some i s n ids :
  heap s !! i = Some n -> nodes n = Some ids -> nodes_of i s = Ok ids s.
Proof.
  intros H Hk. unfold nodes_of. erewrite bind_Ok by by apply node_at_Some.
  cbv beta. by rewrite Hk.
Qed.

Lemma replace_imports_skip o rec fr xs ys found s :
  Forall (fun i => exists n, heap s !! i = Some n
                             /\ matches_import o rec n = false) xs ->
  replace_imports o rec fr (xs ++ ys) found s
  = replace_imports o rec fr ys found s.
Proof.
  induction 1 as [|i ids (n & Hn & Hm) _ IH]; cbn [replace_imports app].
  - reflexivity.
  - erewrite bind_Ok by by apply node_at_Some.
    cbv beta. unfold matches_import in Hm.
    destruct (isImportNode n); cbn in Hm.
    + rewrite Hm. erewrite bind_Ok by reflexivity. exact IH.
    + erewrite bind_Ok by reflexivity. exact IH.
Qed.

Lemma indexOf_app_fresh (x : nat) (pre post : list nat) :
  x ∉ pre -> indexOf x (pre ++ x :: post) = Z.of_nat (length pre).
Proof.
  induction pre as [|y pre IH]; intros Hx; cbn [indexOf app length].
  - by rewrite bool_decide_eq_true_2.
  - rewrite bool_decide_eq_false_2 by (intros ->; apply Hx; left).
    rewrite IH by (intros H; apply Hx; by right).
    destruct (Z.eqb_spec (Z.of_nat (length pre)) (-1)); lia.
Qed.

Lemma splice_replace_one (pre post items : list nat) (x : nat) :
  splice (pre ++ x :: post) (Z.of_nat (length pre)) 1 items
  = pre ++ items ++ post.
Proof.
  unfold splice.
  assert ((Z.of_nat (length pre) <? 0)%Z = false) as ->
    by (apply Z.ltb_ge; lia).
  rewrite length_app. cbn [length].
  rewrite Z.min_l by lia. rewrite Nat2Z.id.
  rewrite take_app_length.
  rewrite drop_app_ge by lia.
  replace (length pre + 1 - length pre) with 1 by lia. reflexivity.
Qed.

Lemma set_nodes_Some i ids s n :
  heap s !! i = Some n -> set_nodes i ids s = Ok tt (with_nodes i ids s).
Proof.
  intros H. unfold set_nodes, with_nodes.
  erewrite bind_Ok by by apply node_at_Some. by rewrite H.
Qed.

Lemma with_nodes_lookup i ids s j :
  heap (with_nodes i ids s) !! j
  = if decide (i = j)
    then (fun n => Node (data n) (Some ids) (parent n)) <$> heap s !! i
    else heap s !! j.
Proof.
  unfold with_nodes. destruct (heap s !! i) as [n|] eqn:Hn; cbn.
  - destruct (decide (i = j)) as [->|Hne].
    + by rewrite lookup_insert_eq.
    + by rewrite lookup_insert_ne.
  - destruct (decide (i = j)) as [->|Hne]; [by rewrite Hn | reflexivity].
Qed.

Lemma with_nodes_data i ids s j :
  data <$> heap (with_nodes i ids s) !! j = data <$> heap s !! j.
Proof.
  rewrite with_nodes_lookup. destruct (decide (i = j)) as [->|]; [|done].
  by destruct (heap s !! j).
Qed.

Lemma with_nodes_records i ids s :
  records (with_nodes i ids s) = records s
  /\ orderedImports (with_nodes i ids s) = orderedImports s.
Proof. unfold with_nodes. by destruct (heap s !! i). Qed.

(** A rule with exactly one Import Node for the record's file: the node is
    replaced by the nodes of the record's root. *)
Lemma replace_imports_single o rec fr n pre imp post k nr items s :
  heap s !! fr = Some n ->
  nodes n = Some (pre ++ imp :: post) ->
  heap s !! imp = Some k ->
  matches_import o rec k = true ->
  Forall (fun i => exists m, heap s !! i = Some m
                             /\ matches_import o rec m = false)
         (pre ++ post) ->
  heap s !! root rec = Some nr ->
  nodes nr = Some items ->
  root rec <> fr ->
  replace_imports o rec fr (pre ++ imp :: post) false s
  = Ok true (with_nodes fr (pre ++ items ++ post) s).
Proof.
  intros Hfr Hkids Himp Hm Hothers Hroot Hitems Hne.
  apply Forall_app in Hothers as [Hpre Hpost].
  rewrite replace_imports_skip by exact Hpre.
  cbn [replace_imports].
  erewrite bind_Ok by by apply node_at_Some. cbv beta.
  pose proof Hm as Hm'. unfold matches_import in Hm'.
  apply andb_true_iff in Hm' as [Hi Hp]. rewrite Hi, Hp.
  assert (Himp_pre : imp ∉ pre).
  { intros Hin. rewrite Forall_forall in Hpre.
    destruct (Hpre _ Hin) as (m & Hm1 & Hm2). congruence. }
  erewrite bind_Ok; cycle 1.
  { erewrite bind_Ok by by eapply nodes_of_Some. cbv beta.
    erewrite bind_Ok by by eapply nodes_of_Some. cbv beta.
    rewrite indexOf_app_fresh by exact Himp_pre.
    rewrite splice_replace_one.
    erewrite bind_Ok by by eapply set_nodes_Some. reflexivity. }
  cbv beta.
  rewrite <- (app_nil_r post) at 1.
  rewrite replace_imports_skip; [reflexivity|].
  eapply Forall_impl; [exact Hpost|]. cbn.
  intros i (m & Hm1 & Hm2). rewrite with_nodes_lookup.
  destruct (decide (fr = i)) as [->|_]; [|eauto].
  rewrite Hm1. cbn. eexists. split; [reflexivity|].
  rewrite <- Hm2. by apply matches_import_data.
Qed.

(** ** Which rule [findSelector] returns *)

Lemma last_rule_for_app o sel h xs ys :
  last_rule_for o sel h (xs ++ ys)
  = match last_rule_for o sel h ys with
    | Some j => Some j
    | None => last_rule_for o sel h xs
    end.
Proof.
  induction xs as [|x xs IH]; cbn [last_rule_for app].
  - by destruct (last_rule_for o sel h ys).
  - rewrite IH. by destruct (last_rule_for o sel h ys).
Qed.

Lemma last_match_Ok o sel ids found s x s' :
  last_match o sel ids found s = Ok x s' ->
  x = match last_rule_for o sel (heap s) ids with
      | Some j => Some j
      | None => found
      end.
Proof.
  revert found. induction ids as [|i ids IH]; intros found;
    cbn [last_match last_rule_for].
  - by intros [= ->].
  - intros (n & s1 & Hn & H)%bind_Ok_inv.
    apply node_at_Ok in Hn as [-> Hn].
    apply IH in H. rewrite H. unfold is_rule_for. rewrite Hn.
    destruct (last_rule_for o sel (heap s) ids); [reflexivity|].
    by destruct (selector_matches o sel n).
Qed.

Lemma last_match_records_Ok o sel rs found s x s' :
  last_match_records o sel rs found s = Ok x s' ->
  x = match last_rule_for o sel (heap s)
              (flat_map (fun r => match records s !! r with
                                  | Some rec => children (heap s) (root rec)
                                  | None => []
                                  end) rs) with
      | Some j => Some j
      | None => found
      end.
Proof.
  revert found. induction rs as [|r rs IH]; intros found;
    cbn [last_match_records flat_map].
  - by intros [= ->].
  - intros (rec & s1 & Hrec & H)%bind_Ok_inv.
    apply record_at_Ok in Hrec as [-> Hrec].
    apply bind_Ok_inv in H as (rt & s1 & Hrt & H).
    apply node_at_Ok in Hrt as [-> Hrt].
    apply bind_Ok_inv in H as (f & s1 & Hf & H).
    assert (s1 = s /\ f = match last_rule_for o sel (heap s)
                                  (children (heap s) (root rec)) with
                          | Some j => Some j
                          | None => found
                          end) as [-> ->].
    { unfold children. rewrite Hrt.
      destruct (nodes rt) as [[|i ids]|]; cbn [default].
      - by injection Hf as -> ->.
      - split; [eapply pure_Ok; [apply pure_last_match | exact Hf]|].
        by apply last_match_Ok in Hf.
      - by injection Hf as -> ->. }
    apply IH in H. rewrite H, Hrec, last_rule_for_app.
    by destruct (last_rule_for o sel (heap s) (flat_map _ rs)).
Qed.

(** When [findSelector] returns, it returns [rule_for]. *)
Lemma findSelector_rule_for o rootStyles sel s x s' :
  findSelector o rootStyles sel s = Ok x s' -> x = rule_for o rootStyles sel s.
Proof.
  unfold findSelector, rule_for.
  intros (ids & s1 & Hids & H)%bind_Ok_inv.
  rewrite (nodes_of_children _ _ _ _ Hids).
  apply nodes_of_Ok in Hids as [-> _].
  apply bind_Ok_inv in H as (f & s1 & Hf & H).
  pose proof (last_match_Ok _ _ _ _ _ _ _ Hf) as ->.
  assert (s1 = s) as ->
    by (eapply pure_Ok; [apply pure_last_match | exact Hf]).
  destruct (last_rule_for o sel (heap s) ids) as [j|].
  - by injection H as <-.
  - apply bind_Ok_inv in H as (s2 & s1 & Hg & H). injection Hg as <- <-.
    apply last_match_records_Ok in H. rewrite H.
    unfold record_level_nodes.
    by destruct (last_rule_for o sel (heap s) _).
Qed.

Lemma differ_in_nodes_refl touched s : differ_in_nodes touched s s.
Proof. by repeat split. Qed.

Lemma differ_in_nodes_step touched i ids s s' :
  differ_in_nodes touched s s' ->
  differ_in_nodes (touched ++ [i]) s (with_nodes i ids s').
Proof.
  intros (Hr & Ho & Hd & Hh).
  destruct (with_nodes_records i ids s') as [Hr' Ho'].
  split; [congruence|]. split; [congruence|]. split.
  - intros j. by rewrite with_nodes_data.
  - intros j Hj. rewrite with_nodes_lookup.
    destruct (decide (i = j)) as [->|_].
    + exfalso. apply Hj. apply elem_of_app. right. by left.
    + apply Hh. intros Hin. apply Hj. apply elem_of_app. by left.
Qed.

Lemma last_match_frame o sel ids found s s' x :
  (forall j, data <$> heap s' !! j = data <$> heap s !! j) ->
  last_match o sel ids found s = Ok x s ->
  last_match o sel ids found s' = Ok x s'.
Proof.
  intros Hd. revert found. induction ids as [|i ids IH]; intros found;
    cbn [last_match].
  - by intros [= ->].
  - intros (n & s1 & Hn & H)%bind_Ok_inv.
    apply node_at_Ok in Hn as [-> Hn].
    pose proof (Hd i) as Hdi. rewrite Hn in Hdi.
    destruct (heap s' !! i) as [n'|] eqn:Hn'; [|discriminate].
    injection Hdi as Hdi.
    erewrite bind_Ok by by apply node_at_Some. cbv beta.
    replace (selector_matches o sel n') with (selector_matches o sel n)
      by (unfold selector_matches; by rewrite Hdi).
    by apply IH.
Qed.

Lemma last_match_records_frame o sel rs found s s' x :
  records s' = records s ->
  (forall j, data <$> heap s' !! j = data <$> heap s !! j) ->
  (forall r rec, r ∈ rs -> records s !! r = Some rec ->
                 heap s' !! root rec = heap s !! root rec) ->
  last_match_records o sel rs found s = Ok x s ->
  last_match_records o sel rs found s' = Ok x s'.
Proof.
  intros Hr Hd. revert found. induction rs as [|r rs IH]; intros found Hroots;
    cbn [last_match_records].
  - by intros [= ->].
  - intros (rec & s1 & Hrec & H)%bind_Ok_inv.
    apply record_at_Ok in Hrec as [-> Hrec].
    apply bind_Ok_inv in H as (rt & s1 & Hrt & H).
    apply node_at_Ok in Hrt as [-> Hrt].
    apply bind_Ok_inv in H as (f & s1 & Hf & H).
    assert (s1 = s) as ->.
    { destruct (nodes rt) as [[|i ids]|]; try by injection Hf.
      eapply pure_Ok; [apply pure_last_match | exact Hf]. }
    erewrite bind_Ok; cycle 1.
    { unfold record_at. erewrite bind_Ok by reflexivity.
      rewrite Hr, Hrec. reflexivity. }
    cbv beta.
    erewrite bind_Ok; cycle 1.
    { apply node_at_Some. erewrite Hroots; [exact Hrt | by left | exact Hrec]. }
    cbv beta.
    erewrite bind_Ok; cycle 1.
    { destruct (nodes rt) as [[|i ids]|].
      - by injection Hf as ->.
      - eapply last_match_frame; [exact Hd | exact Hf].
      - by injection Hf as ->. }
    cbv beta. apply IH; [|exact H].
    intros r' rec' Hin. apply Hroots. by right.
Qed.

Lemma findSelector_frame o rootStyles sel s s' x :
  records s' = records s ->
  orderedImports s' = orderedImports s ->
  (forall j, data <$> heap s' !! j = data <$> heap s !! j) ->
  heap s' !! rootStyles = heap s !! rootStyles ->
  (forall r rec, r ∈ orderedImports s -> records s !! r = Some rec ->
                 heap s' !! root rec = heap s !! root rec) ->
  findSelector o rootStyles sel s = Ok x s ->
  findSelector o rootStyles sel s' = Ok x s'.
Proof.
  intros Hr Ho Hd Hroot Hroots. unfold findSelector.
  intros (ids & s1 & Hids & H)%bind_Ok_inv.
  apply nodes_of_Ok in Hids as (-> & n & Hn & Hk).
  apply bind_Ok_inv in H as (f & s1 & Hf & H).
  assert (s1 = s) as ->
    by (eapply pure_Ok; [apply pure_last_match | exact Hf]).
  erewrite bind_Ok; cycle 1.
  { eapply nodes_of_Some; [by rewrite Hroot | exact Hk]. }
  cbv beta.
  erewrite bind_Ok by (eapply last_match_frame; [exact Hd | exact Hf]).
  cbv beta. destruct f as [i|].
  - by injection H as ->.
  - apply bind_Ok_inv in H as (s2 & s1 & Hg & H). injection Hg as -> ->.
    erewrite bind_Ok by reflexivity. cbv beta. rewrite Ho.
    eapply last_match_records_frame; [exact Hr | exact Hd | | exact H].
    intros r rec Hin. rewrite <- Ho in Hin. revert Hin. rewrite Ho. apply Hroots.
Qed.

(** ** Parsed trees and the objects made from them *)

(** Induction on trees that reaches the children of a branch. *)
Lemma tree_induction (P : tree -> Prop) :
  (forall d, P (Leaf d)) ->
  (forall d kids, Forall P kids -> P (Branch d kids)) ->
  forall t, P t.
Proof.
  intros Hl Hb. fix IH 1. intros [d|d kids]; [apply Hl|].
  apply Hb. induction kids as [|k kids IHk]; constructor; [apply IH | exact IHk].
Qed.

Lemma repr_mono h lo m h' lo' m' i t :
  repr h lo m i t ->
  lo' <= lo -> m <= m' ->
  (forall j, lo <= j < m -> h' !! j = h !! j) ->
  repr h' lo' m' i t.
Proof.
  intros Hr Hlo Hm Hh. revert i Hr.
  induction t as [d|d kids IH] using tree_induction; intros i Hr;
    inversion Hr; subst.
  - eapply repr_leaf; [lia | rewrite Hh; eassumption].
  - eapply repr_branch; [lia | rewrite Hh; eassumption |].
    match goal with H : Forall2 _ ids kids |- _ => revert H end.
    clear -IH. intros HF. induction HF as [|j k ids kids Hjk _ IHF];
      constructor.
    + apply Forall_cons in IH as [IHk _]. by apply IHk.
    + apply Forall_cons in IH as [_ IHs]. by apply IHF.
Qed.

Lemma alloc_branch d ts par h n :
  alloc (Branch d ts) par h n
  = let '(ids, h', n') := alloc_list n ts h (S n) in
    (<[n := Node d (Some ids) par]> h', n').
Proof.
  cbn [alloc].
  assert (Heq : forall ts h m,
    (fix alloc_list (ts : list tree) (h : gmap nat node) (m : nat)
       : list nat * gmap nat node * nat :=
       match ts with
       | [] => ([], h, m)
       | t' :: ts' =>
         let '(h1, m1) := alloc t' (Some n) h m in
         let '(ids, h2, m2) := alloc_list ts' h1 m1 in
         (m :: ids, h2, m2)
       end) ts h m = alloc_list n ts h m).
  { clear. induction ts as [|t ts IH]; intros h m; [reflexivity|].
    cbn [alloc_list]. destruct (alloc t (Some n) h m) as [h1 m1].
    by rewrite IH. }
  by rewrite Heq.
Qed.

Lemma alloc_spec t : forall par h n h' n',
  alloc t par h n = (h', n') ->
  n < n' /\ (forall j, j < n -> h' !! j = h !! j) /\ repr h' n n' n t.
Proof.
  induction t as [d|d kids IH] using tree_induction; intros par h n h' n'.
  - cbn [alloc]. intros [= <- <-]. split; [lia|]. split.
    + intros j Hj. apply lookup_insert_ne. lia.
    + eapply repr_leaf; [lia | apply lookup_insert_eq].
  - rewrite alloc_branch.
    destruct (alloc_list n kids h (S n)) as [[ids h1] n1] eqn:Hal.
    intros [= <- <-].
    assert (Hlist : forall m h0 ids h1 n1,
      alloc_list n kids h0 m = (ids, h1, n1) ->
      m <= n1 /\ (forall j, j < m -> h1 !! j = h0 !! j)
      /\ Forall2 (repr h1 m n1) ids kids).
    { clear Hal ids h1 n1. induction kids as [|k kids IHk];
        intros m h0 ids h1 n1; cbn [alloc_list].
      - intros [= <- <- <-]. split; [lia|]. split; [auto | constructor].
      - apply Forall_cons in IH as [IHhead IHtail].
        destruct (alloc k (Some n) h0 m) as [h2 m2] eqn:Hk.
        destruct (alloc_list n kids h2 m2) as [[ids' h3] m3] eqn:Hks.
        intros [= <- <- <-].
        apply IHhead in Hk as (Hlt & Hkeep & Hrepr).
        destruct (IHk IHtail m2 _ _ _ _ Hks) as (Hle & Hkeep' & Hall).
        split; [lia|]. split.
        + intros j Hj. rewrite Hkeep' by lia. by apply Hkeep.
        + constructor.
          * eapply repr_mono; [exact Hrepr | lia | exact Hle |].
            intros j Hj. apply Hkeep'. lia.
          * eapply Forall2_impl; [exact Hall|]. cbn. intros i t Hit.
            eapply repr_mono; [exact Hit | lia | lia | auto]. }
    destruct (Hlist (S n) _ _ _ _ Hal) as (Hle & Hkeep & Hall).
    split; [lia|]. split.
    + intros j Hj. rewrite lookup_insert_ne by lia. apply Hkeep. lia.
    + eapply repr_branch; [lia | apply lookup_insert_eq |].
      eapply Forall2_impl; [exact Hall|]. cbn. intros i k Hik.
      eapply repr_mono; [exact Hik | lia | lia |].
      intros j Hj. apply lookup_insert_ne. lia.
Qed.

(** ** Discovery on an acyclic graph *)

Lemma options_induction (P : options -> Prop) :
  (forall r m ps, Forall P ps -> P (Options r m ps)) ->
  forall o, P o.
Proof.
  intros H. fix IH 1. intros [r m ps]. apply H.
  induction ps as [|p ps IHp]; constructor; [apply IH | exact IHp].
Qed.

Lemma subopts_self o : o ∈ subopts o.
Proof. destruct o. cbn. by left. Qed.

Lemma subopts_trans O :
  forall o p, o ∈ subopts O -> p ∈ subopts o -> p ∈ subopts O.
Proof.
  induction O as [r m ps IH] using options_induction. intros o p Ho Hp.
  cbn [subopts] in Ho. apply elem_of_cons in Ho as [->|Ho]; [exact Hp|].
  cbn [subopts]. right.
  apply list_elem_of_In, in_flat_map in Ho as (q & Hq & Ho).
  apply list_elem_of_In, in_flat_map. exists q. split; [exact Hq|].
  apply list_elem_of_In. rewrite Forall_forall in IH.
  eapply IH; [by apply list_elem_of_In | by apply list_elem_of_In | exact Hp].
Qed.

Lemma subopts_plugin O o p :
  o ∈ subopts O -> p ∈ plugins o -> p ∈ subopts O.
Proof.
  intros Ho Hp. eapply subopts_trans; [exact Ho|].
  destruct o as [r m ps]. cbn in *. right.
  apply list_elem_of_In, in_flat_map. exists p.
  split; apply list_elem_of_In; [exact Hp | apply subopts_self].
Qed.

Section Discovery.

Variable files : string -> option tree.
Variable O : options.
Variable rank : string -> nat.

(** [F] is what [wp_fuel] asks of a run that exhausts the step budget, and
    [levels] a number of levels that no file exceeds, unless [F] holds
    anyway. *)
Variable F : Prop.
Variable levels : nat.

Lemma grows_refl b s : grows rank b s s.
Proof. repeat split; auto. Qed.

Lemma grows_trans b s1 s2 s3 :
  grows rank b s1 s2 -> grows rank b s2 s3 -> grows rank b s1 s3.
Proof.
  intros (Hn & Hh & Hr & Hi & Hm) (Hn' & Hh' & Hr' & Hi' & Hm').
  split; [lia|]. split; [|split; [|split]].
  - intros j Hj. rewrite Hh' by lia. by apply Hh.
  - intros p Hp. destruct (Hr' p Hp) as [H|H]; auto.
  - intros p Hp. destruct (Hi' p Hp) as [H|H]; auto.
  - auto.
Qed.

Lemma grows_weaken b c s s' : grows rank c s s' -> c <= b -> grows rank b s s'.
Proof.
  intros (Hn & Hh & Hr & Hi & Hm) Hle. repeat split; auto.
  - intros p Hp. destruct (Hr p Hp); [auto | right; lia].
  - intros p Hp. destruct (Hi p Hp); [auto | right; lia].
Qed.

Lemma settled_weaken b c s : settled rank b s -> c <= b -> settled rank c s.
Proof. intros H Hle p Hp. destruct (H p Hp); [auto | right; lia]. Qed.

Lemma settled_after b c s s' :
  settled rank b s -> grows rank c s s' -> settled rank c s' -> c <= b ->
  settled rank b s'.
Proof.
  intros Hs (_ & _ & Hr & _ & Hm) Hs' Hle p Hp.
  destruct (Hr p Hp) as [Hold|Hnew].
  - destruct (Hs p Hold); auto.
  - destruct (Hs' p Hp); [auto | lia].
Qed.

Lemma repr_grows b s s' i t :
  repr (heap s) 0 (next s) i t -> grows rank b s s' ->
  repr (heap s') 0 (next s') i t.
Proof.
  intros Hr (Hn & Hh & _). eapply repr_mono; [exact Hr | lia | exact Hn |].
  intros j Hj. apply Hh. lia.
Qed.

Lemma settled_same b s s' :
  reads s' = reads s -> imports s' = imports s -> settled rank b s ->
  settled rank b s'.
Proof. unfold settled. intros -> ->. auto. Qed.

Lemma grows_same b s s' :
  next s' = next s -> heap s' = heap s -> reads s' = reads s ->
  imports s' = imports s -> grows rank b s s'.
Proof. unfold grows. intros -> -> -> ->. repeat split; auto. Qed.

(** A change of a record that keeps its path. *)
Lemma consistent_update_record s r rec rec' :
  consistent s ->
  records s !! r = Some rec ->
  fullpath rec' = fullpath rec ->
  consistent (set_records (fun rs => <[r := rec']> rs) s).
Proof.
  intros Hc Hr Hp.
  assert (Hpaths : paths (set_records (fun rs => <[r := rec']> rs) s)
                   = paths s).
  { unfold paths. cbn. rewrite list_fmap_insert, Hp.
    apply list_insert_id. by rewrite list_lookup_fmap, Hr. }
  unfold consistent. rewrite Hpaths. exact Hc.
Qed.

Lemma record_of_path s p r :
  consistent s -> imports s !! p = Some r ->
  exists rec, records s !! r = Some rec /\ fullpath rec = p.
Proof.
  intros (_ & _ & _ & Hi & _) Hp. apply Hi in Hp.
  unfold paths in Hp. rewrite list_lookup_fmap in Hp.
  destruct (records s !! r) as [rec|]; [|discriminate].
  injection Hp as Hp. eauto.
Qed.

Lemma mark_global_inv b s p r :
  consistent s -> settled rank b s -> imports s !! p = Some r ->
  wp_fuel F (mark_global r)
     (fun _ s' => consistent s' /\ settled rank b s' /\ grows rank b s s')
     (fun _ s' => consistent s') s.
Proof.
  intros Hc Hs Hp. destruct (record_of_path s p r Hc Hp) as (rec & Hr & _).
  unfold wp_fuel, mark_global. erewrite bind_Ok; cycle 1.
  { unfold record_at. erewrite bind_Ok by reflexivity. by rewrite Hr. }
  cbn. split; [|split].
  - eapply consistent_update_record; [exact Hc | exact Hr | reflexivity].
  - by apply (settled_same b s).
  - by apply grows_same.
Qed.

Lemma add_inclusionRule_inv b s p r rule :
  consistent s -> settled rank b s -> imports s !! p = Some r ->
  wp_fuel F (add_inclusionRule r rule)
     (fun _ s' => consistent s' /\ settled rank b s' /\ grows rank b s s')
     (fun _ s' => consistent s') s.
Proof.
  intros Hc Hs Hp. destruct (record_of_path s p r Hc Hp) as (rec & Hr & _).
  unfold wp_fuel, add_inclusionRule. erewrite bind_Ok; cycle 1.
  { unfold record_at. erewrite bind_Ok by reflexivity. by rewrite Hr. }
  cbn. split; [|split].
  - eapply consistent_update_record; [exact Hc | exact Hr | reflexivity].
  - by apply (settled_same b s).
  - by apply grows_same.
Qed.

(** Reading a file that has no record yet and whose rank is under [b]. *)
Lemma read_and_parse_inv b s q :
  consistent s -> settled rank b s -> imports s !! q = None -> rank q < b ->
  wp_fuel F (read_and_parse files q)
     (fun rt s' =>
        exists tq, files q = Some tq
        /\ repr (heap s') 0 (next s') rt tq
        /\ consistent s' /\ settled rank (rank q) s' /\ grows rank b s s'
        /\ imports s' = imports s /\ reads s' = reads s ++ [q])
     (fun _ s' => consistent s') s.
Proof.
  intros Hc Hs Hq Hrank.
  assert (Hfresh : q ∉ reads s).
  { intros Hin. destruct (Hs q Hin) as [[r Hr]|Hle]; [congruence | lia]. }
  assert (Hc' : consistent (set_reads (fun l => l ++ [q]) s)).
  { destruct Hc as (Hnd & Hrest). split; [|exact Hrest]. cbn.
    apply NoDup_app. split; [exact Hnd|]. split.
    - intros x Hx ->%list_elem_of_singleton. by apply Hfresh.
    - apply NoDup_singleton. }
  unfold wp_fuel, read_and_parse. erewrite bind_Ok by reflexivity. cbv beta.
  destruct (files q) as [tq|] eqn:Hf; [|exact Hc'].
  unfold alloc_tree. erewrite bind_Ok by reflexivity. cbv beta.
  destruct (alloc tq None _ _) as [h n] eqn:Ha.
  cbn in Ha. apply alloc_spec in Ha as (Hlt & Hkeep & Hrepr).
  cbn. exists tq. split; [reflexivity|]. split; [|split; [|split; [|split]]].
  - eapply repr_mono; [exact Hrepr | lia | lia | auto].
  - exact Hc'.
  - intros p [Hp| ->%list_elem_of_singleton]%elem_of_app.
    + destruct (Hs p Hp); [auto | right; lia].
    + right. lia.
  - split; [cbn; lia|]. split; [exact Hkeep|]. cbn. split; [|split].
    + intros p [Hp| ->%list_elem_of_singleton]%elem_of_app; auto.
    + auto.
    + auto.
  - auto.
Qed.

(** Registering the record of the file [q] once its [process] is over:
    [s1] is the state before the read, [sa] the one after the parse. *)
Lemma register_inv b s1 sa s q rt sn fromPath flag rules :
  consistent s -> settled rank (rank q) s ->
  settled rank b s1 -> rank q < b -> imports s1 !! q = None ->
  imports sa = imports s1 -> reads sa = reads s1 ++ [q] ->
  grows rank b s1 sa -> grows rank (rank q) sa s ->
  let s' :=
    set_orderedImports (fun l => l ++ [length (records s)])
      (set_imports (fun m => <[q := length (records s)]> m)
         (set_records (fun rs => rs ++ [ImportOpts rt sn q fromPath flag
                                          rules]) s)) in
  consistent s' /\ settled rank b s' /\ grows rank b s1 s'.
Proof.
  intros (Hnd & Hndp & Ho & Hi & Hp) Hs Hs1 Hrank Hq1 Hia Hra Hg1 Hga s'.
  pose proof (grows_trans b _ _ _ Hg1
                (grows_weaken b _ _ _ Hga ltac:(lia))) as Hg.
  destruct Hga as (_ & _ & Hr & Him & Hmono).
  assert (Hq : imports s !! q = None).
  { destruct (imports s !! q) as [r|] eqn:E; [|reflexivity].
    destruct (Him q) as [[r' Hr']|Hlt]; [eauto | congruence | lia]. }
  assert (Hqp : q ∉ paths s).
  { intros Hin. apply Hp in Hin as [r Hr']. congruence. }
  assert (Hpaths : paths s' = paths s ++ [q]).
  { unfold paths, s'. cbn. by rewrite map_app. }
  assert (Hlen : length (records s) = length (paths s)).
  { unfold paths. by rewrite length_map. }
  split; [|split].
  - unfold consistent. rewrite Hpaths.
    split; [exact Hnd|]. split; [|split; [|split]].
    + apply NoDup_app. split; [exact Hndp|]. split; [|apply NoDup_singleton].
      intros x Hx ->%list_elem_of_singleton. by apply Hqp.
    + subst s'. cbn. rewrite Ho, length_app, Hlen. cbn.
      by rewrite Nat.add_1_r, seq_S.
    + intros p r. subst s'. cbn. rewrite Hlen.
      destruct (decide (q = p)) as [->|Hne].
      * rewrite lookup_insert_eq. intros [= <-].
        by rewrite lookup_app_r, Nat.sub_diag.
      * rewrite lookup_insert_ne by exact Hne. intros Hpr.
        apply Hi in Hpr. by apply lookup_app_l_Some.
    + intros p [Hin| ->%list_elem_of_singleton]%elem_of_app; subst s'; cbn.
      * destruct (decide (q = p)) as [->|Hne];
          [by rewrite lookup_insert_eq | rewrite lookup_insert_ne by exact Hne].
        by apply Hp.
      * by rewrite lookup_insert_eq.
  - intros p Hin. subst s'. cbn in *.
    destruct (decide (q = p)) as [->|Hne]; [left; by rewrite lookup_insert_eq|].
    rewrite lookup_insert_ne by exact Hne.
    destruct (Hr p Hin) as [Hold|Hnew].
    + rewrite Hra in Hold.
      apply elem_of_app in Hold as [Hold| ->%list_elem_of_singleton];
        [|congruence].
      destruct (Hs1 p Hold) as [Hreg|Hle]; [left | by right].
      apply Hmono. by rewrite Hia.
    + destruct (Hs p Hin) as [Hreg|Hle]; [by left | lia].
  - destruct Hg as (Hn & Hh & Hr' & Him' & Hmono').
    subst s'. unfold grows. cbn in *.
    split; [exact Hn|]. split; [exact Hh|]. split; [exact Hr'|]. split.
    + intros p. destruct (decide (q = p)) as [->|Hne]; [by right|].
      rewrite lookup_insert_ne by exact Hne. apply Him'.
    + intros p Hreg. destruct (decide (q = p)) as [->|Hne];
        [by rewrite lookup_insert_eq | rewrite lookup_insert_ne by exact Hne].
      by apply Hmono'.
Qed.

Lemma nodes_of_None i s n :
  heap s !! i = Some n -> nodes n = None ->
  nodes_of i s = Throw (TypeError "nodes is undefined") s.
Proof.
  intros H Hk. unfold nodes_of. erewrite bind_Ok by by apply node_at_Some.
  cbv beta. by rewrite Hk.
Qed.

Lemma imports_of_kid (kids : list tree) (k : tree) f :
  k ∈ kids -> f ∈ imports_of k -> f ∈ flat_map imports_of kids.
Proof.
  intros Hk Hf. apply list_elem_of_In, in_flat_map. exists k.
  split; by apply list_elem_of_In.
Qed.

Lemma height_pos (t : tree) : 1 <= height t.
Proof. destruct t; cbn; lia. Qed.

Lemma height_kid d (kids : list tree) (k : tree) :
  k ∈ kids -> height k < height (Branch d kids).
Proof.
  intros Hk. cbn [height]. apply Nat.lt_succ_r, max_list_elem_of_le.
  apply list_elem_of_fmap. by exists k.
Qed.

Hypothesis no_cycle : acyclic files O rank.
Hypothesis bounded : F \/ forall p t, files p = Some t -> height t <= levels.

(** The step budget that is enough for a part [t] of a file whose imports
    have ranks under [b] is enough, less one step, for each of its parts
    and for each of the files that it imports. *)
Lemma fuel_for_kid fuel d (kids : list tree) (k : tree) b :
  F \/ height (Branch d kids) + b * levels <= S fuel ->
  k ∈ kids ->
  F \/ height k + b * levels <= fuel.
Proof.
  intros [HF|Hle] Hk; [by left | right].
  pose proof (height_kid d kids k Hk). lia.
Qed.

Lemma fuel_for_import fuel (t tq : tree) b q :
  F \/ height t + b * levels <= S fuel ->
  rank q < b -> files q = Some tq ->
  F \/ height tq + rank q * levels <= fuel.
Proof.
  intros [HF|Hle] Hrank Hq; [by left|].
  destruct bounded as [HF|Hb]; [by left | right].
  pose proof (Hb q tq Hq). pose proof (height_pos t).
  pose proof (Nat.mul_le_mono_r (S (rank q)) b levels Hrank). cbn in *. lia.
Qed.

(** What a discovery keeps, on a part [t] of the file [fromPath] whose
    imports have ranks under [b]. *)
Lemma findImports_inv fuel :
  forall o styles fromPath t b s,
    o ∈ subopts O ->
    repr (heap s) 0 (next s) styles t ->
    below O rank b fromPath (imports_under t) ->
    consistent s -> settled rank b s ->
    F \/ height t + b * levels <= fuel ->
    wp_fuel F (findImports files fuel o styles fromPath)
       (fun _ s' => consistent s' /\ settled rank b s' /\ grows rank b s s')
       (fun _ s' => consistent s') s.
Proof.
  induction fuel as [|fuel IH];
    intros o styles fromPath t b s Ho Hrepr Hbelow Hc Hs Hfuel;
    cbn [findImports].
  { destruct Hfuel as [HF|Hle]; [exact HF|].
    pose proof (height_pos t). lia. }
  apply wp_fuel_bind.
  inversion Hrepr as [i d par Hi Hn|i d par ids kids Hi Hn Hkids]; subst.
  { unfold wp_fuel. erewrite nodes_of_None by (exact Hn || reflexivity).
    exact Hc. }
  unfold wp_fuel at 1. erewrite nodes_of_Some by (exact Hn || reflexivity).
  cbv beta iota. cbn [imports_under] in Hbelow.
  set (J := fun s1 => consistent s1 /\ settled rank b s1 /\ grows rank b s s1).
  eapply (wp_fuel_mono _ _ (fun _ => J));
    [|intros u' s' HJ; exact HJ|intros e' s' He'; exact He'].
  apply wp_fuel_forEach;
    [|split; [exact Hc | split; [exact Hs | apply grows_refl]]].
  intros x s1 Hx (Hc1 & Hs1 & Hg1).
  apply list_elem_of_lookup in Hx as [ix Hx].
  destruct (Forall2_lookup_l _ _ _ _ _ Hkids Hx) as (k & Hk & Hxk).
  apply list_elem_of_lookup_2 in Hk.
  pose proof (repr_grows _ _ _ _ _ Hxk Hg1) as Hxk1.
  assert (Hback : forall s2,
            consistent s2 /\ settled rank b s2 /\ grows rank b s1 s2 -> J s2).
  { intros s2 (? & ? & ?). split; [assumption|]. split; [assumption|].
    eapply grows_trans; eassumption. }
  assert (Himport : forall dx nx,
    heap s1 !! x = Some nx -> data nx = dx -> is_import dx = true ->
    filename dx ∈ imports_of k ->
    wp_fuel F (let fromInclusionRule := fromInclusionRule (data nx) in
        let filename := strip_quotes (filename (data nx)) in
        let fullpath := resolve o filename (dirname fromPath) in
        s <- get ;;
        match imports s !! fullpath with
        | Some r =>
          if negb (truthy fromInclusionRule) then mark_global r
          else add_inclusionRule r (default "" fromInclusionRule)
        | None =>
          root <- read_and_parse files fullpath ;;
          forEach (fun p => findImports files fuel p root fullpath)
                  (plugins o) ;;;
          s <- get ;;
          let r := length (records s) in
          modify (fun s =>
            set_orderedImports (fun l => l ++ [r])
              (set_imports (fun m => <[fullpath := r]> m)
                 (set_records (fun rs => rs ++
                    [ImportOpts root x fullpath fromPath
                       (negb (truthy fromInclusionRule))
                       (initial_rules fromInclusionRule)]) s))) ;;;
          findImports files fuel o root fullpath
        end)
       (fun _ => J) (fun _ s' => consistent s') s1).
  { intros dx nx Hnx Hdx Himp Hf. cbv zeta. rewrite Hdx.
    set (q := resolve o (strip_quotes (filename dx)) (dirname fromPath)).
    assert (Hrank : rank q < b).
    { apply Hbelow; [exact Ho|]. eapply imports_of_kid; eassumption. }
    apply wp_fuel_bind, wp_fuel_get.
    destruct (imports s1 !! q) as [r|] eqn:Hq.
    - destruct (negb (truthy (fromInclusionRule dx))).
      + eapply wp_fuel_mono;
          [eapply mark_global_inv; eassumption | | intros e' s' He'; exact He'].
        intros u2 s2 H2. by apply Hback.
      + eapply wp_fuel_mono;
          [eapply add_inclusionRule_inv; eassumption | |
           intros e' s' He'; exact He'].
        intros u2 s2 H2. by apply Hback.
    - apply wp_fuel_bind.
      eapply wp_fuel_mono;
        [eapply read_and_parse_inv; eassumption | |
         intros e' s' He'; exact He'].
      cbn beta.
      intros rt sa (tq & Hfq & Hrt & Hca & Hsa & Hga & Hia & Hra).
      assert (Hbq : below O rank (rank q) q (imports_under tq)).
      { intros o' f' Ho' Hf'. eapply no_cycle; eassumption. }
      apply wp_fuel_bind.
      set (J2 := fun s2 => consistent s2 /\ settled rank (rank q) s2
                           /\ grows rank (rank q) sa s2).
      eapply (wp_fuel_mono _ _ (fun _ => J2)); [| |intros e' s' He'; exact He'].
      { apply wp_fuel_forEach;
          [|split; [exact Hca | split; [exact Hsa | apply grows_refl]]].
        intros p s2 Hp (Hc2 & Hs2 & Hg2).
        eapply wp_fuel_mono; [eapply (IH p rt q tq (rank q) s2) | |].
        - eapply subopts_plugin; eassumption.
        - eapply repr_grows; eassumption.
        - exact Hbq.
        - exact Hc2.
        - exact Hs2.
        - eapply fuel_for_import; eassumption.
        - cbn beta. intros u3 s3 (? & ? & ?).
          split; [assumption|]. split; [assumption|].
          eapply grows_trans; eassumption.
        - intros e' s' He'. exact He'. }
      cbn beta. intros u2 s2 (Hc2 & Hs2 & Hg2).
      apply wp_fuel_bind, wp_fuel_get. apply wp_fuel_bind, wp_fuel_modify.
      match goal with |- wp_fuel _ _ _ _ ?s3' => set (s3 := s3') end.
      destruct (register_inv b s1 sa s2 q rt x fromPath
                  (negb (truthy (fromInclusionRule dx)))
                  (initial_rules (fromInclusionRule dx))
                  Hc2 Hs2 Hs1 Hrank Hq Hia Hra Hga Hg2)
        as (Hc3 & Hs3 & Hg3).
      fold s3 in Hc3, Hs3, Hg3.
      eapply wp_fuel_mono; [eapply (IH o rt q tq (rank q) s3) | |].
      + exact Ho.
      + eapply (repr_mono (heap s2) 0 (next s2)); [|lia|reflexivity|reflexivity].
        eapply repr_grows; eassumption.
      + exact Hbq.
      + exact Hc3.
      + eapply settled_weaken; [exact Hs3 | lia].
      + eapply fuel_for_import; eassumption.
      + cbn beta. intros u4 s4 (Hc4 & Hs4 & Hg4). apply Hback.
        split; [exact Hc4|]. split.
        * eapply settled_after; [exact Hs3 | exact Hg4 | exact Hs4 | lia].
        * eapply grows_trans; [exact Hg3|].
          eapply grows_weaken; [exact Hg4 | lia].
      + intros e' s' He'. exact He'. }
  apply wp_fuel_bind. unfold wp_fuel at 1.
  inversion Hxk1 as [i d' par' Hi' Hn'|i d' par' ids' kids' Hi' Hn' Hkids'];
    subst.
  - erewrite node_at_Some by exact Hn'. cbv beta iota.
    change (isImportNode (Node d' None par')) with (is_import d').
    destruct (is_import d') eqn:Himp.
    + apply (Himport d' (Node d' None par') Hn' eq_refl Himp).
      cbn [imports_of]. rewrite Himp. by left.
    + apply Hback. split; [exact Hc1|]. split; [exact Hs1 | apply grows_refl].
  - erewrite node_at_Some by exact Hn'. cbv beta iota.
    change (isImportNode (Node d' (Some ids') par')) with (is_import d').
    destruct (is_import d') eqn:Himp.
    + apply (Himport d' (Node d' (Some ids') par') Hn' eq_refl Himp).
      cbn [imports_of]. rewrite Himp. by left.
    + eapply wp_fuel_mono;
        [eapply (IH o x fromPath (Branch d' kids') b s1) | |].
      * exact Ho.
      * exact Hxk1.
      * intros o' f' Ho' Hf'. apply Hbelow; [exact Ho'|].
        eapply imports_of_kid; [exact Hk|].
        cbn [imports_of]. rewrite Himp. exact Hf'.
      * exact Hc1.
      * exact Hs1.
      * eapply fuel_for_kid; eassumption.
      * cbn beta. intros u2 s2 H2. by apply Hback.
      * intros e' s' He'. exact He'.
Qed.

(** The state in which a build starts its discovery. *)
Lemma alloc_tree_start sheet :
  exists rootStyles s0,
    alloc_tree sheet empty_st = Ok rootStyles s0
    /\ repr (heap s0) 0 (next s0) rootStyles sheet
    /\ reads s0 = [] /\ records s0 = [] /\ imports s0 = ∅
    /\ orderedImports s0 = [].
Proof.
  unfold alloc_tree. erewrite bind_Ok by reflexivity. cbv beta.
  destruct (alloc sheet None (heap empty_st) (next empty_st)) as [h n] eqn:Ha.
  apply alloc_spec in Ha as (_ & _ & Hrepr).
  eexists _, _. split; [reflexivity|]. cbn. repeat split. exact Hrepr.
Qed.

End Discovery.

(** ** The injection leaves the records' registry alone *)

Lemma keeps_ret {A} (a : A) : keeps (ret a).
Proof. intros s. reflexivity. Qed.

Lemma keeps_throw {A} e : keeps (throw (A := A) e).
Proof. intros s. reflexivity. Qed.

Lemma keeps_bind {A B} (c : M st A) (k : A -> M st B) :
  keeps c -> (forall a, keeps (k a)) -> keeps (bind c k).
Proof.
  intros Hc Hk s. apply wp_bind. eapply wp_mono; [apply Hc | | auto].
  cbn beta. intros a s1 H1. eapply wp_mono; [apply Hk | |].
  - cbn beta. intros b s2 H2. congruence.
  - cbn beta. intros e s2 H2. congruence.
Qed.

Lemma keeps_pure {A} (c : M st A) : (forall s, pure_on s c) -> keeps c.
Proof.
  intros Hp s. eapply wp_mono; [apply Hp | |]; cbn beta; by intros ? ? ->.
Qed.

Lemma keeps_forEach {A} (f : A -> M st unit) xs :
  (forall x, keeps (f x)) -> keeps (forEach f xs).
Proof.
  intros Hf. induction xs as [|x xs IH]; cbn [forEach].
  - apply keeps_ret.
  - apply keeps_bind; [apply Hf | intros _; exact IH].
Qed.

Lemma keeps_set_heap f : keeps (modify (set_heap f)).
Proof. intros s. reflexivity. Qed.

Lemma keeps_set_messages f : keeps (modify (set_messages f)).
Proof. intros s. reflexivity. Qed.

Lemma keeps_node_at i : keeps (node_at i).
Proof. apply keeps_pure, pure_node_at. Qed.

Lemma keeps_nodes_of i : keeps (nodes_of i).
Proof. apply keeps_pure, pure_nodes_of. Qed.

Lemma keeps_set_nodes i ids : keeps (set_nodes i ids).
Proof.
  apply keeps_bind; [apply keeps_node_at | intros n; apply keeps_set_heap].
Qed.

Lemma keeps_set_parent i p : keeps (set_parent i p).
Proof.
  apply keeps_bind; [apply keeps_node_at | intros n; apply keeps_set_heap].
Qed.

Lemma keeps_set_before i b : keeps (set_before i b).
Proof.
  apply keeps_bind; [apply keeps_node_at | intros n; apply keeps_set_heap].
Qed.

Lemma keeps_replace_imports o rec fr snapshot found :
  keeps (replace_imports o rec fr snapshot found).
Proof.
  revert found. induction snapshot as [|i ids IH]; intros found;
    cbn [replace_imports]; [apply keeps_ret|].
  apply keeps_bind; [apply keeps_node_at | intros n].
  apply keeps_bind; [|intros f; apply IH].
  destruct (isImportNode n); [|apply keeps_ret].
  cbv zeta. destruct (str_eqb _ _); [|apply keeps_ret].
  apply keeps_bind; [apply keeps_nodes_of | intros live].
  cbv zeta. apply keeps_bind; [apply keeps_nodes_of | intros items].
  apply keeps_bind; [apply keeps_set_nodes | intros _; apply keeps_ret].
Qed.

Lemma keeps_inject_into_rule o rootStyles rec rule :
  keeps (inject_into_rule o rootStyles rec rule).
Proof.
  apply keeps_bind; [apply keeps_pure; intros s; apply pure_findSelector|].
  intros [fr|]; [|apply keeps_throw].
  apply keeps_bind; [apply keeps_nodes_of | intros snapshot].
  apply keeps_bind; [apply keeps_replace_imports | intros [|]].
  - apply keeps_ret.
  - apply keeps_throw.
Qed.

Lemma keeps_safeRemove node : keeps (safeRemove node).
Proof.
  apply keeps_bind; [apply keeps_node_at | intros n].
  destruct (parent n) as [p|]; [|apply keeps_ret].
  apply keeps_bind; [apply keeps_node_at | intros pn].
  destruct (nodes pn) as [kids|]; [|apply keeps_ret].
  cbv zeta. destruct (Z.eqb _ _); [apply keeps_ret|].
  apply keeps_bind; [apply keeps_set_parent | intros _; apply keeps_set_nodes].
Qed.

Lemma keeps_inject_record fuel o rootStyles r :
  keeps (inject_record fuel o rootStyles r).
Proof.
  apply keeps_bind; [apply keeps_pure, pure_record_at | intros rec].
  apply keeps_bind.
  { apply keeps_bind; [apply keeps_node_at | intros sn].
    apply keeps_bind; [destruct (parent sn); [apply keeps_ret | apply keeps_throw]|].
    intros par. apply keeps_bind; [apply keeps_nodes_of | intros parentNodes].
    cbv zeta. apply keeps_bind; [apply keeps_set_messages | intros _].
    apply keeps_bind; [|intros found; apply keeps_ret].
    destruct (Z.eqb _ _); [|apply keeps_ret].
    apply keeps_pure. intros s. apply pure_recursiveLook. }
  intros prevNode. apply keeps_bind.
  { apply keeps_bind; [apply keeps_nodes_of | intros [|first rest]].
    - apply keeps_ret.
    - apply keeps_set_before. }
  intros _. apply keeps_bind.
  { unfold push_or_scope. destruct (isGloballyImported rec).
    - apply keeps_bind; [apply keeps_nodes_of | intros items; apply keeps_ret].
    - apply keeps_bind; [|intros _; apply keeps_ret].
      apply keeps_forEach. intros rule. apply keeps_inject_into_rule. }
  intros pushed. apply keeps_bind; [|intros _; apply keeps_ret].
  destruct prevNode as [pn|]; [|apply keeps_ret].
  apply keeps_bind; [apply keeps_node_at | intros n].
  destruct (_ && _); [apply keeps_safeRemove | apply keeps_ret].
Qed.

Lemma keeps_inject_all fuel o rootStyles rs acc :
  keeps (inject_all fuel o rootStyles rs acc).
Proof.
  revert acc. induction rs as [|r rs IH]; intros acc; cbn [inject_all].
  - apply keeps_ret.
  - apply keeps_bind; [apply keeps_inject_record | intros pushed; apply IH].
Qed.

Lemma keeps_removeAllImports fuel rootNode :
  keeps (removeAllImports fuel rootNode).
Proof.
  revert rootNode. induction fuel as [|fuel IH]; intros rootNode;
    cbn [removeAllImports]; [intros s; exact I|].
  apply keeps_bind; [apply keeps_nodes_of | intros snapshot].
  apply keeps_forEach. intros node.
  apply keeps_bind; [apply keeps_node_at | intros n].
  destruct (isImportNode n).
  - apply keeps_bind; [apply keeps_nodes_of | intros live].
    cbv zeta. apply keeps_bind; [apply keeps_set_nodes | intros _].
    destruct (at_index _ _); [apply keeps_set_before | apply keeps_ret].
  - destruct (nodes n); [apply IH | apply keeps_ret].
Qed.

Lemma keeps_injection fuel o rootStyles :
  keeps (s <- get ;;
         sharedDependencies <-
           inject_all fuel o rootStyles (orderedImports s) [] ;;
         ids <- nodes_of rootStyles ;;
         set_nodes rootStyles (splice ids 0 0 sharedDependencies) ;;;
         removeAllImports fuel rootStyles).
Proof.
  apply keeps_bind; [intros s; reflexivity | intros s].
  apply keeps_bind; [apply keeps_inject_all | intros shared].
  apply keeps_bind; [apply keeps_nodes_of | intros ids].
  apply keeps_bind; [apply keeps_set_nodes | intros _].
  apply keeps_removeAllImports.
Qed.

Lemma consistent_registry s s' :
  registry s' = registry s -> consistent s -> consistent s'.
Proof.
  unfold registry. intros H. injection H as H1 H2 H3 H4.
  unfold consistent, paths. rewrite H1, H2, H3, H4. auto.
Qed.

(** A build on an acyclic graph leaves a consistent registry, however it
    ends, and when it ends well every path that was read has its record. *)
Lemma build_consistent files o rank fuel sheet from :
  acyclic files o rank ->
  below o rank (rank from) from (imports_under sheet) ->
  wp (build files fuel o sheet from)
     (fun _ s => consistent s /\ forall p, p ∈ reads s -> p ∈ paths s)
     (fun _ s => consistent s) empty_st.
Proof.
  intros Hacyclic Hroot.
  destruct (alloc_tree_start sheet)
    as (rootStyles & s0 & Ha & Hrepr & Hr & Hrec & Hi & Ho).
  unfold build. apply wp_bind. unfold wp at 1. rewrite Ha. cbv beta iota.
  apply wp_bind. unfold OnceExit. apply wp_bind.
  eapply wp_mono;
    [eapply (findImports_inv files o rank True 0 Hacyclic (or_introl I) fuel
               o rootStyles from sheet (rank from) s0) | |].
  - apply subopts_self.
  - exact Hrepr.
  - exact Hroot.
  - unfold consistent, paths. rewrite Hr, Hrec, Hi, Ho. cbn.
    repeat split; try apply NoDup_nil_2.
    + intros p r Hp. by rewrite lookup_empty in Hp.
    + intros p Hp. inversion Hp.
  - intros p Hp. rewrite Hr in Hp. inversion Hp.
  - by left.
  - cbn beta iota. intros u s1 (Hc & Hs & Hg).
    assert (Hall : forall p, p ∈ reads s1 -> p ∈ paths s1).
    { intros p Hp. destruct Hg as (_ & _ & Hreads & _).
      destruct (Hreads p Hp) as [Hold|Hlt];
        [rewrite Hr in Hold; inversion Hold|].
      destruct (Hs p Hp) as [[r Hreg]|Hle]; [|lia].
      destruct Hc as (_ & _ & _ & Hmap & _).
      eapply list_elem_of_lookup_2, Hmap, Hreg. }
    eapply wp_mono; [apply keeps_injection | |]; cbn beta.
    + intros u' s2 H2. split; [by apply (consistent_registry s1)|].
      unfold registry in H2. injection H2 as Hr2 Hp2 _ _.
      unfold paths. rewrite Hr2, Hp2. exact Hall.
    + intros e s2 H2. by apply (consistent_registry s1).
  - intros e s1 Hc. exact Hc.
Qed.

(** On a graph without cycles in which no file has more than [levels]
    levels, the discovery ends within a step budget of the levels of the
    sheet and [levels] more for every rank under the one of the entry
    file. *)
Lemma discovery_ends files o rank levels fuel sheet from :
  acyclic files o rank ->
  below o rank (rank from) from (imports_under sheet) ->
  (forall p t, files p = Some t -> height t <= levels) ->
  height sheet + rank from * levels <= fuel ->
  discovery files fuel o sheet from <> OutOfFuel.
Proof.
  intros Hacyclic Hroot Hlevels Hfuel.
  destruct (alloc_tree_start sheet)
    as (rootStyles & s0 & Ha & Hrepr & Hr & Hrec & Hi & Ho).
  unfold discovery. erewrite bind_Ok by exact Ha.
  eapply wp_fuel_ends.
  eapply (findImports_inv files o rank False levels Hacyclic
            (or_intror Hlevels) fuel o rootStyles from sheet (rank from) s0).
  - apply subopts_self.
  - exact Hrepr.
  - exact Hroot.
  - unfold consistent, paths. rewrite Hr, Hrec, Hi, Ho. cbn.
    repeat split; try apply NoDup_nil_2.
    + intros p r Hp. by rewrite lookup_empty in Hp.
    + intros p Hp. inversion Hp.
  - intros p Hp. rewrite Hr in Hp. inversion Hp.
  - by right.
Qed.

(** C3, for graphs without cycles. When no file reaches itself through
    imports (every import leads to a file of smaller rank, whichever plugin
    instance resolves it), a build reads no path twice and holds no two
    records for one path; the [Map] and the array name the same record
    objects, one per path, in the order of their creation; and when the
    build ends well every path that was read has its record.  The discovery,
    the part of the build that reads, ends when the step budget covers the
    levels of the sheet and, for every rank under the one of the entry file,
    the levels of the deepest file. *)
Theorem acyclic_graph_is_read_once files o rank fuel sheet from :
  acyclic files o rank ->
  below o rank (rank from) from (imports_under sheet) ->
  match build files fuel o sheet from empty_st with
  | Ok _ s =>
    NoDup (reads s) /\ NoDup (paths s)
    /\ orderedImports s = seq 0 (length (paths s))
    /\ (forall p r, imports s !! p = Some r -> paths s !! r = Some p)
    /\ (forall p, p ∈ reads s -> p ∈ paths s)
  | Throw _ s => NoDup (reads s) /\ NoDup (paths s)
  | OutOfFuel => True
  end
  /\ forall levels,
       (forall p t, files p = Some t -> height t <= levels) ->
       height sheet + rank from * levels <= fuel ->
       discovery files fuel o sheet from <> OutOfFuel.
Proof.
  intros Hacyclic Hroot. split.
  - pose proof (build_consistent files o rank fuel sheet from Hacyclic Hroot)
      as H.
    unfold wp in H. destruct (build files fuel o sheet from empty_st)
      as [r s|e s|]; [|exact (conj (proj1 H) (proj1 (proj2 H)))|exact I].
    destruct H as ((Hr & Hp & Ho & Hm & _) & Hall). auto.
  - intros levels. by apply discovery_ends.
Qed.

Lemma diamond_acyclic : acyclic diamond_files nested_options diamond_rank.
Proof.
  intros o p t f Ho Hf Hin.
  assert (Hres : resolve o = join_path).
  { cbn in Ho. apply list_elem_of_In in Ho. cbn in Ho.
    destruct Ho as [<-|[<-|[]]]; reflexivity. }
  rewrite Hres. unfold diamond_files, str_eqb in Hf.
  repeat case_bool_decide; try discriminate Hf; subst p; injection Hf as <-;
    apply list_elem_of_In in Hin; cbn in Hin;
    repeat (destruct Hin as [<-|Hin]; [vm_compute; lia|]);
    destruct Hin.
Qed.

Lemma diamond_levels p t : diamond_files p = Some t -> height t <= 3.
Proof.
  unfold diamond_files, str_eqb. intros Hf.
  repeat case_bool_decide; try discriminate Hf; injection Hf as <-;
    vm_compute; lia.
Qed.

Lemma acyclic_graph_is_read_once_witness :
  build diamond_files 11 nested_options sheet_diamond "/src/main.less" empty_st
  = Ok 0 (final_state diamond_files 11 nested_options sheet_diamond
            "/src/main.less")
  /\ reads (final_state diamond_files 11 nested_options sheet_diamond
              "/src/main.less")
     = ["/src/a.less"; "/src/c.less"; "/src/b.less"]
  /\ NoDup (reads (final_state diamond_files 11 nested_options sheet_diamond
                     "/src/main.less"))
  /\ NoDup (paths (final_state diamond_files 11 nested_options sheet_diamond
                     "/src/main.less"))
  /\ discovery diamond_files 11 nested_options sheet_diamond "/src/main.less"
     <> OutOfFuel.
Proof.
  assert (Hb : build diamond_files 11 nested_options sheet_diamond
                 "/src/main.less" empty_st
               = Ok 0 (final_state diamond_files 11 nested_options sheet_diamond
                         "/src/main.less")).
  { vm_compute. reflexivity. }
  split; [exact Hb|]. split; [vm_compute; reflexivity|].
  assert (Hroot : below nested_options diamond_rank
                    (diamond_rank "/src/main.less") "/src/main.less"
                    (imports_under sheet_diamond)).
  { intros o f Ho Hin. cbn in Ho. apply list_elem_of_In in Ho. cbn in Ho.
    apply list_elem_of_In in Hin. cbn in Hin.
    destruct Ho as [<-|[<-|[]]];
      repeat (destruct Hin as [<-|Hin]; [vm_compute; lia|]);
      destruct Hin. }
  pose proof (acyclic_graph_is_read_once diamond_files nested_options
                diamond_rank 11 sheet_diamond "/src/main.less"
                diamond_acyclic Hroot) as [H Hends].
  rewrite Hb in H. split; [exact (proj1 H)|]. split; [exact (proj1 (proj2 H))|].
  apply (Hends 3 diamond_levels). vm_compute. lia.
Defined.

(** C3, as the claim has it, fails on a graph with a cycle: under a
    configuration nested as the repository's, a file that imports itself is read
    twice and gets two records, and its rule is twice in the document. *)
Lemma self_import_is_read_twice :
  exists doc s,
    output self_importing 5 nested_options sheet_imports_a "/src/main.less"
    = Ok (Some doc) s
    /\ reads s = ["/src/a.less"; "/src/a.less"]
    /\ paths s = ["/src/a.less"; "/src/a.less"]
    /\ outline doc = "{.a{}.a{}.main{}}".
Proof.
  eexists _, _. split; [vm_compute; reflexivity|]. repeat split.
Qed.

(** ** What the injection puts before the document *)

Lemma keeps_Ok {A} (c : M st A) s a s' :
  keeps c -> c s = Ok a s' -> registry s' = registry s.
Proof. intros Hk H. specialize (Hk s). unfold wp in Hk. by rewrite H in Hk. Qed.

(** What a record pushes on [sharedDependencies]: the nodes that its root
    has when its turn comes if it is globally imported, nothing if not. *)
Lemma inject_record_pushed fuel o rootStyles r rec s pushed s' :
  records s !! r = Some rec ->
  inject_record fuel o rootStyles r s = Ok pushed s' ->
  pushed = if isGloballyImported rec
           then children (heap s) (root rec) else [].
Proof.
  intros Hr Hrun. destruct (isGloballyImported rec) eqn:Hg.
  - by destruct (inject_record_global _ _ _ _ _ _ _ _ Hr Hg Hrun).
  - unfold inject_record in Hrun.
    apply bind_Ok_inv in Hrun as (rec' & s1 & Hrec & H).
    apply record_at_Ok in Hrec as [-> Hrec].
    assert (rec' = rec) as -> by congruence.
    apply bind_Ok_inv in H as (prevNode & s1 & _ & H).
    apply bind_Ok_inv in H as ([] & s2 & _ & H).
    apply bind_Ok_inv in H as (pushed' & s3 & Hp & H).
    apply bind_Ok_inv in H as ([] & s4 & _ & H).
    injection H as -> _.
    unfold push_or_scope in Hp. rewrite Hg in Hp.
    apply bind_Ok_inv in Hp as ([] & s5 & _ & Hp). by injection Hp as <- _.
Qed.

Lemma inject_all_contributions fuel o rootStyles recs rs :
  forall acc s shared s2,
    records s = recs ->
    Forall (fun r => is_Some (recs !! r)) rs ->
    inject_all fuel o rootStyles rs acc s = Ok shared s2 ->
    exists segs,
      contributions fuel o rootStyles recs rs s segs s2
      /\ shared = acc ++ concat segs.
Proof.
  induction rs as [|r rs IH]; intros acc s shared s2 Hrecs Hall;
    cbn [inject_all].
  - intros [= <- <-]. exists []. split; [constructor | by rewrite app_nil_r].
  - intros (pushed & s1 & Hr & Hrest)%bind_Ok_inv.
    apply Forall_cons in Hall as [[rec Hrec] Hall].
    pose proof (keeps_Ok _ _ _ _ (keeps_inject_record fuel o rootStyles r) Hr)
      as Hreg.
    unfold registry in Hreg. injection Hreg as _ Hrecs1 _ _.
    destruct (IH (acc ++ pushed) s1 shared s2 (eq_trans Hrecs1 Hrecs) Hall
                Hrest) as (segs & Hc & ->).
    exists (pushed :: segs). split.
    + econstructor; [exact Hrec | exact Hr | | exact Hc].
      eapply inject_record_pushed; [|exact Hr]. by rewrite Hrecs.
    + cbn [concat]. by rewrite app_assoc.
Qed.

Lemma splice_prepend (ids items : list nat) :
  splice ids 0 0 items = items ++ ids.
Proof.
  unfold splice. cbn. rewrite Z.min_l by lia. cbn. by rewrite drop_0.
Qed.

(** C4, as the claim has it, fails. On a graph with a cycle: under the
    nested configuration a file that imports itself, and that the sheet
    imports at the top level, has two records, both globally imported, and
    its rule is prepended twice. And the copies come in the order of the
    Ordered Import List, which under that configuration is not the order in
    which the files were first met: [a.less] is read before [c.less], which
    it imports, and prepended after it. *)
Lemma self_import_is_prepended_twice :
  (exists doc s,
     output self_importing 5 nested_options sheet_imports_a "/src/main.less"
     = Ok (Some doc) s
     /\ map (fun r => (fullpath r, isGloballyImported r)) (records s)
        = [("/src/a.less", true); ("/src/a.less", true)]
     /\ outline doc = "{.a{}.a{}.main{}}")
  /\ (exists doc s,
        output diamond_files 6 nested_options sheet_diamond "/src/main.less"
        = Ok (Some doc) s
        /\ reads s = ["/src/a.less"; "/src/c.less"; "/src/b.less"]
        /\ paths s = ["/src/c.less"; "/src/a.less"; "/src/b.less"]
        /\ outline doc = "{.c{}.a{color: red;}.b{}.main{}}").
Proof.
  split; eexists _, _; (split; [vm_compute; reflexivity|]); repeat split.
Qed.

(** ** The outcome does not depend on the step budget *)

Lemma refines_refl {A} (c : M st A) : refines c c.
Proof. intros s. by right. Qed.

Lemma refines_bind {A B} (c c' : M st A) (k k' : A -> M st B) :
  refines c c' -> (forall a, refines (k a) (k' a)) ->
  refines (bind c k) (bind c' k').
Proof.
  intros Hc Hk s. unfold bind. destruct (Hc s) as [H|H].
  - left. by rewrite H.
  - rewrite <- H. destruct (c s) as [a s1|e s1|]; [apply Hk | by right | by right].
Qed.

Lemma refines_forEach {A} (f f' : A -> M st unit) xs :
  (forall x, refines (f x) (f' x)) -> refines (forEach f xs) (forEach f' xs).
Proof.
  intros Hf. induction xs as [|x xs IH]; cbn [forEach].
  - apply refines_refl.
  - apply refines_bind; [apply Hf | intros _; exact IH].
Qed.

Lemma refines_out_of_fuel {A} (c : M st A) : refines out_of_fuel c.
Proof. intros s. by left. Qed.

Section FuelIndependence.

Variable files : string -> option tree.

Lemma findImports_mono fuel : forall fuel' o styles fromPath,
  fuel <= fuel' ->
  refines (findImports files fuel o styles fromPath)
          (findImports files fuel' o styles fromPath).
Proof.
  induction fuel as [|fuel IH]; intros fuel' o styles fromPath Hle;
    [apply refines_out_of_fuel|].
  destruct fuel' as [|fuel']; [lia|]. cbn [findImports].
  apply refines_bind; [apply refines_refl | intros ns].
  apply refines_forEach. intros x.
  apply refines_bind; [apply refines_refl | intros n].
  destruct (isImportNode n).
  - cbv zeta. apply refines_bind; [apply refines_refl | intros s].
    destruct (imports s !! _); [apply refines_refl|].
    apply refines_bind; [apply refines_refl | intros rt].
    apply refines_bind.
    { apply refines_forEach. intros p. apply IH. lia. }
    intros _. apply refines_bind; [apply refines_refl | intros s'].
    cbv zeta. apply refines_bind; [apply refines_refl | intros _].
    apply IH. lia.
  - destruct (nodes n); [apply IH; lia | apply refines_refl].
Qed.

End FuelIndependence.

Lemma recursiveLook_mono fuel : forall fuel' styleNode ids acc,
  fuel <= fuel' ->
  refines (recursiveLook fuel styleNode ids acc)
          (recursiveLook fuel' styleNode ids acc).
Proof.
  induction fuel as [|fuel IH]; intros fuel' styleNode ids acc Hle;
    [apply refines_out_of_fuel|].
  destruct fuel' as [|fuel']; [lia|]. cbn [recursiveLook].
  destruct (-1 <? fst acc)%Z; [apply refines_refl|].
  revert acc. induction ids as [|i ids IHl]; intros acc;
    [apply refines_refl|].
  apply refines_bind; [|intros acc'; apply IHl].
  destruct (-1 <? fst acc)%Z; [apply refines_refl|].
  apply refines_bind; [apply refines_refl | intros n].
  destruct (nodes n) as [kids|]; [|apply refines_refl].
  cbv zeta. destruct (Z.eqb _ _); [apply IH; lia | apply refines_refl].
Qed.

Lemma removeAllImports_mono fuel : forall fuel' rootNode,
  fuel <= fuel' ->
  refines (removeAllImports fuel rootNode) (removeAllImports fuel' rootNode).
Proof.
  induction fuel as [|fuel IH]; intros fuel' rootNode Hle;
    [apply refines_out_of_fuel|].
  destruct fuel' as [|fuel']; [lia|]. cbn [removeAllImports].
  apply refines_bind; [apply refines_refl | intros snapshot].
  apply refines_forEach. intros node.
  apply refines_bind; [apply refines_refl | intros n].
  destruct (isImportNode n); [apply refines_refl|].
  destruct (nodes n); [apply IH; lia | apply refines_refl].
Qed.

Lemma inject_record_mono fuel fuel' o rootStyles r :
  fuel <= fuel' ->
  refines (inject_record fuel o rootStyles r)
          (inject_record fuel' o rootStyles r).
Proof.
  intros Hle. unfold inject_record.
  apply refines_bind; [apply refines_refl | intros rec].
  apply refines_bind; [|intros prevNode; apply refines_refl].
  unfold locate_prevNode.
  apply refines_bind; [apply refines_refl | intros sn].
  apply refines_bind; [apply refines_refl | intros par].
  apply refines_bind; [apply refines_refl | intros parentNodes].
  cbv zeta. apply refines_bind; [apply refines_refl | intros _].
  apply refines_bind; [|intros found; apply refines_refl].
  destruct (Z.eqb _ _); [by apply recursiveLook_mono | apply refines_refl].
Qed.

Lemma inject_all_mono fuel fuel' o rootStyles rs acc :
  fuel <= fuel' ->
  refines (inject_all fuel o rootStyles rs acc)
          (inject_all fuel' o rootStyles rs acc).
Proof.
  intros Hle. revert acc. induction rs as [|r rs IH]; intros acc;
    cbn [inject_all]; [apply refines_refl|].
  apply refines_bind; [by apply inject_record_mono | intros pushed; apply IH].
Qed.

Lemma build_mono files fuel fuel' o sheet from :
  fuel <= fuel' ->
  refines (build files fuel o sheet from) (build files fuel' o sheet from).
Proof.
  intros Hle. unfold build.
  apply refines_bind; [apply refines_refl | intros rootStyles].
  apply refines_bind; [|intros _; apply refines_refl].
  unfold OnceExit.
  apply refines_bind; [by apply findImports_mono | intros _].
  cbv iota.
  apply refines_bind; [apply refines_refl | intros s].
  apply refines_bind; [by apply inject_all_mono | intros shared].
  apply refines_bind; [apply refines_refl | intros ids].
  apply refines_bind; [apply refines_refl | intros _].
  by apply removeAllImports_mono.
Qed.

Lemma render_mono fuel : forall fuel' h i t,
  fuel <= fuel' -> render fuel h i = Some t -> render fuel' h i = Some t.
Proof.
  induction fuel as [|fuel IH]; intros fuel' h i t Hle; [discriminate|].
  destruct fuel' as [|fuel']; [lia|]. cbn [render].
  destruct (h !! i) as [n|]; [|discriminate].
  destruct (nodes n) as [ids|]; [|auto].
  destruct (mapM (render fuel h) ids) as [ts|] eqn:Hts; [|discriminate].
  intros [= <-].
  assert (mapM (render fuel' h) ids = Some ts) as ->; [|reflexivity].
  apply mapM_Some. apply mapM_Some in Hts.
  eapply Forall2_impl; [exact Hts|]. cbn. intros j t' Hj.
  apply (IH fuel' h j t'); [lia | exact Hj].
Qed.

Lemma output_mono files fuel fuel' o sheet from :
  fuel <= fuel' ->
  complete (output files fuel o sheet from) ->
  output files fuel' o sheet from = output files fuel o sheet from.
Proof.
  intros Hle. unfold output.
  destruct (build_mono files fuel fuel' o sheet from Hle empty_st)
    as [H|H].
  - rewrite H. intros [].
  - rewrite <- H.
    destruct (build files fuel o sheet from empty_st) as [rt s|e s|];
      [|reflexivity|intros []].
    destruct (render fuel (heap s) rt) as [doc|] eqn:Hdoc; [|intros []].
    intros _. by rewrite (render_mono fuel fuel' _ _ _ Hle Hdoc).
Qed.

(** ** The outcome depends on the files that were read only *)

Lemma appends_bind {A B} (c : M st A) (k : A -> M st B) :
  appends c -> (forall a, appends (k a)) -> appends (bind c k).
Proof.
  intros Hc Hk s. apply wp_bind. eapply wp_mono; [apply Hc | | auto].
  cbn beta. intros a s1 H1. eapply wp_mono; [apply Hk | |]; cbn beta; auto.
Qed.

Lemma appends_keeps {A} (c : M st A) : keeps c -> appends c.
Proof.
  intros Hk s. eapply wp_mono; [apply Hk | |]; cbn beta;
    intros ? s' H; unfold registry in H; injection H as -> _ _ _; auto.
Qed.

Lemma appends_forEach {A} (f : A -> M st unit) xs :
  (forall x, appends (f x)) -> appends (forEach f xs).
Proof.
  intros Hf. induction xs as [|x xs IH]; cbn [forEach].
  - apply appends_keeps, keeps_ret.
  - apply appends_bind; [apply Hf | intros _; exact IH].
Qed.

Lemma keeps_get : keeps get.
Proof. intros s. reflexivity. Qed.

Lemma appends_modify f :
  (forall s p, p ∈ reads s -> p ∈ reads (f s)) -> appends (modify f).
Proof. intros H s. exact (H s). Qed.

Lemma appends_read_and_parse files q : appends (read_and_parse files q).
Proof.
  unfold read_and_parse. apply appends_bind.
  - apply appends_modify. intros s p Hp. cbn. apply elem_of_app. by left.
  - intros _. destruct (files q); [|apply appends_keeps, keeps_throw].
    unfold alloc_tree. apply appends_bind; [apply appends_keeps, keeps_get|].
    intros s. destruct (alloc _ _ _ _) as [h n].
    apply appends_bind; [|intros _; apply appends_keeps, keeps_ret].
    apply appends_modify. auto.
Qed.

Lemma appends_findImports files fuel : forall o styles fromPath,
  appends (findImports files fuel o styles fromPath).
Proof.
  induction fuel as [|fuel IH]; intros o styles fromPath; cbn [findImports];
    [intros s; exact I|].
  apply appends_bind; [apply appends_keeps, keeps_nodes_of | intros ns].
  apply appends_forEach. intros x.
  apply appends_bind; [apply appends_keeps, keeps_node_at | intros n].
  destruct (isImportNode n).
  - cbv zeta. apply appends_bind; [apply appends_keeps, keeps_get | intros s].
    destruct (imports s !! _) as [r|].
    + destruct (negb _).
      * apply appends_bind;
          [apply appends_keeps, keeps_pure, pure_record_at | intros rec].
        apply appends_modify. auto.
      * apply appends_bind;
          [apply appends_keeps, keeps_pure, pure_record_at | intros rec].
        apply appends_modify. auto.
    + apply appends_bind; [apply appends_read_and_parse | intros rt].
      apply appends_bind; [apply appends_forEach; intros p; apply IH|].
      intros _. apply appends_bind; [apply appends_keeps, keeps_get|].
      intros s'. cbv zeta. apply appends_bind; [apply appends_modify; auto|].
      intros _. apply IH.
  - destruct (nodes n); [apply IH | apply appends_keeps, keeps_ret].
Qed.

Section SameFiles.

Variables files1 files2 : string -> option tree.

Lemma agrees_refl {A} (c : M st A) : agrees files1 files2 c c.
Proof. intros s. right. reflexivity. Qed.

Lemma agrees_bind {A B} (c1 c2 : M st A) (k1 k2 : A -> M st B) :
  agrees files1 files2 c1 c2 ->
  (forall a, agrees files1 files2 (k1 a) (k2 a)) ->
  (forall a, appends (k1 a)) ->
  agrees files1 files2 (bind c1 k1) (bind c2 k2).
Proof.
  intros Hc Hk Happ s. unfold bind.
  destruct (Hc s) as [H|H]; [left; by rewrite H|].
  destruct (c1 s) as [a s1|e s1|] eqn:Hc1; [| |by left].
  - destruct (Hk a s1) as [H1|H1]; [by left|].
    destruct (k1 a s1) as [b s2|e s2|] eqn:Hk1; [| |by left]; right;
      intros Hsame; cbn in Hsame.
    + rewrite H, H1; [reflexivity | exact Hsame |].
      intros p Hp. apply Hsame.
      pose proof (Happ a s1) as Ha. unfold wp in Ha. rewrite Hk1 in Ha. auto.
    + rewrite H, H1; [reflexivity | exact Hsame |].
      intros p Hp. apply Hsame.
      pose proof (Happ a s1) as Ha. unfold wp in Ha. rewrite Hk1 in Ha. auto.
  - right. intros Hsame. by rewrite H.
Qed.

Lemma agrees_forEach {A} (f1 f2 : A -> M st unit) xs :
  (forall x, agrees files1 files2 (f1 x) (f2 x)) ->
  (forall x, appends (f1 x)) ->
  agrees files1 files2 (forEach f1 xs) (forEach f2 xs).
Proof.
  intros Hf Ha. induction xs as [|x xs IH]; cbn [forEach].
  - apply agrees_refl.
  - apply agrees_bind; [apply Hf | intros _; exact IH|].
    intros _. by apply appends_forEach.
Qed.

Lemma agrees_read_and_parse q :
  agrees files1 files2 (read_and_parse files1 q) (read_and_parse files2 q).
Proof.
  intros s. right. intros Hsame.
  assert (Hq : files1 q = files2 q).
  { apply Hsame. unfold read_and_parse, bind, modify.
    destruct (files1 q) as [t|]; cbn.
    - unfold alloc_tree, bind, get, modify, ret.
      destruct (alloc _ _ _ _) as [h n]. cbn.
      apply elem_of_app. right. by left.
    - apply elem_of_app. right. by left. }
  unfold read_and_parse, bind. by rewrite Hq.
Qed.

(** The tactic for goals [appends c] on the code of the plugin. *)
Ltac appends_tac :=
  repeat first
    [ apply appends_findImports
    | apply appends_keeps, keeps_injection
    | apply appends_read_and_parse
    | apply appends_forEach; intros ?
    | apply appends_bind; [|intros ?]
    | apply appends_keeps;
      first [ apply keeps_ret | apply keeps_throw | apply keeps_get
            | apply keeps_node_at | apply keeps_nodes_of
            | apply keeps_injection | apply keeps_pure, pure_record_at ]
    | apply appends_modify; solve [auto]
    | progress cbv zeta
    | progress cbv iota
    | match goal with
      | |- appends (match ?x with _ => _ end) => destruct x
      end ].

Lemma agrees_findImports fuel : forall o styles fromPath,
  agrees files1 files2 (findImports files1 fuel o styles fromPath)
         (findImports files2 fuel o styles fromPath).
Proof.
  induction fuel as [|fuel IH]; intros o styles fromPath; cbn [findImports];
    [intros s; by left|].
  apply agrees_bind; [apply agrees_refl | intros ns | intros ns; appends_tac].
  apply agrees_forEach; [intros x | intros x; appends_tac].
  apply agrees_bind; [apply agrees_refl | intros n | intros n; appends_tac].
  destruct (isImportNode n).
  - cbv zeta.
    apply agrees_bind; [apply agrees_refl | intros s | intros s; appends_tac].
    destruct (imports s !! _) as [r|]; [apply agrees_refl|].
    apply agrees_bind;
      [apply agrees_read_and_parse | intros rt | intros rt; appends_tac].
    apply agrees_bind; [|intros u | intros u; appends_tac].
    { apply agrees_forEach; [intros p; apply IH | intros p; appends_tac]. }
    apply agrees_bind;
      [apply agrees_refl | intros s' | intros s'; appends_tac].
    cbv zeta.
    apply agrees_bind;
      [apply agrees_refl | intros u'; apply IH | intros u'; appends_tac].
  - destruct (nodes n); [apply IH | apply agrees_refl].
Qed.

Lemma agrees_build fuel o sheet from :
  agrees files1 files2 (build files1 fuel o sheet from)
         (build files2 fuel o sheet from).
Proof.
  unfold build, OnceExit.
  apply agrees_bind;
    [apply agrees_refl | intros rootStyles | intros rootStyles; appends_tac].
  apply agrees_bind;
    [|intros u; apply agrees_refl | intros u; appends_tac].
  apply agrees_bind;
    [apply agrees_findImports | intros u; apply agrees_refl
    | intros u; cbv iota; appends_tac].
Qed.

Lemma output_agrees fuel o sheet from :
  complete (output files1 fuel o sheet from) ->
  (forall p, p ∈ reads_of (output files1 fuel o sheet from) ->
             files1 p = files2 p) ->
  output files2 fuel o sheet from = output files1 fuel o sheet from.
Proof.
  unfold output. intros Hc Hsame.
  destruct (agrees_build fuel o sheet from empty_st) as [H|H].
  - rewrite H in Hc. destruct Hc.
  - rewrite H; [reflexivity|].
    destruct (build files1 fuel o sheet from empty_st); cbn in *; auto.
Qed.

End SameFiles.

(* ===================================================================== *)
(** * Properties of the webpack configuration *)
(* ===================================================================== *)

Lemma prefix_refl (s : string) : String.prefix s s = true.
Proof.
  induction s as [|c s IH]; cbn; [reflexivity|].
  destruct (Ascii.ascii_dec c c); [exact IH | congruence].
Qed.

Lemma str_includes_refl (s : string) : str_includes s s = true.
Proof.
  destruct s as [|c s]; cbn [str_includes]; [reflexivity|].
  by rewrite prefix_refl.
Qed.

Lemma starts_with_char (c : Ascii.ascii) (p : string) :
  starts_with (String c "") (String c p) = true.
Proof.
  unfold starts_with. cbn.
  destruct (Ascii.ascii_dec c c); [by destruct p | congruence].
Qed.

Lemma starts_with_first (a c : Ascii.ascii) (p : string) :
  starts_with (String a "") (String c p) = bool_decide (a = c).
Proof.
  unfold starts_with. cbn. destruct (Ascii.ascii_dec a c) as [->|Hne].
  - rewrite bool_decide_eq_true_2 by reflexivity. by destruct p.
  - by rewrite bool_decide_eq_false_2.
Qed.

(** X1. [forceLocalPath] gives no path for no path and for the empty one;
    for any other path it gives the path itself when the path starts with a
    dot or a slash, and the path behind [./] when it does not; so the
    result starts with a dot or a slash and a second pass changes
    nothing. *)
Theorem forceLocalPath_is_local (assetPath : option string) :
  forceLocalPath None = None
  /\ forceLocalPath (Some "") = None
  /\ (forall c p,
        forceLocalPath (Some (String c p))
        = Some (if starts_with "." (String c p)
                   || starts_with "/" (String c p)
                then String c p
                else "./" +:+ String c p))
  /\ match forceLocalPath assetPath with
     | None => assetPath = None \/ assetPath = Some ""
     | Some q =>
       (exists p, assetPath = Some p /\ (q = p \/ q = "./" +:+ p))
       /\ (starts_with "." q || starts_with "/" q = true)
       /\ forceLocalPath (Some q) = Some q
     end.
Proof.
  split; [reflexivity|]. split; [reflexivity|]. split.
  { intros c p. cbn [forceLocalPath]. rewrite !starts_with_first.
    destruct (decide (c = "."%char)) as [->|Hdot].
    { by rewrite !bool_decide_eq_true_2 by reflexivity. }
    destruct (decide (c = "/"%char)) as [->|Hslash].
    { rewrite (bool_decide_eq_false_2 ("/"%char = "."%char)) by done.
      rewrite (bool_decide_eq_false_2 ("."%char = "/"%char)) by done.
      by rewrite !bool_decide_eq_true_2 by reflexivity. }
    by rewrite !bool_decide_eq_false_2 by congruence. }
  destruct assetPath as [[|c p]|]; cbn [forceLocalPath]; [by right | | by left].
  destruct (decide (c = "."%char)) as [->|Hdot].
  { rewrite bool_decide_true by reflexivity. cbn [negb andb].
    split; [eauto|]. split; [by rewrite starts_with_char|].
    cbn [forceLocalPath]. by rewrite bool_decide_true by reflexivity. }
  destruct (decide (c = "/"%char)) as [->|Hslash].
  { rewrite bool_decide_false, bool_decide_true by done. cbn [negb andb].
    split; [eauto|]. split; [by rewrite starts_with_char, orb_true_r|].
    cbn [forceLocalPath].
    by rewrite bool_decide_false, bool_decide_true by done. }
  rewrite !bool_decide_false by done. cbn [negb andb].
  split; [eauto|].
  change ("./" +:+ String c p) with (String "." (String "/" (String c p))).
  split; [by rewrite starts_with_char|].
  cbn [forceLocalPath]. by rewrite bool_decide_true by reflexivity.
Qed.

Lemma fold_left_or {A} (f g : A -> bool) (xs : list A) (memo : bool) :
  fold_left (fun memo x => memo || f x || g x) xs memo
  = memo || existsb (fun x => f x || g x) xs.
Proof.
  revert memo. induction xs as [|x xs IH]; intros memo; cbn.
  - by rewrite orb_false_r.
  - by rewrite IH, !orb_assoc.
Qed.

Lemma matches_targets_cons (target : string) (targets : list string)
    (c : entry_config) :
  matches_targets (target :: targets) c
  = some_target_matches (target :: targets) c.
Proof.
  unfold matches_targets.
  rewrite (fold_left_or
             (fun t => existsb (str_eqb t) (entry_files c))
             (fun t => str_includes t (entry_key c))).
  unfold some_target_matches. cbn.
  destruct (str_includes target (entry_key c)); cbn.
  - by rewrite orb_true_r.
  - by rewrite !orb_false_r.
Qed.

(** X2. [filter(targets)] keeps the configurations of which some target is
    one of the files or is part of the key, in their order: the shortcut on
    the first target changes nothing.  With no target at all it keeps the
    configurations whose key contains the text [undefined]. *)
Theorem filter_targets_keeps_matches (defaultExport : list entry_config)
    (target : string) (targets : list string) :
  filter_targets defaultExport (target :: targets)
  = List.filter (some_target_matches (target :: targets)) defaultExport
  /\ filter_targets defaultExport []
     = List.filter (fun c => str_includes "undefined" (entry_key c))
                   defaultExport.
Proof.
  split; unfold filter_targets; apply filter_ext; intros c.
  - apply matches_targets_cons.
  - unfold matches_targets. cbn.
    by destruct (str_includes "undefined" (entry_key c)).
Qed.

Lemma split_no_sep (sep : Ascii.ascii) (s : string) :
  has_char sep s = false -> split sep s = [s].
Proof.
  induction s as [|c s IH]; cbn [split has_char]; [reflexivity|].
  intros [Hc Hs]%orb_false_elim. rewrite Hc, IH by exact Hs. reflexivity.
Qed.

Lemma append_nil (s : string) : "" +:+ s = s.
Proof. reflexivity. Qed.

Lemma append_cons (c : Ascii.ascii) (s1 s2 : string) :
  String c s1 +:+ s2 = String c (s1 +:+ s2).
Proof. reflexivity. Qed.

Lemma split_app (sep : Ascii.ascii) (x rest : string) :
  has_char sep x = false ->
  split sep (x +:+ String sep rest) = x :: split sep rest.
Proof.
  induction x as [|c x IH]; cbn [has_char].
  - intros _. rewrite append_nil. cbn [split].
    by rewrite bool_decide_true by reflexivity.
  - intros [Hc Hx]%orb_false_elim. rewrite append_cons. cbn [split].
    rewrite Hc, IH by exact Hx. reflexivity.
Qed.

Lemma split_join (ts : list string) :
  Forall comma_free ts -> ts <> [] ->
  split ","%char (join "," ts) = ts.
Proof.
  induction 1 as [|t ts Ht Hts IH]; [done|]. intros _.
  destruct ts as [|t' ts].
  - by apply split_no_sep.
  - change (join "," (t :: t' :: ts))
      with (t +:+ String ","%char (join "," (t' :: ts))).
    rewrite split_app by exact Ht. by rewrite IH.
Qed.

Lemma filter_Boolean_Some (xs : list string) :
  filter_Boolean (map Some xs) = non_empty xs.
Proof.
  unfold filter_Boolean, non_empty.
  induction xs as [|x xs IH]; cbn; [reflexivity|].
  destruct (negb (str_eqb x "")); cbn; by rewrite IH.
Qed.

Lemma split_join_targets (targets : list string) :
  Forall comma_free targets ->
  targets_of (join "," targets) = non_empty targets.
Proof.
  intros Hfree. unfold targets_of. rewrite filter_Boolean_Some.
  destruct targets as [|t ts]; [reflexivity|].
  by rewrite split_join.
Qed.

(** X3. The targets that the configuration reads back from the variable
    [ENTRY_TARGET] are the targets that were joined with commas to make it,
    less the empty ones, when no target holds a comma. *)
Theorem targets_of_join (targets : list string) :
  Forall comma_free targets ->
  targets_of (join "," targets) = non_empty targets.
Proof. exact (split_join_targets targets). Qed.

Lemma targets_of_join_witness :
  Forall comma_free ["index.js"; ""; "admin.js"]
  /\ targets_of (join "," ["index.js"; ""; "admin.js"])
     = ["index.js"; "admin.js"].
Proof.
  assert (H : Forall comma_free ["index.js"; ""; "admin.js"]).
  { repeat constructor. }
  split; [exact H|]. exact (targets_of_join _ H).
Defined.

Lemma entry_points_loop_head asset entryPoints :
  forall rootEntry r,
    entry_points_loop asset entryPoints rootEntry = inr (Some r) ->
    rootEntry = Some r
    \/ exists ep, ep ∈ entryPoints /\ head (fst ep) = Some r.
Proof.
  induction entryPoints as [|[js css] eps IH]; intros rootEntry r;
    cbn [entry_points_loop].
  - intros [= ->]. by left.
  - destruct (truthy rootEntry).
    + intros H. destruct (IH _ _ H) as [?|(ep & Hin & Hh)]; [by left|].
      right. exists ep. split; [by right | exact Hh].
    + destruct (css_entries_loop asset css (js_entries_loop asset js))
        as [e|hasMatch]; [discriminate|].
      intros H. destruct (IH _ _ H) as [Hr|(ep & Hin & Hh)].
      * destruct hasMatch; [|by left].
        right. exists (js, css). split; [by left | exact Hr].
      * right. exists ep. split; [by right | exact Hh].
Qed.

Section Served.

Variable path_join : string -> string -> string.
Variables srcJs srcCss : string.

(** X4. The entry target that the broker finds for an asset and tracks names
    a configuration that the worker keeps: when the variable [ENTRY_TARGET]
    is the tracked targets joined with commas, none of which holds a comma,
    the default export of the configuration has an entry under that
    target. *)
Theorem tracked_entry_is_configured (entryPoints : list entry_point)
    (asset r : string) (tracked : list string) :
  findRootEntryForAsset entryPoints asset = inr (Some r) ->
  truthy (Some r) = true ->
  r ∈ tracked ->
  Forall comma_free tracked ->
  exists c,
    c ∈ common_default path_join srcJs srcCss (Some (join "," tracked))
          entryPoints
    /\ entry_key c = r.
Proof.
  intros Hfind Htruthy Hin Hfree.
  destruct (entry_points_loop_head _ _ _ _ Hfind)
    as [?|([js css] & Hep & Hhead)]; [discriminate|].
  cbn [fst] in Hhead.
  set (c := entry_of path_join srcJs srcCss (js, css)).
  assert (Hkey : entry_key c = r) by (subst c; cbn; by rewrite Hhead).
  assert (Hc : c ∈ map (entry_of path_join srcJs srcCss) entryPoints).
  { apply list_elem_of_fmap. by exists (js, css). }
  exists c. split; [|exact Hkey].
  unfold common_default.
  destruct (truthy (Some (join "," tracked))); [|exact Hc].
  change (default "" (Some (join "," tracked))) with (join "," tracked).
  assert (Hts' := split_join_targets tracked Hfree). rewrite Hts'. clear Hts'.
  destruct (non_empty tracked) as [|t ts] eqn:Hts; [exact Hc|].
  apply list_elem_of_In, filter_In. split; [by apply list_elem_of_In|].
  rewrite matches_targets_cons. unfold some_target_matches.
  apply existsb_exists. exists r. split.
  - rewrite <- Hts. unfold non_empty. apply filter_In.
    split; [by apply list_elem_of_In | exact Htruthy].
  - rewrite Hkey, str_includes_refl. by rewrite orb_true_r.
Qed.

End Served.

Lemma tracked_entry_is_configured_witness :
  findRootEntryForAsset [(["index.js"], ["index.less"])] "/index"
  = inr (Some "index.js")
  /\ exists c,
       c ∈ common_default (fun base x => base +:+ "/" +:+ x)
             "apps/website/dist" "apps/website/src/css"
             (Some (join "," ["admin.js"; "index.js"]))
             [(["index.js"], ["index.less"])]
       /\ entry_key c = "index.js".
Proof.
  split; [vm_compute; reflexivity|].
  apply (tracked_entry_is_configured _ _ _
           [(["index.js"], ["index.less"])] "/index" "index.js"
           ["admin.js"; "index.js"]).
  - vm_compute. reflexivity.
  - reflexivity.
  - apply list_elem_of_In. right. by left.
  - repeat constructor.
Defined.

(* ===================================================================== *)
(** * Properties of the development configuration *)
(* ===================================================================== *)

Section DevServerExportFacts.

Context {E V : Type} (undefined : E).

Lemma obj_lookup_set (k k' : string) (v : E) (o : list (string * E)) :
  obj_lookup k' (obj_set k v o)
  = if decide (k = k') then Some v else obj_lookup k' o.
Proof.
  unfold obj_lookup, str_eqb.
  destruct (decide (k = k')) as [->|Hne];
    induction o as [|[k0 v0] o IH]; cbn; unfold str_eqb;
    repeat (case_bool_decide; cbn); simplify_eq; done.
Qed.

Lemma obj_set_keys (k : string) (v : E) (o : list (string * E)) :
  NoDup (map fst o) -> NoDup (map fst (obj_set k v o))
  /\ forall k', k' ∈ map fst (obj_set k v o) <-> k' = k \/ k' ∈ map fst o.
Proof.
  induction o as [|[k0 v0] o IH]; cbn [obj_set map fst].
  - intros _. split; [apply NoDup_singleton|].
    intros k'. rewrite list_elem_of_singleton, elem_of_nil. tauto.
  - intros [Hk0 Ho]%NoDup_cons. unfold str_eqb. case_bool_decide as Hk.
    + subst k0. cbn [map fst]. split; [by apply NoDup_cons|].
      intros k'. rewrite elem_of_cons. tauto.
    + destruct (IH Ho) as [Hnd Hin]. cbn [map fst]. split.
      * apply NoDup_cons. split; [|exact Hnd].
        rewrite Hin. intros [?|?]; congruence.
      * intros k'. rewrite !elem_of_cons, Hin. tauto.
Qed.

Lemma find_app {A} (f : A -> bool) (xs ys : list A) :
  List.find f (xs ++ ys)
  = match List.find f xs with
    | Some x => Some x
    | None => List.find f ys
    end.
Proof.
  induction xs as [|x xs IH]; cbn; [reflexivity|]. by destruct (f x).
Qed.

Lemma obj_get_first (c : config E V) e :
  entry c = Some e ->
  (match e with (k, _) :: _ => k | [] => "undefined" end,
   obj_get undefined
     match e with (k, _) :: _ => k | [] => "undefined" end e)
  = first_entry undefined c.
Proof.
  intros He. unfold first_entry. rewrite He. cbn [default].
  destruct e as [|[k v] e]; [reflexivity|].
  unfold obj_get, str_eqb. cbn [List.find fst].
  by rewrite bool_decide_true.
Qed.

(** What the reducer has made of the configurations [configs] when each of
    them has an [entry]. *)
Lemma reduce_configs_entries (configs : list (config E V)) :
  forall memo,
    Forall (fun c => is_Some (entry c)) configs ->
    exists memo',
      reduce_configs undefined configs memo = inr memo'
      /\ fields memo' = fold_left (fun m c => m ∪ fields c) configs
                                  (fields memo)
      /\ default [] (entry memo')
         = fold_left (fun o c => obj_set (first_entry undefined c).1
                                         (first_entry undefined c).2 o)
                     configs (default [] (entry memo)).
Proof.
  induction configs as [|c configs IH]; intros memo Hall;
    cbn [reduce_configs fold_left].
  - by exists memo.
  - apply Forall_cons in Hall as [[e He] Hall].
    unfold merge_entry at 1. rewrite He.
    edestruct IH as (memo' & Hred & Hf & He'); [exact Hall|].
    exists memo'. split; [exact Hred|]. split; [exact Hf|].
    rewrite He'. cbn [entry default].
    by rewrite <- (obj_get_first c e He).
Qed.

Lemma obj_lookup_app (k : string) (xs ys : list (string * E)) :
  obj_lookup k (xs ++ ys)
  = match obj_lookup k xs with
    | Some v => Some v
    | None => obj_lookup k ys
    end.
Proof.
  unfold obj_lookup. rewrite find_app. by destruct (List.find _ xs).
Qed.

Lemma fold_obj_set_lookup (k : string) (kvs : list (string * E)) :
  forall o,
    obj_lookup k (fold_left (fun o kv => obj_set kv.1 kv.2 o) kvs o)
    = match obj_lookup k (reverse kvs) with
      | Some v => Some v
      | None => obj_lookup k o
      end.
Proof.
  induction kvs as [|[k0 v0] kvs IH]; intros o; cbn [fold_left].
  - reflexivity.
  - rewrite IH, reverse_cons, obj_lookup_app. cbn [fst snd].
    destruct (obj_lookup k (reverse kvs)) as [v|]; [reflexivity|].
    rewrite obj_lookup_set. unfold obj_lookup, str_eqb. cbn.
    destruct (decide (k0 = k)) as [->|Hne].
    + by rewrite bool_decide_true.
    + by rewrite bool_decide_false.
Qed.

Lemma fold_obj_set_keys (kvs : list (string * E)) :
  forall o,
    NoDup (map fst o) ->
    NoDup (map fst (fold_left (fun o kv => obj_set kv.1 kv.2 o) kvs o))
    /\ forall k,
         k ∈ map fst (fold_left (fun o kv => obj_set kv.1 kv.2 o) kvs o)
         <-> k ∈ map fst kvs \/ k ∈ map fst o.
Proof.
  induction kvs as [|[k0 v0] kvs IH]; intros o Ho; cbn [fold_left map fst].
  - split; [exact Ho|]. intros k. rewrite elem_of_nil. tauto.
  - destruct (obj_set_keys k0 v0 o Ho) as [Hnd Hin].
    destruct (IH _ Hnd) as [Hnd' Hin']. split; [exact Hnd'|].
    intros k. rewrite Hin', Hin, elem_of_cons. tauto.
Qed.

Lemma fold_left_map {A B C} (f : C -> B -> C) (g : A -> B) (xs : list A) c :
  fold_left (fun acc x => f acc (g x)) xs c = fold_left f (map g xs) c.
Proof. revert c. induction xs; intros c; cbn; auto. Qed.

(** X5. Under [webpack serve] the configurations, each with an [entry], are
    made into one object whose [entry] has one key per configuration, the
    first key of its [entry], without duplicates; under a key stands the
    value of the last configuration that brings the key.  The other keys of
    a configuration's [entry] are not taken over. *)
Theorem dev_exports_entry (configs : list (config E V)) :
  Forall (fun c => is_Some (entry c)) configs ->
  exists memo,
    dev_exports undefined true configs = inr [memo]
    /\ NoDup (map fst (default [] (entry memo)))
    /\ (forall k, k ∈ map fst (default [] (entry memo))
                  <-> k ∈ map (fun c => (first_entry undefined c).1) configs)
    /\ (forall k, obj_lookup k (default [] (entry memo))
                  = obj_lookup k (reverse (map (first_entry undefined)
                                               configs))).
Proof.
  intros Hall.
  destruct (reduce_configs_entries configs (Config None ∅) Hall)
    as (memo & Hred & _ & He).
  exists memo. unfold dev_exports. rewrite Hred. split; [reflexivity|].
  rewrite He. cbn [entry default].
  rewrite (fold_left_map (fun o kv => obj_set kv.1 kv.2 o)
             (first_entry undefined)).
  destruct (fold_obj_set_keys (map (first_entry undefined) configs) [])
    as [Hnd Hin]; [apply NoDup_nil_2|].
  split; [exact Hnd|]. split.
  - intros k. rewrite Hin, map_map, elem_of_nil. tauto.
  - intros k. rewrite fold_obj_set_lookup.
    by destruct (obj_lookup k (reverse _)).
Qed.

Lemma fold_union_lookup (configs : list (config E V)) (f : string) :
  forall m : gmap string V,
    fold_left (fun m c => m ∪ fields c) configs m !! f
    = match m !! f with
      | Some v => Some v
      | None => head (omap (fun c => fields c !! f) configs)
      end.
Proof.
  induction configs as [|c configs IH]; intros m; cbn [fold_left].
  - by destruct (m !! f).
  - rewrite IH, lookup_union. simpl.
    destruct (m !! f) as [v|], (fields c !! f) as [w|]; reflexivity.
Qed.

(** X6. In that one object every field other than [entry] has the value of
    the first configuration that has the field: a later configuration
    never replaces a setting of an earlier one. *)
Theorem dev_exports_fields (configs : list (config E V)) :
  Forall (fun c => is_Some (entry c)) configs ->
  exists memo,
    dev_exports undefined true configs = inr [memo]
    /\ forall f, fields memo !! f
                 = head (omap (fun c => fields c !! f) configs).
Proof.
  intros Hall.
  destruct (reduce_configs_entries configs (Config None ∅) Hall)
    as (memo & Hred & Hf & _).
  exists memo. unfold dev_exports. rewrite Hred. split; [reflexivity|].
  intros f. rewrite Hf, fold_union_lookup. cbn [fields].
  by rewrite lookup_empty.
Qed.

End DevServerExportFacts.

Lemma two_configs_have_entries :
  Forall (fun c => is_Some (entry c)) two_configs.
Proof. repeat constructor; by eexists. Qed.

Lemma dev_exports_entry_witness :
  exists memo,
    dev_exports None true two_configs = inr [memo]
    /\ map fst (default [] (entry memo)) = ["index.js"; "admin.js"]
    /\ obj_lookup "admin.js" (default [] (entry memo))
       = Some (Some ["./dist/admin.js"]).
Proof.
  destruct (dev_exports_entry None two_configs two_configs_have_entries)
    as (memo & Hd & _ & _ & Hl).
  exists memo. split; [exact Hd|]. split.
  - vm_compute in Hd. by injection Hd as <-.
  - rewrite Hl. reflexivity.
Defined.

Lemma dev_exports_fields_witness :
  exists memo,
    dev_exports None true two_configs = inr [memo]
    /\ fields memo !! "outDir" = Some "./.stats/index.js/"
    /\ fields memo !! "devtool" = Some "eval".
Proof.
  destruct (dev_exports_fields None two_configs two_configs_have_entries)
    as (memo & Hd & Hf).
  exists memo. split; [exact Hd|]. rewrite !Hf. split; reflexivity.
Defined.

(* ===================================================================== *)
(** * Properties of the broker's server *)
(* ===================================================================== *)

Lemma reset_undefined (b : broker) :
  global_webpackEntryPoints b = None ->
  reset b
  = Throw not_defined
      (Broker (httpServer b) (webpackDevServer b) None
              (effects b ++ match httpServer b with
                            | Some _ => [HttpClose]
                            | None => []
                            end) (next_pid b)).
Proof.
  intros Hg. destruct b as [h w g e n]; cbn in Hg; subst g.
  destruct h; cbn; [reflexivity|]. by rewrite app_nil_r.
Qed.

Lemma some_new_target_undefined_spawn (b : broker) (t : string)
    (ts : list string) (devServerPort : nat) (cwd : string) :
  global_webpackEntryPoints b = None ->
  spawnWebpackForEntry (t :: ts) devServerPort cwd b = Throw not_defined b.
Proof.
  intros Hg. unfold spawnWebpackForEntry. apply bind_Throw.
  by apply some_new_target_undefined.
Qed.

Lemma drop_app_length' {A} (xs ys : list A) :
  drop (length xs) (xs ++ ys) = ys.
Proof. by rewrite drop_app_length. Qed.

Section ServerFacts.

Variable publicPath : option string.
Variable entryPoints : list entry_point.
Variables (port devServerPort : nat) (cwd : string).

(** X7. As the module is written, with no [webpackEntryPoints] defined,
    [create] throws the reference error out of [reset]: it has closed the
    listener that was there and starts none, and the worker that was there
    is neither killed nor replaced. *)
Theorem create_throws_as_written (entryTargets : option (list string))
    (s : server) :
  global_webpackEntryPoints (module_vars s) = None ->
  create port devServerPort cwd entryTargets s
  = Throw not_defined
      (Server (Broker (httpServer (module_vars s))
                      (webpackDevServer (module_vars s)) None
                      (effects (module_vars s)
                       ++ match httpServer (module_vars s) with
                          | Some _ => [HttpClose]
                          | None => []
                          end)
                      (next_pid (module_vars s)))
              (events s ++ match httpServer (module_vars s) with
                           | Some _ => [Effect HttpClose]
                           | None => []
                           end)
              (next_handle s)).
Proof.
  intros Hg. unfold create. apply bind_Throw. unfold lift.
  rewrite (reset_undefined _ Hg). cbn [effects].
  rewrite drop_app_length'. by destruct (httpServer (module_vars s)).
Qed.

Lemma lift_Ok {A} (c : M broker A) (s : server) (a : A) (b' : broker) new :
  c (module_vars s) = Ok a b' ->
  effects b' = effects (module_vars s) ++ new ->
  lift c s = Ok a (Server b' (events s ++ map Effect new) (next_handle s)).
Proof.
  intros Hc He. unfold lift. rewrite Hc, He. by rewrite drop_app_length'.
Qed.

Lemma lift_Throw_same {A} (c : M broker A) (s : server) e :
  c (module_vars s) = Throw e (module_vars s) ->
  lift c s = Throw e s.
Proof.
  intros Hc. unfold lift. rewrite Hc, drop_all. cbn [map].
  rewrite app_nil_r. by destruct s.
Qed.

(** X8. With [webpackEntryPoints] defined, [create] starts from a clean
    slate: it closes the listener and kills the worker that were there,
    tracks the given entry targets and nothing else, starts one worker for
    them when there are any, and binds one new listener to its port. *)
Theorem create_starts_afresh (entryTargets : option (list string))
    (s : server) (set : list string) :
  global_webpackEntryPoints (module_vars s) = Some set ->
  let b := module_vars s in
  let targets := default [] entryTargets in
  let tracked := add_all targets [] in
  let c := Child (next_pid b) devServerPort (join "," tracked) cwd in
  let started := match targets with [] => [] | _ => [Spawn c] end in
  create port devServerPort cwd entryTargets s
  = Ok tt
      (Server (Broker (Some (next_handle s))
                      (match targets with [] => None | _ => Some c end)
                      (Some tracked)
                      (effects b ++ closing b ++ started)
                      (match targets with
                       | [] => next_pid b
                       | _ => S (next_pid b)
                       end))
              (events s ++ map Effect (closing b ++ started)
               ++ [Listen (next_handle s) port])
              (S (next_handle s))).
Proof.
  intros Hg b targets tracked c started. unfold create.
  erewrite bind_Ok; cycle 1.
  { eapply lift_Ok; [apply (reset_defined _ set Hg)|]. reflexivity. }
  cbv beta. fold b. fold (closing b).
  destruct entryTargets as [[|t ts]|]; subst targets tracked started c;
    cbn [default].
  - erewrite bind_Ok by reflexivity. unfold modify. cbn.
    by rewrite !app_nil_r, <- app_assoc.
  - erewrite bind_Ok; cycle 1.
    { unfold detached. erewrite lift_Ok; [reflexivity| |].
      - erewrite spawnWebpackForEntry_defined by reflexivity.
        cbn [forallb]. unfold set_has at 1.
        rewrite bool_decide_false by apply not_elem_of_nil.
        cbn [andb]. reflexivity.
      - cbn. reflexivity. }
    unfold modify, set_httpServer. cbn.
    by rewrite !map_app, <- !app_assoc.
  - erewrite bind_Ok by reflexivity. unfold modify. cbn.
    by rewrite !app_nil_r, <- app_assoc.
Qed.

(** X9. As the module is written, with no [webpackEntryPoints] defined, a
    request never starts or stops anything: whatever the URL, the handler
    leaves the module's variables as they are and does nothing but wait for
    the port or forward the request, also when it ends with an exception. *)
Theorem handle_request_never_spawns_as_written (url : string)
    (rejected : option js_error) (s : server) :
  global_webpackEntryPoints (module_vars s) = None ->
  exists new,
    Forall (fun e => is_wait_or_proxy e = true) new
    /\ let s' := Server (module_vars s) (events s ++ new) (next_handle s) in
       (handle_request publicPath entryPoints devServerPort cwd url rejected s
        = Ok tt s'
        \/ exists e, handle_request publicPath entryPoints devServerPort cwd
                       url rejected s = Throw e s').
Proof.
  intros Hg. unfold handle_request.
  assert (Hsame : Server (module_vars s) (events s ++ []) (next_handle s) = s).
  { rewrite app_nil_r. by destruct s. }
  destruct publicPath as [pp|];
    [|exists []; split; [constructor|]; right; eexists; cbn;
      by rewrite Hsame].
  destruct (ends_with _ _).
  { exists [Proxy devServerPort url]. split; [by repeat constructor|].
    by left. }
  destruct (findRootEntryForAsset _ _) as [e|rootEntryPoint].
  { exists []. split; [constructor|]. right. exists e. cbn.
    by rewrite Hsame. }
  destruct (truthy rootEntryPoint).
  - exists []. split; [constructor|]. right. exists not_defined.
    cbn [negb]. apply bind_Throw. cbn zeta. rewrite Hsame.
    apply lift_Throw_same. by apply some_new_target_undefined_spawn.
  - cbn [negb]. destruct rejected as [e|].
    + exists [WaitPort devServerPort (Some 1000)].
      split; [by repeat constructor|]. right. by exists e.
    + exists [WaitPort devServerPort (Some 1000); Proxy devServerPort url].
      split; [by repeat constructor|]. left. cbn.
      unfold proxyRequest, record_event, modify. cbn.
      by rewrite <- app_assoc.
Qed.

End ServerFacts.

Section Requests.

Variable entryPoints : list entry_point.
Variables (devServerPort : nat) (cwd : string).

(** X10. With [webpackEntryPoints] defined, a request for an asset of an
    entry target that is tracked already starts nothing: the handler waits
    for the port and forwards the request. For a target that is not yet
    tracked it adds the target to the tracked ones, kills the worker that
    runs, starts a worker for all tracked targets, waits a second and for
    the port, and forwards the request. *)
Theorem handle_request_serves_entry (publicPath url r : string)
    (set : list string) (s : server) :
  ends_with ".hot-update" (asset_of publicPath url) = false ->
  findRootEntryForAsset entryPoints (asset_of publicPath url)
  = inr (Some r) ->
  truthy (Some r) = true ->
  global_webpackEntryPoints (module_vars s) = Some set ->
  let b := module_vars s in
  let tracked := set ++ [r] in
  let c := Child (next_pid b) devServerPort (join "," tracked) cwd in
  let kill := match webpackDevServer b with
              | Some old => [Kill old]
              | None => []
              end in
  handle_request (Some publicPath) entryPoints devServerPort cwd url None s
  = Ok tt
      (if set_has r set
       then Server b
              (events s ++ [WaitPort devServerPort None;
                            Proxy devServerPort url])
              (next_handle s)
       else Server (Broker (httpServer b) (Some c) (Some tracked)
                           (effects b ++ kill ++ [Spawn c])
                           (S (next_pid b)))
              (events s ++ map Effect (kill ++ [Spawn c])
               ++ [Sleep 1000; WaitPort devServerPort None;
                   Proxy devServerPort url])
              (next_handle s)).
Proof.
  intros Hhot Hfind Htruthy Hg b tracked c kill.
  unfold handle_request. rewrite Hhot, Hfind, Htruthy. cbn [negb default].
  pose proof (spawnWebpackForEntry_defined b set [r] devServerPort cwd Hg)
    as Hspawn.
  cbn [forallb] in Hspawn. rewrite andb_true_r in Hspawn.
  unfold add_all in Hspawn. cbn [fold_left] in Hspawn.
  unfold set_add in Hspawn.
  destruct (set_has r set) eqn:Hhas.
  - erewrite bind_Ok; cycle 1.
    { apply (lift_Ok _ s true b []); [exact Hspawn|]. by rewrite app_nil_r. }
    cbn [negb map]. unfold record_event, proxyRequest, record_event, modify,
      bind, ret. cbn. by rewrite !app_nil_r, <- !app_assoc.
  - erewrite bind_Ok; cycle 1.
    { eapply (lift_Ok _ s false); [exact Hspawn|]. reflexivity. }
    cbn [negb]. unfold record_event, proxyRequest, record_event, modify,
      bind, ret. cbn. by rewrite <- !app_assoc.
Qed.

End Requests.

Lemma handle_request_serves_entry_witness :
  handle_request (Some "/static") [(["index.js"], ["index.less"])] 3000
    "/app" "/static/index.css?v=2" None
    (Server (module_scope (Some [])) [] 0)
  = Ok tt
      (Server (Broker None (Some (Child 0 3000 "index.js" "/app"))
                      (Some ["index.js"])
                      [Spawn (Child 0 3000 "index.js" "/app")] 1)
              [Effect (Spawn (Child 0 3000 "index.js" "/app"));
               Sleep 1000; WaitPort 3000 None;
               Proxy 3000 "/static/index.css?v=2"] 0).
Proof.
  apply (handle_request_serves_entry [(["index.js"], ["index.less"])] 3000
           "/app" "/static" "/static/index.css?v=2" "index.js" []
           (Server (module_scope (Some [])) [] 0)).
  - vm_compute. reflexivity.
  - vm_compute. reflexivity.
  - reflexivity.
  - reflexivity.
Defined.

(** X11. The asset that the handler looks up does not depend on the query
    string of the request. *)
Theorem asset_of_ignores_query (publicPath url query : string) :
  has_char "?"%char url = false ->
  asset_of publicPath (url +:+ "?" +:+ query) = asset_of publicPath url.
Proof.
  intros Hfree. unfold asset_of.
  rewrite (append_cons "?"%char "" query), append_nil.
  rewrite split_app by exact Hfree.
  by rewrite (split_no_sep _ url) by exact Hfree.
Qed.

Lemma asset_of_ignores_query_witness :
  has_char "?"%char "/static/index.css" = false
  /\ asset_of "/static" ("/static/index.css" +:+ "?" +:+ "v=2") = "/index".
Proof.
  split; [reflexivity|].
  rewrite (asset_of_ignores_query "/static" "/static/index.css" "v=2")
    by reflexivity.
  vm_compute. reflexivity.
Defined.

Lemma create_throws_as_written_witness :
  create 4000 3000 "/app" (Some ["index.js"]) (Server (serving_a None) [] 1)
  = Throw not_defined
      (Server (Broker (Some 0) (Some worker_a) None
                      [Spawn worker_a; HttpClose] 1)
              [Effect HttpClose] 1).
Proof.
  exact (create_throws_as_written 4000 3000 "/app" (Some ["index.js"])
           (Server (serving_a None) [] 1) eq_refl).
Defined.

Lemma create_starts_afresh_witness :
  create 4000 3000 "/app" (Some ["index.js"; "admin.js"; "index.js"])
         (Server (serving_a (Some ["a"])) [] 1)
  = Ok tt
      (Server (Broker (Some 1)
                      (Some (Child 1 3000 "index.js,admin.js" "/app"))
                      (Some ["index.js"; "admin.js"])
                      [Spawn worker_a; HttpClose; Kill worker_a;
                       Spawn (Child 1 3000 "index.js,admin.js" "/app")] 2)
              [Effect HttpClose; Effect (Kill worker_a);
               Effect (Spawn (Child 1 3000 "index.js,admin.js" "/app"));
               Listen 1 4000] 2).
Proof.
  exact (create_starts_afresh 4000 3000 "/app"
           (Some ["index.js"; "admin.js"; "index.js"])
           (Server (serving_a (Some ["a"])) [] 1) ["a"] eq_refl).
Defined.

Lemma handle_request_never_spawns_as_written_witness :
  exists new,
    Forall (fun e => is_wait_or_proxy e = true) new
    /\ exists e,
         handle_request (Some "/static") [(["index.js"], ["index.less"])]
           3000 "/app" "/static/index.css" None
           (Server (module_scope None) [] 0)
         = Throw e (Server (module_scope None) ([] ++ new) 0).
Proof.
  destruct (handle_request_never_spawns_as_written (Some "/static")
              [(["index.js"], ["index.less"])] 3000 "/app"
              "/static/index.css" None (Server (module_scope None) [] 0)
              eq_refl) as (new & Hnew & [Hok|He]).
  - vm_compute in Hok. discriminate Hok.
  - exists new. split; [exact Hnew | exact He].
Defined.

(* ===================================================================== *)
(** * Further properties of the resolver *)
(* ===================================================================== *)

(** ** What the discovery does to the state *)

Lemma evolves_refl rec : evolves rec rec.
Proof. unfold evolves. auto 10. Qed.

Lemma evolves_trans r1 r2 r3 : evolves r1 r2 -> evolves r2 r3 -> evolves r1 r3.
Proof.
  intros (H1 & H2 & H3 & H4 & H5 & H6) (G1 & G2 & G3 & G4 & G5 & G6).
  unfold evolves. repeat split; try congruence; auto.
Qed.

Lemma extends_refl s : extends s s.
Proof.
  unfold extends. repeat split; auto.
  intros r rec Hr. exists rec. split; [exact Hr | apply evolves_refl].
Qed.

Lemma extends_trans s1 s2 s3 : extends s1 s2 -> extends s2 s3 -> extends s1 s3.
Proof.
  intros (Hn & Hh & Hm & Hr) (Hn' & Hh' & Hm' & Hr').
  split; [lia|]. split; [|split; [congruence|]].
  - intros j Hj. rewrite Hh' by lia. by apply Hh.
  - intros r rec Hrec. destruct (Hr r rec Hrec) as (rec' & Hrec' & He).
    destruct (Hr' r rec' Hrec') as (rec'' & Hrec'' & He').
    exists rec''. split; [exact Hrec''|]. eapply evolves_trans; eassumption.
Qed.

Lemma discovers_refl files s : discovers files s s.
Proof.
  exists [], []. rewrite !app_nil_r. repeat split; constructor.
Qed.

Lemma discovers_trans files s1 s2 s3 :
  discovers files s1 s2 -> discovers files s2 s3 -> discovers files s1 s3.
Proof.
  intros (r1 & p1 & Hr1 & Hp1 & Hperm1 & Hf1)
         (r2 & p2 & Hr2 & Hp2 & Hperm2 & Hf2).
  exists (r1 ++ r2), (p1 ++ p2).
  rewrite Hr2, Hr1, Hp2, Hp1, <- !app_assoc.
  repeat split; [by apply Permutation_app | by apply Forall_app].
Qed.

Lemma discovers_fails files e s1 s2 s3 :
  discovers files s1 s2 -> fails_at files e s2 s3 -> fails_at files e s1 s3.
Proof.
  intros (r1 & p1 & Hr1 & _ & _ & Hf1) (r2 & Hr2 & He).
  exists (r1 ++ r2). rewrite Hr2, Hr1, <- app_assoc. split; [reflexivity|].
  destruct e; try (by apply Forall_app).
  destruct He as (Hnone & l & -> & Hl). split; [exact Hnone|].
  exists (r1 ++ l). rewrite <- app_assoc. split; [reflexivity|].
  by apply Forall_app.
Qed.

Lemma fails_at_here files s msg :
  fails_at files (TypeError msg) s s.
Proof. exists []. rewrite app_nil_r. split; [reflexivity | constructor]. Qed.

Section DiscoverySteps.

Variable files : string -> option tree.

Lemma step_ok_refl s : step_ok files s s.
Proof.
  split; [apply extends_refl|]. split; [auto | apply discovers_refl].
Qed.

Lemma step_ok_trans s1 s2 s3 :
  step_ok files s1 s2 -> step_ok files s2 s3 -> step_ok files s1 s3.
Proof.
  intros (He & Hi & Hd) (He' & Hi' & Hd').
  split; [eapply extends_trans; eassumption|]. split; [auto|].
  eapply discovers_trans; eassumption.
Qed.

Lemma step_ok_err e s1 s2 s3 :
  step_ok files s1 s2 -> step_err files e s2 s3 -> step_err files e s1 s3.
Proof.
  intros (He & Hi & Hd) (He' & Hi' & Hd').
  split; [eapply extends_trans; eassumption|]. split; [auto|].
  eapply discovers_fails; eassumption.
Qed.

Lemma step_err_here s msg : step_err files (TypeError msg) s s.
Proof.
  split; [apply extends_refl|]. split; [auto | apply fails_at_here].
Qed.

Lemma reading_ok q s1 s2 s3 :
  reading files q s1 s2 -> step_ok files s2 s3 -> reading files q s1 s3.
Proof.
  intros (He & Hi & Hq & r1 & p1 & Hr1 & Hp1 & Hperm1 & Hf1)
         (He' & Hi' & r2 & p2 & Hr2 & Hp2 & Hperm2 & Hf2).
  split; [eapply extends_trans; eassumption|]. split; [auto|].
  split; [exact Hq|]. exists (r1 ++ r2), (p1 ++ p2).
  rewrite Hr2, Hr1, Hp2, Hp1, <- !app_assoc. cbn.
  repeat split; [by apply Permutation_app | by apply Forall_app].
Qed.

Lemma reading_err q e s1 s2 s3 :
  reading files q s1 s2 -> step_err files e s2 s3 -> step_err files e s1 s3.
Proof.
  intros (He & Hi & Hq & r1 & p1 & Hr1 & Hp1 & Hperm1 & Hf1)
         (He' & Hi' & r2 & Hr2 & Hfail).
  split; [eapply extends_trans; eassumption|]. split; [auto|].
  exists (q :: r1 ++ r2). rewrite Hr2, Hr1, <- app_assoc. cbn.
  split; [reflexivity|].
  assert (Hall : Forall (fun p => is_Some (files p)) (q :: r1))
    by (by constructor).
  destruct e; try (apply (Forall_app _ (q :: r1) r2); by split).
  destruct Hfail as (Hnone & l & -> & Hl). split; [exact Hnone|].
  exists (q :: r1 ++ l). split; [cbn; by rewrite <- app_assoc|].
  apply (Forall_app _ (q :: r1) l). by split.
Qed.

(** The record made for [q] once its [process] is over. *)
Lemma reading_registered q s1 s2 rt sn fromPath flag rules :
  reading files q s1 s2 ->
  step_ok files s1
    (set_orderedImports (fun l => l ++ [length (records s2)])
       (set_imports (fun m => <[q := length (records s2)]> m)
          (set_records (fun rs => rs ++ [ImportOpts rt sn q fromPath flag
                                           rules]) s2))).
Proof.
  intros ((Hn & Hh & Hm & Hrec) & Hi & Hq & r1 & p1 & Hr1 & Hp1 & Hperm & Hf).
  split; [|split].
  - split; [exact Hn|]. split; [exact Hh|]. split; [exact Hm|].
    intros r rec Hr. destruct (Hrec r rec Hr) as (rec' & Hr' & He).
    exists rec'. split; [|exact He]. cbn. by apply lookup_app_l_Some.
  - intros Hidx. specialize (Hi Hidx). unfold indexed in *. cbn.
    rewrite Hi, length_app. cbn. by rewrite Nat.add_1_r, seq_S.
  - exists (q :: r1), (p1 ++ [q]). cbn.
    split; [exact Hr1|]. split.
    + unfold paths in *. cbn. by rewrite map_app, Hp1, <- app_assoc.
    + split; [|by constructor].
      rewrite Hperm. apply Permutation_cons_append.
Qed.

Lemma mark_global_step r s :
  wp (mark_global r) (fun _ s' => step_ok files s s')
     (fun e s' => step_err files e s s') s.
Proof.
  unfold wp, mark_global, record_at, bind, get.
  destruct (records s !! r) as [rec|] eqn:Hr; cbn; [|apply step_err_here].
  assert (Hpaths : paths (set_records (fun rs =>
            <[r := ImportOpts (root rec) (styleNode rec) (fullpath rec)
                     (fromPath rec) true (inclusionRules rec)]> rs) s)
          = paths s).
  { unfold paths. cbn. rewrite list_fmap_insert. cbn.
    apply list_insert_id. by rewrite list_lookup_fmap, Hr. }
  split; [|split].
  - split; [reflexivity|]. split; [reflexivity|]. split; [reflexivity|].
    intros r' rec' Hr'. cbn.
    destruct (decide (r = r')) as [<-|Hne].
    + rewrite list_lookup_insert_eq by (by eapply lookup_lt_Some).
      eexists. split; [reflexivity|]. assert (rec' = rec) as -> by congruence.
      unfold evolves. cbn. auto 10.
    + rewrite list_lookup_insert_ne by exact Hne.
      exists rec'. split; [exact Hr' | apply evolves_refl].
  - unfold indexed. cbn. by rewrite length_insert.
  - exists [], []. rewrite Hpaths, !app_nil_r. repeat split; constructor.
Qed.

Lemma add_inclusionRule_step r rule s :
  wp (add_inclusionRule r rule) (fun _ s' => step_ok files s s')
     (fun e s' => step_err files e s s') s.
Proof.
  unfold wp, add_inclusionRule, record_at, bind, get.
  destruct (records s !! r) as [rec|] eqn:Hr; cbn; [|apply step_err_here].
  assert (Hpaths : paths (set_records (fun rs =>
            <[r := ImportOpts (root rec) (styleNode rec) (fullpath rec)
                     (fromPath rec) (isGloballyImported rec)
                     (set_add rule (inclusionRules rec))]> rs) s)
          = paths s).
  { unfold paths. cbn. rewrite list_fmap_insert. cbn.
    apply list_insert_id. by rewrite list_lookup_fmap, Hr. }
  split; [|split].
  - split; [reflexivity|]. split; [reflexivity|]. split; [reflexivity|].
    intros r' rec' Hr'. cbn.
    destruct (decide (r = r')) as [<-|Hne].
    + rewrite list_lookup_insert_eq by (by eapply lookup_lt_Some).
      eexists. split; [reflexivity|]. assert (rec' = rec) as -> by congruence.
      unfold evolves. cbn. repeat split; auto.
      intros x Hx. apply elem_of_set_add. by left.
    + rewrite list_lookup_insert_ne by exact Hne.
      exists rec'. split; [exact Hr' | apply evolves_refl].
  - unfold indexed. cbn. by rewrite length_insert.
  - exists [], []. rewrite Hpaths, !app_nil_r. repeat split; constructor.
Qed.

Lemma read_and_parse_step q s :
  wp (read_and_parse files q) (fun _ s' => reading files q s s')
     (fun e s' => step_err files e s s') s.
Proof.
  unfold wp, read_and_parse, bind, modify.
  destruct (files q) as [t|] eqn:Hq.
  - unfold alloc_tree, bind, get, modify, ret. cbn.
    destruct (alloc t None (heap s) (next s)) as [h n] eqn:Ha.
    apply alloc_spec in Ha as (Hlt & Hkeep & _). cbn.
    split; [|split; [|split]].
    + split; [cbn; lia|]. split; [exact Hkeep|]. split; [reflexivity|].
      intros r rec Hr. exists rec. split; [exact Hr | apply evolves_refl].
    + auto.
    + by rewrite Hq.
    + exists [], []. cbn. rewrite app_nil_r. repeat split; constructor.
  - cbn. unfold throw. split; [|split].
    + split; [reflexivity|]. split; [reflexivity|]. split; [reflexivity|].
      intros r rec Hr. exists rec. split; [exact Hr | apply evolves_refl].
    + auto.
    + exists [q]. cbn. split; [reflexivity|]. split; [exact Hq|].
      exists []. split; [reflexivity | constructor].
Qed.

End DiscoverySteps.

Lemma wp_node_at i s (Q : node -> st -> Prop) (E : js_error -> st -> Prop) :
  (forall n, heap s !! i = Some n -> Q n s) ->
  (forall msg, E (TypeError msg) s) ->
  wp (node_at i) Q E s.
Proof.
  intros HQ HE. unfold wp, node_at, bind, get.
  destruct (heap s !! i) as [n|]; cbn; auto.
Qed.

Lemma wp_nodes_of i s (Q : list nat -> st -> Prop)
    (E : js_error -> st -> Prop) :
  (forall n ids, heap s !! i = Some n -> nodes n = Some ids -> Q ids s) ->
  (forall msg, E (TypeError msg) s) ->
  wp (nodes_of i) Q E s.
Proof.
  intros HQ HE. unfold nodes_of. apply wp_bind, wp_node_at; [|exact HE].
  intros n Hn. destruct (nodes n) as [ids|] eqn:Hids; cbn; eauto.
Qed.

(** What a discovery does to the state, on every graph and within every
    step budget. *)
Lemma findImports_step files fuel :
  forall o styles fromPath s,
    wp (findImports files fuel o styles fromPath)
       (fun _ s' => step_ok files s s')
       (fun e s' => step_err files e s s') s.
Proof.
  induction fuel as [|fuel IH]; intros o styles fromPath s;
    cbn [findImports]; [exact I|].
  apply wp_bind, wp_nodes_of; [|intros msg; apply step_err_here].
  intros n0 ns _ _.
  eapply wp_mono; [apply (wp_forEach _ _ (step_ok files s)
                            (fun e s' => step_err files e s s'))| |];
    [|apply step_ok_refl|auto|auto].
  intros styleNode s1 _ Hs1.
  assert (Hback : forall c : M st unit,
            wp c (fun _ s' => step_ok files s1 s')
                 (fun e s' => step_err files e s1 s') s1 ->
            wp c (fun _ s' => step_ok files s s')
                 (fun e s' => step_err files e s s') s1).
  { intros c Hc. eapply wp_mono; [exact Hc| |]; cbn beta.
    - intros _ s2 H2. eapply step_ok_trans; eassumption.
    - intros e s2 H2. eapply step_ok_err; eassumption. }
  apply wp_bind, wp_node_at;
    [|intros msg; eapply step_ok_err; [exact Hs1 | apply step_err_here]].
  intros n _. destruct (isImportNode n).
  - cbv zeta. apply Hback.
    set (q := resolve o (strip_quotes (filename (data n))) (dirname fromPath)).
    apply wp_bind, wp_get. destruct (imports s1 !! q) as [r|].
    + destruct (negb (truthy (fromInclusionRule (data n))));
        [apply mark_global_step | apply add_inclusionRule_step].
    + apply wp_bind.
      eapply wp_mono; [apply read_and_parse_step| |auto]. cbn beta.
      intros rt sa Hsa. apply wp_bind.
      eapply wp_mono;
        [apply (wp_forEach _ _ (reading files q s1)
                  (fun e s' => step_err files e s1 s'))| |];
        [|exact Hsa| |auto].
      { intros p s2 _ Hs2.
        eapply wp_mono; [apply (IH p rt q s2)| |]; cbn beta.
        - intros _ s3 H3. eapply reading_ok; eassumption.
        - intros e s3 H3. eapply reading_err; eassumption. }
      cbn beta. intros _ s2 Hs2.
      apply wp_bind, wp_get. apply wp_bind, wp_modify.
      match goal with |- wp _ _ _ ?s3' => set (s3 := s3') end.
      assert (Hs3 : step_ok files s1 s3)
        by (by apply reading_registered).
      eapply wp_mono; [apply (IH o rt q s3)| |]; cbn beta.
      * intros _ s4 H4. eapply step_ok_trans; eassumption.
      * intros e s4 H4. eapply step_ok_err; eassumption.
  - destruct (nodes n).
    + apply Hback, IH.
    + exact Hs1.
Qed.

(** X12. A discovery, on every graph, leaves every Import Record that
    exists in its place and evolved: the record keeps its root, its Import
    Node and its two paths, stays globally imported once it is, and loses
    no inclusion rule. *)
Theorem findImports_records_evolve files fuel o styles fromPath s :
  match findImports files fuel o styles fromPath s with
  | Ok _ s' | Throw _ s' =>
    forall r rec, records s !! r = Some rec ->
                  exists rec', records s' !! r = Some rec'
                               /\ evolves rec rec'
  | OutOfFuel => True
  end.
Proof.
  pose proof (findImports_step files fuel o styles fromPath s) as H.
  unfold wp in H.
  destruct (findImports files fuel o styles fromPath s) as [u s'|e s'|];
    [| |exact I]; by destruct H as ((_ & _ & _ & Hr) & _).
Qed.

(** X13. A discovery changes no node object that exists, whatever the
    graph: it only makes new objects for the files it parses, and it adds
    no message. *)
Theorem findImports_changes_no_node files fuel o styles fromPath s :
  match findImports files fuel o styles fromPath s with
  | Ok _ s' | Throw _ s' =>
    next s <= next s'
    /\ (forall j, j < next s -> heap s' !! j = heap s !! j)
    /\ messages s' = messages s
  | OutOfFuel => True
  end.
Proof.
  pose proof (findImports_step files fuel o styles fromPath s) as H.
  unfold wp in H.
  destruct (findImports files fuel o styles fromPath s) as [u s'|e s'|];
    [| |exact I]; by destruct H as ((Hn & Hh & Hm & _) & _).
Qed.

Lemma discovery_step files fuel o sheet from :
  match discovery files fuel o sheet from with
  | Ok _ s =>
    indexed s /\ reads s ≡ₚ paths s
    /\ Forall (fun p => is_Some (files p)) (reads s)
  | Throw e s => fails_at files e empty_st s
  | OutOfFuel => True
  end.
Proof.
  destruct (alloc_tree_start sheet)
    as (rootStyles & s0 & Ha & _ & Hr & Hrec & _ & Ho).
  unfold discovery. erewrite bind_Ok by exact Ha.
  pose proof (findImports_step files fuel o rootStyles from s0) as H.
  unfold wp in H.
  destruct (findImports files fuel o rootStyles from s0) as [u s|e s|];
    [| |exact I].
  - destruct H as (_ & Hi & nr & np & Hnr & Hnp & Hperm & Hall).
    unfold paths in Hnp. rewrite Hrec in Hnp. cbn in Hnp.
    rewrite Hr in Hnr. cbn in Hnr.
    split; [|split].
    + apply Hi. unfold indexed. by rewrite Ho, Hrec.
    + unfold paths. by rewrite Hnr, Hnp.
    + by rewrite Hnr.
  - destruct H as (_ & _ & nr & Hnr & He). exists nr. split; [|exact He].
    by rewrite Hnr, Hr.
Qed.

Lemma build_throws_with_discovery files fuel o sheet from e s :
  discovery files fuel o sheet from = Throw e s ->
  build files fuel o sheet from empty_st = Throw e s.
Proof.
  unfold discovery, build, OnceExit, bind.
  destruct (alloc_tree sheet empty_st) as [rootStyles s0|e0 s0|];
    [|by intros [= -> ->]|discriminate].
  destruct (findImports files fuel o rootStyles from s0) as [u s1|e1 s1|];
    [discriminate|by intros [= -> ->]|discriminate].
Qed.

(** X14. A file that cannot be read aborts the build at once: when the
    discovery throws the failure to read [p], the build throws it too, [p]
    is the last path that was read and is not there, and all paths read
    before are there.  A discovery that ends well, or with another
    exception, has read only files that are there. *)
Theorem missing_file_aborts_build files fuel o sheet from :
  match discovery files fuel o sheet from with
  | Ok _ s => Forall (fun p => is_Some (files p)) (reads s)
  | Throw e s =>
    build files fuel o sheet from empty_st = Throw e s
    /\ match e with
       | ENOENT p =>
         files p = None
         /\ exists l, reads s = l ++ [p]
                      /\ Forall (fun p => is_Some (files p)) l
       | _ => Forall (fun p => is_Some (files p)) (reads s)
       end
  | OutOfFuel => True
  end.
Proof.
  pose proof (discovery_step files fuel o sheet from) as H.
  pose proof (build_throws_with_discovery files fuel o sheet from) as Hb.
  destruct (discovery files fuel o sheet from) as [u s|e s|]; [| |exact I].
  - by destruct H as (_ & _ & H).
  - split; [by apply Hb|]. destruct H as (nr & Hnr & He). cbn in Hnr.
    rewrite Hnr. exact He.
Qed.

(** ** What the injection leaves alone *)

Section Preserved.

Context {X : Type} (f : st -> X).
Hypothesis f_heap : forall g s, f (set_heap g s) = f s.

Lemma preserves_ret {A} (a : A) : preserves f (ret a).
Proof. intros s. reflexivity. Qed.

Lemma preserves_throw {A} e : preserves f (throw (A := A) e).
Proof. intros s. reflexivity. Qed.

Lemma preserves_bind {A B} (c : M st A) (k : A -> M st B) :
  preserves f c -> (forall a, preserves f (k a)) -> preserves f (bind c k).
Proof.
  intros Hc Hk s. apply wp_bind. eapply wp_mono; [apply Hc | | auto].
  cbn beta. intros a s1 H1. eapply wp_mono; [apply Hk | |].
  - cbn beta. intros b s2 H2. congruence.
  - cbn beta. intros e s2 H2. congruence.
Qed.

Lemma preserves_pure {A} (c : M st A) :
  (forall s, pure_on s c) -> preserves f c.
Proof.
  intros Hp s. eapply wp_mono; [apply Hp | |]; cbn beta; by intros ? ? ->.
Qed.

Lemma preserves_forEach {A} (g : A -> M st unit) xs :
  (forall x, preserves f (g x)) -> preserves f (forEach g xs).
Proof.
  intros Hg. induction xs as [|x xs IH]; cbn [forEach].
  - apply preserves_ret.
  - apply preserves_bind; [apply Hg | intros _; exact IH].
Qed.

Lemma preserves_set_heap g : preserves f (modify (set_heap g)).
Proof. intros s. apply f_heap. Qed.

Lemma preserves_node_at i : preserves f (node_at i).
Proof. apply preserves_pure. intros s. apply pure_node_at. Qed.

Lemma preserves_nodes_of i : preserves f (nodes_of i).
Proof. apply preserves_pure. intros s. apply pure_nodes_of. Qed.

Lemma preserves_set_nodes i ids : preserves f (set_nodes i ids).
Proof.
  apply preserves_bind; [apply preserves_node_at|].
  intros n. apply preserves_set_heap.
Qed.

Lemma preserves_set_parent i p : preserves f (set_parent i p).
Proof.
  apply preserves_bind; [apply preserves_node_at|].
  intros n. apply preserves_set_heap.
Qed.

Lemma preserves_set_before i b : preserves f (set_before i b).
Proof.
  apply preserves_bind; [apply preserves_node_at|].
  intros n. apply preserves_set_heap.
Qed.

Lemma preserves_replace_imports o rec fr snapshot found :
  preserves f (replace_imports o rec fr snapshot found).
Proof.
  revert found. induction snapshot as [|i ids IH]; intros found;
    cbn [replace_imports]; [apply preserves_ret|].
  apply preserves_bind; [apply preserves_node_at | intros n].
  apply preserves_bind; [|intros b; apply IH].
  destruct (isImportNode n); [|apply preserves_ret].
  cbv zeta. destruct (str_eqb _ _); [|apply preserves_ret].
  apply preserves_bind; [apply preserves_nodes_of | intros live].
  cbv zeta. apply preserves_bind; [apply preserves_nodes_of | intros items].
  apply preserves_bind; [apply preserves_set_nodes|].
  intros _. apply preserves_ret.
Qed.

Lemma preserves_inject_into_rule o rootStyles rec rule :
  preserves f (inject_into_rule o rootStyles rec rule).
Proof.
  apply preserves_bind;
    [apply preserves_pure; intros s; apply pure_findSelector|].
  intros [fr|]; [|apply preserves_throw].
  apply preserves_bind; [apply preserves_nodes_of | intros snapshot].
  apply preserves_bind; [apply preserves_replace_imports | intros [|]].
  - apply preserves_ret.
  - apply preserves_throw.
Qed.

Lemma preserves_safeRemove node : preserves f (safeRemove node).
Proof.
  apply preserves_bind; [apply preserves_node_at | intros n].
  destruct (parent n) as [p|]; [|apply preserves_ret].
  apply preserves_bind; [apply preserves_node_at | intros pn].
  destruct (nodes pn) as [kids|]; [|apply preserves_ret].
  cbv zeta. destruct (Z.eqb _ _); [apply preserves_ret|].
  apply preserves_bind; [apply preserves_set_parent|].
  intros _. apply preserves_set_nodes.
Qed.

Lemma preserves_separate_first_node rec :
  preserves f (separate_first_node rec).
Proof.
  apply preserves_bind; [apply preserves_nodes_of | intros [|first rest]].
  - apply preserves_ret.
  - apply preserves_set_before.
Qed.

Lemma preserves_push_or_scope o rootStyles rec :
  preserves f (push_or_scope o rootStyles rec).
Proof.
  unfold push_or_scope. destruct (isGloballyImported rec).
  - apply preserves_bind; [apply preserves_nodes_of|].
    intros items. apply preserves_ret.
  - apply preserves_bind; [|intros _; apply preserves_ret].
    apply preserves_forEach. intros rule. apply preserves_inject_into_rule.
Qed.

Lemma preserves_remove_comment prevNode :
  preserves f (remove_comment prevNode).
Proof.
  destruct prevNode as [pn|]; [|apply preserves_ret].
  apply preserves_bind; [apply preserves_node_at | intros n].
  destruct (_ && _); [apply preserves_safeRemove | apply preserves_ret].
Qed.

Lemma preserves_removeAllImports fuel rootNode :
  preserves f (removeAllImports fuel rootNode).
Proof.
  revert rootNode. induction fuel as [|fuel IH]; intros rootNode;
    cbn [removeAllImports]; [intros s; exact I|].
  apply preserves_bind; [apply preserves_nodes_of | intros snapshot].
  apply preserves_forEach. intros node.
  apply preserves_bind; [apply preserves_node_at | intros n].
  destruct (isImportNode n).
  - apply preserves_bind; [apply preserves_nodes_of | intros live].
    cbv zeta. apply preserves_bind; [apply preserves_set_nodes | intros _].
    destruct (at_index _ _); [apply preserves_set_before|].
    apply preserves_ret.
  - destruct (nodes n); [apply IH | apply preserves_ret].
Qed.

Lemma preserves_Ok {A} (c : M st A) s a s' :
  preserves f c -> c s = Ok a s' -> f s' = f s.
Proof.
  intros Hk H. specialize (Hk s). unfold wp in Hk. by rewrite H in Hk.
Qed.

End Preserved.

(** ** The messages of a build *)

Lemma inject_record_messages fuel o rootStyles r rec s pushed s' :
  records s !! r = Some rec ->
  inject_record fuel o rootStyles r s = Ok pushed s' ->
  messages s' = messages s ++ [fullpath rec].
Proof.
  intros Hr H. unfold inject_record in H.
  apply bind_Ok_inv in H as (rec' & s0 & Hrec & H).
  apply record_at_Ok in Hrec as [-> Hrec].
  assert (rec' = rec) as -> by congruence.
  apply bind_Ok_inv in H as (prevNode & s1 & Hloc & H).
  apply locate_prevNode_Ok in Hloc as ->.
  assert (Hrest : preserves messages
            (separate_first_node rec ;;;
             pushed <- push_or_scope o rootStyles rec ;;
             remove_comment prevNode ;;;
             ret pushed)).
  { apply preserves_bind; [by apply preserves_separate_first_node|].
    intros _. apply preserves_bind; [by apply preserves_push_or_scope|].
    intros p. apply preserves_bind; [by apply preserves_remove_comment|].
    intros _. apply preserves_ret. }
  by rewrite (preserves_Ok messages _ _ _ _ Hrest H).
Qed.

Lemma contributions_messages fuel o rootStyles recs rs s segs s2 :
  contributions fuel o rootStyles recs rs s segs s2 ->
  records s = recs ->
  messages s2
  = messages s ++ omap (fun r => fullpath <$> recs !! r) rs.
Proof.
  induction 1 as [s|r rs rec s seg s1 segs s2 Hrec Hrun Hseg Hrest IH];
    intros Hrecs.
  - by rewrite app_nil_r.
  - pose proof (keeps_Ok _ _ _ _ (keeps_inject_record fuel o rootStyles r)
                  Hrun) as Hreg.
    unfold registry in Hreg. injection Hreg as _ Hrecs1 _ _.
    rewrite IH by congruence.
    rewrite (inject_record_messages _ _ _ _ rec _ _ _ ltac:(by rewrite Hrecs)
               Hrun).
    cbn [omap list_omap]. rewrite Hrec. cbn. by rewrite <- app_assoc.
Qed.

Lemma omap_lookup_seq {A B} (g : A -> B) (l pre : list A) :
  omap (fun r => g <$> (pre ++ l) !! r) (seq (length pre) (length l))
  = map g l.
Proof.
  revert pre. induction l as [|x l IH]; intros pre; [reflexivity|].
  cbn [length seq omap list_omap map].
  rewrite lookup_app_r, Nat.sub_diag by lia. cbn. f_equal.
  specialize (IH (pre ++ [x])).
  rewrite length_app, Nat.add_1_r, <- app_assoc in IH. exact IH.
Qed.

Lemma build_messages files fuel o sheet from rootStyles s :
  build files fuel o sheet from empty_st = Ok rootStyles s ->
  messages s = paths s /\ reads s ≡ₚ paths s.
Proof.
  intros Hbuild.
  pose proof (discovery_step files fuel o sheet from) as Hd.
  unfold discovery in Hd. unfold build in Hbuild.
  apply bind_Ok_inv in Hbuild as (rs & s0 & Ha & Hbuild).
  erewrite bind_Ok in Hd by exact Ha.
  apply bind_Ok_inv in Hbuild as ([] & s3 & Hexit & Hret).
  injection Hret as -> ->.
  unfold OnceExit in Hexit.
  apply bind_Ok_inv in Hexit as ([] & s1 & Hfind & Hexit).
  rewrite Hfind in Hd. destruct Hd as (Hidx & Hperm & _).
  cbv beta iota in Hexit.
  pose proof (keeps_Ok _ _ _ _ (keeps_injection fuel o rootStyles) Hexit)
    as Hreg.
  unfold registry in Hreg. injection Hreg as Hreads Hrecs _ _.
  apply bind_Ok_inv in Hexit as (s1' & s1'' & Hget & Hexit).
  injection Hget as <- <-.
  apply bind_Ok_inv in Hexit as (shared & s2 & Hall & Hexit).
  assert (Hm0 : messages s0 = []).
  { unfold alloc_tree, bind, get, modify, ret in Ha. cbn in Ha.
    destruct (alloc sheet None ∅ 0). by injection Ha as _ <-. }
  assert (Hm1 : messages s1 = []).
  { pose proof (findImports_step files fuel o rootStyles from s0) as H.
    unfold wp in H. rewrite Hfind in H.
    destruct H as ((_ & _ & Hm & _) & _). congruence. }
  destruct (inject_all_contributions fuel o rootStyles (records s1)
              (orderedImports s1) [] s1 shared s2 eq_refl) as (segs & Hc & _).
  { rewrite Hidx. apply Forall_forall. intros r Hr'.
    apply elem_of_seq in Hr'. apply lookup_lt_is_Some. lia. }
  { exact Hall. }
  apply contributions_messages in Hc; [|reflexivity].
  assert (Hrest : preserves messages
            (ids <- nodes_of rootStyles ;;
             set_nodes rootStyles (splice ids 0 0 shared) ;;;
             removeAllImports fuel rootStyles)).
  { apply preserves_bind; [by apply preserves_nodes_of|].
    intros ids. apply preserves_bind; [by apply preserves_set_nodes|].
    intros _. by apply preserves_removeAllImports. }
  rewrite (preserves_Ok messages _ _ _ _ Hrest Hexit), Hc, Hm1, Hidx.
  pose proof (omap_lookup_seq fullpath (records s1) []) as Ho.
  cbn [app length] in Ho. rewrite Ho.
  unfold paths. rewrite Hrecs, Hreads. split; [reflexivity | exact Hperm].
Qed.

(** X15. When a build ends well, the files it reports as dependencies are
    the paths of its Import Records, in the order of the records, and these
    are the paths that it has read, each as often as it was read. *)
Theorem dependencies_are_the_files_read files fuel o sheet from rootStyles
    s :
  build files fuel o sheet from empty_st = Ok rootStyles s ->
  messages s = paths s /\ reads s ≡ₚ paths s.
Proof. apply build_messages. Qed.

Lemma dependencies_are_the_files_read_witness :
  build diamond_files 6 nested_options sheet_diamond "/src/main.less" empty_st
  = Ok 0 (final_state diamond_files 6 nested_options sheet_diamond
            "/src/main.less")
  /\ messages (final_state diamond_files 6 nested_options sheet_diamond
                 "/src/main.less")
     = ["/src/c.less"; "/src/a.less"; "/src/b.less"]
  /\ reads (final_state diamond_files 6 nested_options sheet_diamond
              "/src/main.less")
     ≡ₚ ["/src/c.less"; "/src/a.less"; "/src/b.less"].
Proof.
  assert (Hb : build diamond_files 6 nested_options sheet_diamond
                 "/src/main.less" empty_st
               = Ok 0 (final_state diamond_files 6 nested_options sheet_diamond
                         "/src/main.less")).
  { vm_compute. reflexivity. }
  split; [exact Hb|].
  destruct (dependencies_are_the_files_read _ _ _ _ _ _ _ Hb) as [Hm Hp].
  assert (Hpaths : paths (final_state diamond_files 6 nested_options
                            sheet_diamond "/src/main.less")
                   = ["/src/c.less"; "/src/a.less"; "/src/b.less"]).
  { vm_compute. reflexivity. }
  rewrite <- Hpaths. split; [exact Hm | exact Hp].
Defined.

(** ** What [removeAllImports] makes of a parsed tree *)

Lemma scrub_branch d kids :
  scrub (Branch d kids) = Branch d (scrub_kids false kids).
Proof. reflexivity. Qed.

Lemma size_pos (t : tree) : 1 <= size t.
Proof. destruct t; cbn; lia. Qed.

Lemma size_mark (t : tree) : size (mark t) = size t.
Proof. by destruct t. Qed.

Lemma height_mark (t : tree) : height (mark t) = height t.
Proof. by destruct t. Qed.

Lemma scrub_mark (t : tree) : scrub (mark t) = mark (scrub t).
Proof. destruct t as [d|d kids]; [reflexivity|]. by rewrite !scrub_branch. Qed.

Lemma is_import_mark (t : tree) :
  is_import (tree_data (mark t)) = is_import (tree_data t).
Proof. by destruct t. Qed.

Lemma starts_app m (xs ys : list tree) :
  starts m (xs ++ ys) = starts m xs ++ starts (m + sum_list_with size xs) ys.
Proof.
  revert m. induction xs as [|x xs IH]; intros m; cbn.
  - by rewrite Nat.add_0_r.
  - rewrite IH. do 3 f_equal. lia.
Qed.

Lemma starts_bounds m (ts : list tree) i :
  i ∈ starts m ts -> m <= i < m + sum_list_with size ts.
Proof.
  revert m. induction ts as [|t ts IH]; intros m; cbn.
  - by intros ?%elem_of_nil.
  - pose proof (size_pos t).
    intros [->|Hin%IH]%elem_of_cons; lia.
Qed.

(** A layout is a matter of the objects in its range. *)
Lemma laid_agree h h' t : forall n,
  laid h n t ->
  (forall j, n <= j < n + size t -> h' !! j = h !! j) ->
  laid h' n t.
Proof.
  induction t as [d|d kids IH] using tree_induction; intros n Hl Hh;
    inversion Hl as [n' d' par Hn|n' d' par kids' Hn Hkids]; subst.
  - eapply laid_leaf. rewrite Hh by (cbn; lia). exact Hn.
  - eapply laid_branch; [rewrite Hh by (cbn; lia); exact Hn|].
    cbn [size] in Hh.
    assert (Hgen : forall m,
      Forall2 (laid h) (starts m kids) kids ->
      (forall j, m <= j < m + sum_list_with size kids ->
                 h' !! j = h !! j) ->
      Forall2 (laid h') (starts m kids) kids).
    { clear Hn Hkids Hh Hl. induction kids as [|k kids IHk];
        intros m HF Hag; cbn [starts] in *; [constructor|].
      apply Forall2_cons in HF as [Hk HF].
      apply Forall_cons in IH as [IHhead IHtail].
      cbn [sum_list_with] in *. pose proof (size_pos k).
      constructor.
      - apply IHhead; [exact Hk|]. intros j Hj. apply Hag. lia.
      - apply IHk; [exact IHtail | exact HF |].
        intros j Hj. apply Hag. lia. }
    apply Hgen; [exact Hkids|].
    intros j Hj. apply Hh. lia.
Qed.

Lemma laid_repr h t : forall n,
  laid h n t -> repr h n (n + size t) n t.
Proof.
  induction t as [d|d kids IH] using tree_induction; intros n Hl;
    inversion Hl as [n' d' par Hn|n' d' par kids' Hn Hkids]; subst.
  - eapply repr_leaf; [cbn; lia | exact Hn].
  - eapply repr_branch; [cbn; lia | exact Hn|]. cbn [size].
    assert (Hgen : forall m,
      S n <= m ->
      Forall2 (laid h) (starts m kids) kids ->
      Forall2 (repr h (S n) (m + sum_list_with size kids))
              (starts m kids) kids).
    { clear Hn Hkids Hl. induction kids as [|k kids IHk];
        intros m Hm HF; cbn [starts] in *; [constructor|].
      apply Forall2_cons in HF as [Hk HF].
      apply Forall_cons in IH as [IHhead IHtail].
      cbn [sum_list_with] in *. pose proof (size_pos k).
      constructor.
      - eapply repr_mono; [apply IHhead; exact Hk | lia | lia | auto].
      - eapply Forall2_impl; [apply (IHk IHtail (m + size k)); [lia|exact HF]|].
        cbn. intros i t Hit.
        eapply repr_mono; [exact Hit | lia | lia | auto]. }
    eapply Forall2_impl; [apply (Hgen (S n)); [lia | exact Hkids]|].
    cbn. intros i t Hit. eapply repr_mono; [exact Hit | lia | lia | auto].
Qed.

(** [alloc] lays trees out. *)
Lemma alloc_laid t : forall par h n h' n',
  alloc t par h n = (h', n') ->
  n' = n + size t /\ (forall j, j < n -> h' !! j = h !! j) /\ laid h' n t.
Proof.
  induction t as [d|d kids IH] using tree_induction; intros par h n h' n'.
  - cbn [alloc]. intros [= <- <-]. split; [cbn; lia|]. split.
    + intros j Hj. apply lookup_insert_ne. lia.
    + eapply laid_leaf. apply lookup_insert_eq.
  - rewrite alloc_branch.
    destruct (alloc_list n kids h (S n)) as [[ids h1] n1] eqn:Hal.
    intros [= <- <-].
    assert (Hlist : forall m h0 ids h1 n1,
      alloc_list n kids h0 m = (ids, h1, n1) ->
      n1 = m + sum_list_with size kids
      /\ ids = starts m kids
      /\ (forall j, j < m -> h1 !! j = h0 !! j)
      /\ Forall2 (laid h1) (starts m kids) kids).
    { clear Hal ids h1 n1. induction kids as [|k kids IHk];
        intros m h0 ids h1 n1; cbn [alloc_list].
      - intros [= <- <- <-]. cbn. split; [lia|]. split; [reflexivity|].
        split; [auto | constructor].
      - apply Forall_cons in IH as [IHhead IHtail].
        destruct (alloc k (Some n) h0 m) as [h2 m2] eqn:Hk.
        destruct (alloc_list n kids h2 m2) as [[ids' h3] m3] eqn:Hks.
        intros [= <- <- <-].
        apply IHhead in Hk as (-> & Hkeep & Hlaid).
        destruct (IHk IHtail _ _ _ _ _ Hks) as (-> & -> & Hkeep' & Hall).
        cbn [sum_list_with starts]. pose proof (size_pos k).
        split; [lia|]. split; [reflexivity|]. split.
        + intros j Hj. rewrite Hkeep' by lia. apply Hkeep. lia.
        + constructor; [|exact Hall].
          eapply laid_agree; [exact Hlaid|]. intros j Hj. apply Hkeep'. lia. }
    destruct (Hlist (S n) _ _ _ _ Hal) as (-> & -> & Hkeep & Hall).
    split; [cbn; lia|]. split.
    + intros j Hj. rewrite lookup_insert_ne by lia. apply Hkeep. lia.
    + eapply laid_branch; [apply lookup_insert_eq|].
      apply Forall2_same_length_lookup_2.
      { by apply Forall2_length in Hall. }
      intros i x k Hx Hk.
      pose proof (Forall2_lookup_lr _ _ _ _ _ _ Hall Hx Hk) as Hxk.
      eapply laid_agree; [exact Hxk|].
      intros j Hj. apply lookup_insert_ne.
      apply list_elem_of_lookup_2, starts_bounds in Hx. lia.
Qed.

Lemma removeAllImports_unfold fuel rootNode :
  removeAllImports (S fuel) rootNode
  = (snapshot <- nodes_of rootNode ;;
     forEach (sweep_step fuel rootNode) snapshot).
Proof. reflexivity. Qed.

Lemma set_before_Some i b s nd :
  heap s !! i = Some nd ->
  set_before i b s
  = Ok tt (set_heap (fun h => <[i := Node (with_before b (data nd))
                                        (nodes nd) (parent nd)]> h) s).
Proof.
  intros H. unfold set_before. erewrite bind_Ok by by apply node_at_Some.
  reflexivity.
Qed.

Lemma at_index_app_head {A} (pre post : list A) :
  at_index (pre ++ post) (Z.of_nat (length pre)) = head post.
Proof.
  unfold at_index.
  destruct (Z.ltb_spec (Z.of_nat (length pre)) 0) as [Hlt|_]; [lia|].
  rewrite Nat2Z.id, lookup_app_r, Nat.sub_diag by lia.
  by destruct post.
Qed.

Lemma starts_mark_first m ks : starts m (mark_first ks) = starts m ks.
Proof. destruct ks as [|k ks]; [reflexivity|]. cbn. by rewrite size_mark. Qed.

Lemma laid_data h n t :
  laid h n t -> exists nd, h !! n = Some nd /\ data nd = tree_data t
                           /\ (nodes nd = None <-> exists d, t = Leaf d).
Proof.
  intros Hl. inversion Hl; subst; eexists; (split; [eassumption|]);
    cbn; (split; [reflexivity|]); split; eauto; try done.
  by intros [? [=]].
Qed.

(** The layout after [raws.before = b] on its root. *)
Lemma laid_mark h n t nd :
  laid h n t -> h !! n = Some nd ->
  laid (<[n := Node (with_before (String "010" "") (data nd)) (nodes nd)
                    (parent nd)]> h) n (mark t).
Proof.
  intros Hl Hn. inversion Hl as [n' d par Hn'|n' d par kids Hn' Hkids]; subst;
    rewrite Hn in Hn'; injection Hn' as ->; cbn [mark data nodes parent].
  - eapply laid_leaf. apply lookup_insert_eq.
  - eapply laid_branch; [apply lookup_insert_eq|].
    apply Forall2_same_length_lookup_2.
    { by apply Forall2_length in Hkids. }
    intros i x k Hx Hk.
    pose proof (Forall2_lookup_lr _ _ _ _ _ _ Hkids Hx Hk) as Hxk.
    eapply laid_agree; [exact Hxk|].
    intros j Hj. apply lookup_insert_ne.
    apply list_elem_of_lookup_2, starts_bounds in Hx. lia.
Qed.

(** The layouts of the trees that follow the first one. *)
Lemma laid_tail_agree h h' m (ks : list tree) :
  Forall2 (laid h) (starts m ks) ks ->
  (forall j, m <= j -> h' !! j = h !! j) ->
  Forall2 (laid h') (starts m ks) ks.
Proof.
  intros HF Hag. apply Forall2_same_length_lookup_2.
  { by apply Forall2_length in HF. }
  intros i x k Hx Hk.
  pose proof (Forall2_lookup_lr _ _ _ _ _ _ HF Hx Hk) as Hxk.
  eapply laid_agree; [exact Hxk|]. intros j Hj. apply Hag.
  apply list_elem_of_lookup_2, starts_bounds in Hx. lia.
Qed.

Lemma set_heap_set_heap f g s :
  set_heap f (set_heap g s) = set_heap (fun h => f (g h)) s.
Proof. reflexivity. Qed.

Lemma bind_bind {S A B C} (c : M S A) (k : A -> M S B) (k' : B -> M S C) s :
  bind (bind c k) k' s = bind c (fun a => bind (k a) k') s.
Proof. unfold bind. by destruct (c s). Qed.

Lemma isImportNode_data n : isImportNode n = is_import (data n).
Proof. reflexivity. Qed.

(** The loop of [removeAllImports] over the children [ks] of the node [n]
    that are still to visit, laid out from [m] on, the first of them
    [marked] or not; [kept_ids] are the children that stay. *)
Lemma sweep_loop fuel n d par : forall ks,
  Forall (fun k => scrubs_well k /\ scrubs_well (mark k)) ks ->
  Forall (fun k => height k <= fuel) ks ->
  forall m (marked : bool) kept_ids kept_trees s1,
    n < m ->
    heap s1 !! n = Some (Node d (Some (kept_ids ++ starts m ks)) par) ->
    Forall (fun i => i < m) kept_ids ->
    Forall2 (repr (heap s1) (S n) m) kept_ids kept_trees ->
    Forall2 (laid (heap s1)) (starts m ks)
            (if marked then mark_first ks else ks) ->
    exists h' ids2,
      forEach (sweep_step fuel n) (starts m ks) s1
      = Ok tt (set_heap (fun _ => h') s1)
      /\ h' !! n = Some (Node d (Some (kept_ids ++ ids2)) par)
      /\ Forall2 (repr h' (S n) (m + sum_list_with size ks))
                 (kept_ids ++ ids2) (kept_trees ++ scrub_kids marked ks)
      /\ (forall j, j < n \/ m + sum_list_with size ks <= j ->
                    h' !! j = heap s1 !! j).
Proof.
  induction ks as [|k rest IH];
    intros Hwell Hfuel m marked kept_ids kept_trees s1 Hnm Hn Hkept Hrepr Hlaid.
  { exists (heap s1), []. cbn [starts forEach scrub_kids sum_list_with].
    rewrite !app_nil_r in *. rewrite Nat.add_0_r.
    split; [by destruct s1|]. split; [exact Hn|]. split; [exact Hrepr|auto]. }
  apply Forall_cons in Hwell as [[Hk Hkm] Hwell].
  apply Forall_cons in Hfuel as [Hfk Hfuel].
  cbn [starts sum_list_with] in *. pose proof (size_pos k) as Hsize.
  set (k' := if marked then mark k else k).
  assert (Hk' : laid (heap s1) m k'
                /\ Forall2 (laid (heap s1)) (starts (m + size k) rest) rest).
  { subst k'. destruct marked; cbn [mark_first] in Hlaid;
      by apply Forall2_cons in Hlaid as [? ?]. }
  destruct Hk' as [Hlk Hlrest].
  assert (Hwk' : scrubs_well k') by (subst k'; by destruct marked).
  assert (Hhk' : height k' <= fuel)
    by (subst k'; destruct marked; [by rewrite height_mark|done]).
  assert (Hsk' : size k' = size k)
    by (subst k'; destruct marked; [by rewrite size_mark|done]).
  assert (Hik' : is_import (tree_data k') = is_import (tree_data k))
    by (subst k'; destruct marked; [by rewrite is_import_mark|done]).
  assert (Hscrub : scrub k' = if marked then mark (scrub k) else scrub k)
    by (subst k'; destruct marked; [by rewrite scrub_mark|done]).
  destruct (laid_data _ _ _ Hlk) as (nd & Hm & Hdata & Hleaf).
  assert (Hfresh : m ∉ kept_ids).
  { intros Hin. eapply Forall_forall in Hkept; [|exact Hin]. lia. }
  cbn [forEach]. unfold sweep_step at 1.
  rewrite bind_bind. erewrite bind_Ok by by apply node_at_Some. cbv beta.
  rewrite isImportNode_data, Hdata, Hik'.
  cbn [scrub_kids].
  destruct (is_import (tree_data k)) eqn:Himp.
  - (* an Import Node: it is taken out, the next node is marked *)
    rewrite bind_bind.
    erewrite bind_Ok by (eapply nodes_of_Some; [exact Hn | reflexivity]).
    cbv beta zeta. rewrite indexOf_app_fresh by exact Hfresh.
    rewrite (splice_replace_one kept_ids _ [] m). cbn [app].
    rewrite bind_bind.
    erewrite bind_Ok by (by eapply set_nodes_Some).
    rewrite at_index_app_head.
    set (s2 := with_nodes n (kept_ids ++ starts (m + size k) rest) s1).
    assert (Hs2 : s2 = set_heap (fun h =>
              <[n := Node d (Some (kept_ids ++ starts (m + size k) rest))
                          par]> h) s1).
    { subst s2. unfold with_nodes. by rewrite Hn. }
    destruct rest as [|k2 rest'].
    + cbn [starts head]. erewrite bind_Ok by reflexivity.
      exists (heap s2), []. cbn [forEach scrub_kids sum_list_with].
      rewrite !app_nil_r, Nat.add_0_r. split; [|split; [|split]].
      * rewrite Hs2. reflexivity.
      * rewrite Hs2. cbn. rewrite lookup_insert_eq. by rewrite app_nil_r.
      * eapply Forall2_impl; [exact Hrepr|]. cbn. intros i t Hit.
        eapply repr_mono; [exact Hit | lia | lia |].
        intros j Hj. rewrite Hs2. cbn. apply lookup_insert_ne. lia.
      * intros j Hj. rewrite Hs2. cbn. apply lookup_insert_ne. lia.
    + cbn [starts head].
      apply Forall2_cons in Hlrest as [Hl2 Hlrest'].
      destruct (laid_data _ _ _ Hl2) as (nd2 & Hm2 & _).
      assert (Hm2' : heap s2 !! (m + size k) = Some nd2).
      { rewrite Hs2. cbn. rewrite lookup_insert_ne by lia. exact Hm2. }
      erewrite bind_Ok by (by eapply set_before_Some).
      set (s3 := set_heap _ s2).
      assert (Hs3 : forall j, j <> n -> j <> m + size k ->
                              heap s3 !! j = heap s1 !! j).
      { intros j Hj1 Hj2. subst s3. rewrite Hs2. cbn.
        by rewrite !lookup_insert_ne by done. }
      pose proof (size_pos k2) as Hsize2.
      destruct (IH Hwell Hfuel (m + size k) true kept_ids kept_trees s3)
        as (h' & ids2 & Hrun & Hn' & Hrepr' & Hframe).
      * lia.
      * subst s3. rewrite Hs2. cbn.
        rewrite lookup_insert_ne by lia. by rewrite lookup_insert_eq.
      * eapply Forall_impl; [exact Hkept|]. cbn. intros; lia.
      * eapply Forall2_impl; [exact Hrepr|]. cbn. intros i t Hit.
        eapply repr_mono; [exact Hit | lia | lia |].
        intros j Hj. apply Hs3; lia.
      * cbn [mark_first starts]. constructor.
        -- subst s3. cbn [set_heap heap]. apply laid_mark; [|exact Hm2'].
           eapply laid_agree; [exact Hl2|]. intros j Hj.
           rewrite Hs2. cbn. apply lookup_insert_ne. lia.
        -- eapply laid_tail_agree; [exact Hlrest'|].
           intros j Hj. apply Hs3; lia.
      * exists h', ids2. split; [|split; [|split]].
        -- cbn [starts] in Hrun. rewrite Hrun. subst s3. rewrite Hs2.
           reflexivity.
        -- exact Hn'.
        -- cbn [sum_list_with] in *.
           eapply Forall2_impl; [exact Hrepr'|]. cbn. intros i t Hit.
           eapply repr_mono; [exact Hit | lia | lia | auto].
        -- cbn [sum_list_with] in *. intros j Hj.
           rewrite Hframe by lia. apply Hs3; lia.
  - (* another node: it stays, and is swept when it has children *)
    assert (Hstay : exists h1,
      (if nodes nd is Some _ then removeAllImports fuel m else ret tt) s1
      = Ok tt (set_heap (fun _ => h1) s1)
      /\ repr h1 m (m + size k) m (scrub k')
      /\ (forall j, j < m \/ m + size k <= j -> h1 !! j = heap s1 !! j)).
    { destruct k' as [dk|dk kk] eqn:Ek'.
      - assert (nodes nd = None) as -> by (apply Hleaf; eauto).
        exists (heap s1). split; [by destruct s1|]. split; [|auto].
        rewrite <- Hsk'. by apply laid_repr.
      - destruct (nodes nd) as [ids|] eqn:Hids;
          [|by destruct (proj1 Hleaf eq_refl) as [? [=]]].
        specialize (Hwk' fuel m s1 Hlk Hhk'). cbn beta iota in Hwk'.
        rewrite Hsk' in Hwk'. exact Hwk'. }
    destruct Hstay as (h1 & Hrun1 & Hrepr1 & Hframe1).
    erewrite bind_Ok by exact Hrun1.
    set (s2 := set_heap (fun _ => h1) s1).
    destruct (IH Hwell Hfuel (m + size k) false (kept_ids ++ [m])
                (kept_trees ++ [scrub k']) s2)
      as (h' & ids2 & Hrun & Hn' & Hrepr' & Hframe).
    + lia.
    + subst s2. cbn. rewrite Hframe1 by lia.
      by rewrite <- app_assoc.
    + apply Forall_app. split; [|repeat constructor; lia].
      eapply Forall_impl; [exact Hkept|]. cbn. intros; lia.
    + apply Forall2_app.
      * eapply Forall2_impl; [exact Hrepr|]. cbn. intros i t Hit.
        eapply repr_mono; [exact Hit | lia | lia |].
        intros j Hj. subst s2. cbn. apply Hframe1. lia.
      * repeat constructor.
        eapply repr_mono; [exact Hrepr1 | lia | lia | auto].
    + eapply laid_tail_agree; [exact Hlrest|].
      intros j Hj. subst s2. cbn. apply Hframe1. lia.
    + exists h', (m :: ids2). split; [|split; [|split]].
      * rewrite Hrun. reflexivity.
      * rewrite Hn'. by rewrite <- app_assoc.
      * rewrite <- Hscrub.
        replace (kept_ids ++ m :: ids2) with ((kept_ids ++ [m]) ++ ids2)
          by (by rewrite <- app_assoc).
        replace (kept_trees ++ scrub k' :: scrub_kids false rest)
          with ((kept_trees ++ [scrub k']) ++ scrub_kids false rest)
          by (by rewrite <- app_assoc).
        eapply Forall2_impl; [exact Hrepr'|]. cbn. intros i t Hit.
        eapply repr_mono; [exact Hit | lia | lia | auto].
      * intros j Hj. rewrite Hframe by lia. subst s2. cbn.
        apply Hframe1. lia.
Qed.

Lemma scrubs_well_branch d kids :
  Forall (fun k => scrubs_well k /\ scrubs_well (mark k)) kids ->
  scrubs_well (Branch d kids).
Proof.
  intros Hkids fuel n s Hl Hh.
  inversion Hl as [|n' d' par kids' Hn Hlk]; subst.
  destruct fuel as [|fuel]; [cbn [height] in Hh; lia|].
  rewrite removeAllImports_unfold.
  erewrite bind_Ok by (eapply nodes_of_Some; [exact Hn | reflexivity]).
  destruct (sweep_loop fuel n d par kids Hkids) with
    (m := S n) (marked := false) (kept_ids := @nil nat)
    (kept_trees := @nil tree) (s1 := s)
    as (h' & ids2 & Hrun & Hn' & Hrepr & Hframe);
    [|lia|exact Hn|constructor|constructor|exact Hlk|].
  { apply Forall_forall. intros k Hk.
    pose proof (height_kid d kids k Hk). lia. }
  exists h'. cbn [app] in *. split; [exact Hrun|].
  cbn [size]. replace (n + S (sum_list_with size kids))
    with (S n + sum_list_with size kids) by lia.
  split.
  - rewrite scrub_branch. eapply repr_branch; [lia | exact Hn'|].
    eapply Forall2_impl; [exact Hrepr|]. cbn. intros i t Hit.
    eapply repr_mono; [exact Hit | lia | lia | auto].
  - intros j Hj. apply Hframe. lia.
Qed.

Lemma scrubs_well_all t : scrubs_well t /\ scrubs_well (mark t).
Proof.
  induction t as [d|d kids IH] using tree_induction.
  - split; by intros fuel n s _ _.
  - split; [|cbn [mark]]; by apply scrubs_well_branch.
Qed.

(** With enough fuel [render] reads back the tree that the objects
    represent. *)
Lemma render_repr h lo m t : forall i fuel,
  repr h lo m i t -> height t <= fuel -> render fuel h i = Some t.
Proof.
  induction t as [d|d kids IH] using tree_induction; intros i fuel Hr Hh;
    inversion Hr as [i' d' par Hi Hn|i' d' par ids kids' Hi Hn Hkids]; subst;
    (destruct fuel as [|fuel]; [cbn [height] in Hh; lia|]);
    cbn [render]; rewrite Hn; cbn [nodes data]; [reflexivity|].
  assert (mapM (render fuel h) ids = Some kids) as ->; [|reflexivity].
  assert (Hfuel : Forall (fun k => height k <= fuel) kids).
  { apply Forall_forall. intros k Hk.
    pose proof (height_kid d kids k Hk). lia. }
  clear Hn Hh Hr. induction Hkids as [|j k ids kids Hjk Hkids IHk];
    [reflexivity|].
  apply Forall_cons in IH as [IHj IH].
  apply Forall_cons in Hfuel as [Hfj Hfuel].
  cbn. rewrite (IHj j fuel Hjk Hfj). cbn. by rewrite (IHk IH Hfuel).
Qed.

Lemma height_scrub t : height (scrub t) <= height t.
Proof.
  induction t as [d|d kids IH] using tree_induction; [done|].
  rewrite scrub_branch. cbn [height]. apply le_n_S.
  generalize false. induction kids as [|k kids IHk]; intros marked;
    [done|].
  apply Forall_cons in IH as [Hk IH]. cbn [scrub_kids].
  destruct (is_import (tree_data k)).
  - pose proof (IHk IH true). cbn [map max_list]. unfold id in *. lia.
  - cbn [map max_list]. specialize (IHk IH false).
    assert (height (if marked then mark (scrub k) else scrub k)
            = height (scrub k)) as ->
      by (destruct marked; [apply height_mark|done]).
    unfold id in *. lia.
Qed.

Lemma tree_data_mark_import t :
  is_import (tree_data (mark t)) = is_import (tree_data t).
Proof. by destruct t. Qed.

Lemma descendants_mark t : descendants (mark t) = descendants t.
Proof. by destruct t. Qed.

Lemma tree_data_scrub t : tree_data (scrub t) = tree_data t.
Proof. by destruct t. Qed.

Lemma scrub_no_import t :
  Forall (fun d => is_import d = false) (descendants (scrub t)).
Proof.
  induction t as [d|d kids IH] using tree_induction; [constructor|].
  rewrite scrub_branch. cbn [descendants].
  assert (Hgen : forall marked,
    Forall (fun d => is_import d = false)
           (flat_map (fun k => tree_data k :: descendants k)
                     (scrub_kids marked kids))); [|apply Hgen].
  induction kids as [|k kids IHk]; intros marked; [constructor|].
  apply Forall_cons in IH as [Hk IH]. cbn [scrub_kids].
  destruct (is_import (tree_data k)) eqn:Himp; [by apply IHk|].
  cbn [flat_map]. apply Forall_app. split; [|by apply IHk].
  destruct marked.
  - rewrite descendants_mark. constructor; [|exact Hk].
    by rewrite tree_data_mark_import, tree_data_scrub.
  - constructor; [|exact Hk]. by rewrite tree_data_scrub.
Qed.

Lemma scrub_import_free t :
  Forall (fun d => is_import d = false) (descendants t) -> scrub t = t.
Proof.
  induction t as [d|d kids IH] using tree_induction; [done|].
  rewrite scrub_branch. cbn [descendants]. intros Hfree. f_equal.
  induction kids as [|k kids IHk]; [done|].
  apply Forall_cons in IH as [Hk IH]. cbn [flat_map] in Hfree.
  apply Forall_app in Hfree as [Hfk Hfree].
  apply Forall_cons in Hfk as [Hdk Hfk].
  cbn [scrub_kids]. rewrite Hdk, (Hk Hfk). f_equal. by apply IHk.
Qed.

(** What [removeAllImports] does to a tree that was just parsed. *)
Lemma removeAllImports_parsed fuel d kids s0 :
  height (Branch d kids) <= fuel ->
  exists s',
    (rootNode <- alloc_tree (Branch d kids) ;;
     removeAllImports fuel rootNode ;;; ret rootNode) s0
    = Ok (next s0) s'
    /\ render fuel (heap s') (next s0) = Some (scrub (Branch d kids))
    /\ (forall j, j < next s0 -> heap s' !! j = heap s0 !! j)
    /\ reads s' = reads s0 /\ records s' = records s0
    /\ imports s' = imports s0 /\ orderedImports s' = orderedImports s0.
Proof.
  intros Hh. set (t := Branch d kids) in *.
  destruct (alloc t None (heap s0) (next s0)) as [h n] eqn:Ha.
  destruct (alloc_laid _ _ _ _ _ _ Ha) as (Hn & Hold & Hlaid).
  set (s1 := set_next n (set_heap (fun _ => h) s0)).
  assert (Halloc : alloc_tree t s0 = Ok (next s0) s1).
  { unfold alloc_tree. erewrite bind_Ok by reflexivity. cbv beta.
    rewrite Ha. reflexivity. }
  destruct (scrubs_well_all t) as [Hwell _].
  specialize (Hwell fuel (next s0) s1 Hlaid Hh). subst t.
  cbv beta iota in Hwell.
  destruct Hwell as (h' & Hrun & Hrepr & Hframe).
  eexists. split.
  { erewrite bind_Ok by exact Halloc. erewrite bind_Ok by exact Hrun.
    reflexivity. }
  change (heap (set_heap (fun _ => h') s1)) with h'.
  split; [|split; [|by destruct s0]].
  - eapply render_repr; [exact Hrepr|]. etrans; [apply height_scrub|done].
  - intros j Hj. rewrite Hframe by lia. subst s1. cbn. by apply Hold.
Qed.

(** X16. [removeAllImports] on a style sheet that was just parsed, with
    fuel for its height, returns, and the tree read back from the root is
    the sheet without its Import Nodes: below every node the children that
    are Import Nodes are gone, a child that followed one has a line break
    as its [raws.before], and nothing else differs; no Import Node is left
    below the root. *)
Theorem removeAllImports_removes_all_imports fuel d kids s0 :
  height (Branch d kids) <= fuel ->
  exists s' t',
    (rootNode <- alloc_tree (Branch d kids) ;;
     removeAllImports fuel rootNode ;;; ret rootNode) s0
    = Ok (next s0) s'
    /\ render fuel (heap s') (next s0) = Some t'
    /\ t' = scrub (Branch d kids)
    /\ Forall (fun d' => is_import d' = false) (descendants t').
Proof.
  intros Hh.
  destruct (removeAllImports_parsed fuel d kids s0 Hh) as (s' & Hrun & Hr & _).
  exists s', (scrub (Branch d kids)).
  split; [exact Hrun|]. split; [exact Hr|]. split; [done|].
  apply scrub_no_import.
Qed.

(** X17. [removeAllImports] leaves a style sheet without Import Nodes below
    its root as it is, and changes no object that was there before the
    parse, nor the Import Records. *)
Theorem removeAllImports_import_free fuel d kids s0 :
  height (Branch d kids) <= fuel ->
  Forall (fun d' => is_import d' = false) (descendants (Branch d kids)) ->
  exists s',
    (rootNode <- alloc_tree (Branch d kids) ;;
     removeAllImports fuel rootNode ;;; ret rootNode) s0
    = Ok (next s0) s'
    /\ render fuel (heap s') (next s0) = Some (Branch d kids)
    /\ (forall j, j < next s0 -> heap s' !! j = heap s0 !! j)
    /\ records s' = records s0.
Proof.
  intros Hh Hfree.
  destruct (removeAllImports_parsed fuel d kids s0 Hh)
    as (s' & Hrun & Hr & Hold & _ & Hrec & _).
  exists s'. rewrite (scrub_import_free _ Hfree) in Hr. auto.
Qed.

Lemma removeAllImports_removes_all_imports_witness :
  height sheet_diamond <= 2
  /\ exists s' t',
       (rootNode <- alloc_tree sheet_diamond ;;
        removeAllImports 2 rootNode ;;; ret rootNode) empty_st
       = Ok 0 s'
       /\ render 2 (heap s') 0 = Some t'
       /\ t' = scrub sheet_diamond
       /\ Forall (fun d' => is_import d' = false) (descendants t').
Proof.
  assert (Hh : height sheet_diamond <= 2) by (vm_compute; lia).
  split; [exact Hh|].
  exact (removeAllImports_removes_all_imports 2
           (NodeData "root" false "" None None "" "")
           [import_node "a.less" None; import_node "b.less" None;
            rule_node ".main" []] empty_st Hh).
Defined.

Lemma removeAllImports_import_free_witness :
  height (root_node [rule_node ".x" [decl_node "color: red"]]) <= 3
  /\ exists s',
       (rootNode <- alloc_tree
                      (root_node [rule_node ".x" [decl_node "color: red"]]) ;;
        removeAllImports 3 rootNode ;;; ret rootNode) empty_st
       = Ok 0 s'
       /\ render 3 (heap s') 0
          = Some (root_node [rule_node ".x" [decl_node "color: red"]])
       /\ (forall j, j < 0 -> heap s' !! j = heap empty_st !! j)
       /\ records s' = records empty_st.
Proof.
  assert (Hh : height (root_node [rule_node ".x" [decl_node "color: red"]])
               <= 3) by (vm_compute; lia).
  split; [exact Hh|].
  apply (removeAllImports_import_free 3
           (NodeData "root" false "" None None "" "")
           [rule_node ".x" [decl_node "color: red"]] empty_st Hh).
  repeat constructor.
Defined.

(* ===================================================================== *)
(** * The final document of a build *)
(* ===================================================================== *)

(** ** The objects that the parser makes *)

Lemma children_insert_other h i n j :
  i <> j -> children (<[i := n]> h) j = children h j.
Proof. intros Hne. unfold children. by rewrite lookup_insert_ne. Qed.

Lemma parent_of_insert_other h i n j :
  i <> j -> parent_of (<[i := n]> h) j = parent_of h j.
Proof. intros Hne. unfold parent_of. by rewrite lookup_insert_ne. Qed.

Lemma children_agree h h' j :
  h' !! j = h !! j -> children h' j = children h j.
Proof. unfold children. by intros ->. Qed.

Lemma parent_of_agree h h' j :
  h' !! j = h !! j -> parent_of h' j = parent_of h j.
Proof. unfold parent_of. by intros ->. Qed.

Lemma parent_of_Some h i j : parent_of h i = Some j -> is_Some (h !! i).
Proof. unfold parent_of. destruct (h !! i); [eauto | discriminate]. Qed.

Lemma children_elem h j i : i ∈ children h j -> is_Some (h !! j).
Proof.
  unfold children. destruct (h !! j); [eauto | by intros ?%elem_of_nil].
Qed.

(** The objects that [alloc] makes for a tree: they take the numbers from
    [n] on, the root has the parent it was given, every other object has
    its data from the tree and its parent among the new objects, and the
    children of a new object are new objects after it that have it as
    their parent. *)
Lemma alloc_region t : forall par h n h' n',
  alloc t par h n = (h', n') ->
  (forall j, is_Some (h !! j) -> j < n) ->
  (forall j, is_Some (h' !! j) -> j < n')
  /\ (exists nd, h' !! n = Some nd /\ parent nd = par
                 /\ data nd = tree_data t)
  /\ (forall i nd, n < i -> h' !! i = Some nd ->
        data nd ∈ descendants t /\ exists j, parent nd = Some j /\ n <= j)
  /\ (forall j i, n <= j -> i ∈ children h' j ->
        j < i /\ parent_of h' i = Some j).
Proof.
  induction t as [d|d kids IH] using tree_induction;
    intros par h n h' n' Ha Hb.
  - cbn [alloc] in Ha. injection Ha as <- <-. split; [|split; [|split]].
    + intros j Hj. destruct (decide (j = n)) as [->|Hne]; [lia|].
      rewrite lookup_insert_ne in Hj by done. apply Hb in Hj. lia.
    + eexists. rewrite lookup_insert_eq. eauto.
    + intros i nd Hi Hnd. rewrite lookup_insert_ne in Hnd by lia.
      assert (i < n) by (apply Hb; eauto). lia.
    + intros j i Hj Hin. apply children_elem in Hin as Hsome.
      destruct (decide (j = n)) as [->|Hne].
      * unfold children in Hin. rewrite lookup_insert_eq in Hin.
        by apply elem_of_nil in Hin.
      * rewrite lookup_insert_ne in Hsome by done. apply Hb in Hsome. lia.
  - pose proof (alloc_laid _ _ _ _ _ _ Ha) as (Hn' & _ & _).
    rewrite alloc_branch in Ha.
    destruct (alloc_list n kids h (S n)) as [[ids h1] n1] eqn:Hal.
    injection Ha as <- <-.
    assert (Hlist : forall m h0 ids h1 n1,
      n < m -> alloc_list n kids h0 m = (ids, h1, n1) ->
      (forall j, is_Some (h0 !! j) -> j < m) ->
      (forall j, is_Some (h1 !! j) -> j < n1)
      /\ m <= n1
      /\ (forall j, j < m -> h1 !! j = h0 !! j)
      /\ (forall i, i ∈ ids -> m <= i /\ parent_of h1 i = Some n)
      /\ (forall i nd, m <= i -> h1 !! i = Some nd ->
            data nd ∈ flat_map (fun k => tree_data k :: descendants k) kids
            /\ exists j, parent nd = Some j /\ n <= j)
      /\ (forall j i, m <= j -> i ∈ children h1 j ->
            j < i /\ parent_of h1 i = Some j)).
    { clear Hal ids h1 n1 Hb Hn'. induction kids as [|k kids IHk];
        intros m h0 ids h1 n1 Hm; cbn [alloc_list].
      - intros [= <- <- <-] Hb0. split; [exact Hb0|]. split; [lia|].
        split; [auto|]. split; [by intros i ?%elem_of_nil|]. split.
        + intros i nd Hi Hnd. assert (i < m) by (apply Hb0; eauto). lia.
        + intros j i Hj Hin. apply children_elem, Hb0 in Hin. lia.
      - apply Forall_cons in IH as [IHhead IHtail].
        destruct (alloc k (Some n) h0 m) as [h2 m2] eqn:Hk.
        destruct (alloc_list n kids h2 m2) as [[ids' h3] m3] eqn:Hks.
        intros [= <- <- <-] Hb0.
        pose proof (alloc_laid _ _ _ _ _ _ Hk) as (Hm2 & Hkeep & _).
        pose proof (size_pos k) as Hsize.
        destruct (IHhead _ _ _ _ _ Hk Hb0)
          as (Hb2 & (nk & Hnk & Hpk & Hdk) & Hin2 & Harr2).
        destruct (IHk IHtail m2 h2 ids' h3 m3 ltac:(lia) Hks Hb2)
          as (Hb3 & Hle3 & Hkeep3 & Hids3 & Hin3 & Harr3).
        split; [exact Hb3|]. split; [lia|]. split; [|split; [|split]].
        + intros j Hj. rewrite Hkeep3 by lia. by apply Hkeep.
        + intros i [->|Hi]%elem_of_cons.
          * split; [lia|]. unfold parent_of.
            rewrite Hkeep3 by lia. by rewrite Hnk.
          * destruct (Hids3 i Hi). split; [lia | assumption].
        + intros i nd Hi Hnd. cbn [flat_map].
          destruct (decide (i < m2)) as [Hlt|Hge].
          * rewrite Hkeep3 in Hnd by lia.
            destruct (decide (i = m)) as [->|Hne].
            -- assert (nd = nk) as -> by congruence. split.
               ++ rewrite Hdk. by left.
               ++ exists n. split; [exact Hpk | lia].
            -- destruct (Hin2 i nd ltac:(lia) Hnd) as (Hd & j & Hj & Hle).
               split; [|exists j; split; [exact Hj | lia]].
               apply elem_of_app. left. by right.
          * destruct (Hin3 i nd ltac:(lia) Hnd) as (Hd & Hp).
            split; [|exact Hp]. apply elem_of_app. by right.
        + intros j i Hj Hin.
          destruct (decide (j < m2)) as [Hlt|Hge].
          * rewrite (children_agree h2) in Hin by (apply Hkeep3; lia).
            destruct (Harr2 j i Hj Hin) as (Hji & Hp). split; [exact Hji|].
            rewrite (parent_of_agree h2); [exact Hp|]. apply Hkeep3.
            apply Hb2. by eapply parent_of_Some.
          * apply Harr3; [lia | exact Hin]. }
    destruct (Hlist (S n) h ids h1 n1 ltac:(lia) Hal) as
      (Hb1 & Hle1 & Hkeep1 & Hids1 & Hin1 & Harr1).
    { intros j Hj. apply Hb in Hj. lia. }
    split; [|split; [|split]].
    + intros j Hj. destruct (decide (j = n)) as [->|Hne]; [lia|].
      rewrite lookup_insert_ne in Hj by done. by apply Hb1.
    + eexists. rewrite lookup_insert_eq. eauto.
    + intros i nd Hi Hnd. rewrite lookup_insert_ne in Hnd by lia.
      apply (Hin1 i nd); [lia | exact Hnd].
    + intros j i Hj Hin.
      destruct (decide (j = n)) as [->|Hne].
      * rewrite children_insert in Hin. rewrite decide_True in Hin by done.
        destruct (Hids1 i Hin) as [Hi Hp]. split; [lia|].
        rewrite parent_of_insert_other by lia. exact Hp.
      * rewrite children_insert_other in Hin by done.
        destruct (Harr1 j i ltac:(lia) Hin) as [Hji Hp]. split; [exact Hji|].
        rewrite parent_of_insert_other by lia. exact Hp.
Qed.

(** ** Reasoning about outcomes, continued *)

Lemma wp_conj {S A} (c : M S A) (Q1 Q2 : A -> S -> Prop)
    (E1 E2 : js_error -> S -> Prop) s :
  wp c Q1 E1 s -> wp c Q2 E2 s ->
  wp c (fun a s' => Q1 a s' /\ Q2 a s') (fun e s' => E1 e s' /\ E2 e s') s.
Proof. unfold wp. destruct (c s); auto. Qed.

(** A loop whose invariant speaks of the elements it has visited. *)
Lemma wp_forEach_visited {S A} (f : A -> M S unit) (I : list A -> S -> Prop)
    (E : js_error -> S -> Prop) : forall (xs pre : list A) s,
  (forall done x rest s,
      pre ++ xs = done ++ x :: rest -> length pre <= length done ->
      I done s -> wp (f x) (fun _ => I (done ++ [x])) E s) ->
  I pre s -> wp (forEach f xs) (fun _ => I (pre ++ xs)) E s.
Proof.
  induction xs as [|x xs IH]; intros pre s Hf HI; cbn [forEach].
  - by rewrite app_nil_r.
  - apply wp_bind. eapply wp_mono.
    + eapply (Hf pre x xs); [reflexivity | lia | exact HI].
    + cbn. intros _ s' HI'.
      replace (pre ++ x :: xs) with ((pre ++ [x]) ++ xs)
        by (by rewrite <- app_assoc).
      apply IH; [|exact HI'].
      intros done y rest s'' Heq Hlen. apply (Hf done y rest).
      * by rewrite <- Heq, <- app_assoc.
      * rewrite length_app in Hlen. cbn in Hlen. lia.
    + auto.
Qed.

(** ** The Import Nodes of a tree *)

Lemma imports_of_nodes (t : tree) :
  imports_of t = map filename (import_nodes_of t).
Proof.
  induction t as [d|d kids IH] using tree_induction;
    cbn [imports_of import_nodes_of]; destruct (is_import d); try reflexivity.
  induction kids as [|k kids IHk]; [reflexivity|].
  apply Forall_cons in IH as [Hk IH]. cbn [flat_map].
  by rewrite map_app, Hk, IHk.
Qed.

Lemma imports_under_nodes (t : tree) :
  imports_under t = map filename (import_nodes_under t).
Proof.
  destruct t as [d|d kids]; [reflexivity|].
  cbn [imports_under import_nodes_under].
  induction kids as [|k kids IHk]; [reflexivity|].
  cbn [flat_map]. by rewrite map_app, imports_of_nodes, IHk.
Qed.

Lemma import_nodes_of_kid (kids : list tree) (k : tree) d :
  k ∈ kids -> d ∈ import_nodes_of k -> d ∈ flat_map import_nodes_of kids.
Proof.
  intros Hk Hd. apply list_elem_of_In, in_flat_map. exists k.
  split; by apply list_elem_of_In.
Qed.

(** ** What the discovery knows of the references *)

Lemma fresh_refl s : fresh s s.
Proof.
  split; [lia|]. intros r rec Hr Hle. apply lookup_lt_Some in Hr. lia.
Qed.

Lemma extends_root s s' r rec rec' :
  extends s s' -> records s !! r = Some rec -> records s' !! r = Some rec' ->
  root rec' = root rec /\ fullpath rec' = fullpath rec
  /\ fromPath rec' = fromPath rec.
Proof.
  intros (_ & _ & _ & He) Hr Hr'. destruct (He r rec Hr) as (rec2 & Hr2 & Hev).
  assert (rec2 = rec') as -> by congruence.
  destruct Hev as (? & ? & ? & ? & _). auto.
Qed.

Lemma fresh_trans s1 s2 s3 :
  next s1 <= next s2 -> extends s2 s3 ->
  fresh s1 s2 -> fresh s2 s3 -> fresh s1 s3.
Proof.
  intros Hn He [Hl1 H1] [Hl2 H2]. split; [lia|].
  intros r rec Hr Hle.
  destruct (decide (length (records s2) <= r)) as [Hge|Hlt].
  - pose proof (H2 r rec Hr Hge). lia.
  - destruct (lookup_lt_is_Some_2 (records s2) r ltac:(lia)) as [rec2 Hr2].
    destruct (extends_root _ _ _ _ _ He Hr2 Hr) as (-> & _).
    by apply (H1 r).
Qed.

(** ** The file of an object *)

Lemma home_old files base log l i :
  base <= i -> i < base + sum_list_with (size_at files) log ->
  home files base (log ++ l) i = home files base log i.
Proof.
  revert base. induction log as [|q log IH]; intros base Hle Hlt;
    cbn [sum_list_with app home] in *; [lia|].
  destruct (i <? base + size_at files q)%nat eqn:Hi; [reflexivity|].
  apply Nat.ltb_ge in Hi. apply IH; lia.
Qed.

Lemma home_new files base log q i :
  base + sum_list_with (size_at files) log <= i ->
  i < base + sum_list_with (size_at files) log + size_at files q ->
  home files base (log ++ [q]) i = Some q.
Proof.
  revert base. induction log as [|q' log IH]; intros base Hle Hlt;
    cbn [sum_list_with app home] in *.
  - by rewrite (proj2 (Nat.ltb_lt _ _)) by lia.
  - rewrite (proj2 (Nat.ltb_ge _ _)) by lia. apply IH; lia.
Qed.

Lemma file_of_old files sheet from s s' i :
  reads s `prefix_of` reads s' ->
  i < size sheet + sum_list_with (size_at files) (reads s) ->
  file_of files sheet from s' i = file_of files sheet from s i.
Proof.
  intros [l Hl] Hi. unfold file_of.
  destruct (i <? size sheet)%nat eqn:Hlt; [reflexivity|].
  apply Nat.ltb_ge in Hlt. by rewrite Hl, home_old.
Qed.

Lemma file_of_same files sheet from s s' i :
  reads s' = reads s ->
  file_of files sheet from s' i = file_of files sheet from s i.
Proof. unfold file_of. by intros ->. Qed.

Section ReferencesFacts.

Variable files : string -> option tree.
Variable O : options.
Variable rank : string -> nat.
Variable sheet : tree.
Variable from : string.

Lemma later_refl b s : later rank b s s.
Proof.
  split; [apply grows_refl|]. split; [apply extends_refl | reflexivity].
Qed.

Lemma later_trans b s1 s2 s3 :
  later rank b s1 s2 -> later rank b s2 s3 -> later rank b s1 s3.
Proof.
  intros (Hg & He & Hp) (Hg' & He' & Hp').
  split; [eapply grows_trans; eassumption|].
  split; [eapply extends_trans; eassumption | by etrans].
Qed.

Lemma later_weaken b c s s' : later rank c s s' -> c <= b -> later rank b s s'.
Proof.
  intros (Hg & He & Hp) Hle. split; [|by split].
  eapply grows_weaken; eassumption.
Qed.

(** The [Map] keeps pointing to the record it pointed to. *)
Lemma imports_stable b s s' p r :
  consistent s -> consistent s' -> later rank b s s' ->
  imports s !! p = Some r -> imports s' !! p = Some r.
Proof.
  intros Hc Hc' ((_ & _ & _ & _ & Hkeep) & He & _) Hp.
  destruct (record_of_path s p r Hc Hp) as (rec & Hr & Hpath).
  destruct He as (_ & _ & _ & He).
  destruct (He r rec Hr) as (rec' & Hr' & Hev).
  destruct (Hkeep p ltac:(eauto)) as [r' Hp'].
  destruct (record_of_path s' p r' Hc' Hp') as (rec2 & Hr2 & Hpath2).
  assert (r' = r) as ->; [|exact Hp'].
  destruct Hc' as (_ & Hnd & _).
  eapply NoDup_lookup; [exact Hnd | |].
  - unfold paths. rewrite list_lookup_fmap, Hr2. cbn. by rewrite Hpath2.
  - unfold paths. rewrite list_lookup_fmap, Hr'. cbn.
    destruct Hev as (_ & _ & -> & _). by rewrite Hpath.
Qed.

Lemma seen_stable b s s' q d :
  consistent s -> consistent s' -> later rank b s s' ->
  seen O q d s -> seen O q d s'.
Proof.
  intros Hc Hc' Hl (r & rec & Hp & Hr & Hflag & Htag).
  pose proof (imports_stable b s s' _ _ Hc Hc' Hl Hp) as Hp'.
  destruct Hl as (_ & (_ & _ & _ & He) & _).
  destruct (He r rec Hr) as (rec' & Hr' & Hev).
  destruct Hev as (_ & _ & _ & _ & Hg & Hrules).
  exists r, rec'. split; [exact Hp'|]. split; [exact Hr'|]. split.
  - intros Hd. apply Hg, Hflag, Hd.
  - intros tag Hd Ht. apply Hrules. by apply Htag.
Qed.

Lemma covered_stable b s s' q t :
  consistent s -> consistent s' -> later rank b s s' ->
  covered O q t s -> covered O q t s'.
Proof.
  intros Hc Hc' Hl H d Hd.
  eapply seen_stable; [exact Hc | exact Hc' | exact Hl | by apply H].
Qed.

(** A record that is updated in place, as [mark_global] and
    [add_inclusionRule] do. *)
Lemma update_record_refs b P s r rec rec' :
  discovery_inv files O rank sheet from b P s -> records s !! r = Some rec ->
  root rec' = root rec -> styleNode rec' = styleNode rec ->
  fullpath rec' = fullpath rec -> fromPath rec' = fromPath rec ->
  (isGloballyImported rec = true -> isGloballyImported rec' = true) ->
  (forall tag, tag ∈ inclusionRules rec -> tag ∈ inclusionRules rec') ->
  (isGloballyImported rec' = true ->
   isGloballyImported rec = true
   \/ top_level_reference files O sheet from (fullpath rec)) ->
  (forall tag, tag ∈ inclusionRules rec' ->
     tag ∈ inclusionRules rec
     \/ scoped_reference files O sheet from (fullpath rec) tag) ->
  let s' := set_records (fun rs => <[r := rec']> rs) s in
  discovery_inv files O rank sheet from b P s' /\ later rank b s s'
  /\ fresh s s'.
Proof.
  intros (Hc & Hs & Hsound & Hparsed & Hnd & Hclosed & Hranked)
         Hr Hroot Hsn Hfull Hfrom Hflag Hrules Hflag' Hrules' s'.
  assert (Hc' : consistent s')
    by (eapply consistent_update_record; eassumption).
  assert (Hlook : forall r0 rec0, records s' !! r0 = Some rec0 ->
            (r0 = r /\ rec0 = rec')
            \/ (r0 <> r /\ records s !! r0 = Some rec0)).
  { intros r0 rec0 H0. subst s'. cbn in H0.
    destruct (decide (r0 = r)) as [->|Hne].
    - rewrite list_lookup_insert_eq in H0 by (by eapply lookup_lt_Some).
      left. split; congruence.
    - rewrite list_lookup_insert_ne in H0 by done. by right. }
  assert (Hlater : later rank b s s').
  { split; [by apply grows_same|]. split; [|reflexivity].
    split; [reflexivity|]. split; [reflexivity|]. split; [reflexivity|].
    intros r0 rec0 H0. subst s'. cbn.
    destruct (decide (r0 = r)) as [->|Hne].
    - rewrite list_lookup_insert_eq by (by eapply lookup_lt_Some).
      exists rec'. split; [reflexivity|].
      assert (rec0 = rec) as -> by congruence.
      unfold evolves. auto 10.
    - rewrite list_lookup_insert_ne by done.
      exists rec0. split; [exact H0 | apply evolves_refl]. }
  assert (Hfresh : fresh s s').
  { split; [subst s'; cbn; by rewrite length_insert|].
    intros r0 rec0 H0 Hle. apply lookup_lt_Some in H0.
    subst s'. cbn in H0. rewrite length_insert in H0. lia. }
  split; [|by split].
  split; [exact Hc'|]. split; [by apply (settled_same rank b s)|].
  split; [|split; [|split; [|split]]].
  - intros r0 rec0 H0. destruct (Hlook r0 rec0 H0) as [[-> ->]|[_ Hold]];
      [|by apply (Hsound r0)].
    destruct (Hsound r rec Hr) as (Hsrc & Hsrc' & Hg & Ht).
    rewrite Hfull, Hfrom. split; [exact Hsrc|]. split; [exact Hsrc'|]. split.
    + intros H. destruct (Hflag' H); auto.
    + intros tag H. destruct (Hrules' tag H); auto.
  - intros r0 rec0 H0. destruct (Hlook r0 rec0 H0) as [[-> ->]|[_ Hold]];
      [|by apply (Hparsed r0)].
    rewrite Hfull, Hroot. by apply (Hparsed r).
  - subst s'. cbn. rewrite list_fmap_insert, Hroot.
    rewrite list_insert_id; [exact Hnd|]. by rewrite list_lookup_fmap, Hr.
  - intros r0 rec0 t H0 Hp Ht.
    eapply covered_stable; [exact Hc | exact Hc' | exact Hlater|].
    destruct (Hlook r0 rec0 H0) as [[-> ->]|[_ Hold]].
    + rewrite Hfull in *. by apply (Hclosed r rec).
    + by apply (Hclosed r0 rec0).
  - destruct Hranked as (Hnext & Hobj & Harr & Hroots).
    split; [exact Hnext|]. split; [exact Hobj|]. split; [exact Harr|].
    intros r0 rec0 H0. destruct (Hlook r0 rec0 H0) as [[-> ->]|[_ Hold]];
      [|by apply (Hroots r0)].
    rewrite Hfull, Hroot. by apply (Hroots r).
Qed.

Lemma mark_global_refs b P s q d r :
  discovery_inv files O rank sheet from b P s ->
  imports s !! target O q d = Some r ->
  refers files O sheet from (target O q d) d ->
  truthy (fromInclusionRule d) = false ->
  wp (mark_global r)
     (fun _ s' => discovery_inv files O rank sheet from b P s'
                  /\ later rank b s s' /\ fresh s s'
                  /\ seen O q d s')
     (fun _ _ => True) s.
Proof.
  intros Hinv Hp Href Hd. pose proof Hinv as (Hc & _).
  destruct (record_of_path s _ r Hc Hp) as (rec & Hr & Hpath).
  unfold wp, mark_global. erewrite bind_Ok; cycle 1.
  { unfold record_at. erewrite bind_Ok by reflexivity. by rewrite Hr. }
  cbn.
  match goal with
  | |- discovery_inv files O rank sheet from _ _ ?s1 /\ _ =>
    set (s' := s1)
  end.
  destruct (update_record_refs b P s r rec
              (ImportOpts (root rec) (styleNode rec) (fullpath rec)
                          (fromPath rec) true (inclusionRules rec))
              Hinv Hr) as (Hinv' & Hl & Hf); try reflexivity;
                try (cbn; by auto).
  { cbn. intros _. right. rewrite Hpath. by exists d. }
  split; [exact Hinv'|]. split; [exact Hl|]. split; [exact Hf|].
  eexists r, _. split; [exact Hp|]. split.
  { subst s'. cbn. apply list_lookup_insert_eq. by eapply lookup_lt_Some. }
  split; [reflexivity|].
  intros tag Htag Ht. rewrite Htag in Hd. congruence.
Qed.

Lemma add_inclusionRule_refs b P s q d r tag :
  discovery_inv files O rank sheet from b P s ->
  imports s !! target O q d = Some r ->
  refers files O sheet from (target O q d) d ->
  fromInclusionRule d = Some tag -> truthy (Some tag) = true ->
  wp (add_inclusionRule r tag)
     (fun _ s' => discovery_inv files O rank sheet from b P s'
                  /\ later rank b s s' /\ fresh s s'
                  /\ seen O q d s')
     (fun _ _ => True) s.
Proof.
  intros Hinv Hp Href Hd Ht. pose proof Hinv as (Hc & _).
  destruct (record_of_path s _ r Hc Hp) as (rec & Hr & Hpath).
  unfold wp, add_inclusionRule. erewrite bind_Ok; cycle 1.
  { unfold record_at. erewrite bind_Ok by reflexivity. by rewrite Hr. }
  cbn.
  match goal with
  | |- discovery_inv files O rank sheet from _ _ ?s1 /\ _ =>
    set (s' := s1)
  end.
  destruct (update_record_refs b P s r rec
              (ImportOpts (root rec) (styleNode rec) (fullpath rec)
                          (fromPath rec) (isGloballyImported rec)
                          (set_add tag (inclusionRules rec)))
              Hinv Hr) as (Hinv' & Hl & Hf); try reflexivity;
                try (cbn; by auto).
  { cbn. intros x Hx. apply elem_of_set_add. by left. }
  { cbn. intros x Hx. apply elem_of_set_add in Hx as [Hx| ->]; [by left|].
    right. rewrite Hpath. by exists d. }
  split; [exact Hinv'|]. split; [exact Hl|]. split; [exact Hf|].
  eexists r, _. split; [exact Hp|]. split.
  { subst s'. cbn. apply list_lookup_insert_eq. by eapply lookup_lt_Some. }
  split.
  - intros H. rewrite Hd in H. congruence.
  - intros tag' Htag' _. cbn. apply elem_of_set_add. right. congruence.
Qed.

Lemma read_and_parse_Ok q s rt s' :
  read_and_parse files q s = Ok rt s' ->
  exists tq h n,
    files q = Some tq /\ alloc tq None (heap s) (next s) = (h, n)
    /\ rt = next s
    /\ s' = set_next n (set_heap (fun _ => h)
                         (set_reads (fun l => l ++ [q]) s)).
Proof.
  unfold read_and_parse. intros ([] & s0 & Hm & H)%bind_Ok_inv.
  injection Hm as <-. destruct (files q) as [tq|]; [|discriminate].
  unfold alloc_tree in H. apply bind_Ok_inv in H as (s1 & s2 & Hg & H).
  injection Hg as <- <-. cbn [heap next set_reads] in H.
  destruct (alloc tq None (heap s) (next s)) as [h n] eqn:Ha.
  apply bind_Ok_inv in H as ([] & s2 & Hm & H). injection Hm as <-.
  injection H as <- <-. by exists tq, h, n.
Qed.

Lemma read_and_parse_refs b P s q :
  discovery_inv files O rank sheet from b P s -> imports s !! q = None ->
  rank q < b ->
  (forall t, files q = Some t -> source files O sheet from q t) ->
  wp (read_and_parse files q)
     (fun rt s' =>
        exists tq, files q = Some tq
        /\ rt = next s /\ next s' = next s + size tq
        /\ laid (heap s') rt tq
        /\ repr (heap s') 0 (next s') rt tq
        /\ discovery_inv files O rank sheet from (rank q) P s'
        /\ later rank b s s'
        /\ imports s' = imports s /\ reads s' = reads s ++ [q]
        /\ records s' = records s
        /\ file_of files sheet from s' rt = q
        /\ parent_of (heap s') rt = None)
     (fun _ _ => True) s.
Proof.
  intros (Hc & Hs & Hsound & Hparsed & Hnd & Hclosed & Hranked) Hq Hrank Hsrc.
  pose proof (read_and_parse_inv files rank True b s q Hc Hs Hq Hrank) as Hold.
  unfold wp_fuel in Hold. unfold wp.
  destruct (read_and_parse files q s) as [rt s'|e s'|] eqn:Hrun; [|exact I..].
  destruct Hold as (tq & Hfq & Hrepr & Hc' & Hs' & Hg & Hi & Hr).
  apply read_and_parse_Ok in Hrun as (tq' & h & n & Hfq' & Ha & -> & ->).
  assert (tq' = tq) as -> by congruence.
  destruct (alloc_laid _ _ _ _ _ _ Ha) as (-> & Hframe & Hlaid).
  destruct Hranked as (Hnext & Hobj & Harr & Hroots).
  destruct (alloc_region _ _ _ _ _ _ Ha)
    as (Hb' & (nrt & Hnrt & Hprt & _) & Hin' & Harr').
  { intros j [nd Hj]. by apply (Hobj j nd). }
  set (s' := set_next _ _) in *.
  assert (Hpre : reads s `prefix_of` reads s') by (by exists [q]).
  assert (Hl : later rank b s s').
  { split; [exact Hg|]. split; [|exact Hpre].
    split; [cbn; lia|]. split; [exact Hframe|]. split; [reflexivity|].
    intros r rec H. exists rec. split; [exact H | apply evolves_refl]. }
  assert (Hsq : size_at files q = size tq) by (unfold size_at; by rewrite Hfq).
  assert (Hold : forall i, i < next s ->
            file_of files sheet from s' i = file_of files sheet from s i).
  { intros i Hlt. apply file_of_old; [exact Hpre | by rewrite <- Hnext]. }
  assert (Hnew : forall i, next s <= i < next s + size tq ->
            file_of files sheet from s' i = q).
  { intros i Hlt. unfold file_of.
    rewrite (proj2 (Nat.ltb_ge _ _)) by lia.
    rewrite Hr, home_new; [reflexivity|lia|lia]. }
  exists tq. split; [exact Hfq|]. split; [reflexivity|].
  split; [reflexivity|]. split; [exact Hlaid|]. split; [exact Hrepr|].
  split; [|split; [exact Hl|]; split; [exact Hi|];
           split; [exact Hr|]; split; [reflexivity|]; split].
  2: { apply Hnew. pose proof (size_pos tq). lia. }
  2: { unfold parent_of. cbn. by rewrite Hnrt. }
  split; [exact Hc'|]. split; [exact Hs'|]. split; [exact Hsound|].
  split; [|split; [exact Hnd|]; split].
  - intros r rec H. destruct (Hparsed r rec H) as (t & Ht & Hlt & Hle).
    exists t. split; [exact Ht|]. split; [|cbn; lia].
    eapply laid_agree; [exact Hlt|]. intros j Hj. cbn. apply Hframe. lia.
  - intros r rec t H Hp Ht.
    eapply covered_stable; [exact Hc | exact Hc' | exact Hl|].
    by apply (Hclosed r rec).
  - split; [cbn; rewrite sum_list_with_app; cbn; lia|].
    split; [|split].
    + intros i nd Hi0. cbn in Hi0. split; [by apply Hb'; eauto|].
      destruct (decide (i < next s)) as [Hlt|Hge].
      * rewrite Hframe in Hi0 by done. rewrite Hold by done.
        by apply (Hobj i nd).
      * assert (Hi' : i < next s + size tq) by (apply Hb'; eauto).
        rewrite Hnew by lia. exists tq. split; [by apply Hsrc|].
        intros Hpar. destruct (decide (i = next s)) as [->|Hne].
        -- assert (nd = nrt) as -> by congruence.
           rewrite Hprt in Hpar. by destruct Hpar.
        -- by apply (Hin' i nd); [lia|].
    + intros j i Hin. cbn in Hin.
      destruct (decide (j < next s)) as [Hlt|Hge].
      * rewrite (children_agree (heap s)) in Hin by (by apply Hframe).
        destruct (Harr j i Hin) as (Hf & Hji & Hp).
        assert (Hi' : i < next s).
        { apply parent_of_Some in Hp as [nd Hi0]. by apply (Hobj i nd). }
        rewrite !Hold by done. split; [exact Hf|]. split; [exact Hji|].
        cbn. rewrite (parent_of_agree (heap s)); [exact Hp | by apply Hframe].
      * destruct (Harr' j i ltac:(lia) Hin) as [Hji Hp].
        assert (Hj' : j < next s + size tq)
          by (apply Hb'; by eapply children_elem).
        assert (Hi' : i < next s + size tq)
          by (apply Hb'; by eapply parent_of_Some).
        rewrite !Hnew by lia. auto.
    + intros r rec H. destruct (Hroots r rec H) as [Hf Hp].
      destruct (Hparsed r rec H) as (t & _ & _ & Hle).
      pose proof (size_pos t). rewrite Hold by lia. split; [exact Hf|].
      cbn. rewrite (parent_of_agree (heap s)); [exact Hp|].
      apply Hframe. lia.
Qed.

(** The record made for the file [q] once its [process] is over: [s1] is
    the state before the read, [sa] the state after it, [s2] the state
    after the plugins have run on the file. *)
Lemma register_refs b P s1 sa s2 q rt sn fp tq flag rules :
  discovery_inv files O rank sheet from b P s1 -> rank q < b ->
  imports s1 !! q = None ->
  imports sa = imports s1 -> reads sa = reads s1 ++ [q] ->
  records sa = records s1 ->
  rt = next s1 -> next sa = next s1 + size tq ->
  files q = Some tq -> laid (heap sa) rt tq ->
  file_of files sheet from sa rt = q -> parent_of (heap sa) rt = None ->
  later rank b s1 sa ->
  discovery_inv files O rank sheet from (rank q) P s2 ->
  later rank (rank q) sa s2 -> fresh sa s2 ->
  source files O sheet from q tq ->
  (exists T, source files O sheet from fp T) ->
  (flag = true -> top_level_reference files O sheet from q) ->
  (forall tag, tag ∈ rules -> scoped_reference files O sheet from q tag) ->
  let s3 :=
    set_orderedImports (fun l => l ++ [length (records s2)])
      (set_imports (fun m => <[q := length (records s2)]> m)
         (set_records (fun rs => rs ++ [ImportOpts rt sn q fp flag rules])
                      s2)) in
  discovery_inv files O rank sheet from b (q :: P) s3 /\ later rank b s1 s3
  /\ fresh s1 s3
  /\ imports s3 !! q = Some (length (records s2))
  /\ records s3 !! length (records s2)
     = Some (ImportOpts rt sn q fp flag rules).
Proof.
  intros (Hc1 & Hs1 & Hsound1 & Hparsed1 & Hnd1 & Hclosed1 & Hranked1)
         Hrank Hq1 Hia Hra Hreca Hrt Hna Hfq Hlaid Hfile Hpar Hla
         (Hc2 & Hs2 & Hsound2 & Hparsed2 & Hnd2 & Hclosed2 & Hranked2) Hl2 Hf2
         Hsrc Hsrc' Hflag Hrules s3.
  destruct Hla as (Hga & Hea & Hpa). destruct Hl2 as (Hg2 & He2 & Hp2).
  destruct (register_inv rank b s1 sa s2 q rt sn fp flag rules
              Hc2 Hs2 Hs1 Hrank Hq1 Hia Hra Hga Hg2) as (Hc3 & Hs3 & Hg3).
  fold s3 in Hc3, Hs3, Hg3.
  pose proof (size_pos tq) as Hsize.
  assert (He23 : extends s2 s3).
  { split; [reflexivity|]. split; [reflexivity|]. split; [reflexivity|].
    intros r rec H. exists rec. split; [|apply evolves_refl].
    subst s3. cbn. by apply lookup_app_l_Some. }
  assert (He12 : extends s1 s2) by (eapply extends_trans; eassumption).
  assert (Hlook : forall r rec, records s3 !! r = Some rec ->
            (r < length (records s2) /\ records s2 !! r = Some rec)
            \/ (r = length (records s2)
                /\ rec = ImportOpts rt sn q fp flag rules)).
  { intros r rec H. subst s3. cbn in H.
    apply lookup_app_Some in H as [H|[Hle H]].
    - left. split; [by eapply lookup_lt_Some | exact H].
    - right. destruct (r - length (records s2)) as [|k] eqn:Hk;
        cbn in H; [|by destruct k].
      split; [lia | congruence]. }
  assert (Hl23 : later rank b s2 s3).
  { split; [|split; [exact He23 | reflexivity]].
    split; [reflexivity|]. split; [reflexivity|]. split; [by left|].
    split.
    - intros p Hp. subst s3. cbn in Hp.
      destruct (decide (p = q)) as [->|Hne]; [by right|].
      rewrite lookup_insert_ne in Hp by done. by left.
    - intros p Hp. subst s3. cbn.
      destruct (decide (p = q)) as [->|Hne].
      + rewrite lookup_insert_eq. eauto.
      + by rewrite lookup_insert_ne. }
  split; [|split; [|split; [|split]]].
  - split; [exact Hc3|]. split; [exact Hs3|].
    split; [|split; [|split; [|split]]].
    + intros r rec H. destruct (Hlook r rec H) as [[_ Hold]|[_ ->]];
        [by apply (Hsound2 r)|]. cbn. eauto.
    + intros r rec H. destruct (Hlook r rec H) as [[_ Hold]|[_ ->]];
        [by apply (Hparsed2 r)|]. cbn.
      exists tq. split; [exact Hfq|]. split.
      * eapply laid_agree; [exact Hlaid|]. intros j Hj.
        destruct Hg2 as (_ & Hframe & _). apply Hframe. lia.
      * destruct Hg2 as (Hn2 & _). change (next s3) with (next s2). lia.
    + subst s3. cbn. rewrite map_app. cbn. apply NoDup_app.
      split; [exact Hnd2|]. split; [|apply NoDup_singleton].
      intros x Hx Hx'. apply list_elem_of_singleton in Hx'. subst x.
      apply list_elem_of_fmap in Hx as (rec & Hroot & Hrec).
      apply list_elem_of_lookup in Hrec as [r Hr].
      destruct (decide (r < length (records s1))) as [Hlt|Hge].
      * destruct (lookup_lt_is_Some_2 (records s1) r Hlt) as [rec1 Hr1].
        destruct (extends_root _ _ _ _ _ He12 Hr1 Hr) as (Hroot1 & _).
        destruct (Hparsed1 r rec1 Hr1) as (t1 & _ & _ & Hle).
        pose proof (size_pos t1). lia.
      * destruct Hf2 as [_ Hf2]. rewrite Hreca in Hf2.
        pose proof (Hf2 r rec Hr ltac:(lia)). lia.
    + intros r rec t H Hp Ht.
      destruct (Hlook r rec H) as [[_ Hold]|[_ ->]].
      * eapply covered_stable; [exact Hc2 | exact Hc3 | exact Hl23|].
        apply (Hclosed2 r rec t Hold); [|exact Ht].
        intros Hin. apply Hp. by right.
      * exfalso. apply Hp. by left.
    + destruct Hranked2 as (Hnext & Hobj & Harr & Hroots).
      split; [exact Hnext|]. split; [exact Hobj|]. split; [exact Harr|].
      intros r rec H. destruct (Hlook r rec H) as [[_ Hold]|[_ ->]];
        [by apply (Hroots r)|]. cbn [root fullpath].
      pose proof (proj1 Hg2) as Hn2.
      change (heap s3) with (heap s2). split.
      * rewrite (file_of_same _ _ _ s2) by reflexivity.
        rewrite <- Hfile. apply file_of_old; [exact Hp2|].
        destruct Hranked1 as (Hnext1 & _).
        rewrite Hra, sum_list_with_app. cbn.
        unfold size_at at 2. rewrite Hfq. lia.
      * rewrite <- Hpar. apply parent_of_agree.
        destruct Hg2 as (_ & Hframe & _). apply Hframe. lia.
  - split; [exact Hg3|]. split; [eapply extends_trans; eassumption|].
    etrans; [exact Hpa|]. exact Hp2.
  - split.
    + subst s3. cbn. rewrite length_app.
      destruct He12 as (_ & _ & _ & He12).
      assert (length (records s1) <= length (records s2)); [|lia].
      destruct (records s1) as [|x l] eqn:E using rev_ind; [cbn; lia|].
      destruct (He12 (length l) x) as (rec' & Hr' & _).
      { by rewrite lookup_app_r, Nat.sub_diag by lia. }
      apply lookup_lt_Some in Hr'. rewrite length_app. cbn. lia.
    + intros r rec H Hle. destruct (Hlook r rec H) as [[_ Hold]|[_ ->]].
      * destruct Hf2 as [_ Hf2]. rewrite Hreca in Hf2.
        pose proof (Hf2 r rec Hold Hle). lia.
      * cbn. lia.
  - subst s3. cbn. apply lookup_insert_eq.
  - subst s3. cbn. rewrite lookup_app_r, Nat.sub_diag by lia. reflexivity.
Qed.

Hypothesis no_cycle : acyclic files O rank.
Hypothesis same_resolve : uniform O.

Lemma initial_rules_elem rule tag :
  tag ∈ initial_rules rule <-> rule = Some tag /\ truthy (Some tag) = true.
Proof.
  unfold initial_rules. destruct rule as [x|]; [|split; [inversion 1|]].
  - destruct (truthy (Some x)) eqn:Hx.
    + rewrite list_elem_of_singleton. split; [by intros ->
    | by intros [[= ->] _]].
    + split; [inversion 1 | intros [[= ->] H]; congruence].
  - by intros [? _].
Qed.

(** What a discovery knows when it is over, on a part [t] of the file
    [fromPath]. *)
Lemma findImports_refs fuel :
  forall o styles fp t b P s,
    o ∈ subopts O ->
    repr (heap s) 0 (next s) styles t ->
    below O rank b fp (imports_under t) ->
    within files O sheet from fp t ->
    discovery_inv files O rank sheet from b P s ->
    wp (findImports files fuel o styles fp)
       (fun _ s' => discovery_inv files O rank sheet from b P s'
                    /\ later rank b s s' /\ fresh s s'
                    /\ covered O fp t s')
       (fun _ _ => True) s.
Proof.
  induction fuel as [|fuel IH];
    intros o styles fp t b P s Ho Hrepr Hbelow Hwithin Hinv;
    cbn [findImports]; [exact I|].
  apply wp_bind.
  inversion Hrepr as [i d par Hi Hn|i d par ids kids Hi Hn Hkids]; subst.
  { unfold wp. by erewrite nodes_of_None by (exact Hn || reflexivity). }
  unfold wp at 1. erewrite nodes_of_Some by (exact Hn || reflexivity).
  cbv beta iota. cbn [imports_under] in Hbelow.
  set (J := fun (done : list nat) s1 =>
         discovery_inv files O rank sheet from b P s1 /\ later rank b s s1
         /\ fresh s s1
         /\ forall i x k d, done !! i = Some x -> kids !! i = Some k ->
                            d ∈ import_nodes_of k -> seen O fp d s1).
  eapply (wp_mono _ (fun _ => J ([] ++ ids))).
  { apply (wp_forEach_visited _ J (fun _ _ => True)); cycle 1.
    { split; [exact Hinv|]. split; [apply later_refl|].
      split; [apply fresh_refl|].
      intros i0 x0 k0 d0 Hx0. by rewrite lookup_nil in Hx0. }
    cbn [app]. intros done x rest s1 Hids _ (Hinv1 & Hl1 & Hf1 & Hseen1).
    assert (Hx : ids !! length done = Some x).
    { rewrite Hids, lookup_app_r, Nat.sub_diag by lia. reflexivity. }
    destruct (Forall2_lookup_l _ _ _ _ _ Hkids Hx) as (k & Hk & Hxk).
    pose proof Hl1 as (Hg1 & He1 & Hp1).
    pose proof (repr_grows _ _ _ _ _ _ Hxk Hg1) as Hxk1.
    pose proof Hinv1 as (Hc1 & Hs1 & Hsound1 & Hparsed1 & Hnd1 & Hclosed1
                         & Hranked1).
    assert (Hkin : k ∈ kids) by (by eapply list_elem_of_lookup_2).
    (* what a round has to show *)
    assert (Hback : forall s2,
      discovery_inv files O rank sheet from b P s2 -> later rank b s1 s2 ->
      fresh s1 s2 ->
      (forall d, d ∈ import_nodes_of k -> seen O fp d s2) ->
      J (done ++ [x]) s2).
    { intros s2 Hinv2 Hl2 Hf2 Hnew. split; [exact Hinv2|].
      split; [eapply later_trans; eassumption|]. split.
      { eapply fresh_trans; [|exact (proj1 (proj2 Hl2))|exact Hf1|exact Hf2].
        by destruct Hg1. }
      intros i0 y k' d0 Hy Hk' Hd.
      apply lookup_app_Some in Hy as [Hy|[Hle Hy]].
      - eapply seen_stable; [exact Hc1 | exact (proj1 Hinv2) | exact Hl2|].
        by eapply Hseen1.
      - destruct (i0 - length done) as [|n] eqn:Hn'; cbn in Hy;
          [|by destruct n].
        assert (i0 = length done) as -> by lia.
        assert (k' = k) as -> by congruence. by apply Hnew. }
    assert (Himport : forall dx nx,
      heap s1 !! x = Some nx -> data nx = dx -> is_import dx = true ->
      import_nodes_of k = [dx] ->
      wp (let fromInclusionRule := fromInclusionRule (data nx) in
          let filename := strip_quotes (filename (data nx)) in
          let fullpath := resolve o filename (dirname fp) in
          s <- get ;;
          match imports s !! fullpath with
          | Some r =>
            if negb (truthy fromInclusionRule) then mark_global r
            else add_inclusionRule r (default "" fromInclusionRule)
          | None =>
            root <- read_and_parse files fullpath ;;
            forEach (fun p => findImports files fuel p root fullpath)
                    (plugins o) ;;;
            s <- get ;;
            let r := length (records s) in
            modify (fun s =>
              set_orderedImports (fun l => l ++ [r])
                (set_imports (fun m => <[fullpath := r]> m)
                   (set_records (fun rs => rs ++
                      [ImportOpts root x fullpath fp
                         (negb (truthy fromInclusionRule))
                         (initial_rules fromInclusionRule)]) s))) ;;;
            findImports files fuel o root fullpath
          end)
         (fun _ => J (done ++ [x])) (fun _ _ => True) s1).
    { intros dx nx Hnx Hdx Himp Hnodes. cbv zeta. rewrite Hdx.
      rewrite (same_resolve o _ _ Ho).
      change (resolve O (strip_quotes (filename dx)) (dirname fp))
        with (target O fp dx).
      set (q := target O fp dx).
      assert (Hdk : dx ∈ import_nodes_of k) by (rewrite Hnodes; by left).
      assert (Hdt : dx ∈ flat_map import_nodes_of kids)
        by (eapply import_nodes_of_kid; eassumption).
      destruct Hwithin as (T & HT & Hsub).
      assert (HdT : dx ∈ import_nodes_under T) by (by apply Hsub).
      assert (Href : refers files O sheet from q dx) by (by exists fp, T).
      assert (Hrank : rank q < b).
      { unfold q, target.
        apply (Hbelow O (filename dx)); [apply subopts_self|].
        change (flat_map imports_of kids)
          with (imports_under (Branch d kids)).
        rewrite imports_under_nodes. apply list_elem_of_fmap.
        by exists dx. }
      assert (Hone : forall s2,
        seen O fp dx s2 ->
        forall d', d' ∈ import_nodes_of k -> seen O fp d' s2).
      { intros s2 H d' Hd'. rewrite Hnodes in Hd'.
        apply list_elem_of_singleton in Hd'. by subst d'. }
      apply wp_bind, wp_get.
      destruct (imports s1 !! q) as [r|] eqn:Hq.
      - destruct (truthy (fromInclusionRule dx)) eqn:Htag; cbn [negb].
        + destruct (fromInclusionRule dx) as [tag|] eqn:Hrule;
            [|discriminate]. cbn [default].
          eapply wp_mono;
            [eapply (add_inclusionRule_refs b P s1 fp dx r tag); eassumption
            | | auto].
          cbn beta. intros _ s2 (Hinv2 & Hl2 & Hf2 & Hs2).
          apply Hback; auto.
        + eapply wp_mono;
            [eapply (mark_global_refs b P s1 fp dx r); eassumption | | auto].
          cbn beta. intros _ s2 (Hinv2 & Hl2 & Hf2 & Hs2).
          apply Hback; auto.
      - assert (Hsrcq : forall t0, files q = Some t0 ->
                                   source files O sheet from q t0)
          by (intros t0 Ht0; by eapply source_file).
        apply wp_bind.
        eapply wp_mono;
          [eapply (read_and_parse_refs b P s1 q); eassumption | | auto].
        cbn beta.
        intros rt sa (tq & Hfq & Hrt & Hna & Hlaid & Hrta & Hinva & Hla
                      & Hia & Hra & Hreca & Hfile & Hpar).
        assert (Hbq : below O rank (rank q) q (imports_under tq)).
        { intros o' f' Ho' Hf'. eapply no_cycle; eassumption. }
        assert (Hsrc : source files O sheet from q tq) by (by apply Hsrcq).
        assert (Hwq : within files O sheet from q tq)
          by (exists tq; auto).
        apply wp_bind.
        set (J2 := fun s2 => discovery_inv files O rank sheet from (rank q) P s2
                             /\ later rank (rank q) sa s2 /\ fresh sa s2).
        eapply (wp_mono _ (fun _ => J2)); [| |auto].
        { apply (wp_forEach _ _ J2 (fun _ _ => True));
            [|split; [exact Hinva|]; split;
              [apply later_refl | apply fresh_refl]].
          intros p s2 Hp (Hinv2 & Hl2 & Hf2).
          eapply wp_mono; [eapply (IH p rt q tq (rank q) P s2) | |auto].
          - eapply subopts_plugin; eassumption.
          - eapply repr_grows; [exact Hrta | exact (proj1 Hl2)].
          - exact Hbq.
          - exact Hwq.
          - exact Hinv2.
          - cbn beta. intros _ s3 (Hinv3 & Hl3 & Hf3 & _).
            split; [exact Hinv3|]. split; [eapply later_trans; eassumption|].
            eapply fresh_trans;
              [|exact (proj1 (proj2 Hl3))|exact Hf2|exact Hf3].
            by destruct Hl2 as [[? _] _]. }
        cbn beta. intros _ s2 (Hinv2 & Hl2 & Hf2).
        apply wp_bind, wp_get. apply wp_bind, wp_modify.
        match goal with |- wp _ _ _ ?s3' => set (s3 := s3') end.
        destruct (register_refs b P s1 sa s2 q rt x fp tq
                    (negb (truthy (fromInclusionRule dx)))
                    (initial_rules (fromInclusionRule dx)))
          as (Hinv3 & Hl3 & Hf3 & Hq3 & Hr3); try eassumption; [eauto|..].
        { intros Hflag. exists dx. split; [exact Href|].
          by destruct (truthy (fromInclusionRule dx)). }
        { intros tag Htag. apply initial_rules_elem in Htag as [Hrule Ht].
          by exists dx. }
        fold s3 in Hinv3, Hl3, Hf3, Hq3, Hr3.
        assert (Hseen3 : seen O fp dx s3).
        { eexists _, _. split; [exact Hq3|]. split; [exact Hr3|]. cbn. split.
          - by intros ->.
          - intros tag Hrule Ht. by apply initial_rules_elem. }
        pose proof Hinv3 as (Hc3 & Hs3 & Hsound3 & Hparsed3 & Hnd3 & Hclosed3
                             & Hranked3).
        eapply wp_mono; [eapply (IH o rt q tq (rank q) (q :: P) s3) | |auto].
        + exact Ho.
        + eapply (repr_mono (heap s2) 0 (next s2));
            [|lia|reflexivity|reflexivity].
          eapply repr_grows; [exact Hrta | exact (proj1 Hl2)].
        + exact Hbq.
        + exact Hwq.
        + split; [exact Hc3|].
          split; [eapply settled_weaken; [exact Hs3 | lia]|].
          split; [exact Hsound3|]. split; [exact Hparsed3|].
          split; [exact Hnd3|]. split; [exact Hclosed3 | exact Hranked3].
        + cbn beta.
          intros _ s4 ((Hc4 & Hs4 & Hsound4 & Hparsed4 & Hnd4 & Hclosed4
                        & Hranked4) & Hl4 & Hf4 & Hcov4).
          assert (Hl34 : later rank b s3 s4)
            by (eapply later_weaken; [exact Hl4 | lia]).
          apply Hback.
          * split; [exact Hc4|]. split.
            { eapply settled_after;
                [exact Hs3 | exact (proj1 Hl4) | exact Hs4 | lia]. }
            split; [exact Hsound4|]. split; [exact Hparsed4|].
            split; [exact Hnd4|]. split; [|exact Hranked4].
            intros r rec t' Hr Hp Ht'.
            destruct (decide (fullpath rec = q)) as [Heq|Hne].
            -- rewrite Heq in *. assert (t' = tq) as -> by congruence.
               exact Hcov4.
            -- apply (Hclosed4 r rec t' Hr); [|exact Ht'].
               intros Hin. inversion Hin; subst; auto.
          * eapply later_trans; eassumption.
          * eapply fresh_trans;
              [|exact (proj1 (proj2 Hl4))|exact Hf3|exact Hf4].
            by destruct Hl3 as [[? _] _].
          * apply Hone.
            eapply seen_stable; [exact Hc3 | exact Hc4 | exact Hl34|].
            exact Hseen3. }
    apply wp_bind. unfold wp at 1.
    inversion Hxk1 as [i' d' par' Hi' Hn'|i' d' par' ids' kids' Hi' Hn' Hkids'];
      subst.
    - erewrite node_at_Some by exact Hn'. cbv beta iota.
      change (isImportNode (Node d' None par')) with (is_import d').
      destruct (is_import d') eqn:Himp.
      + apply (Himport d' (Node d' None par') Hn' eq_refl Himp).
        cbn [import_nodes_of]. by rewrite Himp.
      + apply Hback; [exact Hinv1 | apply later_refl | apply fresh_refl|].
        cbn [import_nodes_of]. rewrite Himp. intros d0 Hd0. inversion Hd0.
    - erewrite node_at_Some by exact Hn'. cbv beta iota.
      change (isImportNode (Node d' (Some ids') par')) with (is_import d').
      destruct (is_import d') eqn:Himp.
      + apply (Himport d' (Node d' (Some ids') par') Hn' eq_refl Himp).
        cbn [import_nodes_of]. by rewrite Himp.
      + eapply wp_mono;
          [eapply (IH o x fp (Branch d' kids') b P s1) | |auto].
        * exact Ho.
        * exact Hxk1.
        * intros o' f' Ho' Hf'. apply Hbelow; [exact Ho'|].
          eapply imports_of_kid; [exact Hkin|].
          cbn [imports_of]. rewrite Himp. exact Hf'.
        * destruct Hwithin as (T & HT & Hsub). exists T. split; [exact HT|].
          intros d0 Hd0. apply Hsub. cbn [import_nodes_under].
          eapply import_nodes_of_kid; [exact Hkin|].
          cbn [import_nodes_of]. rewrite Himp. exact Hd0.
        * exact Hinv1.
        * cbn beta. intros _ s2 (Hinv2 & Hl2 & Hf2 & Hcov2).
          apply Hback; auto.
          cbn [import_nodes_of]. rewrite Himp. exact Hcov2. }
  - cbn [app]. intros _ s' (Hinv' & Hl' & Hf' & Hseen').
    split; [exact Hinv'|]. split; [exact Hl'|]. split; [exact Hf'|].
    intros d0 Hd0. cbn [import_nodes_under] in Hd0.
    apply list_elem_of_In, in_flat_map in Hd0 as (k & Hk & Hd0).
    apply list_elem_of_In, list_elem_of_lookup in Hk as [i Hk].
    destruct (Forall2_lookup_r _ _ _ _ _ Hkids Hk) as (x & Hx & _).
    eapply Hseen'; [exact Hx | exact Hk | by apply list_elem_of_In].
  - auto.
Qed.

End ReferencesFacts.

(** ** The state that a discovery leaves *)

Section DiscoveredFacts.

Variable files : string -> option tree.
Variable O : options.
Variable rank : string -> nat.
Variable sheet : tree.
Variable from : string.

Hypothesis no_cycle : acyclic files O rank.
Hypothesis same_resolve : uniform O.
Hypothesis entry_above : below O rank (rank from) from (imports_under sheet).

Lemma discovery_Ok fuel s1 :
  discovery files fuel O sheet from = Ok tt s1 ->
  exists h n,
    alloc sheet None ∅ 0 = (h, n)
    /\ findImports files fuel O 0 from (St h n [] ∅ [] [] []) = Ok tt s1.
Proof.
  unfold discovery. intros (rt & s0 & Ha & Hf)%bind_Ok_inv.
  unfold alloc_tree in Ha. apply bind_Ok_inv in Ha as (s & s' & Hg & Ha).
  injection Hg as <- <-. cbn [heap next empty_st] in Ha.
  destruct (alloc sheet None ∅ 0) as [h n] eqn:Hal.
  apply bind_Ok_inv in Ha as ([] & s2 & Hm & Ha). injection Hm as <-.
  injection Ha as <- <-. by exists h, n.
Qed.

(** When the discovery is over, every file that was read has its record,
    every reference of every sheet of the build is registered, and the
    objects are where the parser put them. *)
Lemma discovery_refs fuel s1 :
  discovery files fuel O sheet from = Ok tt s1 ->
  discovery_inv files O rank sheet from (rank from) [] s1
  /\ covered O from sheet s1
  /\ laid (heap s1) 0 sheet
  /\ parent_of (heap s1) 0 = None
  /\ (forall r rec, records s1 !! r = Some rec -> size sheet <= root rec)
  /\ messages s1 = [].
Proof.
  intros (h & n & Ha & Hrun)%discovery_Ok.
  destruct (alloc_laid _ _ _ _ _ _ Ha) as (Hn & _ & Hlaid).
  destruct (alloc_spec _ _ _ _ _ _ Ha) as (_ & _ & Hrepr).
  destruct (alloc_region _ _ _ _ _ _ Ha)
    as (Hb & (nrt & Hnrt & Hprt & _) & Hin & Harr).
  { intros j [nd Hj]. by rewrite lookup_empty in Hj. }
  cbn in Hn. subst n.
  set (s0 := St h (size sheet) [] ∅ [] [] []) in *.
  assert (Hinv0 : discovery_inv files O rank sheet from (rank from) [] s0).
  { split.
    { unfold consistent, paths. cbn. repeat split; try apply NoDup_nil_2.
      - intros p r Hp. by rewrite lookup_empty in Hp.
      - intros p Hp. inversion Hp. }
    split; [intros p Hp; inversion Hp|].
    split; [intros r rec Hr; by destruct r|].
    split; [intros r rec Hr; by destruct r|].
    split; [apply NoDup_nil_2|].
    split; [intros r rec t Hr; by destruct r|].
    split; [cbn; lia|]. split; [|split].
    - intros i nd Hi. cbn in Hi.
      assert (Hlt : i < size sheet) by (apply Hb; eauto).
      split; [exact Hlt|]. exists sheet.
      unfold file_of. rewrite (proj2 (Nat.ltb_lt _ _) Hlt).
      split; [constructor|]. intros Hpar.
      destruct (decide (i = 0)) as [->|Hne].
      + assert (nd = nrt) as -> by congruence.
        rewrite Hprt in Hpar. by destruct Hpar.
      + by apply (Hin i nd); [lia|].
    - intros j i Hji. cbn in Hji.
      destruct (Harr j i ltac:(lia) Hji) as [Hlt Hp].
      assert (Hj' : j < size sheet) by (apply Hb; by eapply children_elem).
      assert (Hi' : i < size sheet) by (apply Hb; by eapply parent_of_Some).
      unfold file_of.
      rewrite (proj2 (Nat.ltb_lt _ _) Hj'), (proj2 (Nat.ltb_lt _ _) Hi').
      auto.
    - intros r rec Hr. by destruct r. }
  pose proof (findImports_refs files O rank sheet from no_cycle same_resolve
                fuel O 0 from sheet (rank from) [] s0 (subopts_self O))
    as Hfind.
  unfold wp in Hfind. rewrite Hrun in Hfind.
  destruct Hfind as (Hinv1 & Hl1 & Hf1 & Hcov1).
  - exact Hrepr.
  - exact entry_above.
  - exists sheet. split; [constructor | auto].
  - exact Hinv0.
  - destruct Hl1 as ((_ & Hframe & _) & (_ & _ & Hmsg & _) & _).
    split; [exact Hinv1|]. split; [exact Hcov1|]. split; [|split; [|split]].
    + eapply laid_agree; [exact Hlaid|]. intros j Hj.
      apply Hframe. cbn. lia.
    + rewrite (parent_of_agree h); [unfold parent_of; by rewrite Hnrt|].
      apply Hframe. cbn. pose proof (size_pos sheet). lia.
    + intros r rec Hr. destruct Hf1 as [_ Hf1].
      apply (Hf1 r rec Hr). cbn. lia.
    + exact Hmsg.
Qed.

End DiscoveredFacts.

(** ** The injection, turn by turn *)

Lemma forEach_cons_Ok {S A} (f : A -> M S unit) x xs s u s' :
  forEach f (x :: xs) s = Ok u s' ->
  exists s1, f x s = Ok tt s1 /\ forEach f xs s1 = Ok u s'.
Proof.
  cbn [forEach]. intros ([] & s1 & H1 & H2)%bind_Ok_inv. eauto.
Qed.

Lemma children_Some h i n ids :
  h !! i = Some n -> nodes n = Some ids -> children h i = ids.
Proof. intros H Hk. unfold children. by rewrite H, Hk. Qed.

Lemma replace_imports_Ok o rec fr snapshot :
  forall found s b s',
    replace_imports o rec fr snapshot found s = Ok b s' ->
    exists hits,
      replaced o rec fr snapshot s hits s'
      /\ b = found || bool_decide (0 < hits).
Proof.
  induction snapshot as [|x xs IH]; intros found s b s'; cbn [replace_imports].
  - intros [= <- <-]. exists 0. split; [constructor|].
    by rewrite orb_false_r.
  - intros (n & s0 & Hn & H)%bind_Ok_inv.
    apply node_at_Ok in Hn as [-> Hn].
    apply bind_Ok_inv in H as (f & s1 & Hstep & Hrest).
    destruct (matches_import o rec n) eqn:Hm.
    + pose proof Hm as Hm'. unfold matches_import in Hm'.
      apply andb_true_iff in Hm' as [Hi Hp]. rewrite Hi, Hp in Hstep.
      apply bind_Ok_inv in Hstep as (live & s2 & Hlive & Hstep).
      pose proof (nodes_of_children _ _ _ _ Hlive) as Hl.
      pose proof Hlive as Hlive'.
      apply nodes_of_Ok in Hlive' as (-> & nf & Hnf & _).
      apply bind_Ok_inv in Hstep as (items & s2 & Hitems & Hstep).
      pose proof (nodes_of_children _ _ _ _ Hitems) as Hit.
      apply nodes_of_Ok in Hitems as (-> & _).
      apply bind_Ok_inv in Hstep as ([] & s2 & Hset & Hstep).
      erewrite set_nodes_Some in Hset by exact Hnf.
      injection Hset as <-. injection Hstep as <- <-.
      destruct (IH _ _ _ _ Hrest) as (hits & Hr & ->).
      exists (S hits). split.
      * eapply replaced_hit; [exact Hn | exact Hm |]. by rewrite Hl, Hit.
      * cbn. rewrite bool_decide_eq_true_2 by lia. by rewrite orb_true_r.
    + assert (f = found /\ s1 = s) as [-> ->].
      { unfold matches_import in Hm. destruct (isImportNode n); cbn in Hm.
        - rewrite Hm in Hstep. by injection Hstep as <- <-.
        - by injection Hstep as <- <-. }
      destruct (IH _ _ _ _ Hrest) as (hits & Hr & ->).
      exists hits. split; [|reflexivity].
      eapply replaced_skip; [exact Hn | exact Hm | exact Hr].
Qed.

Lemma inject_into_rule_Ok o rootStyles rec tag s u s' :
  inject_into_rule o rootStyles rec tag s = Ok u s' ->
  exists fr hits,
    rule_for o rootStyles ("." +:+ tag) s = Some fr
    /\ replaced o rec fr (children (heap s) fr) s (S hits) s'.
Proof.
  unfold inject_into_rule. intros (found & s0 & Hf & H)%bind_Ok_inv.
  pose proof (findSelector_rule_for _ _ _ _ _ _ Hf) as ->.
  assert (s0 = s) as ->
    by (eapply pure_Ok; [apply pure_findSelector | exact Hf]).
  destruct (rule_for o rootStyles ("." +:+ tag) s) as [fr|]; [|discriminate].
  apply bind_Ok_inv in H as (snapshot & s0 & Hsnap & H).
  pose proof (nodes_of_children _ _ _ _ Hsnap) as Hs.
  apply nodes_of_Ok in Hsnap as (-> & _).
  apply bind_Ok_inv in H as (b & s1 & Hrep & H).
  apply replace_imports_Ok in Hrep as (hits & Hr & ->).
  destruct hits as [|hits]; [discriminate|].
  cbn in H. injection H as _ <-.
  exists fr, hits. split; [reflexivity|]. by rewrite Hs.
Qed.

Lemma inject_scoped_Ok o rootStyles rec tags :
  forall s u s',
    forEach (inject_into_rule o rootStyles rec) tags s = Ok u s' ->
    scoped o rootStyles rec tags s s'.
Proof.
  induction tags as [|tag tags IH]; intros s u s'.
  - intros [= _ <-]. constructor.
  - intros (s1 & H1 & H2)%forEach_cons_Ok.
    apply inject_into_rule_Ok in H1 as (fr & hits & Hfr & Hr).
    econstructor; [exact Hfr | exact Hr | by eapply IH].
Qed.

Lemma separate_first_node_turn rec s u s' :
  separate_first_node rec s = Ok u s' -> separated rec s s'.
Proof.
  unfold separate_first_node, separated.
  intros (ids & s0 & Hids & H)%bind_Ok_inv.
  rewrite (nodes_of_children _ _ _ _ Hids).
  apply nodes_of_Ok in Hids as (-> & _).
  destruct ids as [|first ids]; [by injection H as _ <-|].
  unfold set_before in H. apply bind_Ok_inv in H as (n & s0 & Hn & H).
  apply node_at_Ok in Hn as [-> Hn]. injection H as _ <-.
  exists n. split; [exact Hn | reflexivity].
Qed.

Lemma remove_comment_turn prevNode s u s' :
  remove_comment prevNode s = Ok u s' -> unlinked s s'.
Proof.
  unfold remove_comment, unlinked.
  destruct prevNode as [pn|]; [|intros [= _ <-]; by left].
  intros (n & s0 & Hn & H)%bind_Ok_inv.
  apply node_at_Ok in Hn as [-> Hn].
  destruct (_ && _) eqn:Hplain; [|injection H as _ <-; by left].
  unfold safeRemove in H. apply bind_Ok_inv in H as (n' & s0 & Hn' & H).
  apply node_at_Ok in Hn' as [-> Hn'].
  assert (n' = n) as -> by congruence.
  destruct (parent n) as [p|] eqn:Hp; [|injection H as _ <-; by left].
  apply bind_Ok_inv in H as (pn' & s0 & Hpn & H).
  apply node_at_Ok in Hpn as [-> Hpn].
  destruct (nodes pn') as [kids|] eqn:Hk; [|injection H as _ <-; by left].
  destruct (indexOf pn kids =? -1)%Z eqn:Hidx; [injection H as _ <-; by left|].
  apply bind_Ok_inv in H as ([] & s1 & Hsp & H).
  unfold set_parent in Hsp. apply bind_Ok_inv in Hsp as (n2 & s0 & Hn2 & Hsp).
  apply node_at_Ok in Hn2 as [-> Hn2].
  assert (n2 = n) as -> by congruence. injection Hsp as <-.
  assert (Hp' : is_Some (heap (set_heap (fun h =>
                  <[pn := Node (data n) (nodes n) None]> h) s) !! p)).
  { cbn. destruct (decide (pn = p)) as [->|Hne].
    - rewrite lookup_insert_eq. eauto.
    - rewrite lookup_insert_ne by done. eauto. }
  destruct Hp' as [np Hnp].
  erewrite set_nodes_Some in H by exact Hnp. injection H as _ <-.
  right. exists pn, n, p.
  rewrite (children_Some _ _ _ _ Hpn Hk).
  split; [exact Hn|]. split; [exact Hp|].
  split; [unfold plain_comment; by rewrite Hn|].
  split; [by apply Z.eqb_neq|]. reflexivity.
Qed.

Lemma inject_record_turn fuel o rootStyles r rec s pushed s' :
  records s !! r = Some rec ->
  inject_record fuel o rootStyles r s = Ok pushed s' ->
  turn o rootStyles rec s pushed s'.
Proof.
  intros Hr. unfold inject_record.
  intros (rec' & s0 & Hrec & H)%bind_Ok_inv.
  apply record_at_Ok in Hrec as [-> Hrec].
  assert (rec' = rec) as -> by congruence.
  apply bind_Ok_inv in H as (prevNode & sa & Hloc & H).
  apply locate_prevNode_Ok in Hloc as ->.
  apply bind_Ok_inv in H as ([] & sb & Hsep & H).
  apply separate_first_node_turn in Hsep.
  apply bind_Ok_inv in H as (pushed' & sc & Hpush & H).
  apply bind_Ok_inv in H as ([] & sd & Hrem & H).
  injection H as <- <-.
  apply remove_comment_turn in Hrem.
  exists sb, sc. split; [exact Hsep|]. split; [|exact Hrem].
  unfold push_or_scope in Hpush.
  destruct (isGloballyImported rec).
  - apply bind_Ok_inv in Hpush as (items & s0 & Hitems & Hpush).
    pose proof (nodes_of_children _ _ _ _ Hitems) as Hit.
    apply nodes_of_Ok in Hitems as (-> & _).
    injection Hpush as <- <-. auto.
  - apply bind_Ok_inv in Hpush as ([] & s0 & Hsc & Hpush).
    injection Hpush as <- <-. split; [|reflexivity].
    unfold inject_scoped in Hsc. by eapply inject_scoped_Ok.
Qed.

Lemma contributions_turns fuel o rootStyles recs rs s segs s2 :
  records s = recs ->
  contributions fuel o rootStyles recs rs s segs s2 ->
  turns o rootStyles recs rs s segs s2.
Proof.
  intros Hrecs Hc.
    induction Hc as [s|r rs rec s seg s1 segs s2 Hr Hrun Hseg _ IH].
  - constructor.
  - econstructor; [exact Hr | |].
    + eapply inject_record_turn; [by rewrite Hrecs | exact Hrun].
    + apply IH.
      pose proof (keeps_Ok _ _ _ _ (keeps_inject_record fuel o rootStyles r)
                    Hrun) as Hreg.
      unfold registry in Hreg. injection Hreg as _ Hrecs1 _ _. congruence.
Qed.

(** ** What the injection keeps of the discovered objects *)

Lemma children_with_nodes i ids s j :
  children (heap (with_nodes i ids s)) j
  = if decide (i = j)
    then match heap s !! i with Some _ => ids | None => [] end
    else children (heap s) j.
Proof.
  unfold children. rewrite with_nodes_lookup.
  destruct (decide (i = j)) as [->|]; [|reflexivity].
  by destruct (heap s !! j).
Qed.

Lemma children_with_nodes_elem i ids s j x :
  x ∈ children (heap (with_nodes i ids s)) j ->
  if decide (i = j) then x ∈ ids else x ∈ children (heap s) j.
Proof.
  rewrite children_with_nodes. destruct (decide (i = j)); [|done].
  destruct (heap s !! i); [done | inversion 1].
Qed.

Lemma kind_at_with_nodes i ids s j :
  kind_at (heap (with_nodes i ids s)) j = kind_at (heap s) j.
Proof.
  unfold kind_at. rewrite with_nodes_lookup.
  destruct (decide (i = j)) as [->|]; [|reflexivity].
  by destruct (heap s !! j).
Qed.

Lemma registry_with_nodes i ids s :
  registry (with_nodes i ids s) = registry s.
Proof. unfold with_nodes. by destruct (heap s !! i). Qed.

Lemma with_before_with_before b b' d :
  with_before b (with_before b' d) = with_before b d.
Proof. reflexivity. Qed.

Lemma kind_at_insert_before h i n b j :
  h !! i = Some n ->
  kind_at (<[i := Node (with_before b (data n)) (nodes n) (parent n)]> h) j
  = kind_at h j.
Proof.
  intros Hn. unfold kind_at. destruct (decide (i = j)) as [->|Hne].
  - by rewrite lookup_insert_eq, Hn.
  - by rewrite lookup_insert_ne.
Qed.

Lemma kind_at_insert_parent h i n p j :
  h !! i = Some n ->
  kind_at (<[i := Node (data n) (nodes n) p]> h) j = kind_at h j.
Proof.
  intros Hn. unfold kind_at. destruct (decide (i = j)) as [->|Hne].
  - by rewrite lookup_insert_eq, Hn.
  - by rewrite lookup_insert_ne.
Qed.

Lemma plain_comment_kind h h' i :
  kind_at h' i = kind_at h i -> plain_comment h' i = plain_comment h i.
Proof.
  unfold kind_at, plain_comment.
  destruct (h' !! i) as [n'|], (h !! i) as [n|]; cbn; try done.
  intros [= Hty _ _ _ _ Htx]. by rewrite Hty, Htx.
Qed.

Lemma import_at_kind h h' i :
  kind_at h' i = kind_at h i -> import_at h' i = import_at h i.
Proof.
  unfold kind_at, import_at, isImportNode.
  destruct (h' !! i) as [n'|], (h !! i) as [n|]; cbn; try done.
  intros [= Hty Him _ _ _ _]. by rewrite Hty, Him.
Qed.

Lemma elem_of_splice (xs items : list nat) start k x :
  x ∈ splice xs start k items -> x ∈ xs \/ x ∈ items.
Proof.
  unfold splice. set (from := if (start <? 0)%Z then _ else _).
  rewrite !elem_of_app. intros [H|[H|H]]; [left|by right|left].
  - eapply elem_of_sublist; [exact H | apply sublist_take].
  - eapply elem_of_sublist; [exact H | apply sublist_drop].
Qed.

(** Where [indexOf] finds a node. *)
Lemma indexOf_found (x : nat) (xs : list nat) :
  indexOf x xs <> (-1)%Z ->
  exists pre post,
    xs = pre ++ x :: post /\ (x ∉ pre)
    /\ indexOf x xs = Z.of_nat (length pre).
Proof.
  induction xs as [|y ys IH]; cbn [indexOf]; [done|].
  destruct (bool_decide (x = y)) eqn:Hxy.
  - apply bool_decide_eq_true in Hxy as ->. intros _.
    exists [], ys. split; [reflexivity|]. split; [inversion 1 | reflexivity].
  - apply bool_decide_eq_false in Hxy.
    destruct (Z.eqb_spec (indexOf x ys) (-1)) as [|Hne]; [done|]. intros _.
    destruct (IH Hne) as (pre & post & -> & Hpre & Hidx).
    exists (y :: pre), post. split; [reflexivity|]. split.
    + intros [->|H]%elem_of_cons; [done | by apply Hpre].
    + rewrite Hidx. cbn [length]. lia.
Qed.

Lemma indexOf_absent (x : nat) (xs : list nat) :
  indexOf x xs = (-1)%Z <-> x ∉ xs.
Proof.
  induction xs as [|y ys IH]; cbn [indexOf].
  - split; [inversion 2 | done].
  - destruct (bool_decide (x = y)) eqn:Hxy.
    + apply bool_decide_eq_true in Hxy as ->. split; [lia|].
      intros H. exfalso. apply H. left.
    + apply bool_decide_eq_false in Hxy.
      destruct (Z.eqb_spec (indexOf x ys) (-1)) as [He|Hne].
      * split; [|done]. intros _ [->|H]%elem_of_cons; [done|].
        by apply IH in He.
      * split.
        -- intros H. exfalso.
           assert (0 <= indexOf x ys)%Z; [|lia].
           clear -Hne. induction ys as [|z zs IHz]; cbn [indexOf] in *; [done|].
           destruct (bool_decide (x = z)); [lia|].
           destruct (Z.eqb_spec (indexOf x zs) (-1)); [done|].
           specialize (IHz n). lia.
        -- intros H. exfalso. apply Hne, IH. intros Hin. apply H. by right.
Qed.

Lemma splice_delete_found (x : nat) (pre post : list nat) :
  x ∉ pre ->
  splice (pre ++ x :: post) (indexOf x (pre ++ x :: post)) 1 [] = pre ++ post.
Proof.
  intros Hx. rewrite indexOf_app_fresh by exact Hx.
  by rewrite splice_replace_one.
Qed.

Section Injecting.

Variables (rootStyles : nat) (s1 : st).

Lemma injecting_refl :
  (forall j i, i ∈ children (heap s1) j -> i ∉ root_objects rootStyles s1) ->
  injecting rootStyles s1 s1.
Proof.
  intros Hm. split; [reflexivity|]. split; [reflexivity|].
  split; [intros j _; split; [reflexivity | done]|].
  split; [exact Hm | by left].
Qed.

(** A change that leaves the registry, the kinds and the arrays alone. *)
Lemma injecting_same s s' :
  injecting rootStyles s1 s ->
  registry s' = registry s ->
  (forall j, kind_at (heap s') j = kind_at (heap s) j) ->
  (forall j, children (heap s') j = children (heap s) j) ->
  injecting rootStyles s1 s'.
Proof.
  intros (Hreg & Hk & Ht & Hm & Hp) Hreg' Hk' Hc'.
  split; [congruence|]. split; [intros j; by rewrite Hk'|].
  split; [|split].
  - intros j Hj. destruct (Ht j Hj) as [Hs Hl]. unfold thinned.
    by rewrite Hc'.
  - intros j i. rewrite Hc'. apply Hm.
  - intros j i. rewrite Hc'. apply Hp.
Qed.

Lemma injecting_separated rec s s' :
  injecting rootStyles s1 s -> separated rec s s' ->
  injecting rootStyles s1 s'.
Proof.
  intros Hinv. unfold separated.
  destruct (children (heap s) (root rec)) as [|first ids]; [by intros ->|].
  intros (n & Hn & ->). eapply injecting_same; [exact Hinv|reflexivity| |].
  - intros j. cbn. by apply kind_at_insert_before.
  - intros j. cbn. by apply children_insert_same.
Qed.

(** A splice into a node that is no root, of nodes from the top of the file
    of a record that is not globally imported. *)
Lemma injecting_splice s fr r rec start :
  injecting rootStyles s1 s ->
  fr ∉ root_objects rootStyles s1 ->
  records s1 !! r = Some rec -> isGloballyImported rec = false ->
  injecting rootStyles s1
    (with_nodes fr (splice (children (heap s) fr) start 1
                           (children (heap s) (root rec))) s).
Proof.
  intros (Hreg & Hk & Ht & Hm & Hp) Hfr Hr Hg.
  assert (Hroot : root rec ∈ root_objects rootStyles s1).
  { right. apply list_elem_of_fmap. exists rec. split; [reflexivity|].
    by eapply list_elem_of_lookup_2. }
  split; [by rewrite registry_with_nodes|].
  split; [intros j; by rewrite kind_at_with_nodes|].
  split; [|split].
  - intros j Hj. unfold thinned. rewrite children_with_nodes.
    destruct (decide (fr = j)) as [->|_]; [done | by apply Ht].
  - intros j i Hi. apply children_with_nodes_elem in Hi.
    destruct (decide (fr = j)) as [->|_]; [|by eapply Hm].
    apply elem_of_splice in Hi as [Hi|Hi]; by eapply Hm.
  - intros j i Hi. apply children_with_nodes_elem in Hi.
    destruct (decide (fr = j)) as [->|_]; [|by apply Hp].
    apply elem_of_splice in Hi as [Hi|Hi]; [by apply Hp|].
    right. split; [exact Hfr|]. exists r, rec.
    split; [exact Hr|]. split; [exact Hg|].
    destruct (Ht _ Hroot) as [Hsub _].
    eapply elem_of_sublist; [exact Hi | exact Hsub].
Qed.

(** The removal of a comment from an array. *)
Lemma injecting_delete s p pn :
  injecting rootStyles s1 s ->
  plain_comment (heap s) pn = true ->
  indexOf pn (children (heap s) p) <> (-1)%Z ->
  injecting rootStyles s1
    (with_nodes p (splice (children (heap s) p)
                          (indexOf pn (children (heap s) p)) 1 []) s).
Proof.
  intros (Hreg & Hk & Ht & Hm & Hp) Hplain Hidx.
  destruct (indexOf_found _ _ Hidx) as (pre & post & Hkids & Hpre & _).
  rewrite Hkids, splice_delete_found by exact Hpre.
  assert (Hsome : is_Some (heap s !! p)).
  { unfold children in Hkids. destruct (heap s !! p); [eauto|].
    by destruct pre. }
  destruct Hsome as [np Hnp].
  assert (Hc : forall j, children (heap (with_nodes p (pre ++ post) s)) j
                         = if decide (p = j) then pre ++ post
                           else children (heap s) j).
  { intros j. rewrite children_with_nodes. by rewrite Hnp. }
  assert (Hsub : (pre ++ post) `sublist_of` children (heap s) p).
  { rewrite Hkids. apply sublist_app; [reflexivity|]. by apply sublist_cons. }
  split; [by rewrite registry_with_nodes|].
  split; [intros j; by rewrite kind_at_with_nodes|].
  split; [|split].
  - intros j Hj. unfold thinned. rewrite Hc.
    destruct (decide (p = j)) as [->|_]; [|by apply Ht].
    destruct (Ht j Hj) as [Hs Hl]. split; [by etrans|].
    intros i Hi Hni.
    destruct (decide (i ∈ children (heap s) j)) as [Hin|Hout];
      [|by apply Hl].
    rewrite Hkids in Hin.
    apply elem_of_app in Hin as [Hin|[->|Hin]%elem_of_cons].
    + exfalso. apply Hni, elem_of_app. by left.
    + rewrite <- Hplain. symmetry. by apply plain_comment_kind.
    + exfalso. apply Hni, elem_of_app. by right.
  - intros j i. rewrite Hc. destruct (decide (p = j)) as [->|_]; [|apply Hm].
    intros Hi. apply (Hm j). eapply elem_of_sublist; [exact Hi | exact Hsub].
  - intros j i. rewrite Hc. destruct (decide (p = j)) as [->|_]; [|apply Hp].
    intros Hi. apply Hp. eapply elem_of_sublist; [exact Hi | exact Hsub].
Qed.

Lemma injecting_unlinked s s' :
  injecting rootStyles s1 s -> unlinked s s' -> injecting rootStyles s1 s'.
Proof.
  intros Hinv [->|(pn & n & p & Hn & Hpar & Hplain & Hidx & ->)]; [done|].
  set (sm := set_heap (fun h => <[pn := Node (data n) (nodes n) None]> h) s).
  assert (Hc : forall j, children (heap sm) j = children (heap s) j).
  { intros j. by apply children_insert_same. }
  assert (Hk : forall j, kind_at (heap sm) j = kind_at (heap s) j).
  { intros j. by apply kind_at_insert_parent. }
  rewrite <- (Hc p).
  apply injecting_delete.
  - by eapply injecting_same.
  - rewrite <- Hplain. by apply plain_comment_kind.
  - by rewrite Hc.
Qed.

Lemma injecting_replaced o r rec fr xs s hits s' :
  replaced o rec fr xs s hits s' ->
  injecting rootStyles s1 s ->
  fr ∉ root_objects rootStyles s1 ->
  records s1 !! r = Some rec -> isGloballyImported rec = false ->
  injecting rootStyles s1 s'.
Proof.
  intros Hrep Hinv Hfr Hr Hg. induction Hrep as [s|x xs n s hits s' _ _ _ IH
                                                 |x xs n s hits s' _ _ _ IH].
  - exact Hinv.
  - by apply IH.
  - apply IH. by eapply injecting_splice.
Qed.

Lemma last_rule_for_elem o sel h ids j :
  last_rule_for o sel h ids = Some j ->
  j ∈ ids /\ is_rule_for o sel h j = true.
Proof.
  induction ids as [|i ids IH]; cbn [last_rule_for]; [done|].
  destruct (last_rule_for o sel h ids) as [k|].
  - intros [= ->]. destruct (IH eq_refl) as [Hin Hrule].
    split; [by right | exact Hrule].
  - destruct (is_rule_for o sel h i) eqn:Hi; [|done].
    intros [= ->]. split; [left | exact Hi].
Qed.

(** The rule that [findSelector] finds is at the top of the document or of
    an imported file. *)
Lemma rule_for_top o sel s fr :
  rule_for o rootStyles sel s = Some fr ->
  is_rule_for o sel (heap s) fr = true
  /\ exists j, j ∈ root_objects rootStyles s /\ fr ∈ children (heap s) j.
Proof.
  unfold rule_for.
  destruct (last_rule_for o sel (heap s) (children (heap s) rootStyles))
    as [i|] eqn:Htop.
  - intros [= ->]. apply last_rule_for_elem in Htop as [Hin Hrule].
    split; [exact Hrule|]. exists rootStyles. split; [left | exact Hin].
  - intros [Hin Hrule]%last_rule_for_elem. split; [exact Hrule|].
    unfold record_level_nodes in Hin.
    apply list_elem_of_In, in_flat_map in Hin as (r & _ & Hin).
    destruct (records s !! r) as [rec|] eqn:Hr; [|destruct Hin].
    exists (root rec). split; [|by apply list_elem_of_In].
    right. apply list_elem_of_fmap. exists rec. split; [reflexivity|].
    by eapply list_elem_of_lookup_2.
Qed.

Lemma injecting_records s :
  injecting rootStyles s1 s -> records s = records s1.
Proof. intros (Hreg & _). unfold registry in Hreg. by injection Hreg. Qed.

Lemma injecting_scoped o r rec tags s s' :
  scoped o rootStyles rec tags s s' ->
  injecting rootStyles s1 s ->
  records s1 !! r = Some rec -> isGloballyImported rec = false ->
  injecting rootStyles s1 s'.
Proof.
  intros Hsc Hinv Hr Hg.
  induction Hsc as [s|tag tags fr hits s sa sb Hfr Hrep _ IH]; [exact Hinv|].
  apply IH. eapply injecting_replaced; [exact Hrep | exact Hinv | | exact Hr
                                         | exact Hg].
  apply rule_for_top in Hfr as (_ & j & Hj & Hin).
  destruct Hinv as (_ & _ & _ & Hm & _). by eapply Hm.
Qed.

Lemma injecting_turn o r rec s seg s' :
  injecting rootStyles s1 s ->
  records s1 !! r = Some rec ->
  turn o rootStyles rec s seg s' ->
  injecting rootStyles s1 s' /\ pushes s1 rec seg.
Proof.
  intros Hinv Hr (sb & sc & Hsep & Hpush & Hun).
  assert (Hb : injecting rootStyles s1 sb).
  { eapply injecting_separated; [|exact Hsep].
    eapply injecting_same; [exact Hinv | reflexivity | done | done]. }
  unfold pushes. destruct (isGloballyImported rec) eqn:Hg.
  - destruct Hpush as [-> ->]. split; [by eapply injecting_unlinked|].
    destruct Hb as (_ & _ & Ht & _). apply Ht.
    right. apply list_elem_of_fmap. exists rec. split; [reflexivity|].
    by eapply list_elem_of_lookup_2.
  - destruct Hpush as [Hsc ->]. split; [|reflexivity].
    eapply injecting_unlinked; [|exact Hun].
    by eapply injecting_scoped.
Qed.

Lemma injecting_turns o rs s segs s' :
  turns o rootStyles (records s1) rs s segs s' ->
  injecting rootStyles s1 s ->
  injecting rootStyles s1 s'
  /\ Forall2 (fun r seg => exists rec, records s1 !! r = Some rec
                                       /\ pushes s1 rec seg) rs segs.
Proof.
  intros Ht. induction Ht as [s|r rs rec s seg sa segs sb Hr Hturn _ IH];
    intros Hinv.
  - split; [exact Hinv | constructor].
  - destruct (injecting_turn _ _ _ _ _ _ Hinv Hr Hturn) as [Ha Hp].
    destruct (IH Ha) as [Hb Hall]. split; [exact Hb|].
    constructor; [by exists rec | exact Hall].
Qed.

End Injecting.

(** ** The final sweep, on any objects *)

Lemma wp_set_nodes i ids s (Q : unit -> st -> Prop) :
  (is_Some (heap s !! i) -> Q tt (with_nodes i ids s)) ->
  wp (set_nodes i ids) Q (fun _ _ => True) s.
Proof.
  intros HQ. unfold wp. destruct (heap s !! i) as [n|] eqn:Hn.
  - erewrite set_nodes_Some by exact Hn. apply HQ. eauto.
  - unfold set_nodes, node_at, bind, get. by rewrite Hn.
Qed.

Lemma wp_set_before i b s (Q : unit -> st -> Prop) :
  (forall n, heap s !! i = Some n ->
     Q tt (set_heap (fun h => <[i := Node (with_before b (data n))
                                          (nodes n) (parent n)]> h) s)) ->
  wp (set_before i b) Q (fun _ _ => True) s.
Proof.
  intros HQ. unfold wp. destruct (heap s !! i) as [n|] eqn:Hn.
  - erewrite set_before_Some by exact Hn. by apply HQ.
  - unfold set_before, node_at, bind, get. by rewrite Hn.
Qed.

Lemma shrunk_refl s : shrunk s s.
Proof. by repeat split. Qed.

Lemma shrunk_trans s1 s2 s3 : shrunk s1 s2 -> shrunk s2 s3 -> shrunk s1 s3.
Proof.
  intros (Hr1 & Hk1 & Hc1) (Hr2 & Hk2 & Hc2).
  split; [congruence|]. split; [intros j; by rewrite Hk2|].
  intros j i Hi. by apply Hc1, Hc2.
Qed.

Lemma shrunk_before s i n b :
  heap s !! i = Some n ->
  shrunk s (set_heap (fun h => <[i := Node (with_before b (data n))
                                           (nodes n) (parent n)]> h) s).
Proof.
  intros Hn. split; [reflexivity|]. split.
  - intros j. cbn. by apply kind_at_insert_before.
  - intros j x. cbn. by rewrite (children_insert_same _ _ _ _ _ _ Hn).
Qed.

Lemma children_before s i n b j :
  heap s !! i = Some n ->
  children (heap (set_heap (fun h => <[i := Node (with_before b (data n))
                                                 (nodes n) (parent n)]> h) s))
           j
  = children (heap s) j.
Proof. intros Hn. cbn. by apply children_insert_same. Qed.

Lemma shrunk_delete s z (start : Z) :
  shrunk s (with_nodes z (splice (children (heap s) z) start 1 []) s).
Proof.
  split; [apply registry_with_nodes|].
  split; [intros j; apply kind_at_with_nodes|].
  intros j i Hi. apply children_with_nodes_elem in Hi.
  destruct (decide (z = j)) as [->|_]; [|exact Hi].
  apply elem_of_splice in Hi as [Hi|Hi]; [exact Hi | inversion Hi].
Qed.

Lemma apart_shrunk s s' j :
  shrunk s s' -> apart (heap s) j -> apart (heap s') j.
Proof. intros (_ & _ & Hc) Ha k Hin. by apply (Ha k), Hc. Qed.

(** The sweep from a node leaves the arrays of the nodes that are in no
    array alone, but for the node itself. *)
Lemma sweep_frame fuel :
  forall z s,
    wp (removeAllImports fuel z)
       (fun _ s' =>
          shrunk s s'
          /\ forall j, j <> z -> apart (heap s) j ->
                       children (heap s') j = children (heap s) j)
       (fun _ _ => True) s.
Proof.
  induction fuel as [|fuel IH]; intros z s; [exact I|].
  rewrite removeAllImports_unfold. apply wp_bind.
  apply wp_nodes_of; [|done]. intros nz snapshot Hnz Hsnap.
  pose proof (children_Some _ _ _ _ Hnz Hsnap) as Hkids.
  set (J := fun s' : st =>
         shrunk s s'
         /\ forall j, j <> z -> apart (heap s) j ->
                      children (heap s') j = children (heap s) j).
  apply (wp_forEach _ _ J); [|split; [apply shrunk_refl | done]].
  intros x sk Hx [Hsh Hfr]. unfold sweep_step.
  apply wp_bind, wp_node_at; [|done]. intros n Hn.
  destruct (isImportNode n).
  - apply wp_bind, wp_nodes_of; [|done]. intros nz' live Hnz' Hlive.
    pose proof (children_Some _ _ _ _ Hnz' Hlive) as Hl.
    apply wp_bind, wp_set_nodes. intros _.
    set (sk' := with_nodes z _ sk).
    assert (Hsh' : shrunk sk sk') by (subst sk'; rewrite <- Hl;
      apply shrunk_delete).
    assert (Hfr' : forall j, j <> z ->
              children (heap sk') j = children (heap sk) j).
    { intros j Hj. subst sk'. rewrite children_with_nodes.
      by destruct (decide (z = j)) as [->|_]. }
    destruct (at_index _ _) as [nx|].
    + apply wp_set_before. intros nnx Hnx. split.
      * eapply shrunk_trans; [exact Hsh|].
        eapply shrunk_trans; [exact Hsh'|]. by apply shrunk_before.
      * intros j Hj Ha. rewrite children_before by done.
        rewrite Hfr' by done. by apply Hfr.
    + apply wp_ret. split; [by eapply shrunk_trans|].
      intros j Hj Ha. rewrite Hfr' by done. by apply Hfr.
  - destruct (nodes n) as [kids|]; [|apply wp_ret; by split].
    eapply wp_mono; [apply IH | | done]. cbn beta.
    intros _ s' [Hsh' Hfr']. split; [by eapply shrunk_trans|].
    intros j Hj Ha. rewrite Hfr'.
    + by apply Hfr.
    + intros ->. apply (Ha z). by rewrite Hkids.
    + by eapply apart_shrunk.
Qed.

Lemma filter_app_one {A} (P : A -> Prop) `{!forall x, Decision (P x)}
    (l : list A) (x : A) :
  filter P (l ++ [x]) = filter P l ++ (if decide (P x) then [x] else []).
Proof.
  by rewrite filter_app.
Qed.

Lemma at_index_length_app (pre post : list nat) :
  at_index (pre ++ post) (Z.of_nat (length pre)) = head post.
Proof.
  unfold at_index. rewrite (proj2 (Z.ltb_ge _ _)) by lia.
  rewrite Nat2Z.id, lookup_app_r by lia.
  rewrite Nat.sub_diag. by destruct post.
Qed.

(** The sweep of a node that is in no array leaves it the nodes it had
    that are no Import Nodes, in their order. *)
Lemma sweep_root fuel z s :
  apart (heap s) z ->
  wp (removeAllImports fuel z)
     (fun _ s' =>
        children (heap s') z
        = filter (fun i => import_at (heap s) i = false)
                 (children (heap s) z))
     (fun _ _ => True) s.
Proof.
  intros Hz. destruct fuel as [|fuel]; [exact I|].
  rewrite removeAllImports_unfold. apply wp_bind.
  apply wp_nodes_of; [|done]. intros nz snapshot Hnz Hsnap.
  pose proof (children_Some _ _ _ _ Hnz Hsnap) as Hkids. rewrite Hkids.
  set (P := fun i => import_at (heap s) i = false).
  set (J := fun (done : list nat) (s' : st) =>
         shrunk s s'
         /\ children (heap s') z
            = filter P done ++ drop (length done) snapshot).
  eapply (wp_mono _ (fun _ => J ([] ++ snapshot))).
  { apply (wp_forEach_visited _ J (fun _ _ => True)); cycle 1.
    { split; [apply shrunk_refl|]. by rewrite Hkids. }
    intros done x rest sk Hsplit _ [Hsh Hlive]. cbn [app] in Hsplit.
    assert (Hdrop : drop (length done) snapshot = x :: rest)
      by (by rewrite Hsplit, drop_app_length).
    assert (Hdrop' : drop (length (done ++ [x])) snapshot = rest).
    { rewrite Hsplit, (cons_middle x done rest), app_assoc.
      by rewrite drop_app_length. }
    rewrite Hdrop in Hlive.
    assert (Hxin : x ∈ children (heap s) z).
    { rewrite Hkids, Hsplit. apply elem_of_app. right. left. }
    unfold sweep_step. apply wp_bind, wp_node_at; [|done]. intros n Hn.
    assert (Himp : import_at (heap s) x = isImportNode n).
    { destruct Hsh as (_ & Hk & _).
      rewrite <- (import_at_kind _ _ _ (Hk x)).
      unfold import_at. by rewrite Hn. }
    unfold J. rewrite Hdrop', filter_app_one.
    destruct (isImportNode n) eqn:Hi.
    - rewrite decide_False by (unfold P; congruence). rewrite app_nil_r.
      apply wp_bind, wp_nodes_of; [|done]. intros nz' live Hnz' Hl.
      pose proof (children_Some _ _ _ _ Hnz' Hl) as Hl'.
      rewrite Hlive in Hl'. subst live.
      assert (Hfresh : x ∉ filter P done).
      { intros [HP _]%list_elem_of_filter. unfold P in HP. congruence. }
      rewrite indexOf_app_fresh by exact Hfresh.
      rewrite splice_replace_one. cbn [app].
      apply wp_bind, wp_set_nodes. intros _.
      set (sk' := with_nodes z _ sk).
      assert (Hsh' : shrunk sk sk').
      { subst sk'. split; [apply registry_with_nodes|].
        split; [intros j; apply kind_at_with_nodes|].
        intros j i Hin. apply children_with_nodes_elem in Hin.
        destruct (decide (z = j)) as [->|_]; [|exact Hin].
        rewrite Hlive. apply elem_of_app in Hin as [Hin|Hin];
          apply elem_of_app; [by left | right; by right]. }
      assert (Hz' : children (heap sk') z = filter P done ++ rest).
      { subst sk'. rewrite children_with_nodes, decide_True by done.
        by rewrite Hnz'. }
      destruct (at_index _ _) as [nx|].
      + apply wp_set_before. intros nnx Hnx. split.
        * eapply shrunk_trans; [exact Hsh|].
          eapply shrunk_trans; [exact Hsh'|]. by apply shrunk_before.
        * by rewrite children_before.
      + apply wp_ret. split; [by eapply shrunk_trans | exact Hz'].
    - rewrite decide_True by (unfold P; congruence).
      rewrite <- app_assoc. cbn [app].
      destruct (nodes n) as [kids|]; [|apply wp_ret; by split].
      eapply wp_mono; [apply sweep_frame | | done]. cbn beta.
      intros _ s' [Hsh' Hfr']. split; [by eapply shrunk_trans|].
      rewrite Hfr'; [exact Hlive | | by eapply apart_shrunk].
      intros ->. by apply (Hz x). }
  - cbn [app]. intros _ s' [_ Hfin]. rewrite Hfin.
    rewrite drop_all. by rewrite app_nil_r.
  - done.
Qed.

(** ** The final document of a build *)

Lemma build_Ok files fuel o sheet from rootStyles s :
  build files fuel o sheet from empty_st = Ok rootStyles s ->
  rootStyles = 0
  /\ exists s1 shared s2,
       discovery files fuel o sheet from = Ok tt s1
       /\ inject_all fuel o 0 (orderedImports s1) [] s1 = Ok shared s2
       /\ is_Some (heap s2 !! 0)
       /\ removeAllImports fuel 0
            (with_nodes 0 (shared ++ children (heap s2) 0) s2) = Ok tt s.
Proof.
  unfold build. intros (rs & s0 & Ha & H)%bind_Ok_inv.
  assert (Hrs : rs = 0).
  { unfold alloc_tree in Ha. apply bind_Ok_inv in Ha as (sx & sy & Hg & Ha).
    injection Hg as <- <-. destruct (alloc _ _ _ _) as [h n].
    apply bind_Ok_inv in Ha as ([] & sz & _ & Ha). by injection Ha as <- _. }
  subst rs.
  apply bind_Ok_inv in H as ([] & s3 & Hexit & Hret).
  injection Hret as <- <-. split; [reflexivity|].
  unfold OnceExit in Hexit.
  apply bind_Ok_inv in Hexit as ([] & s1 & Hfind & Hexit).
  cbv beta iota in Hexit.
  apply bind_Ok_inv in Hexit as (s1' & s1'' & Hget & Hexit).
  injection Hget as <- <-.
  apply bind_Ok_inv in Hexit as (shared & s2 & Hall & Hexit).
  apply bind_Ok_inv in Hexit as (ids & s2' & Hids & Hexit).
  pose proof (nodes_of_children _ _ _ _ Hids) as Hch.
  apply nodes_of_Ok in Hids as (-> & n & Hn & Hk).
  apply bind_Ok_inv in Hexit as ([] & s2'' & Hset & Hsweep).
  erewrite set_nodes_Some in Hset by exact Hn. injection Hset as <-.
  rewrite splice_prepend in Hsweep.
  exists s1, shared, s2. split.
  { unfold discovery. erewrite bind_Ok by exact Ha. exact Hfind. }
  split; [exact Hall|]. split; [eauto|]. by rewrite Hch.
Qed.

Lemma wp_Ok {S A} (c : M S A) Q E s a s' :
  wp c Q E s -> c s = Ok a s' -> Q a s'.
Proof. unfold wp. intros H Hrun. by rewrite Hrun in H. Qed.

Section Built.

Variable files : string -> option tree.
Variable O : options.
Variable rank : string -> nat.
Variable sheet : tree.
Variable from : string.

Hypothesis no_cycle : acyclic files O rank.
Hypothesis same_resolve : uniform O.
Hypothesis entry_above : below O rank (rank from) from (imports_under sheet).

(** After the discovery no root is in an array. *)
Lemma discovered_roots_apart fuel s1 :
  discovery files fuel O sheet from = Ok tt s1 ->
  forall j i, i ∈ children (heap s1) j -> i ∉ root_objects 0 s1.
Proof.
  intros Hd j i Hin.
  destruct (discovery_refs files O rank sheet from no_cycle same_resolve
              entry_above fuel s1 Hd)
    as ((_ & _ & _ & _ & _ & _ & Hranked) & _ & _ & Hp0 & _).
  destruct Hranked as (_ & _ & Harr & Hroots).
  destruct (Harr j i Hin) as (_ & _ & Hp).
  intros [->|Hr]%elem_of_cons; [congruence|].
  apply list_elem_of_fmap in Hr as (rec & -> & Hrec).
  apply list_elem_of_lookup in Hrec as [r Hrec].
  destruct (Hroots r rec Hrec) as [_ Hp']. congruence.
Qed.

(** The state a build ends in, in terms of the state after its
    discovery. *)
Lemma built_state fuel rootStyles s :
  build files fuel O sheet from empty_st = Ok rootStyles s ->
  rootStyles = 0
  /\ exists s1 segs authored,
       discovery files fuel O sheet from = Ok tt s1
       /\ registry s = registry s1
       /\ (forall j, kind_at (heap s) j = kind_at (heap s1) j)
       /\ children (heap s) 0
          = filter (fun i => import_at (heap s1) i = false)
                   (concat segs ++ authored)
       /\ Forall2 (fun r seg => exists rec, records s1 !! r = Some rec
                                            /\ pushes s1 rec seg)
                  (orderedImports s1) segs
       /\ authored `sublist_of` children (heap s1) 0
       /\ (forall i, i ∈ children (heap s1) 0 -> i ∉ authored ->
                     plain_comment (heap s1) i = true)
       /\ (forall j i, i ∈ children (heap s) j -> i ∉ root_objects 0 s1)
       /\ (forall j i, j <> 0 -> i ∈ children (heap s) j ->
             i ∈ children (heap s1) j
             \/ ((j ∉ root_objects 0 s1)
                 /\ exists r rec,
                      records s1 !! r = Some rec
                      /\ isGloballyImported rec = false
                      /\ i ∈ children (heap s1) (root rec))).
Proof.
  intros (-> & s1 & shared & s2 & Hd & Hall & [n0 Hn0] & Hsweep)%build_Ok.
  split; [reflexivity|].
  pose proof (discovered_roots_apart fuel s1 Hd) as Hm1.
  destruct (discovery_refs files O rank sheet from no_cycle same_resolve
              entry_above fuel s1 Hd)
    as ((Hc1 & _) & _).
  destruct Hc1 as (_ & _ & Hord & _).
  assert (Hord' : orderedImports s1 = seq 0 (length (records s1))).
  { rewrite Hord. unfold paths. by rewrite length_map. }
  destruct (inject_all_contributions fuel O 0 (records s1)
              (orderedImports s1) [] s1 shared s2 eq_refl)
    as (segs & Hcontr & ->).
  { rewrite Hord'. apply Forall_forall. intros r Hr'.
    apply elem_of_seq in Hr'. apply lookup_lt_is_Some. lia. }
  { exact Hall. }
  apply contributions_turns in Hcontr; [|reflexivity].
  destruct (injecting_turns 0 s1 O _ _ _ _ Hcontr (injecting_refl 0 s1 Hm1))
    as [Hinv2 Hpushes].
  cbn [app] in Hsweep.
  set (s3 := with_nodes 0 (concat segs ++ children (heap s2) 0) s2) in *.
  destruct Hinv2 as (Hreg2 & Hk2 & Ht2 & Hm2 & Hp2).
  assert (Hc3 : forall j, children (heap s3) j
                          = if decide (0 = j)
                            then concat segs ++ children (heap s2) 0
                            else children (heap s2) j).
  { intros j. subst s3. rewrite children_with_nodes. by rewrite Hn0. }
  assert (Hsegs : forall i, i ∈ concat segs ->
            exists r rec, records s1 !! r = Some rec
                          /\ i ∈ children (heap s1) (root rec)).
  { intros i Hi. apply list_elem_of_In, in_concat in Hi as (seg & Hseg & Hi).
    apply list_elem_of_In in Hi.
    apply list_elem_of_In, list_elem_of_lookup in Hseg as [k Hseg].
    destruct (Forall2_lookup_r _ _ _ _ _ Hpushes Hseg)
      as (r & _ & rec & Hrec & Hp).
    exists r, rec. split; [exact Hrec|]. unfold pushes in Hp.
    destruct (isGloballyImported rec).
    - destruct Hp as [Hsub _]. by eapply elem_of_sublist.
    - subst seg. inversion Hi. }
  assert (Hm3 : forall j i, i ∈ children (heap s3) j ->
                            i ∉ root_objects 0 s1).
  { intros j i. rewrite Hc3. destruct (decide (0 = j)) as [<-|_];
      [|apply Hm2].
    intros [Hi|Hi]%elem_of_app; [|by eapply Hm2].
    destruct (Hsegs i Hi) as (r & rec & _ & Hin). by eapply Hm1. }
  assert (Hapart : apart (heap s3) 0).
  { intros k Hin. apply (Hm3 k 0 Hin). left. }
  pose proof (wp_Ok _ _ _ _ _ _
                (wp_conj _ _ _ _ _ _ (sweep_root fuel 0 s3 Hapart)
                         (sweep_frame fuel 0 s3)) Hsweep)
    as [Hroot [(Hreg & Hk & Hc) _]].
  assert (Hk3 : forall j, kind_at (heap s3) j = kind_at (heap s1) j).
  { intros j. subst s3. by rewrite kind_at_with_nodes. }
  exists s1, segs, (children (heap s2) 0).
  split; [exact Hd|]. split.
  { rewrite Hreg. subst s3. by rewrite registry_with_nodes. }
  split; [intros j; by rewrite Hk|]. split.
  { rewrite Hroot, Hc3. cbn [decide_rel].
    rewrite decide_True by done. apply list_filter_iff.
    intros i. by rewrite (import_at_kind _ _ _ (Hk3 i)). }
  split; [exact Hpushes|].
  destruct (Ht2 0 ltac:(left)) as [Hsub Hlost].
  split; [exact Hsub|]. split; [exact Hlost|]. split.
  - intros j i Hi. by eapply Hm3, Hc.
  - intros j i Hj Hi. apply Hc in Hi. rewrite Hc3 in Hi.
    rewrite decide_False in Hi by done. by apply Hp2.
Qed.

End Built.

Lemma NoDup_starts m (ts : list tree) : NoDup (starts m ts).
Proof.
  revert m. induction ts as [|t ts IH]; intros m; cbn [starts].
  - apply NoDup_nil_2.
  - apply NoDup_cons. split; [|apply IH].
    intros Hin%starts_bounds. pose proof (size_pos t). lia.
Qed.

Lemma laid_children h rt t :
  laid h rt t -> children h rt = starts (S rt) (top_level t).
Proof.
  intros Hl. inversion Hl as [n d par Hn|n d par kids Hn Hkids]; subst;
    unfold children; by rewrite Hn.
Qed.

(** The top of a parsed file, after changes that keep the nodes but for
    white space. *)
Lemma copy_from_laid h1 h rt t seg :
  laid h1 rt t ->
  (forall j, kind_at h j = kind_at h1 j) ->
  seg `sublist_of` children h1 rt ->
  (forall i, i ∈ children h1 rt -> i ∉ seg -> plain_comment h1 i = true) ->
  copy_of_top h rt t seg.
Proof.
  intros Hl Hk Hsub Hlost. rewrite (laid_children _ _ _ Hl) in Hsub, Hlost.
  split; [exact Hsub|]. split.
  - intros i Hi Hni. rewrite (plain_comment_kind h1 h i (Hk i)). by apply Hlost.
  - intros k i t' Hi Ht'. rewrite Hk.
    inversion Hl as [n d par Hn|n d par kids Hn Hkids]; subst;
      [by destruct k|].
    cbn [top_level] in Hi, Ht'.
    pose proof (Forall2_lookup_lr _ _ _ _ _ _ Hkids Hi Ht') as Hli.
    apply laid_data in Hli as (nd & Hnd & Hdata & _).
    unfold kind_at. by rewrite Hnd, <- Hdata.
Qed.

(** What the records pushed, record by record, for the records that are
    globally imported. *)
Lemma pushes_globals s1 (recs : list importOpts) (segs : list (list nat)) :
  Forall2 (fun r seg => exists rec, recs !! r = Some rec
                                    /\ pushes s1 rec seg)
          (seq 0 (length recs)) segs ->
  exists segs',
    concat segs' = concat segs
    /\ Forall2 (fun rec seg =>
                  seg `sublist_of` children (heap s1) (root rec)
                  /\ forall i, i ∈ children (heap s1) (root rec) ->
                               i ∉ seg -> plain_comment (heap s1) i = true)
               (filter (fun rec => isGloballyImported rec = true) recs)
               segs'.
Proof.
  intros Hall.
  assert (Hrecs : Forall2 (pushes s1) recs segs).
  { apply Forall2_same_length_lookup_2.
    - apply Forall2_length in Hall. by rewrite length_seq in Hall.
    - intros i rec seg Hrec Hseg.
      assert (Hi : seq 0 (length recs) !! i = Some i).
      { apply lookup_seq. split; [done|]. by eapply lookup_lt_Some. }
      destruct (Forall2_lookup_lr _ _ _ _ _ _ Hall Hi Hseg)
        as (rec' & Hrec' & Hp).
      by assert (rec' = rec) as -> by congruence. }
  clear Hall. induction Hrecs as [|rec seg recs segs Hp _ IH].
  - exists []. split; [reflexivity | constructor].
  - destruct IH as (segs' & Hcat & Hall). unfold pushes in Hp.
    rewrite filter_cons. destruct (isGloballyImported rec) eqn:Hg.
    + rewrite decide_True by done. exists (seg :: segs'). split.
      * cbn [concat]. by rewrite Hcat.
      * by constructor.
    + rewrite decide_False by done. subst seg. exists segs'.
      split; [exact Hcat | exact Hall].
Qed.

(** Arrays of objects with their owners: when the owners differ, so do
    the objects. *)
Lemma NoDup_concat_owned (h : gmap nat node) (owners : list nat)
    (segs : list (list nat)) :
  NoDup owners ->
  Forall2 (fun rt seg => NoDup seg
                         /\ forall i, i ∈ seg -> parent_of h i = Some rt)
          owners segs ->
  NoDup (concat segs).
Proof.
  intros Hnd Hall. induction Hall as [|rt seg owners segs [Hseg Hown] Hall IH].
  - apply NoDup_nil_2.
  - apply NoDup_cons in Hnd as [Hrt Hnd]. cbn [concat].
    apply NoDup_app. split; [exact Hseg|]. split; [|by apply IH].
    intros i Hi Hin.
      apply list_elem_of_In, in_concat in Hin as (seg' & Hs & Hin).
    apply list_elem_of_In in Hin.
    apply list_elem_of_In, list_elem_of_lookup in Hs as [k Hs].
    destruct (Forall2_lookup_r _ _ _ _ _ Hall Hs) as (rt' & Hrt' & _ & Hown').
    apply Hown in Hi. apply Hown' in Hin.
    assert (rt' = rt) as -> by congruence.
    apply Hrt. by eapply list_elem_of_lookup_2.
Qed.

Section Document.

Variable files : string -> option tree.
Variable O : options.
Variable rank : string -> nat.
Variable sheet : tree.
Variable from : string.

Hypothesis no_cycle : acyclic files O rank.
Hypothesis same_resolve : uniform O.
Hypothesis entry_above : below O rank (rank from) from (imports_under sheet).

(** When the discovery is over, every reference in every sheet of the
    build has been seen. *)
Lemma sources_covered fuel s1 :
  discovery files fuel O sheet from = Ok tt s1 ->
  forall q t, source files O sheet from q t -> covered O q t s1.
Proof.
  intros Hd.
  destruct (discovery_refs files O rank sheet from no_cycle same_resolve
              entry_above fuel s1 Hd)
    as ((Hc & _ & _ & _ & _ & Hclosed & _) & Hcov & _).
  intros q t Hsrc. induction Hsrc as [|q t d t' _ IH Hd' Ht']; [exact Hcov|].
  destruct (IH d Hd') as (r & rec & Hr & Hrec & _).
  destruct Hc as (_ & _ & _ & Hmap & _).
  apply Hmap in Hr. unfold paths in Hr. rewrite list_lookup_fmap, Hrec in Hr.
  injection Hr as Hr. rewrite <- Hr in Ht' |- *.
  apply (Hclosed r rec t' Hrec); [inversion 1 | exact Ht'].
Qed.

(** The records and the references: a record is globally imported when its
    file has a reference at the top level, and its inclusion rules are the
    tags of the references to its file. *)
Lemma references_registered fuel s1 :
  discovery files fuel O sheet from = Ok tt s1 ->
  (forall p, top_level_reference files O sheet from p
             <-> exists rec, rec ∈ records s1 /\ fullpath rec = p
                             /\ isGloballyImported rec = true)
  /\ (forall p tag, scoped_reference files O sheet from p tag
                    <-> exists rec, rec ∈ records s1 /\ fullpath rec = p
                                    /\ tag ∈ inclusionRules rec).
Proof.
  intros Hd. pose proof (sources_covered fuel s1 Hd) as Hcov.
  destruct (discovery_refs files O rank sheet from no_cycle same_resolve
              entry_above fuel s1 Hd)
    as ((Hc & _ & Hsound & _) & _).
  destruct Hc as (_ & _ & _ & Hmap & _).
  assert (Hseen : forall q t d,
            source files O sheet from q t -> d ∈ import_nodes_under t ->
            exists rec, rec ∈ records s1 /\ fullpath rec = target O q d
              /\ (truthy (fromInclusionRule d) = false ->
                  isGloballyImported rec = true)
              /\ (forall tag, fromInclusionRule d = Some tag ->
                              truthy (Some tag) = true ->
                              tag ∈ inclusionRules rec)).
  { intros q t d Hsrc Hin.
    destruct (Hcov q t Hsrc d Hin) as (r & rec & Hr & Hrec & Hg & Ht).
    exists rec. split; [by eapply list_elem_of_lookup_2|].
    apply Hmap in Hr. unfold paths in Hr.
    rewrite list_lookup_fmap, Hrec in Hr. injection Hr as Hr. auto. }
  split.
  - intros p. split.
    + intros (d & (q & t & Hsrc & Hin & <-) & Htop).
      destruct (Hseen q t d Hsrc Hin) as (rec & Hrec & Hp & Hg & _).
      exists rec. auto.
    + intros (rec & [r Hrec]%list_elem_of_lookup & <- & Hg).
      destruct (Hsound r rec Hrec) as (_ & _ & Htop & _). by apply Htop.
  - intros p tag. split.
    + intros (d & (q & t & Hsrc & Hin & <-) & Htag & Htruthy).
      destruct (Hseen q t d Hsrc Hin) as (rec & Hrec & Hp & _ & Ht).
      exists rec. auto.
    + intros (rec & [r Hrec]%list_elem_of_lookup & <- & Htag).
      destruct (Hsound r rec Hrec) as (_ & _ & _ & Hsc). by apply Hsc.
Qed.

(** The document that a build leaves and the files of the build. *)
Lemma built_document fuel rootStyles s :
  build files fuel O sheet from empty_st = Ok rootStyles s ->
  exists s1,
    discovery files fuel O sheet from = Ok tt s1
    /\ rootStyles = 0
    /\ registry s = registry s1
    /\ (forall j, kind_at (heap s) j = kind_at (heap s1) j)
    /\ (forall j i, i ∈ children (heap s) j -> i ∉ root_objects 0 s1)
    /\ (forall j i, j <> 0 -> i ∈ children (heap s) j ->
          i ∈ children (heap s1) j
          \/ ((j ∉ root_objects 0 s1)
              /\ exists r rec,
                   records s1 !! r = Some rec
                   /\ isGloballyImported rec = false
                   /\ i ∈ children (heap s1) (root rec)))
    /\ exists segs authored,
         children (heap s) 0
         = filter (fun i => import_at (heap s) i = false)
                  (concat segs ++ authored)
         /\ NoDup (concat segs ++ authored)
         /\ Forall2 (fun rec seg =>
                       (seg `sublist_of` children (heap s1) (root rec))
                       /\ exists t, files (fullpath rec) = Some t
                            /\ copy_of_top (heap s) (root rec) t seg)
              (filter (fun rec => isGloballyImported rec = true)
                      (records s1)) segs
         /\ copy_of_top (heap s) 0 sheet authored.
Proof.
  intros (-> & s1 & segs & authored & Hd & Hreg & Hk & Hroot & Hpushes
          & Hsub & Hlost & Hm & Hp)%(built_state files O rank sheet from
                                       no_cycle same_resolve entry_above).
  destruct (discovery_refs files O rank sheet from no_cycle same_resolve
              entry_above fuel s1 Hd)
    as ((Hc & _ & _ & Hparsed & Hnd & _ & Hranked) & _ & Hlaid & Hp0
        & Hroots & _).
  destruct Hranked as (_ & _ & Harr & Hrts).
  destruct Hc as (_ & _ & Hord & _).
  assert (Hord' : orderedImports s1 = seq 0 (length (records s1))).
  { rewrite Hord. unfold paths. by rewrite length_map. }
  rewrite Hord' in Hpushes.
  apply pushes_globals in Hpushes as (segs' & Hcat & Hall).
  assert (Hall' : Forall2 (fun rec seg =>
                    (seg `sublist_of` children (heap s1) (root rec))
                    /\ NoDup (children (heap s1) (root rec))
                    /\ exists t, files (fullpath rec) = Some t
                         /\ copy_of_top (heap s) (root rec) t seg)
            (filter (fun rec => isGloballyImported rec = true) (records s1))
            segs').
  { apply Forall2_same_length_lookup_2; [by eapply Forall2_length|].
    intros i rec seg Hrec Hseg.
    destruct (Forall2_lookup_lr _ _ _ _ _ _ Hall Hrec Hseg) as [Hs Hl].
    apply list_elem_of_lookup_2, list_elem_of_filter in Hrec as [_ Hrec].
    apply list_elem_of_lookup in Hrec as [r Hrec].
    destruct (Hparsed r rec Hrec) as (t & Ht & Hlt & _).
    split; [exact Hs|]. split.
    - rewrite (laid_children _ _ _ Hlt). apply NoDup_starts.
    - exists t. split; [exact Ht|]. by eapply copy_from_laid. }
  exists s1. split; [exact Hd|]. split; [reflexivity|].
  split; [exact Hreg|]. split; [exact Hk|]. split; [exact Hm|].
  split; [exact Hp|]. exists segs', authored. rewrite Hcat. split.
  { rewrite Hroot. apply list_filter_iff. intros i.
    by rewrite (import_at_kind _ _ _ (Hk i)). }
  split; [|split].
  - rewrite <- Hcat.
    replace (concat segs' ++ authored) with (concat (segs' ++ [authored]))
      by (rewrite concat_app; cbn; by rewrite app_nil_r).
    apply (NoDup_concat_owned (heap s1)
             (map root (filter (fun rec => isGloballyImported rec = true)
                               (records s1)) ++ [0])).
    + apply NoDup_app. split; [|split].
      * eapply sublist_NoDup; [exact Hnd|].
        apply fmap_sublist, sublist_filter.
      * intros rt Hrt ->%list_elem_of_singleton.
        apply list_elem_of_fmap in Hrt as (rec & Hrt & Hrec).
        apply list_elem_of_filter in Hrec as [_ Hrec].
        apply list_elem_of_lookup in Hrec as [r Hrec].
        pose proof (Hroots r rec Hrec). pose proof (size_pos sheet). lia.
      * apply NoDup_singleton.
    + apply Forall2_app.
      * apply Forall2_fmap_l. eapply Forall2_impl; [exact Hall'|].
        cbn. intros rec seg (Hs & Hnds & _). split.
        -- eapply sublist_NoDup; [exact Hnds | exact Hs].
        -- intros i Hi. eapply Harr, elem_of_sublist; [exact Hi | exact Hs].
      * constructor; [|constructor]. split.
        -- eapply sublist_NoDup; [|exact Hsub].
           rewrite (laid_children _ _ _ Hlaid). apply NoDup_starts.
        -- intros i Hi. eapply Harr, elem_of_sublist; [exact Hi | exact Hsub].
  - eapply Forall2_impl; [exact Hall'|]. cbn. intros rec seg (? & _ & ?). auto.
  - by eapply copy_from_laid.
Qed.

End Document.

(** C4, for graphs without cycles. When a build on such a graph ends well,
    the files with a reference at the top level are the files of the
    records that are globally imported, one record each; the children of
    the root of the final document are, in this order, one copy of the
    top-level nodes of each of these files, in the order of their records
    in the Ordered Import List, and then the nodes that the sheet has itself
    at the top level, all without their Import Nodes; no object is there
    twice. *)
Theorem global_imports_are_prepended_in_order files O rank fuel sheet from
    rootStyles s :
  acyclic files O rank ->
  uniform O ->
  below O rank (rank from) from (imports_under sheet) ->
  build files fuel O sheet from empty_st = Ok rootStyles s ->
  exists globals segs authored,
    globals = filter (fun rec => isGloballyImported rec = true) (records s)
    /\ orderedImports s = seq 0 (length (records s))
    /\ (forall p, top_level_reference files O sheet from p
                  <-> p ∈ map fullpath globals)
    /\ NoDup (map fullpath globals)
    /\ Forall2 (fun rec seg =>
                  exists t, files (fullpath rec) = Some t
                            /\ copy_of_top (heap s) (root rec) t seg)
               globals segs
    /\ copy_of_top (heap s) rootStyles sheet authored
    /\ NoDup (concat segs ++ authored)
    /\ children (heap s) rootStyles
       = filter (fun i => import_at (heap s) i = false)
                (concat segs ++ authored).
Proof.
  intros Hacyclic Huniform Hroot Hbuild.
  destruct (built_document files O rank sheet from Hacyclic Huniform Hroot
              fuel rootStyles s Hbuild)
    as (s1 & Hd & -> & Hreg & _ & _ & _ & segs & authored & Hkids & Hnd
        & Hall & Hauth).
  destruct (discovery_refs files O rank sheet from Hacyclic Huniform Hroot
              fuel s1 Hd) as (((_ & Hpaths & Hord & _) & _) & _).
  destruct (references_registered files O rank sheet from Hacyclic Huniform
              Hroot fuel s1 Hd) as [Htop _].
  unfold registry in Hreg. injection Hreg as _ Hrecs _ Hoi.
  exists (filter (fun rec => isGloballyImported rec = true) (records s)),
         segs, authored.
  rewrite Hrecs, Hoi. split; [reflexivity|]. split.
  { rewrite Hord. unfold paths. by rewrite length_map. }
  split; [|split; [|split; [|split; [exact Hauth|split;
                                     [exact Hnd | exact Hkids]]]]].
  - intros p. rewrite Htop. split.
    + intros (rec & Hrec & <- & Hg). apply list_elem_of_fmap.
      exists rec. split; [reflexivity|]. by apply list_elem_of_filter.
    + intros (rec & -> & [Hg Hrec]%list_elem_of_filter)%list_elem_of_fmap.
      by exists rec.
  - eapply sublist_NoDup; [exact Hpaths|].
    apply fmap_sublist, sublist_filter.
  - eapply Forall2_impl; [exact Hall|]. cbn. by intros rec seg [_ ?].
Qed.


Lemma nested_options_uniform : uniform nested_options.
Proof.
  intros o f b Ho. cbn in Ho. apply list_elem_of_In in Ho. cbn in Ho.
  destruct Ho as [<-|[<-|[]]]; reflexivity.
Qed.

Lemma scoped_then_global_below :
  below nested_options diamond_rank (diamond_rank "/src/main.less")
        "/src/main.less" (imports_under sheet_scoped_then_global).
Proof.
  intros o f Ho Hin. cbn in Ho. apply list_elem_of_In in Ho. cbn in Ho.
  apply list_elem_of_In in Hin. cbn in Hin.
  destruct Ho as [<-|[<-|[]]];
    repeat (destruct Hin as [<-|Hin]; [vm_compute; lia|]);
    destruct Hin.
Qed.

Lemma global_imports_are_prepended_in_order_witness :
  build diamond_files 6 nested_options sheet_scoped_then_global
        "/src/main.less" empty_st
  = Ok 0 (final_state diamond_files 6 nested_options sheet_scoped_then_global
            "/src/main.less")
  /\ exists globals segs authored,
       globals
       = filter (fun rec => isGloballyImported rec = true)
           (records (final_state diamond_files 6 nested_options
                       sheet_scoped_then_global "/src/main.less"))
       /\ orderedImports (final_state diamond_files 6 nested_options
                            sheet_scoped_then_global "/src/main.less")
          = seq 0 (length (records (final_state diamond_files 6 nested_options
                                      sheet_scoped_then_global
                                      "/src/main.less")))
       /\ (forall p, top_level_reference diamond_files nested_options
                       sheet_scoped_then_global "/src/main.less" p
                     <-> p ∈ map fullpath globals)
       /\ NoDup (map fullpath globals)
       /\ Forall2 (fun rec seg =>
                     exists t, diamond_files (fullpath rec) = Some t
                       /\ copy_of_top
                            (heap (final_state diamond_files 6 nested_options
                                     sheet_scoped_then_global
                                     "/src/main.less"))
                            (root rec) t seg)
                  globals segs
       /\ copy_of_top
            (heap (final_state diamond_files 6 nested_options
                     sheet_scoped_then_global "/src/main.less"))
            0 sheet_scoped_then_global authored
       /\ NoDup (concat segs ++ authored)
       /\ children (heap (final_state diamond_files 6 nested_options
                            sheet_scoped_then_global "/src/main.less")) 0
          = filter (fun i =>
                      import_at (heap (final_state diamond_files 6
                                         nested_options
                                         sheet_scoped_then_global
                                         "/src/main.less")) i = false)
                   (concat segs ++ authored).
Proof.
  assert (Hb : build diamond_files 6 nested_options sheet_scoped_then_global
                 "/src/main.less" empty_st
               = Ok 0 (final_state diamond_files 6 nested_options
                         sheet_scoped_then_global "/src/main.less")).
  { vm_compute. reflexivity. }
  split; [exact Hb|].
  exact (global_imports_are_prepended_in_order diamond_files nested_options
           diamond_rank 6 sheet_scoped_then_global "/src/main.less" 0 _
           diamond_acyclic nested_options_uniform scoped_then_global_below Hb).
Defined.



(** Why C6 speaks of graphs without cycles: under the nested configuration
    a file that imports itself inside its own inclusion rule, and that the
    sheet imports at the top level, gets two records; the one that is not
    globally imported is spliced into the rule of the other, so that the
    content is at the top and inside the rule. *)
Lemma self_import_is_scoped_and_prepended :
  exists doc s,
    output self_scoping 6 nested_options sheet_imports_a "/src/main.less"
    = Ok (Some doc) s
    /\ map (fun r => (fullpath r, isGloballyImported r, inclusionRules r))
           (records s)
       = [("/src/a.less", false, ["foo"]); ("/src/a.less", true, ["foo"])]
    /\ outline doc = "{.foo{.foo{}.a{color: red;}}.a{color: red;}.main{}}".
Proof.
  eexists _, _. split; [vm_compute; reflexivity|]. split; reflexivity.
Qed.
